(** * zhuxiantranslate: a shallow embedding of the localisation pipeline

    The development follows the Python sources:
    - [2_normalize_files.py]: the two hashes of the identity model;
    - [3_translate_unified_json.py]: the translation resolver and the
      rule engine;
    - [4_generate_translations.py]: the binary resource encoder and the
      line-breaking transform.

    A Python [str] is a sequence of Unicode code points: here a [list Z].
    A Python [int] is a [Z]; a [dict] whose iteration order is observed
    is an association list, one that is only looked up is a [gmap]. *)

From Stdlib Require Import ZArith List Lia Bool Ascii String.
From stdpp Require Import base option list gmap sorting.

Local Open Scope Z_scope.

(** ** Python strings *)

Abbreviation pystr := (list Z).

Module Py.

(** ASCII literals of the sources, as code points. *)
Fixpoint lit (s : string) : pystr :=
  match s with
  | EmptyString => []
  | String a s' => Z.of_N (N_of_ascii a) :: lit s'
  end.

Definition len {A} (s : list A) : Z := Z.of_nat (length s).

(** [s[lo:hi]] with Python's treatment of negative and overlong bounds. *)
Definition norm_index (n i : Z) : Z :=
  if i <? 0 then Z.max 0 (i + n) else Z.min i n.

Definition slice {A} (s : list A) (lo hi : Z) : list A :=
  let l := norm_index (len s) lo in
  let h := norm_index (len s) hi in
  take (Z.to_nat (h - l)) (drop (Z.to_nat l) s).

(** [s[lo:]] *)
Definition slice_from {A} (s : list A) (lo : Z) : list A :=
  drop (Z.to_nat (norm_index (len s) lo)) s.

(** [l[lo:hi] = new] and [del l[lo:hi]]: a stop before the start is read
    as the start. *)
Definition slice_assign {A} (l : list A) (lo hi : Z) (new : list A) : list A :=
  let a := norm_index (len l) lo in
  let b := Z.max a (norm_index (len l) hi) in
  take (Z.to_nat a) l ++ new ++ drop (Z.to_nat b) l.

Definition slice_del {A} (l : list A) (lo hi : Z) : list A :=
  slice_assign l lo hi [].

(** [s.startswith(p)] *)
Fixpoint startswith (p s : pystr) : bool :=
  match p, s with
  | [], _ => true
  | _ :: _, [] => false
  | a :: p', b :: s' => bool_decide (a = b) && startswith p' s'
  end.

(** [sub in s] *)
Fixpoint contains (sub s : pystr) : bool :=
  startswith sub s ||
  match s with
  | [] => false
  | _ :: s' => contains sub s'
  end.

(** [sep.join(parts)] *)
Fixpoint join (sep : pystr) (parts : list pystr) : pystr :=
  match parts with
  | [] => []
  | [p] => p
  | p :: ps => p ++ sep ++ join sep ps
  end.

(** [s.split(c)] for a one-character separator. *)
Fixpoint split_on (c : Z) (s : pystr) : list pystr :=
  match s with
  | [] => [[]]
  | a :: s' =>
      if bool_decide (a = c) then [] :: split_on c s'
      else match split_on c s' with
           | p :: ps => (a :: p) :: ps
           | [] => [[a]]
           end
  end.

(** Index of the last occurrence of [c] in [s], if any. *)
Fixpoint last_index (c : Z) (s : pystr) : option nat :=
  match s with
  | [] => None
  | a :: s' =>
      match last_index c s' with
      | Some j => Some (S j)
      | None => if bool_decide (a = c) then Some O else None
      end
  end.

(** [s.rfind(c, lo, hi)] for a one-character needle. *)
Definition rfind_char (c : Z) (s : pystr) (lo hi : Z) : Z :=
  match last_index c (slice s lo hi) with
  | Some j => norm_index (len s) lo + Z.of_nat j
  | None => -1
  end.

(** [s.replace(old, new)]: non-overlapping occurrences of a non-empty
    [old], left to right.  The fuel is the length of the text; every
    step consumes at least one character. *)
Fixpoint replace_fuel (fuel : nat) (old new s : pystr) : pystr :=
  match fuel with
  | O => s
  | S fuel' =>
      match s with
      | [] => []
      | a :: s' =>
          if startswith old s
          then new ++ replace_fuel fuel' old new (drop (length old) s)
          else a :: replace_fuel fuel' old new s'
      end
  end.

Definition replace (old new s : pystr) : pystr :=
  replace_fuel (length s) old new s.

End Py.

(** ** Python exceptions and builtin codecs *)

Inductive exn : Type :=
| ImportError
| TypeError
| UnicodeEncodeError
| StructError
| KeyError.

Inductive pyresult (A : Type) : Type :=
| Ok (a : A)
| Raise (e : exn).
Arguments Ok {A} a.
Arguments Raise {A} e.

Definition bind {A B} (r : pyresult A) (k : A -> pyresult B) : pyresult B :=
  match r with
  | Ok a => k a
  | Raise e => Raise e
  end.

Notation "'let!' x ':=' r 'in' k" := (bind r (fun x => k))
  (at level 10, x name, r at level 100, k at level 200).

(** A [bytes] object: a list of integers in [0, 256). *)
Abbreviation bytes := (list Z).

Module Codec.

(** The two bytes of a 16-bit code unit, low byte first. *)
Definition unit_le (u : Z) : bytes := [Z.land u 255; Z.shiftr u 8].

(** [chr(c).encode('utf-16-le')]: one code unit for the basic plane, a
    surrogate pair above it; a lone surrogate cannot be encoded. *)
Definition encode_char (c : Z) : pyresult bytes :=
  if (c <? 0) || (1114111 <? c) then Raise UnicodeEncodeError
  else if (55296 <=? c) && (c <=? 57343) then Raise UnicodeEncodeError
  else if c <? 65536 then Ok (unit_le c)
  else
    let c' := c - 65536 in
    Ok (unit_le (55296 + Z.shiftr c' 10) ++ unit_le (56320 + Z.land c' 1023)).

(** A Unicode scalar value: a code point that is not a surrogate. *)
Definition encodable (c : Z) : bool :=
  (0 <=? c) && (c <=? 1114111) && negb ((55296 <=? c) && (c <=? 57343)).

(** [s.encode('utf-16-le')] *)
Fixpoint utf16le (s : pystr) : pyresult bytes :=
  match s with
  | [] => Ok []
  | c :: s' =>
      let! b := encode_char c in
      let! bs := utf16le s' in
      Ok (b ++ bs)
  end.

End Codec.

Definition SPACE : Z := 32.
Definition LF : Z := 10.
Definition CR : Z := 13.

(** Distinct character constants are told apart by their values. *)
Ltac chr_neq := unfold LF, CR, SPACE in *; first [discriminate | congruence | lia].


(** ** Character classes

    The classes of Python's [str] methods and of the [re] module on
    [str] patterns, as ranges of code points (Unicode 14.0): [\d] is the
    decimal digits, [\w] the alphanumeric characters and the underscore,
    and [str.strip] removes the characters of [str.isspace]. *)

Module Unicode.

Definition in_ranges (table : list (Z * Z)) (c : Z) : bool :=
  existsb (fun r => (r.1 <=? c) && (c <=? r.2)) table.

Definition decimal_ranges : list (Z * Z) :=
  [
   (48, 57); (1632, 1641); (1776, 1785); (1984, 1993); (2406, 2415); (2534, 2543);
   (2662, 2671); (2790, 2799); (2918, 2927); (3046, 3055); (3174, 3183); (3302, 3311);
   (3430, 3439); (3558, 3567); (3664, 3673); (3792, 3801); (3872, 3881); (4160, 4169);
   (4240, 4249); (6112, 6121); (6160, 6169); (6470, 6479); (6608, 6617); (6784, 6793);
   (6800, 6809); (6992, 7001); (7088, 7097); (7232, 7241); (7248, 7257); (42528, 42537);
   (43216, 43225); (43264, 43273); (43472, 43481); (43504, 43513); (43600, 43609); (44016, 44025);
   (65296, 65305); (66720, 66729); (68912, 68921); (69734, 69743); (69872, 69881); (69942, 69951);
   (70096, 70105); (70384, 70393); (70736, 70745); (70864, 70873); (71248, 71257); (71360, 71369);
   (71472, 71481); (71904, 71913); (72016, 72025); (72784, 72793); (73040, 73049); (73120, 73129);
   (92768, 92777); (92864, 92873); (93008, 93017); (120782, 120831); (123200, 123209); (123632, 123641);
   (125264, 125273); (130032, 130041) ].

Definition space_ranges : list (Z * Z) :=
  [
   (9, 13); (28, 32); (133, 133); (160, 160); (5760, 5760); (8192, 8202);
   (8232, 8233); (8239, 8239); (8287, 8287); (12288, 12288) ].

Definition word_ranges : list (Z * Z) :=
  [
   (48, 57); (65, 90); (95, 95); (97, 122); (170, 170); (178, 179);
   (181, 181); (185, 186); (188, 190); (192, 214); (216, 246); (248, 705);
   (710, 721); (736, 740); (748, 748); (750, 750); (880, 884); (886, 887);
   (890, 893); (895, 895); (902, 902); (904, 906); (908, 908); (910, 929);
   (931, 1013); (1015, 1153); (1162, 1327); (1329, 1366); (1369, 1369); (1376, 1416);
   (1488, 1514); (1519, 1522); (1568, 1610); (1632, 1641); (1646, 1647); (1649, 1747);
   (1749, 1749); (1765, 1766); (1774, 1788); (1791, 1791); (1808, 1808); (1810, 1839);
   (1869, 1957); (1969, 1969); (1984, 2026); (2036, 2037); (2042, 2042); (2048, 2069);
   (2074, 2074); (2084, 2084); (2088, 2088); (2112, 2136); (2144, 2154); (2160, 2183);
   (2185, 2190); (2208, 2249); (2308, 2361); (2365, 2365); (2384, 2384); (2392, 2401);
   (2406, 2415); (2417, 2432); (2437, 2444); (2447, 2448); (2451, 2472); (2474, 2480);
   (2482, 2482); (2486, 2489); (2493, 2493); (2510, 2510); (2524, 2525); (2527, 2529);
   (2534, 2545); (2548, 2553); (2556, 2556); (2565, 2570); (2575, 2576); (2579, 2600);
   (2602, 2608); (2610, 2611); (2613, 2614); (2616, 2617); (2649, 2652); (2654, 2654);
   (2662, 2671); (2674, 2676); (2693, 2701); (2703, 2705); (2707, 2728); (2730, 2736);
   (2738, 2739); (2741, 2745); (2749, 2749); (2768, 2768); (2784, 2785); (2790, 2799);
   (2809, 2809); (2821, 2828); (2831, 2832); (2835, 2856); (2858, 2864); (2866, 2867);
   (2869, 2873); (2877, 2877); (2908, 2909); (2911, 2913); (2918, 2927); (2929, 2935);
   (2947, 2947); (2949, 2954); (2958, 2960); (2962, 2965); (2969, 2970); (2972, 2972);
   (2974, 2975); (2979, 2980); (2984, 2986); (2990, 3001); (3024, 3024); (3046, 3058);
   (3077, 3084); (3086, 3088); (3090, 3112); (3114, 3129); (3133, 3133); (3160, 3162);
   (3165, 3165); (3168, 3169); (3174, 3183); (3192, 3198); (3200, 3200); (3205, 3212);
   (3214, 3216); (3218, 3240); (3242, 3251); (3253, 3257); (3261, 3261); (3293, 3294);
   (3296, 3297); (3302, 3311); (3313, 3314); (3332, 3340); (3342, 3344); (3346, 3386);
   (3389, 3389); (3406, 3406); (3412, 3414); (3416, 3425); (3430, 3448); (3450, 3455);
   (3461, 3478); (3482, 3505); (3507, 3515); (3517, 3517); (3520, 3526); (3558, 3567);
   (3585, 3632); (3634, 3635); (3648, 3654); (3664, 3673); (3713, 3714); (3716, 3716);
   (3718, 3722); (3724, 3747); (3749, 3749); (3751, 3760); (3762, 3763); (3773, 3773);
   (3776, 3780); (3782, 3782); (3792, 3801); (3804, 3807); (3840, 3840); (3872, 3891);
   (3904, 3911); (3913, 3948); (3976, 3980); (4096, 4138); (4159, 4169); (4176, 4181);
   (4186, 4189); (4193, 4193); (4197, 4198); (4206, 4208); (4213, 4225); (4238, 4238);
   (4240, 4249); (4256, 4293); (4295, 4295); (4301, 4301); (4304, 4346); (4348, 4680);
   (4682, 4685); (4688, 4694); (4696, 4696); (4698, 4701); (4704, 4744); (4746, 4749);
   (4752, 4784); (4786, 4789); (4792, 4798); (4800, 4800); (4802, 4805); (4808, 4822);
   (4824, 4880); (4882, 4885); (4888, 4954); (4969, 4988); (4992, 5007); (5024, 5109);
   (5112, 5117); (5121, 5740); (5743, 5759); (5761, 5786); (5792, 5866); (5870, 5880);
   (5888, 5905); (5919, 5937); (5952, 5969); (5984, 5996); (5998, 6000); (6016, 6067);
   (6103, 6103); (6108, 6108); (6112, 6121); (6128, 6137); (6160, 6169); (6176, 6264);
   (6272, 6276); (6279, 6312); (6314, 6314); (6320, 6389); (6400, 6430); (6470, 6509);
   (6512, 6516); (6528, 6571); (6576, 6601); (6608, 6618); (6656, 6678); (6688, 6740);
   (6784, 6793); (6800, 6809); (6823, 6823); (6917, 6963); (6981, 6988); (6992, 7001);
   (7043, 7072); (7086, 7141); (7168, 7203); (7232, 7241); (7245, 7293); (7296, 7304);
   (7312, 7354); (7357, 7359); (7401, 7404); (7406, 7411); (7413, 7414); (7418, 7418);
   (7424, 7615); (7680, 7957); (7960, 7965); (7968, 8005); (8008, 8013); (8016, 8023);
   (8025, 8025); (8027, 8027); (8029, 8029); (8031, 8061); (8064, 8116); (8118, 8124);
   (8126, 8126); (8130, 8132); (8134, 8140); (8144, 8147); (8150, 8155); (8160, 8172);
   (8178, 8180); (8182, 8188); (8304, 8305); (8308, 8313); (8319, 8329); (8336, 8348);
   (8450, 8450); (8455, 8455); (8458, 8467); (8469, 8469); (8473, 8477); (8484, 8484);
   (8486, 8486); (8488, 8488); (8490, 8493); (8495, 8505); (8508, 8511); (8517, 8521);
   (8526, 8526); (8528, 8585); (9312, 9371); (9450, 9471); (10102, 10131); (11264, 11492);
   (11499, 11502); (11506, 11507); (11517, 11517); (11520, 11557); (11559, 11559); (11565, 11565);
   (11568, 11623); (11631, 11631); (11648, 11670); (11680, 11686); (11688, 11694); (11696, 11702);
   (11704, 11710); (11712, 11718); (11720, 11726); (11728, 11734); (11736, 11742); (11823, 11823);
   (12293, 12295); (12321, 12329); (12337, 12341); (12344, 12348); (12353, 12438); (12445, 12447);
   (12449, 12538); (12540, 12543); (12549, 12591); (12593, 12686); (12690, 12693); (12704, 12735);
   (12784, 12799); (12832, 12841); (12872, 12879); (12881, 12895); (12928, 12937); (12977, 12991);
   (13312, 19903); (19968, 42124); (42192, 42237); (42240, 42508); (42512, 42539); (42560, 42606);
   (42623, 42653); (42656, 42735); (42775, 42783); (42786, 42888); (42891, 42954); (42960, 42961);
   (42963, 42963); (42965, 42969); (42994, 43009); (43011, 43013); (43015, 43018); (43020, 43042);
   (43056, 43061); (43072, 43123); (43138, 43187); (43216, 43225); (43250, 43255); (43259, 43259);
   (43261, 43262); (43264, 43301); (43312, 43334); (43360, 43388); (43396, 43442); (43471, 43481);
   (43488, 43492); (43494, 43518); (43520, 43560); (43584, 43586); (43588, 43595); (43600, 43609);
   (43616, 43638); (43642, 43642); (43646, 43695); (43697, 43697); (43701, 43702); (43705, 43709);
   (43712, 43712); (43714, 43714); (43739, 43741); (43744, 43754); (43762, 43764); (43777, 43782);
   (43785, 43790); (43793, 43798); (43808, 43814); (43816, 43822); (43824, 43866); (43868, 43881);
   (43888, 44002); (44016, 44025); (44032, 55203); (55216, 55238); (55243, 55291); (63744, 64109);
   (64112, 64217); (64256, 64262); (64275, 64279); (64285, 64285); (64287, 64296); (64298, 64310);
   (64312, 64316); (64318, 64318); (64320, 64321); (64323, 64324); (64326, 64433); (64467, 64829);
   (64848, 64911); (64914, 64967); (65008, 65019); (65136, 65140); (65142, 65276); (65296, 65305);
   (65313, 65338); (65345, 65370); (65382, 65470); (65474, 65479); (65482, 65487); (65490, 65495);
   (65498, 65500); (65536, 65547); (65549, 65574); (65576, 65594); (65596, 65597); (65599, 65613);
   (65616, 65629); (65664, 65786); (65799, 65843); (65856, 65912); (65930, 65931); (66176, 66204);
   (66208, 66256); (66273, 66299); (66304, 66339); (66349, 66378); (66384, 66421); (66432, 66461);
   (66464, 66499); (66504, 66511); (66513, 66517); (66560, 66717); (66720, 66729); (66736, 66771);
   (66776, 66811); (66816, 66855); (66864, 66915); (66928, 66938); (66940, 66954); (66956, 66962);
   (66964, 66965); (66967, 66977); (66979, 66993); (66995, 67001); (67003, 67004); (67072, 67382);
   (67392, 67413); (67424, 67431); (67456, 67461); (67463, 67504); (67506, 67514); (67584, 67589);
   (67592, 67592); (67594, 67637); (67639, 67640); (67644, 67644); (67647, 67669); (67672, 67702);
   (67705, 67742); (67751, 67759); (67808, 67826); (67828, 67829); (67835, 67867); (67872, 67897);
   (67968, 68023); (68028, 68047); (68050, 68096); (68112, 68115); (68117, 68119); (68121, 68149);
   (68160, 68168); (68192, 68222); (68224, 68255); (68288, 68295); (68297, 68324); (68331, 68335);
   (68352, 68405); (68416, 68437); (68440, 68466); (68472, 68497); (68521, 68527); (68608, 68680);
   (68736, 68786); (68800, 68850); (68858, 68899); (68912, 68921); (69216, 69246); (69248, 69289);
   (69296, 69297); (69376, 69415); (69424, 69445); (69457, 69460); (69488, 69505); (69552, 69579);
   (69600, 69622); (69635, 69687); (69714, 69743); (69745, 69746); (69749, 69749); (69763, 69807);
   (69840, 69864); (69872, 69881); (69891, 69926); (69942, 69951); (69956, 69956); (69959, 69959);
   (69968, 70002); (70006, 70006); (70019, 70066); (70081, 70084); (70096, 70106); (70108, 70108);
   (70113, 70132); (70144, 70161); (70163, 70187); (70272, 70278); (70280, 70280); (70282, 70285);
   (70287, 70301); (70303, 70312); (70320, 70366); (70384, 70393); (70405, 70412); (70415, 70416);
   (70419, 70440); (70442, 70448); (70450, 70451); (70453, 70457); (70461, 70461); (70480, 70480);
   (70493, 70497); (70656, 70708); (70727, 70730); (70736, 70745); (70751, 70753); (70784, 70831);
   (70852, 70853); (70855, 70855); (70864, 70873); (71040, 71086); (71128, 71131); (71168, 71215);
   (71236, 71236); (71248, 71257); (71296, 71338); (71352, 71352); (71360, 71369); (71424, 71450);
   (71472, 71483); (71488, 71494); (71680, 71723); (71840, 71922); (71935, 71942); (71945, 71945);
   (71948, 71955); (71957, 71958); (71960, 71983); (71999, 71999); (72001, 72001); (72016, 72025);
   (72096, 72103); (72106, 72144); (72161, 72161); (72163, 72163); (72192, 72192); (72203, 72242);
   (72250, 72250); (72272, 72272); (72284, 72329); (72349, 72349); (72368, 72440); (72704, 72712);
   (72714, 72750); (72768, 72768); (72784, 72812); (72818, 72847); (72960, 72966); (72968, 72969);
   (72971, 73008); (73030, 73030); (73040, 73049); (73056, 73061); (73063, 73064); (73066, 73097);
   (73112, 73112); (73120, 73129); (73440, 73458); (73648, 73648); (73664, 73684); (73728, 74649);
   (74752, 74862); (74880, 75075); (77712, 77808); (77824, 78894); (82944, 83526); (92160, 92728);
   (92736, 92766); (92768, 92777); (92784, 92862); (92864, 92873); (92880, 92909); (92928, 92975);
   (92992, 92995); (93008, 93017); (93019, 93025); (93027, 93047); (93053, 93071); (93760, 93846);
   (93952, 94026); (94032, 94032); (94099, 94111); (94176, 94177); (94179, 94179); (94208, 100343);
   (100352, 101589); (101632, 101640); (110576, 110579); (110581, 110587); (110589, 110590); (110592, 110882);
   (110928, 110930); (110948, 110951); (110960, 111355); (113664, 113770); (113776, 113788); (113792, 113800);
   (113808, 113817); (119520, 119539); (119648, 119672); (119808, 119892); (119894, 119964); (119966, 119967);
   (119970, 119970); (119973, 119974); (119977, 119980); (119982, 119993); (119995, 119995); (119997, 120003);
   (120005, 120069); (120071, 120074); (120077, 120084); (120086, 120092); (120094, 120121); (120123, 120126);
   (120128, 120132); (120134, 120134); (120138, 120144); (120146, 120485); (120488, 120512); (120514, 120538);
   (120540, 120570); (120572, 120596); (120598, 120628); (120630, 120654); (120656, 120686); (120688, 120712);
   (120714, 120744); (120746, 120770); (120772, 120779); (120782, 120831); (122624, 122654); (123136, 123180);
   (123191, 123197); (123200, 123209); (123214, 123214); (123536, 123565); (123584, 123627); (123632, 123641);
   (124896, 124902); (124904, 124907); (124909, 124910); (124912, 124926); (124928, 125124); (125127, 125135);
   (125184, 125251); (125259, 125259); (125264, 125273); (126065, 126123); (126125, 126127); (126129, 126132);
   (126209, 126253); (126255, 126269); (126464, 126467); (126469, 126495); (126497, 126498); (126500, 126500);
   (126503, 126503); (126505, 126514); (126516, 126519); (126521, 126521); (126523, 126523); (126530, 126530);
   (126535, 126535); (126537, 126537); (126539, 126539); (126541, 126543); (126545, 126546); (126548, 126548);
   (126551, 126551); (126553, 126553); (126555, 126555); (126557, 126557); (126559, 126559); (126561, 126562);
   (126564, 126564); (126567, 126570); (126572, 126578); (126580, 126583); (126585, 126588); (126590, 126590);
   (126592, 126601); (126603, 126619); (126625, 126627); (126629, 126633); (126635, 126651); (127232, 127244);
   (130032, 130041); (131072, 173791); (173824, 177976); (177984, 178205); (178208, 183969); (183984, 191456);
   (194560, 195101); (196608, 201546) ].

Definition is_decimal (c : Z) : bool := in_ranges decimal_ranges c.
Definition is_space (c : Z) : bool := in_ranges space_ranges c.
Definition is_word (c : Z) : bool := in_ranges word_ranges c.

End Unicode.

(** ** [2_normalize_files.py]: the hashes of the identity model *)

Module Hashes.

Definition normalize_line_endings_for_hash (text : pystr) : pystr :=
  Py.replace [LF] [CR; LF]
    (Py.replace [CR] [LF]
       (Py.replace [CR; LF] [LF] text)).

Section WithLibraries.

(** [cityhash] is [None] when the import of the third-party module
  failed; otherwise it carries the module's [CityHash64]. *)
Variable cityhash : option (bytes -> Z).

(** [zlib.crc32] *)
Variable zlib_crc32 : bytes -> Z.

Definition calculate_optimized_cityhash64_utf16_key_hash (key_string : pystr)
    : pyresult Z :=
  match cityhash with
  | None => Raise ImportError
  | Some CityHash64 =>
      let normalized_key := normalize_line_endings_for_hash key_string in
      let! encoded_key_bytes := Codec.utf16le normalized_key in
      let h64 := CityHash64 encoded_key_bytes in
      let low32 := Z.land h64 4294967295 in
      let high32 := Z.land (Z.shiftr h64 32) 4294967295 in
      let final_hash := Z.land (low32 + high32 * 23) 4294967295 in
      Ok final_hash
  end.

Definition calculate_source_string_hash (text : pystr) : pyresult Z :=
  let! e := Codec.utf16le text in
  let encoded := e ++ [0; 0] in
  Ok (Z.land (zlib_crc32 encoded) 4294967295).

End WithLibraries.

(** The CRC-32 of zlib (reflected polynomial [0xEDB88320], initial value
    and final complement [0xFFFFFFFF]), bit by bit.  It serves as an
    instance of [zlib_crc32]. *)
Definition crc32_bit (crc : Z) : Z :=
  if Z.testbit crc 0 then Z.lxor (Z.shiftr crc 1) 3988292384
  else Z.shiftr crc 1.

Definition crc32_byte (crc b : Z) : Z :=
  Nat.iter 8 crc32_bit (Z.lxor crc b).

Definition crc32 (data : bytes) : Z :=
  Z.lxor (fold_left crc32_byte data 4294967295) 4294967295.

(** The normal forms the three replacements of
    [normalize_line_endings_for_hash] compute, each in one pass: every
    line ending (CR LF, lone CR, lone LF) becomes LF, respectively
    CR LF. *)
Fixpoint to_lf (s : pystr) : pystr :=
  match s with
  | [] => []
  | c :: s' =>
      if bool_decide (c = CR) then
        match s' with
        | d :: s'' =>
            if bool_decide (d = LF) then LF :: to_lf s'' else LF :: to_lf s'
        | [] => [LF]
        end
      else c :: to_lf s'
  end.

Fixpoint to_crlf (s : pystr) : pystr :=
  match s with
  | [] => []
  | c :: s' =>
      if bool_decide (c = CR) then
        match s' with
        | d :: s'' =>
            if bool_decide (d = LF) then CR :: LF :: to_crlf s''
            else CR :: LF :: to_crlf s'
        | [] => [CR; LF]
        end
      else if bool_decide (c = LF) then CR :: LF :: to_crlf s'
      else c :: to_crlf s'
  end.

(** The fold of the specification: [(low32 + high32*23) mod 2^32]. *)
Definition fold32 (h64 : Z) : Z :=
  let low32 := h64 mod 2^32 in
  let high32 := (h64 / 2^32) mod 2^32 in
  (low32 + high32 * 23) mod 2^32.

(** A stand-in for the library function, to run the fold: the 64-bit
    number whose halves are the length of the input and [1]. *)
Definition sample_hash64 (b : bytes) : Z := Py.len b + 2^32.

End Hashes.

(** ** [4_generate_translations.py]: the binary resource encoder *)

Module Struct.

(** The [n] low bytes of [v], least significant first: two's complement
    for a negative [v]. *)
Fixpoint le_bytes (n : nat) (v : Z) : bytes :=
  match n with
  | O => []
  | S n' => v mod 256 :: le_bytes n' (v / 256)
  end.

(** [struct.pack('<B', v)], [('<i', v)], [('<I', v)], [('<q', v)]: the
    value must fit the format. *)
Definition pack_B (v : Z) : pyresult bytes :=
  if (0 <=? v) && (v <? 256) then Ok (le_bytes 1 v) else Raise StructError.

Definition pack_i (v : Z) : pyresult bytes :=
  if (-2147483648 <=? v) && (v <? 2147483648) then Ok (le_bytes 4 v)
  else Raise StructError.

Definition pack_I (v : Z) : pyresult bytes :=
  if (0 <=? v) && (v <? 4294967296) then Ok (le_bytes 4 v)
  else Raise StructError.

Definition pack_q (v : Z) : pyresult bytes :=
  if (-9223372036854775808 <=? v) && (v <? 9223372036854775808)
  then Ok (le_bytes 8 v) else Raise StructError.

End Struct.

Module File.

(** A file opened with mode ['wb']: its content and the position of
    the next write. *)
Record stream : Type := { buf : bytes; pos : Z }.

Definition opened : stream := {| buf := []; pos := 0 |}.

(** Code that writes to the file and may raise. *)
Definition io (A : Type) : Type := stream -> stream * pyresult A.

Definition ret {A} (a : A) : io A := fun f => (f, Ok a).

Definition iobind {A B} (m : io A) (k : A -> io B) : io B :=
  fun f =>
    match m f with
    | (f', Ok a) => k a f'
    | (f', Raise e) => (f', Raise e)
    end.

Definition lift {A} (r : pyresult A) : io A := fun f => (f, r).

(** [try: body except Exception: handler] *)
Definition try_except {A} (body : io A) (handler : io A) : io A :=
  fun f =>
    match body f with
    | (f', Ok a) => (f', Ok a)
    | (f', Raise _) => handler f'
    end.

(** [f.write(b)]: the bytes replace what is at the position and extend
    the file past its end; a position past the end leaves a gap of
    zero bytes. *)
Definition write (b : bytes) : io unit :=
  fun f =>
    let p := Z.to_nat (pos f) in
    ({| buf := take p (buf f) ++ replicate (p - length (buf f)) 0
               ++ b ++ drop (p + length b) (buf f);
        pos := pos f + Py.len b |}, Ok tt).

Definition tell : io Z := fun f => (f, Ok (pos f)).

Definition seek (p : Z) : io unit :=
  fun f => ({| buf := buf f; pos := p |}, Ok tt).

(** [for x in l: body(x)] *)
Fixpoint for_each {A} (l : list A) (body : A -> io unit) : io unit :=
  match l with
  | [] => ret tt
  | x :: l' => iobind (body x) (fun _ => for_each l' body)
  end.

End File.

Notation "'do!' x ':=' m 'in' k" := (File.iobind m (fun x => k))
  (at level 10, x name, m at level 100, k at level 200).
Notation "m ';;;' k" := (File.iobind m (fun _ => k))
  (at level 100, k at level 200, right associativity).

Module Locres.
Import Struct File.

Definition LOCRES_MAGIC_BYTES : bytes :=
  [14; 20; 116; 117; 103; 74; 3; 252; 74; 21; 144; 157; 195; 55; 127; 27].
Definition LOCRES_VERSION_OPTIMIZED_CITYHASH_UTF16 : Z := 3.

(** The dictionaries the encoder receives. *)
Record entry : Type := {
  key_string : pystr;
  key_hash : Z;
  translated_value : pystr;
  source_string_hash : Z
}.

Record ns_data : Type := {
  namespace_name : option pystr;
  namespace_hash : Z;
  entries : list entry
}.

(** A value of [string_to_index_map]. *)
Record slot : Type := { index : Z; ref_count : Z }.

Definition write_fstring_for_locres (text : option pystr) : io unit :=
  let text := default [] text in
  let text_with_null := text ++ [0] in
  try_except
    (do! encoded_text_bytes := lift (Codec.utf16le text_with_null) in
     let num_utf16_chars_including_null := Py.len encoded_text_bytes / 2 in
     let length_prefix := - num_utf16_chars_including_null in
     do! p := lift (pack_i length_prefix) in
     write p ;;;
     write encoded_text_bytes)
    (do! p := lift (pack_i (-1)) in
     write p ;;;
     write [0; 0]).

(** The body of the first pair of loops, for one entry. *)
Definition intern (st : gmap pystr slot * list pystr) (translated_val : pystr)
    : gmap pystr slot * list pystr :=
  let '(string_to_index_map, string_table_values) := st in
  match string_to_index_map !! translated_val with
  | None =>
      let idx := Py.len string_table_values in
      (<[translated_val := {| index := idx; ref_count := 1 |}]> string_to_index_map,
       string_table_values ++ [translated_val])
  | Some s =>
      (<[translated_val := {| index := index s; ref_count := ref_count s + 1 |}]>
         string_to_index_map,
       string_table_values)
  end.

Definition build_string_table (all_namespace_data : list ns_data)
    : gmap pystr slot * list pystr :=
  fold_left
    (fun st ns_data =>
       fold_left (fun st entry => intern st (translated_value entry))
         (entries ns_data) st)
    all_namespace_data (∅, []).

(** [string_to_index_map[v]] *)
Definition getitem (m : gmap pystr slot) (v : pystr) : pyresult slot :=
  match m !! v with
  | Some s => Ok s
  | None => Raise KeyError
  end.

Definition write_entry (string_to_index_map : gmap pystr slot) (entry : entry)
    : io unit :=
  do! b := lift (pack_I (key_hash entry)) in write b ;;;
  write_fstring_for_locres (Some (key_string entry)) ;;;
  do! b := lift (pack_I (source_string_hash entry)) in write b ;;;
  do! s := lift (getitem string_to_index_map (translated_value entry)) in
  let string_index := index s in
  do! b := lift (pack_i string_index) in write b.

Definition write_namespace (string_to_index_map : gmap pystr slot)
    (ns_data : ns_data) : io unit :=
  do! b := lift (pack_I (namespace_hash ns_data)) in write b ;;;
  write_fstring_for_locres (namespace_name ns_data) ;;;
  do! b := lift (pack_i (Py.len (entries ns_data))) in write b ;;;
  for_each (entries ns_data) (write_entry string_to_index_map).

Definition write_table_string (string_to_index_map : gmap pystr slot)
    (str_val : pystr) : io unit :=
  write_fstring_for_locres (Some str_val) ;;;
  do! s := lift (getitem string_to_index_map str_val) in
  do! b := lift (pack_i (ref_count s)) in write b.

(** The body of the [try] block, from the first write on. *)
Definition generate_body (all_namespace_data : list ns_data) : io unit :=
  write LOCRES_MAGIC_BYTES ;;;
  do! b := lift (pack_B LOCRES_VERSION_OPTIMIZED_CITYHASH_UTF16) in write b ;;;
  do! string_table_offset_pos := tell in
  do! b := lift (pack_q 0) in write b ;;;
  let total_key_entries :=
    foldr Z.add 0 (map (fun ns_data => Py.len (entries ns_data)) all_namespace_data) in
  do! b := lift (pack_i total_key_entries) in write b ;;;
  do! b := lift (pack_i (Py.len all_namespace_data)) in write b ;;;
  let '(string_to_index_map, string_table_values) :=
    build_string_table all_namespace_data in
  for_each all_namespace_data (write_namespace string_to_index_map) ;;;
  do! actual_string_table_offset := tell in
  seek string_table_offset_pos ;;;
  do! b := lift (pack_q actual_string_table_offset) in write b ;;;
  seek actual_string_table_offset ;;;
  do! b := lift (pack_i (Py.len string_table_values)) in write b ;;;
  for_each string_table_values (write_table_string string_to_index_map).

(** The content of the file when the function returns, and whether the
    body ran to its end ([Ok]) or an exception was caught and reported. *)
Definition generate_locres_file_v3_with_hashes (all_namespace_data : list ns_data)
    : bytes * pyresult unit :=
  let '(f, r) := generate_body all_namespace_data opened in
  (buf f, r).

(** *** The layout of the format

    The byte sequences the writes above are meant to produce, as plain
    functions of the data. *)

(** A length-prefixed UTF-16LE string; a text without an encoding is
    stored as the empty string. *)
Definition fstring (text : pystr) : bytes :=
  match (let! encoded := Codec.utf16le (text ++ [0]) in
         let! prefix := pack_i (- (Py.len encoded / 2)) in
         Ok (prefix ++ encoded)) with
  | Ok b => b
  | Raise _ => le_bytes 4 (-1) ++ [0; 0]
  end.

Definition slot_of (m : gmap pystr slot) (v : pystr) : slot :=
  default {| index := 0; ref_count := 0 |} (m !! v).

Definition entry_record (m : gmap pystr slot) (e : entry) : bytes :=
  le_bytes 4 (key_hash e) ++ fstring (key_string e)
  ++ le_bytes 4 (source_string_hash e)
  ++ le_bytes 4 (index (slot_of m (translated_value e))).

Definition namespace_record (m : gmap pystr slot) (ns : ns_data) : bytes :=
  le_bytes 4 (namespace_hash ns) ++ fstring (default [] (namespace_name ns))
  ++ le_bytes 4 (Py.len (entries ns))
  ++ concat (map (entry_record m) (entries ns)).

Definition table_record (m : gmap pystr slot) (v : pystr) : bytes :=
  fstring v ++ le_bytes 4 (ref_count (slot_of m v)).

Definition all_entries (all_namespace_data : list ns_data) : list entry :=
  concat (map entries all_namespace_data).

Definition layout (all_namespace_data : list ns_data) : bytes :=
  let '(m, values) := build_string_table all_namespace_data in
  let records := concat (map (namespace_record m) all_namespace_data) in
  LOCRES_MAGIC_BYTES ++ [LOCRES_VERSION_OPTIMIZED_CITYHASH_UTF16]
  ++ le_bytes 8 (33 + Py.len records)
  ++ le_bytes 4 (Py.len (all_entries all_namespace_data))
  ++ le_bytes 4 (Py.len all_namespace_data)
  ++ records
  ++ le_bytes 4 (Py.len values)
  ++ concat (map (table_record m) values).

(** The number of entries whose final value is [v]. *)
Definition references (all_namespace_data : list ns_data) (v : pystr) : Z :=
  Py.len (filter (fun e => translated_value e = v) (all_entries all_namespace_data)).

(** The number of occurrences of [v] in a list of values. *)
Definition occurrences (v : pystr) (vs : list pystr) : Z :=
  Py.len (filter (fun x => x = v) vs).

(** What holds of the dictionary and of the list of values after the
    values [vs] have been interned, in this order. *)
Record table_inv (vs : list pystr) (m : gmap pystr slot) (values : list pystr)
  : Prop := {
  inv_nodup : NoDup values;
  inv_dom : forall v, is_Some (m !! v) <-> v ∈ vs;
  inv_values : forall v, v ∈ values -> v ∈ vs;
  inv_slot : forall v s, m !! v = Some s ->
    0 <= index s
    /\ values !! Z.to_nat (index s) = Some v
    /\ ref_count s = occurrences v vs
}.

(** The position of the next write is the end of the file. *)
Definition at_end (f : stream) : Prop := pos f = Py.len (buf f).

(** [W] appends the bytes [B] whenever it returns. *)
Definition appends (W : io unit) (B : bytes) : Prop :=
  forall f f', at_end f -> W f = (f', Ok tt) ->
    buf f' = buf f ++ B /\ at_end f'.

(** *** Runs that reach their end

    The file after the bytes [B] were appended, and the code that
    appends them whatever the content of the file. *)
Definition after (f : stream) (B : bytes) : stream :=
  {| buf := buf f ++ B; pos := Py.len (buf f ++ B) |}.

Definition writes (W : io unit) (B : bytes) : Prop :=
  forall f, at_end f -> W f = (after f B, Ok tt).

(** The values [struct.pack('<I', v)] accepts. *)
Definition u32 (v : Z) : Prop := 0 <= v < 2^32.

(** Every hash of a namespace fits an unsigned 32-bit field. *)
Definition hashes_fit (ns : ns_data) : Prop :=
  u32 (namespace_hash ns)
  /\ Forall (fun e => u32 (key_hash e) /\ u32 (source_string_hash e)) (entries ns).

(** Code that raises no exception but the one of [struct.pack]. *)
Definition only_struct_error {A} (W : io A) : Prop :=
  forall f f' e, W f = (f', Raise e) -> e = StructError.

(** Code that, run at the end of the file, leaves what the file holds
    in place, also when it raises. *)
Definition grows {A} (W : io A) : Prop :=
  forall f f' r, at_end f -> W f = (f', r) ->
    at_end f' /\ exists B, buf f' = buf f ++ B.

(** The header with the offset of the string table still to be
    filled in. *)
Definition header_without_offset : bytes :=
  LOCRES_MAGIC_BYTES ++ [LOCRES_VERSION_OPTIMIZED_CITYHASH_UTF16]
  ++ replicate 8 0.

(** A resource with a key hash that has no unsigned 32-bit form. *)
Definition bad_hash_data : list ns_data :=
  [ {| namespace_name := Some (Py.lit "UI"); namespace_hash := 7;
       entries :=
         [ {| key_string := Py.lit "ok"; key_hash := 11;
              translated_value := Py.lit "OK"; source_string_hash := 21 |};
           {| key_string := Py.lit "no"; key_hash := -1;
              translated_value := Py.lit "Cancel"; source_string_hash := 22 |} ] |} ].

(** A small resource: two namespaces, three keys, two of them with the
    same final value. *)
Definition sample_data : list ns_data :=
  [ {| namespace_name := Some (Py.lit "UI"); namespace_hash := 7;
       entries :=
         [ {| key_string := Py.lit "ok"; key_hash := 11;
              translated_value := Py.lit "OK"; source_string_hash := 21 |};
           {| key_string := Py.lit "no"; key_hash := 12;
              translated_value := Py.lit "Cancel"; source_string_hash := 22 |} ] |};
    {| namespace_name := Some (Py.lit "Menu"); namespace_hash := 8;
       entries :=
         [ {| key_string := Py.lit "confirm"; key_hash := 13;
              translated_value := Py.lit "OK"; source_string_hash := 23 |} ] |} ].

Definition sample_file : bytes :=
  Eval vm_compute in (generate_locres_file_v3_with_hashes sample_data).1.

End Locres.
(** ** [4_generate_translations.py]: [break_text_at_spaces] *)

Module LineBreak.

(** The [while] loop of [break_text_at_spaces]; [None] when the fuel
    runs out before the loop condition fails or [break] is reached. *)
Fixpoint break_loop (fuel : nat) (text_content : pystr) (max_len : Z)
    (current_line_start_index : Z) (lines : list pystr) : option (list pystr) :=
  match fuel with
  | O => None
  | S fuel' =>
      if current_line_start_index <? Py.len text_content then
        if Py.len text_content - current_line_start_index <=? max_len then
          Some (lines ++ [Py.slice_from text_content current_line_start_index])
        else
          let search_end_exclusive := current_line_start_index + max_len in
          let possible_break_point :=
            Py.rfind_char SPACE text_content current_line_start_index
              (search_end_exclusive + 1) in
          if negb (possible_break_point =? -1)
             && (current_line_start_index <? possible_break_point)
          then
            break_loop fuel' text_content max_len (possible_break_point + 1)
              (lines ++ [Py.slice text_content current_line_start_index
                           possible_break_point])
          else
            break_loop fuel' text_content max_len
              (current_line_start_index + max_len)
              (lines ++ [Py.slice text_content current_line_start_index
                           (current_line_start_index + max_len)])
      else Some lines
  end.

Definition break_text_at_spaces_fuel (fuel : nat) (text_content : pystr)
    (max_len : Z) : option pystr :=
  if Py.len text_content <=? max_len then Some text_content
  else
    match break_loop fuel text_content max_len 0 [] with
    | Some lines => Some (Py.join [LF] lines)
    | None => None
    end.

(** One loop iteration per character is enough when [max_len >= 1]. *)
Definition break_text_at_spaces (text_content : pystr) (max_len : Z)
    : option pystr :=
  break_text_at_spaces_fuel (S (length text_content)) text_content max_len.

(** A line that fits the limit. *)
Definition short (max_len : Z) (l : pystr) : Prop := Py.len l <= max_len.

(** The characters of a text that are neither spaces nor newlines. *)
Definition ink (s : pystr) : pystr :=
  List.filter (fun c => negb (bool_decide (c = SPACE)) && negb (bool_decide (c = LF))) s.

End LineBreak.

(** ** [4_generate_translations.py]: the entries of the text files *)

Module FormatString.

Definition BOM : Z := 65279.  (* U+FEFF *)

Definition clean_key_bom (key_str : pystr) : pystr :=
  if Py.startswith [BOM] key_str then Py.slice_from key_str 1 else key_str.

Definition normalize_line_endings (text : pystr) : pystr :=
  Py.replace [CR] [LF] (Py.replace [CR; LF] [LF] text).

(** The text of the file after [write_format_string_entry_original_style]
    for a string value: [f] is the text written before.  The file
    object turns the newline into the line ending of the file. *)
Definition write_format_string_entry_original_style (f : pystr)
    (key value : pystr) : pystr :=
  let value_as_str := value in
  let bom_cleaned_value := clean_key_bom value_as_str in
  let normalized_value := normalize_line_endings bom_cleaned_value in
  let escaped_value_for_txt :=
    Py.replace [LF] (Py.lit "\n") normalized_value in
  let line_to_write := key ++ Py.lit " = " ++ escaped_value_for_txt in
  f ++ line_to_write ++ [LF].

(** The value as the line holds it. *)
Definition escaped (value : pystr) : pystr :=
  Py.replace [LF] (Py.lit "\n") (normalize_line_endings (clean_key_bom value)).

End FormatString.

(** ** [4_generate_translations.py]: the table of hashes *)

Module HashCsv.
Import FormatString.

(** A row of the CSV file as [csv.DictReader] yields it, with a string
    in each of the required columns. *)
Record csv_row : Type := {
  Namespace : pystr;
  Key : pystr;
  SourceValue : pystr;
  NamespaceHash : pystr;
  KeyHash_of_KeyString : pystr;
  SourceStringHash_of_SourceText : pystr
}.

(** A value of [namespace_info_from_csv]. *)
Record namespace_info : Type := {
  hash : Z;
  order : Z
}.

(** A value of [locres_capable_data_map]. *)
Record capable_entry : Type := {
  namespace_name : pystr;
  key_string : pystr;
  namespace_hash : Z;
  key_hash : Z;
  source_value_from_csv : pystr;
  source_string_hash : Z
}.

(** The variables of the loop of [load_data_with_hashes_from_csv]. *)
Record loader_state : Type := {
  locres_capable_data_map : gmap (pystr * pystr) capable_entry;
  namespace_info_from_csv : gmap pystr namespace_info;
  ns_order_counter : Z
}.

Definition loader_start : loader_state :=
  {| locres_capable_data_map := ∅;
     namespace_info_from_csv := ∅;
     ns_order_counter := 0 |}.

Definition ns_of (row : csv_row) : pystr := clean_key_bom (Namespace row).
Definition key_of (row : csv_row) : pystr := clean_key_bom (Key row).

(** The number of different namespaces of [rows]. *)
Definition namespaces_in (rows : list csv_row) : Z :=
  Z.of_nat (size (list_to_set (ns_of <$> rows) : gset pystr)).

(** [x] is the first element of [l] with the property [P], after
    [before]; [x] is the last one. *)
Definition first_with {A} (P : A -> Prop) (l before : list A) (x : A) : Prop :=
  exists rest, l = before ++ x :: rest /\ P x /\ Forall (fun y => ~ P y) before.

Definition last_with {A} (P : A -> Prop) (l : list A) (x : A) : Prop :=
  exists before rest,
    l = before ++ x :: rest /\ P x /\ Forall (fun y => ~ P y) rest.

Section WithInt.

(** The builtin [int] on a string; [None] when it raises [ValueError]. *)
Variable int : pystr -> option Z.

(** The body of the loop; [None] when the function returns
    [(None, None)] from the handler of [ValueError]. *)
Definition load_row (st : loader_state) (row : csv_row) : option loader_state :=
  let ns_name := clean_key_bom (Namespace row) in
  let cleaned_key_string := clean_key_bom (Key row) in
  known ←
    match namespace_info_from_csv st !! ns_name with
    | None =>
        h ← int (NamespaceHash row);
        Some (<[ns_name := {| hash := h; order := ns_order_counter st |}]>
                (namespace_info_from_csv st),
              ns_order_counter st + 1, h)
    | Some info =>
        (* the comparison only prints a warning *)
        _ ← int (NamespaceHash row);
        Some (namespace_info_from_csv st, ns_order_counter st, hash info)
    end;
  kh ← int (KeyHash_of_KeyString row);
  ssh ← int (SourceStringHash_of_SourceText row);
  Some {| locres_capable_data_map :=
            <[(ns_name, cleaned_key_string) :=
                {| namespace_name := ns_name;
                   key_string := cleaned_key_string;
                   namespace_hash := known.2;
                   key_hash := kh;
                   source_value_from_csv := SourceValue row;
                   source_string_hash := ssh |}]>
              (locres_capable_data_map st);
          namespace_info_from_csv := known.1.1;
          ns_order_counter := known.1.2 |}.

Fixpoint load_rows (st : loader_state) (rows : list csv_row)
    : option loader_state :=
  match rows with
  | [] => Some st
  | row :: rest => st' ← load_row st row; load_rows st' rest
  end.

(** [load_data_with_hashes_from_csv] on a file whose header has the
    required columns and whose rows are [rows]; [None] stands for the
    result [(None, None)]. *)
Definition load_data_with_hashes_from_csv (rows : list csv_row)
    : option (gmap (pystr * pystr) capable_entry * gmap pystr namespace_info) :=
  st ← load_rows loader_start rows;
  Some (locres_capable_data_map st, namespace_info_from_csv st).

(** A row whose three hashes are integers. *)
Definition parses (row : csv_row) : Prop :=
  is_Some (int (NamespaceHash row)) /\
  is_Some (int (KeyHash_of_KeyString row)) /\
  is_Some (int (SourceStringHash_of_SourceText row)).

(** What the loop has built after [rows]. *)
Definition loaded (rows : list csv_row) (st : loader_state) : Prop :=
  (forall ns, is_Some (namespace_info_from_csv st !! ns) <->
              ns ∈ ns_of <$> rows) /\
  ns_order_counter st = namespaces_in rows /\
  (forall ns i, namespace_info_from_csv st !! ns = Some i ->
     exists before row,
       first_with (fun r => ns_of r = ns) rows before row /\
       int (NamespaceHash row) = Some (hash i) /\
       order i = namespaces_in before) /\
  (forall ns key e, locres_capable_data_map st !! (ns, key) = Some e ->
     exists row,
       last_with (fun r => ns_of r = ns /\ key_of r = key) rows row /\
       namespace_name e = ns /\ key_string e = key /\
       int (KeyHash_of_KeyString row) = Some (key_hash e) /\
       source_value_from_csv e = SourceValue row /\
       int (SourceStringHash_of_SourceText row) = Some (source_string_hash e) /\
       exists i, namespace_info_from_csv st !! ns = Some i /\
                 namespace_hash e = hash i) /\
  (forall row, row ∈ rows ->
     is_Some (locres_capable_data_map st !! (ns_of row, key_of row))).

End WithInt.

(** Decimal numerals, the strings on which [sample_int] succeeds. *)
Definition sample_int (s : pystr) : option Z :=
  match s with
  | [] => None
  | _ =>
      fold_left
        (fun acc c =>
           n ← acc;
           if (48 <=? c) && (c <=? 57) then Some (10 * n + (c - 48)) else None)
        s (Some 0)
  end.

Definition sample_rows : list csv_row :=
  [ {| Namespace := Py.lit "UI"; Key := Py.lit "Start";
       SourceValue := Py.lit "Begin"; NamespaceHash := Py.lit "7";
       KeyHash_of_KeyString := Py.lit "11";
       SourceStringHash_of_SourceText := Py.lit "21" |};
    {| Namespace := Py.lit "Quest"; Key := Py.lit "Title";
       SourceValue := Py.lit "Road"; NamespaceHash := Py.lit "9";
       KeyHash_of_KeyString := Py.lit "12";
       SourceStringHash_of_SourceText := Py.lit "22" |};
    {| Namespace := BOM :: Py.lit "UI"; Key := Py.lit "Start";
       SourceValue := Py.lit "Go"; NamespaceHash := Py.lit "8";
       KeyHash_of_KeyString := Py.lit "13";
       SourceStringHash_of_SourceText := Py.lit "23" |} ].

End HashCsv.


(** ** [3_translate_unified_json.py]: the rule engine *)

Module Rules.

(** A row of the rule sheet, as [load_excel_rules] returns it: the four
    text columns (empty when the cell is blank) and the identifier. *)
Record rule : Type := {
  simp_chinese : pystr;
  trad_chinese : pystr;
  good_translation : pystr;
  bad_translation : pystr;
  rule_id : Z
}.

(** The sort key of [load_excel_rules]: both lengths, descending. *)
Definition sorts_before (a b : rule) : Prop :=
  Py.len (simp_chinese b) < Py.len (simp_chinese a)
  \/ (Py.len (simp_chinese b) = Py.len (simp_chinese a)
      /\ Py.len (bad_translation b) <= Py.len (bad_translation a)).

(** An element of [rule_applications]. *)
Record application : Type := {
  app_rule_id : Z;
  app_bad_translation : pystr;
  app_good_translation : pystr;
  app_position : Z;
  app_text_before : pystr;
  app_text_after : pystr;
  app_namespace : pystr;
  app_key : pystr;
  app_original_chinese : pystr
}.

(** The variables the loops update. *)
Record state : Type := {
  chars : pystr;
  persistent_active_locks : list bool;
  rule_applications : list application
}.

(** A truthy string is a non-empty one. *)
Definition truthy (s : pystr) : bool :=
  match s with [] => false | _ => true end.

(** [is_r_init_active], [is_rule_current_cn_present] *)
Definition cn_present (r : rule) (original_chinese : pystr) : bool :=
  let cn_s := simp_chinese r in
  let cn_t := trad_chinese r in
  let present := truthy cn_s && Py.contains cn_s original_chinese in
  if negb present && truthy cn_t && negb (bool_decide (cn_t = cn_s))
     && Py.contains cn_t original_chinese
  then true else present.

(** The first loop: [active_good_translation_owners_map]. *)
Definition add_owner (original_chinese : pystr)
    (m : gmap pystr (list Z)) (r_init : rule) : gmap pystr (list Z) :=
  if cn_present r_init original_chinese then
    let good_t_init := good_translation r_init in
    if truthy good_t_init
    then <[good_t_init := default [] (m !! good_t_init) ++ [rule_id r_init]]> m
    else m
  else m.

Definition owners_map (original_chinese : pystr) (rules : list rule)
    : gmap pystr (list Z) :=
  fold_left (add_owner original_chinese) rules ∅.

(** The identifiers of the active rules whose good text is [k], in the
    order of the rules: the list the map holds under [k]. *)
Definition owner_ids (original_chinese : pystr) (rules : list rule)
    (k : pystr) : list Z :=
  map rule_id
    (List.filter
       (fun r => cn_present r original_chinese
                 && truthy (good_translation r)
                 && bool_decide (good_translation r = k))
       rules).

Section Engine.

Variable original_chinese : pystr.
Variable debug_info : pystr * pystr.
Variable active_good_translation_owners_map : gmap pystr (list Z).

(** [is_conflicting_good_translation] *)
Definition is_conflicting (r : rule) : bool :=
  match active_good_translation_owners_map !! bad_translation r with
  | Some owner_rule_ids =>
      existsb (fun owner_id => negb (owner_id =? rule_id r)) owner_rule_ids
      && negb (bool_decide (bad_translation r = good_translation r))
  | None => false
  end.

(** The replacement at index [i]: the characters, the log and the lock
    mask. *)
Definition apply_at (r : rule) (i : Z) (s : state) : state :=
  let list_bad := bad_translation r in
  let list_good := good_translation r in
  let len_bad := Py.len list_bad in
  let len_good := Py.len list_good in
  let text_before_apply := chars s in
  let chars' := Py.slice_assign (chars s) i (i + len_bad) list_good in
  let text_after_apply := chars' in
  let apps :=
    if negb (bool_decide (text_before_apply = text_after_apply)) then
      rule_applications s ++
      [{| app_rule_id := rule_id r;
          app_bad_translation := list_bad;
          app_good_translation := list_good;
          app_position := i;
          app_text_before := text_before_apply;
          app_text_after := text_after_apply;
          app_namespace := debug_info.1;
          app_key := debug_info.2;
          app_original_chinese := original_chinese |}]
    else rule_applications s in
  let len_diff := len_good - len_bad in
  let locks1 :=
    if 0 <? len_diff then
      Py.slice_assign (persistent_active_locks s) (i + len_bad) (i + len_bad)
        (replicate (Z.to_nat len_diff) false)
    else if len_diff <? 0 then
      Py.slice_del (persistent_active_locks s) (i + len_good) (i + len_bad)
    else persistent_active_locks s in
  let locks2 :=
    Py.slice_assign locks1 i (i + len_good)
      (replicate (Z.to_nat len_good) true) in
  {| chars := chars'; persistent_active_locks := locks2;
     rule_applications := apps |}.

(** The inner [while]: one scan from [i].  The result carries
    [current_rule_made_a_change_in_its_passes]; [None] when the fuel
    runs out.  The mask is read at the indices of the segment, which
    are those of a slice: the mask is as long as the text ([aligned]
    below, kept by every replacement). *)
Fixpoint scan_loop (fuel : nat) (r : rule) (i current_scan_len_limit : Z)
    (made_a_change : bool) (s : state) : option (state * bool) :=
  match fuel with
  | O => None
  | S fuel' =>
      let len_bad := Py.len (bad_translation r) in
      let len_good := Py.len (good_translation r) in
      if i <=? current_scan_len_limit - len_bad then
        if Py.len (chars s) <? i + len_bad then Some (s, made_a_change)
        else
          let current_segment_chars := Py.slice (chars s) i (i + len_bad) in
          if bool_decide (current_segment_chars = bad_translation r) then
            let is_s_locked :=
              existsb id (Py.slice (persistent_active_locks s) i (i + len_bad)) in
            if negb is_s_locked then
              if negb (is_conflicting r) then
                let s' := apply_at r i s in
                scan_loop fuel' r (i + len_good) (Py.len (chars s'))
                  (made_a_change
                   || negb (bool_decide (chars s = chars s'))) s'
              else scan_loop fuel' r (i + 1) current_scan_len_limit made_a_change s
            else scan_loop fuel' r (i + 1) current_scan_len_limit made_a_change s
          else scan_loop fuel' r (i + 1) current_scan_len_limit made_a_change s
      else Some (s, made_a_change)
  end.

(** The outer [while]: scans are repeated for as long as one changes
    the text.  A scan visits each index at most once. *)
Fixpoint pass_loop (fuel : nat) (r : rule) (s : state) : option state :=
  match fuel with
  | O => None
  | S fuel' =>
      match scan_loop (S (length (chars s))) r 0 (Py.len (chars s)) false s with
      | Some (s', true) => pass_loop fuel' r s'
      | Some (s', false) => Some s'
      | None => None
      end
  end.

(** The second loop over the rules.  A pass that changes the text locks
    at least one more character, which bounds the number of passes. *)
Fixpoint apply_rules (rules : list rule) (s : state) : option state :=
  match rules with
  | [] => Some s
  | rule_data_current :: rest =>
      if negb (truthy (bad_translation rule_data_current)) then
        apply_rules rest s
      else if negb (cn_present rule_data_current original_chinese) then
        apply_rules rest s
      else
        match pass_loop (S (length (chars s))) rule_data_current s with
        | Some s' => apply_rules rest s'
        | None => None
        end
  end.

End Engine.

Definition initial (current_english : pystr) : state :=
  {| chars := current_english;
     persistent_active_locks := replicate (length current_english) false;
     rule_applications := [] |}.

(** The state of the loops when the function returns. *)
Definition run_engine (original_chinese : pystr) (current_english : pystr)
    (debug_info : pystr * pystr) (applicable_rules : list rule)
    : option state :=
  apply_rules original_chinese debug_info
    (owners_map original_chinese applicable_rules)
    applicable_rules (initial current_english).

Definition execute_single_string_post_processing
    (original_chinese : pystr) (current_english : pystr)
    (debug_info : pystr * pystr) (applicable_rules : list rule)
    : option (pystr * list application) :=
  match applicable_rules with
  | [] => Some (current_english, [])
  | _ =>
      match run_engine original_chinese current_english debug_info
              applicable_rules with
      | Some s => Some (chars s, rule_applications s)
      | None => None
      end
  end.

(** *** Rewriting under a lock mask

    A text with its mask, and the one kind of step the engine takes: a
    stretch without a locked character is replaced by a text all of
    whose characters are locked. *)
Definition masked : Type := pystr * list bool.

Definition view (s : state) : masked := (chars s, persistent_active_locks s).

Inductive rewrite_step : masked -> masked -> Prop :=
| rewrite_at (pre seg post new : pystr) (lpre lseg lpost : list bool) :
    length lpre = length pre ->
    length lseg = length seg ->
    length lpost = length post ->
    seg <> [] ->
    existsb id lseg = false ->
    rewrite_step (pre ++ seg ++ post, lpre ++ lseg ++ lpost)
                 (pre ++ new ++ post,
                  lpre ++ replicate (length new) true ++ lpost).

Definition rewrites : masked -> masked -> Prop := rtc rewrite_step.

(** The text [g], locked, stands between two contexts that were
    obtained by rewriting [p] and [q] separately. *)
Definition framed (g : pystr) (p q : masked) (m : masked) : Prop :=
  exists p' q' : masked,
    m = (p'.1 ++ g ++ q'.1, p'.2 ++ replicate (length g) true ++ q'.2)
    /\ rewrites p p' /\ rewrites q q'.

(** The number of characters that are not locked. *)
Fixpoint unlocked (l : list bool) : nat :=
  match l with
  | [] => O
  | b :: l' => ((if b then 0 else 1) + unlocked l')%nat
  end.

(** The mask has the length of the text. *)
Definition aligned (s : state) : Prop :=
  length (persistent_active_locks s) = length (chars s).

(** *** Sample rules *)

Definition HUO : Z := 28779.  (* U+706B *)
Definition QIU : Z := 29699.  (* U+7403 *)
Definition SHU : Z := 26415.  (* U+672F *)

Definition fireball_rule : rule :=
  {| simp_chinese := [HUO; QIU]; trad_chinese := [HUO; QIU];
     good_translation := Py.lit "Fireball"; bad_translation := Py.lit "Fire Ball";
     rule_id := 0 |}.

Definition flame_rule : rule :=
  {| simp_chinese := [HUO]; trad_chinese := [HUO];
     good_translation := Py.lit "Flame"; bad_translation := Py.lit "Fire";
     rule_id := 1 |}.

(** A rule whose good text is the bad text of [fireball_rule]. *)
Definition fire_ball_rule : rule :=
  {| simp_chinese := [HUO]; trad_chinese := [HUO];
     good_translation := Py.lit "Fire Ball"; bad_translation := Py.lit "Fire";
     rule_id := 1 |}.

(** A rule that would turn the good text of [fireball_rule] back. *)
Definition undo_rule : rule :=
  {| simp_chinese := [QIU]; trad_chinese := [QIU];
     good_translation := Py.lit "Fire ball"; bad_translation := Py.lit "Fireball";
     rule_id := 2 |}.

(** A row without a bad text, and a rule whose bad text is the good
    text of that row. *)
Definition glossary_row : rule :=
  {| simp_chinese := [HUO]; trad_chinese := [HUO];
     good_translation := Py.lit "Fire"; bad_translation := [];
     rule_id := 0 |}.

Definition blaze_rule : rule :=
  {| simp_chinese := [HUO]; trad_chinese := [HUO];
     good_translation := Py.lit "Blaze"; bad_translation := Py.lit "Fire";
     rule_id := 1 |}.

Definition nonempty_bad (r : rule) : bool := truthy (bad_translation r).

(** *** The log of a run *)

(** The log leads from the text [x] to the text [y]: every entry starts
    from the text the entry before it left, and changes it. *)
Fixpoint chain (x : pystr) (log : list application) (y : pystr) : Prop :=
  match log with
  | [] => x = y
  | a :: log' =>
      app_text_before a = x /\ app_text_after a <> x
      /\ chain (app_text_after a) log' y
  end.

(** The entry records a replacement that [r] made: the bad text of the
    rule stood at the position, and the text after it is the text
    before it with the good text in its place. *)
Definition records (original_chinese : pystr) (debug_info : pystr * pystr)
    (r : rule) (a : application) : Prop :=
  app_rule_id a = rule_id r
  /\ app_bad_translation a = bad_translation r
  /\ app_good_translation a = good_translation r
  /\ 0 <= app_position a
  /\ Py.slice (app_text_before a) (app_position a)
       (app_position a + Py.len (bad_translation r)) = bad_translation r
  /\ app_text_after a
     = Py.slice_assign (app_text_before a) (app_position a)
         (app_position a + Py.len (bad_translation r)) (good_translation r)
  /\ app_namespace a = debug_info.1 /\ app_key a = debug_info.2
  /\ app_original_chinese a = original_chinese.

(** ** [apply_post_processing]: the rules a string is handed with *)

(** [keyword_to_rule_indices[keyword].append(idx)] on a
    [defaultdict(list)]: the dictionary in the order of insertion. *)
Fixpoint append_index (d : list (pystr * list nat)) (keyword : pystr)
    (idx : nat) : list (pystr * list nat) :=
  match d with
  | [] => [(keyword, [idx])]
  | (k, indices) :: d' =>
      if bool_decide (k = keyword) then (k, indices ++ [idx]) :: d'
      else (k, indices) :: append_index d' keyword idx
  end.

(** The body of the loop over [enumerate(rules_list_main)]. *)
Definition add_keywords (d : list (pystr * list nat)) (item : nat * rule)
    : list (pystr * list nat) :=
  let '(idx, rule) := item in
  let simp_cn := simp_chinese rule in
  let d1 := if truthy simp_cn then append_index d simp_cn idx else d in
  let trad_cn := trad_chinese rule in
  if truthy trad_cn && negb (bool_decide (trad_cn = simp_cn))
  then append_index d1 trad_cn idx else d1.

Definition keyword_to_rule_indices (rules_list_main : list rule)
    : list (pystr * list nat) :=
  fold_left add_keywords (imap pair rules_list_main) [].

(** The keyword stands in the text and its last character is at
    [end_index]. *)
Definition ends_at (keyword text : pystr) (end_index : nat) : bool :=
  (length keyword <=? S end_index)%nat
  && Py.startswith keyword (drop (S end_index - length keyword) text).

(** [A.iter(text)] for the automaton that holds the value
    [(keyword, indices)] under every keyword of the dictionary: one
    item [(end_index, value)] for each occurrence of a keyword, by end
    index.  An automaton without a word is not built, and [iter]
    raises: [None]. *)
Definition automaton_iter (words : list (pystr * list nat)) (text : pystr)
    : option (list (nat * (pystr * list nat))) :=
  match words with
  | [] => None
  | _ =>
      Some (flat_map
              (fun end_index =>
                 flat_map
                   (fun word : pystr * list nat =>
                      if ends_at word.1 text end_index
                      then [(end_index, word)] else [])
                   words)
              (seq 0 (length text)))
  end.

Definition matching_rule_indices (items : list (nat * (pystr * list nat)))
    : gset nat :=
  fold_left
    (fun acc item =>
       fold_left (fun acc rule_idx => {[rule_idx]} ∪ acc) item.2.2 acc)
    items ∅.

(** [[rules_list_main[i] for i in sorted_indices]]; [None] when an
    index is out of range. *)
Definition applicable_rules (rules_list_main : list rule)
    (matching : gset nat) : option (list rule) :=
  let sorted_indices := merge_sort Nat.le (elements matching) in
  mapM (fun i => rules_list_main !! i) sorted_indices.

(** What [apply_post_processing] makes of one string: the text that
    [post_processed_data] ends with and the applications this string
    adds to the report.  A string without a matching rule is not handed
    to the engine and keeps its text.  [None] when an exception is
    raised or the engine does not return. *)
Definition post_process_item (rules_list_main : list rule)
    (original_chinese_text english_text : pystr) (debug_info : pystr * pystr)
    : option (pystr * list application) :=
  match rules_list_main with
  | [] => Some (english_text, [])
  | _ =>
      match automaton_iter (keyword_to_rule_indices rules_list_main)
              original_chinese_text with
      | None => None
      | Some items =>
          let matching := matching_rule_indices items in
          if bool_decide (matching = ∅) then Some (english_text, [])
          else
            match applicable_rules rules_list_main matching with
            | Some rules =>
                execute_single_string_post_processing original_chinese_text
                  english_text debug_info rules
            | None => None
            end
      end
  end.

(** The rule at index [i] satisfies [p]. *)
Definition holds_at (p : rule -> bool) (l : list rule) (i : nat) : bool :=
  match l !! i with
  | Some r => p r
  | None => false
  end.

(** [keyword] is a keyword of the rule. *)
Definition is_keyword (r : rule) (keyword : pystr) : Prop :=
  (truthy (simp_chinese r) = true /\ keyword = simp_chinese r)
  \/ (truthy (trad_chinese r) = true /\ trad_chinese r <> simp_chinese r
      /\ keyword = trad_chinese r).

(** The index [i] is listed under [keyword]. *)
Definition listed (d : list (pystr * list nat)) (keyword : pystr) (i : nat)
    : Prop :=
  exists indices, (keyword, indices) ∈ d /\ i ∈ indices.

End Rules.

(** ** [3_translate_unified_json.py]: the translation resolver *)

Definition DOT : Z := 46.
Definition PERCENT : Z := 37.

(** *** The regular expressions of the module

    Each pattern of the source has its own matcher: the scan is from
    left to right, a match is the longest the greedy operators allow,
    and the search resumes after it. *)
Module Re.
Import Unicode.

(** The length of the run of decimal digits at the start of [s]. *)
Fixpoint digits_run (s : pystr) : nat :=
  match s with
  | c :: s' => if is_decimal c then S (digits_run s') else O
  | [] => O
  end.

(** [[\d]+(?:\.[\d]+)?%?] at the start of [s]: the length of the
    match. *)
Definition match_number (s : pystr) : option nat :=
  let d1 := digits_run s in
  if (d1 =? 0)%nat then None
  else
    let r1 := drop d1 s in
    let frac :=
      match r1 with
      | c :: r2 =>
          if bool_decide (c = DOT) then
            let d2 := digits_run r2 in
            if (d2 =? 0)%nat then O else S d2
          else O
      | [] => O
      end in
    let pct :=
      match drop frac r1 with
      | c :: _ => if bool_decide (c = PERCENT) then 1%nat else O
      | [] => O
      end in
    Some (d1 + frac + pct)%nat.

(** [re.findall(number_regex_str, s)]; [skip] characters of a match are
    still to be passed. *)
Fixpoint findall_from (skip : nat) (s : pystr) : list pystr :=
  match s with
  | [] => []
  | _ :: s' =>
      match skip with
      | S k => findall_from k s'
      | O =>
          match match_number s with
          | Some n => take n s :: findall_from (n - 1) s'
          | None => findall_from O s'
          end
      end
  end.

Definition findall_numbers (s : pystr) : list pystr := findall_from O s.

(** [re.sub(number_regex_str, repl, s)] *)
Fixpoint sub_from (repl : pystr) (skip : nat) (s : pystr) : pystr :=
  match s with
  | [] => []
  | c :: s' =>
      match skip with
      | S k => sub_from repl k s'
      | O =>
          match match_number s with
          | Some n => repl ++ sub_from repl (n - 1) s'
          | None => c :: sub_from repl O s'
          end
      end
  end.

Definition sub_numbers (repl s : pystr) : pystr := sub_from repl O s.

(** [re.sub(r'\n{2,}', '\n', s)]: of a run of newlines the last one is
    kept. *)
Fixpoint collapse_newlines (s : pystr) : pystr :=
  match s with
  | [] => []
  | c :: s' =>
      if bool_decide (c = LF) then
        match s' with
        | d :: _ => if bool_decide (d = LF) then collapse_newlines s'
                    else c :: collapse_newlines s'
        | [] => [c]
        end
      else c :: collapse_newlines s'
  end.

(** [\b] between two neighbours; the ends of the text count as
    non-word characters. *)
Definition is_word_opt (o : option Z) : bool :=
  match o with
  | Some c => is_word c
  | None => false
  end.

Definition word_boundary (prev next : option Z) : bool :=
  xorb (is_word_opt prev) (is_word_opt next).

(** The leftmost match of [\b old \b] for a literal, non-empty [old],
    replaced by [new]: [None] when there is no match.  [prev] is the
    character before [s]. *)
Fixpoint sub_word_first (old new : pystr) (prev : option Z) (s : pystr)
    : option pystr :=
  match s with
  | [] => None
  | c :: s' =>
      if Py.startswith old s
         && word_boundary prev (Some c)
         && word_boundary (last old) (head (drop (length old) s))
      then Some (new ++ drop (length old) s)
      else option_map (cons c) (sub_word_first old new (Some c) s')
  end.

(** [re.sub(r'\b' + re.escape(old) + r'\b', new, s, count=1)] for
    texts [old] and [new] made of digits, [.] and [%]. *)
Definition sub_word_once (old new s : pystr) : pystr :=
  default s (sub_word_first old new None s).

End Re.

Module Resolver.
Import Unicode Re.

(** *** JSON data *)

(** A value of a namespace: a string, or any other JSON value, which
    the functions pass on as it is ([n] names it). *)
Inductive jvalue : Type :=
| JStr (s : pystr)
| JOther (n : Z).

(** What stands under a namespace: a dictionary, in the order of its
    keys, or any other JSON value. *)
Inductive jnamespace : Type :=
| NsDict (items : list (pystr * jvalue))
| NsOther (n : Z).

(** [d.get(k)] on a dictionary given by its items. *)
Fixpoint dict_get {V} (d : list (pystr * V)) (k : pystr) : option V :=
  match d with
  | [] => None
  | (k', v) :: d' => if bool_decide (k' = k) then Some v else dict_get d' k
  end.

Definition chinese_ranges : list (Z * Z) :=
  [ (19968, 40959); (13312, 19903); (63744, 64255); (131072, 173791);
    (173824, 177983); (177984, 178207); (178208, 183983); (183984, 191471);
    (191472, 192095); (196608, 201551); (201552, 205743); (194560, 195103) ].

Definition cyrillic_ranges : list (Z * Z) :=
  [ (1024, 1279); (1280, 1327); (11744, 11775); (42560, 42655) ].

(** [re.search] of a character class: some character is in it. *)
Definition contains_cn_or_ru (text : pystr) : bool :=
  if existsb (in_ranges chinese_ranges) text
     || existsb (in_ranges cyrillic_ranges) text
  then true else false.

(** [s.strip()] *)
Fixpoint lstrip (s : pystr) : pystr :=
  match s with
  | c :: s' => if is_space c then lstrip s' else s
  | [] => []
  end.

Definition strip (s : pystr) : pystr := rev (lstrip (rev (lstrip s))).

Definition normalize_text_for_pattern_key (text : pystr) : pystr :=
  let normalized_newlines :=
    Py.replace [CR] [LF] (Py.replace [CR; LF] [LF] text) in
  let text_without_rtp_tag :=
    Py.replace (Py.lit "<RTP_Default></>") [] normalized_newlines in
  let collapsed_newlines := collapse_newlines text_without_rtp_tag in
  strip collapsed_newlines.

(** [PATTERN_CACHE] holds the results of this function under its
    argument; see [extract_number_pattern_cached]. *)
Definition extract_number_pattern (original_text : pystr) : pystr * list pystr :=
  let text_for_pattern_key := normalize_text_for_pattern_key original_text in
  let numbers := findall_numbers original_text in
  let pattern_key_generated := sub_numbers (Py.lit "{}") text_for_pattern_key in
  (pattern_key_generated, numbers).

(** The function with its cache. *)
Definition extract_number_pattern_cached
    (PATTERN_CACHE : gmap pystr (pystr * list pystr)) (original_text : pystr)
    : (pystr * list pystr) * gmap pystr (pystr * list pystr) :=
  match PATTERN_CACHE !! original_text with
  | Some result => (result, PATTERN_CACHE)
  | None =>
      let result := extract_number_pattern original_text in
      (result, <[original_text := result]> PATTERN_CACHE)
  end.

Definition replace_numbers_in_translation
    (original_chinese template_chinese template_translation : pystr)
    : option pystr :=
  let '(orig_pattern, orig_numbers) := extract_number_pattern original_chinese in
  let '(template_pattern, template_numbers) :=
    extract_number_pattern template_chinese in
  let '(trans_pattern, trans_numbers) :=
    extract_number_pattern template_translation in
  if negb (bool_decide (orig_pattern = template_pattern)) then None
  else if negb (length orig_numbers =? length template_numbers)%nat
          || negb (length orig_numbers =? length trans_numbers)%nat then None
  else
    Some (fold_left
            (fun result '(old_num, new_num) => sub_word_once old_num new_num result)
            (zip trans_numbers orig_numbers) template_translation).

(** *** The index *)

Record index : Type := {
  exact : gmap pystr pystr;
  pattern : gmap pystr (list (pystr * pystr * pystr))
}.

Definition truthy (s : pystr) : bool :=
  match s with [] => false | _ => true end.

(** The body of the inner loop of [build_translation_index]. *)
Definition index_entry (namespace : pystr) (idx : index)
    (item : pystr * jvalue) : index :=
  let '(chinese_key, v) := item in
  match v with
  | JOther _ => idx
  | JStr translation =>
      if negb (truthy translation) then idx
      else
        let normalized_cjk_for_exact_index :=
          normalize_text_for_pattern_key chinese_key in
        let exact' :=
          match exact idx !! normalized_cjk_for_exact_index with
          | None => <[normalized_cjk_for_exact_index := translation]> (exact idx)
          | Some _ => exact idx
          end in
        let '(pattern_key, numbers) := extract_number_pattern chinese_key in
        let pattern' :=
          if truthy pattern_key && negb (bool_decide (numbers = [])) then
            <[pattern_key := default [] (pattern idx !! pattern_key)
                             ++ [(chinese_key, translation, namespace)]]>
              (pattern idx)
          else pattern idx in
        {| exact := exact'; pattern := pattern' |}
  end.

Definition index_namespace (idx : index) (ns : pystr * jnamespace) : index :=
  let '(namespace, namespace_dict) := ns in
  match namespace_dict with
  | NsOther _ => idx
  | NsDict items => fold_left (index_entry namespace) items idx
  end.

Definition build_translation_index (translation_map : list (pystr * jnamespace))
    : index :=
  fold_left index_namespace translation_map {| exact := ∅; pattern := ∅ |}.

(** *** The resolver *)

Inductive method : Type :=
| exact_global_fully_normalized
| pattern_original_fully_normalized_pattern
| st_exact_fully_normalized
| st_pattern_fully_normalized_pattern.

Section WithConverters.

(** The two converters of OpenCC; [None] when [convert] raises. *)
Variable s2t_convert : pystr -> option pystr.
Variable t2s_convert : pystr -> option pystr.

(** [CONVERSION_CACHE] holds the results of this function under its
    argument. *)
Definition get_opencc_conversions (text : pystr) : pystr * pystr :=
  match s2t_convert text with
  | Some traditional =>
      match t2s_convert text with
      | Some simplified => (traditional, simplified)
      | None => (text, text)
      end
  | None => (text, text)
  end.

(** The loop over the candidates of a pattern: the first adapted
    translation that is not empty. *)
Fixpoint first_adapted (chinese_text_to_find : pystr)
    (candidates : list (pystr * pystr * pystr)) : option pystr :=
  match candidates with
  | [] => None
  | (map_chinese_key, map_translation_template, _) :: rest =>
      match replace_numbers_in_translation chinese_text_to_find
              map_chinese_key map_translation_template with
      | Some adapted_translation =>
          if truthy adapted_translation then Some adapted_translation
          else first_adapted chinese_text_to_find rest
      | None => first_adapted chinese_text_to_find rest
      end
  end.

(** The loop over the converted variants of the input. *)
Fixpoint resolve_variants (idx : index) (chinese_text_to_find : pystr)
    (input_numbers : list pystr) (variants : list pystr)
    : option pystr * option method :=
  match variants with
  | [] => (None, None)
  | converted_variant_of_input :: rest =>
      if negb (bool_decide (converted_variant_of_input = chinese_text_to_find))
      then
        let normalized_converted_variant :=
          normalize_text_for_pattern_key converted_variant_of_input in
        match exact idx !! normalized_converted_variant with
        | Some translation => (Some translation, Some st_exact_fully_normalized)
        | None =>
            let converted_input_pattern_key :=
              (extract_number_pattern converted_variant_of_input).1 in
            match
              (if truthy converted_input_pattern_key
                  && negb (bool_decide (input_numbers = []))
               then
                 match pattern idx !! converted_input_pattern_key with
                 | Some candidates => first_adapted chinese_text_to_find candidates
                 | None => None
                 end
               else None)
            with
            | Some adapted_translation =>
                (Some adapted_translation, Some st_pattern_fully_normalized_pattern)
            | None => resolve_variants idx chinese_text_to_find input_numbers rest
            end
        end
      else resolve_variants idx chinese_text_to_find input_numbers rest
  end.

(** The resolution procedure: what [find_existing_translation_elsewhere]
    does with the index once the input is not in the session cache.
    Every path stores its result in the cache and returns it. *)
Definition resolve (idx : index) (chinese_text_to_find : pystr)
    : option pystr * option method :=
  let normalized_input_for_exact :=
    normalize_text_for_pattern_key chinese_text_to_find in
  match exact idx !! normalized_input_for_exact with
  | Some translation => (Some translation, Some exact_global_fully_normalized)
  | None =>
      let '(input_pattern_key, input_numbers) :=
        extract_number_pattern chinese_text_to_find in
      match
        (if truthy input_pattern_key && negb (bool_decide (input_numbers = []))
         then
           match pattern idx !! input_pattern_key with
           | Some candidates => first_adapted chinese_text_to_find candidates
           | None => None
           end
         else None)
      with
      | Some adapted_translation =>
          (Some adapted_translation, Some pattern_original_fully_normalized_pattern)
      | None =>
          let '(traditional_input, simplified_input) :=
            get_opencc_conversions chinese_text_to_find in
          resolve_variants idx chinese_text_to_find input_numbers
            [traditional_input; simplified_input]
      end
  end.

(** The globals of a run. *)
Record session : Type := {
  SESSION_CROSS_NAMESPACE_TRANSLATIONS_CACHE :
    gmap pystr (option pystr * option method);
  TRANSLATION_MAP_INDEX : option index
}.

(** The globals after the reset at the start of
    [translate_data_with_conditions]. *)
Definition fresh : session :=
  {| SESSION_CROSS_NAMESPACE_TRANSLATIONS_CACHE := ∅;
     TRANSLATION_MAP_INDEX := None |}.

Definition find_existing_translation_elsewhere (chinese_text_to_find : pystr)
    (entire_translation_map : list (pystr * jnamespace)) (g : session)
    : (option pystr * option method) * session :=
  if negb (truthy chinese_text_to_find) then ((None, None), g)
  else
    match SESSION_CROSS_NAMESPACE_TRANSLATIONS_CACHE g !! chinese_text_to_find with
    | Some cached => (cached, g)
    | None =>
        let idx :=
          match TRANSLATION_MAP_INDEX g with
          | Some idx => idx
          | None => build_translation_index entire_translation_map
          end in
        let result := resolve idx chinese_text_to_find in
        (result,
         {| SESSION_CROSS_NAMESPACE_TRANSLATIONS_CACHE :=
              <[chinese_text_to_find := result]>
                (SESSION_CROSS_NAMESPACE_TRANSLATIONS_CACHE g);
            TRANSLATION_MAP_INDEX := Some idx |})
    end.

(** The resolution procedure is entered: the input is a non-empty
    string that the session cache does not hold. *)
Definition enters_resolution (chinese_text_to_find : pystr) (g : session) : bool :=
  truthy chinese_text_to_find
  && negb (bool_decide
             (is_Some (SESSION_CROSS_NAMESPACE_TRANSLATIONS_CACHE g
                         !! chinese_text_to_find))).

(** A run: the calls in their order, each with the table it is given.
    The results, and the inputs for which the resolution procedure was
    entered. *)
Fixpoint run_calls (calls : list (pystr * list (pystr * jnamespace)))
    (g : session) : list (option pystr * option method) * list pystr :=
  match calls with
  | [] => ([], [])
  | (s, tm) :: rest =>
      let '(r, g') := find_existing_translation_elsewhere s tm g in
      let '(rs, entered) := run_calls rest g' in
      (r :: rs, if enters_resolution s g then s :: entered else entered)
  end.

(** *** The translation stage *)

(** A namespace of [translated_data]. *)
Inductive translated_namespace : Type :=
| Translated (d : gmap pystr jvalue)
| PassedOn (n : Z).

(** The variables of the loops. *)
Record progress : Type := {
  globals : session;
  translated_data : gmap pystr translated_namespace;
  untranslated_excerpt : gmap pystr (gset pystr);
  used_translation_map : gmap pystr (gmap pystr pystr)
}.

Definition skipped (value_to_translate : pystr) : bool :=
  Py.contains (Py.lit ".data") value_to_translate
  || Py.contains (Py.lit "Texture2D") value_to_translate
  || negb (contains_cn_or_ru value_to_translate).

(** [translated_data[namespace][key] = value] *)
Definition set_translated (namespace key : pystr) (value : jvalue)
    (t : gmap pystr translated_namespace) : gmap pystr translated_namespace :=
  match t !! namespace with
  | Some (Translated d) => <[namespace := Translated (<[key := value]> d)]> t
  | _ => t
  end.

(** The translation of the namespace's own dictionary, if it has one
    that counts. *)
Definition own_translation (current_namespace_translation_dict : option jnamespace)
    (value_to_translate : pystr) : option pystr :=
  match current_namespace_translation_dict with
  | Some (NsDict ((_ :: _) as items)) =>
      match dict_get items value_to_translate with
      | Some (JStr english_translation) =>
          if truthy english_translation then Some english_translation else None
      | _ => None
      end
  | _ => None
  end.

Definition record_used (namespace source translation : pystr)
    (u : gmap pystr (gmap pystr pystr)) : gmap pystr (gmap pystr pystr) :=
  <[namespace := <[source := translation]> (default ∅ (u !! namespace))]> u.

(** The body of the loop over the keys of a namespace. *)
Definition translate_entry (translation_map_obj_as_is : list (pystr * jnamespace))
    (namespace : pystr) (current_namespace_translation_dict : option jnamespace)
    (st : progress) (item : pystr * jvalue) : progress :=
  let '(key, value) := item in
  match value with
  | JOther _ =>
      {| globals := globals st;
         translated_data := set_translated namespace key value (translated_data st);
         untranslated_excerpt := untranslated_excerpt st;
         used_translation_map := used_translation_map st |}
  | JStr value_to_translate =>
      if Py.contains (Py.lit ".data") value_to_translate
         || Py.contains (Py.lit "Texture2D") value_to_translate
      then
        {| globals := globals st;
           translated_data := set_translated namespace key value (translated_data st);
           untranslated_excerpt := untranslated_excerpt st;
           used_translation_map := used_translation_map st |}
      else if negb (contains_cn_or_ru value_to_translate) then
        {| globals := globals st;
           translated_data := set_translated namespace key value (translated_data st);
           untranslated_excerpt := untranslated_excerpt st;
           used_translation_map := used_translation_map st |}
      else
        match own_translation current_namespace_translation_dict
                value_to_translate with
        | Some english_translation =>
            {| globals := globals st;
               translated_data :=
                 set_translated namespace key (JStr english_translation)
                   (translated_data st);
               untranslated_excerpt := untranslated_excerpt st;
               used_translation_map :=
                 record_used namespace value_to_translate english_translation
                   (used_translation_map st) |}
        | None =>
            let '((retrieved_translation_str, _), g') :=
              find_existing_translation_elsewhere value_to_translate
                translation_map_obj_as_is (globals st) in
            match retrieved_translation_str with
            | Some ((_ :: _) as retrieved) =>
                {| globals := g';
                   translated_data :=
                     set_translated namespace key (JStr retrieved)
                       (translated_data st);
                   untranslated_excerpt := untranslated_excerpt st;
                   used_translation_map :=
                     record_used namespace value_to_translate retrieved
                       (used_translation_map st) |}
            | _ =>
                {| globals := g';
                   translated_data :=
                     set_translated namespace key value (translated_data st);
                   untranslated_excerpt :=
                     <[namespace :=
                         {[value_to_translate]}
                         ∪ default ∅ (untranslated_excerpt st !! namespace)]>
                       (untranslated_excerpt st);
                   used_translation_map := used_translation_map st |}
            end
        end
  end.

(** The body of the loop over the namespaces. *)
Definition translate_namespace
    (translation_map_obj_as_is : list (pystr * jnamespace))
    (st : progress) (ns : pystr * jnamespace) : progress :=
  let '(namespace_from_unified_data, key_value_pairs_from_unified_data) := ns in
  match key_value_pairs_from_unified_data with
  | NsOther n =>
      {| globals := globals st;
         translated_data :=
           <[namespace_from_unified_data := PassedOn n]> (translated_data st);
         untranslated_excerpt := untranslated_excerpt st;
         used_translation_map := used_translation_map st |}
  | NsDict items =>
      let current_namespace_translation_dict :=
        dict_get translation_map_obj_as_is namespace_from_unified_data in
      fold_left
        (translate_entry translation_map_obj_as_is namespace_from_unified_data
           current_namespace_translation_dict)
        items
        {| globals := globals st;
           translated_data :=
             <[namespace_from_unified_data := Translated ∅]> (translated_data st);
           untranslated_excerpt := untranslated_excerpt st;
           used_translation_map := used_translation_map st |}
  end.

(** The loops of [translate_data_with_conditions]; the table of the
    caller is updated with [used_translation_map] after them. *)
Definition translate_data_with_conditions
    (unified_data : list (pystr * jnamespace))
    (translation_map_obj_as_is : list (pystr * jnamespace)) : progress :=
  fold_left (translate_namespace translation_map_obj_as_is) unified_data
    {| globals := fresh; translated_data := ∅;
       untranslated_excerpt := ∅; used_translation_map := ∅ |}.

End WithConverters.

(** The cache holds results of the function only. *)
Definition pattern_cache_ok (c : gmap pystr (pystr * list pystr)) : Prop :=
  forall t r, c !! t = Some r -> r = extract_number_pattern t.

(** What a call on [s] returns is settled: the cache holds it, or [s]
    is the empty string. *)
Definition settled (g : session) (s : pystr)
    (r : option pystr * option method) : Prop :=
  if truthy s then SESSION_CROSS_NAMESPACE_TRANSLATIONS_CACHE g !! s = Some r else r = (None, None).

(** No skipped value is in the excerpt. *)
Definition excerpt_ok (x : gmap pystr (gset pystr)) : Prop :=
  forall ns v, v ∈ default ∅ (x !! ns) -> skipped v = false.

(** *** The table as the index sees it *)

(** The entries the index is built from, in the order of the table:
    source, translation and namespace of every non-empty string
    translation. *)
Definition entries_of_namespace (ns : pystr * jnamespace)
    : list (pystr * pystr * pystr) :=
  match ns.2 with
  | NsOther _ => []
  | NsDict items =>
      flat_map
        (fun item : pystr * jvalue =>
           match item.2 with
           | JStr translation =>
               if truthy translation then [(item.1, translation, ns.1)] else []
           | JOther _ => []
           end)
        items
  end.

Definition entries_of (translation_map : list (pystr * jnamespace))
    : list (pystr * pystr * pystr) :=
  flat_map entries_of_namespace translation_map.

(** The entries whose normalized source is [k]. *)
Definition exact_candidates (translation_map : list (pystr * jnamespace))
    (k : pystr) : list (pystr * pystr * pystr) :=
  List.filter
    (fun e => bool_decide (normalize_text_for_pattern_key e.1.1 = k))
    (entries_of translation_map).

(** An entry is a candidate of the template [key]. *)
Definition has_template (key : pystr) (e : pystr * pystr * pystr) : bool :=
  let '(pattern_key, numbers) := extract_number_pattern e.1.1 in
  truthy pattern_key && negb (bool_decide (numbers = []))
  && bool_decide (pattern_key = key).

Definition pattern_candidates (translation_map : list (pystr * jnamespace))
    (key : pystr) : list (pystr * pystr * pystr) :=
  List.filter (has_template key) (entries_of translation_map).

(** *** The stage without its caches *)

Section Plain.

Variable s2t_convert t2s_convert : pystr -> option pystr.
Variable translation_map : list (pystr * jnamespace).

(** The translation of a value of the namespace: the one of the
    namespace's own dictionary, or else the one the resolution
    procedure finds in the index of the table. *)
Definition translation_of (namespace value_to_translate : pystr)
    : option pystr :=
  match own_translation (dict_get translation_map namespace) value_to_translate with
  | Some english_translation => Some english_translation
  | None =>
      match (resolve s2t_convert t2s_convert
               (build_translation_index translation_map) value_to_translate).1 with
      | Some ((_ :: _) as retrieved) => Some retrieved
      | _ => None
      end
  end.

(** The value an entry comes out with. *)
Definition final_value (namespace : pystr) (value : jvalue) : jvalue :=
  match value with
  | JOther _ => value
  | JStr value_to_translate =>
      if skipped value_to_translate then value
      else match translation_of namespace value_to_translate with
           | Some translation => JStr translation
           | None => value
           end
  end.

(** The excerpt after an entry: a value that is not skipped and has no
    translation is added to the strings of its namespace. *)
Definition excerpt_after (namespace : pystr) (value : jvalue)
    (x : gmap pystr (gset pystr)) : gmap pystr (gset pystr) :=
  match value with
  | JStr v =>
      if negb (skipped v) && bool_decide (translation_of namespace v = None)
      then <[namespace := {[v]} ∪ default ∅ (x !! namespace)]> x
      else x
  | JOther _ => x
  end.

(** The globals hold the index of the table and results of the
    resolution procedure on it, or nothing yet. *)
Definition session_ok (g : session) : Prop :=
  (forall idx, TRANSLATION_MAP_INDEX g = Some idx ->
     idx = build_translation_index translation_map)
  /\ (forall s r, SESSION_CROSS_NAMESPACE_TRANSLATIONS_CACHE g !! s = Some r ->
        r = resolve s2t_convert t2s_convert
              (build_translation_index translation_map) s).

End Plain.

(** *** Sample tables *)

Definition ZAO : Z := 36896.   (* U+9020 *)
Definition CHENG : Z := 25104. (* U+6210 *)
Definition DIAN : Z := 28857.  (* U+70B9 *)
Definition SHANG : Z := 20260. (* U+4F24 *)
Definition HAI : Z := 23475.   (* U+5BB3 *)

(** The source text of the damage line with the number [n] in braces. *)
Definition damage_source (n : string) : pystr :=
  [ZAO; CHENG] ++ Py.lit "{" ++ Py.lit n ++ Py.lit "}" ++ [DIAN; SHANG; HAI].

Definition damage_table : list (pystr * jnamespace) :=
  [(Py.lit "Skill",
    NsDict [(damage_source "100", JStr (Py.lit "Deals {100} damage"))])].

(** A table that holds the same entry after another one of the same
    template. *)
Definition damage_table_two : list (pystr * jnamespace) :=
  [(Py.lit "Skill",
    NsDict [(damage_source "300", JStr (Py.lit "Inflicts {300} damage"));
            (damage_source "100", JStr (Py.lit "Deals {100} damage"))])].

(** A source text with a percentage. *)
Definition percent_source (n : string) : pystr :=
  [ZAO; CHENG] ++ Py.lit n ++ [SHANG; HAI].

Definition percent_table : list (pystr * jnamespace) :=
  [(Py.lit "Skill",
    NsDict [(percent_source "50%", JStr (Py.lit "Deals 50% damage"))])].

(** The calls of a sample run: the same source three times, with
    different tables, and the empty string. *)
Definition sample_calls : list (pystr * list (pystr * jnamespace)) :=
  [(damage_source "250", damage_table);
   (damage_source "250", []);
   ([], damage_table);
   (damage_source "250", damage_table_two)].

(** Unified data with an asset path and a text. *)
Definition sample_unified : list (pystr * jnamespace) :=
  [(Py.lit "UI",
    NsDict [(Py.lit "icon", JStr (Py.lit "/Game/UI/Texture2D/" ++ [ZAO]));
            (Py.lit "hit", JStr (damage_source "250"));
            (Py.lit "miss", JStr [SHANG; HAI])])].

(** Converters that change nothing. *)
Definition no_conversion (text : pystr) : option pystr := Some text.

End Resolver.
(** ** [2_normalize_files.py]: the unified data *)

Module Unify.
Import Resolver.

(** An entry of the resource files, as [parse_locres_csv] returns it. *)
Record locres_entry : Type := {
  source : pystr;
  ns_hash : Z;
  key_hash : Z;
  source_str_hash : Z
}.

(** An entry of the JSON format strings, as [parse_formatstring_json]
    returns it: the text, which is any JSON value, and the two fields
    of its metadata. *)
Record json_entry : Type := {
  text : jvalue;
  metadata_flags : jvalue;
  metadata_note : jvalue
}.

(** [all_extracted_data_by_source[version_name]]: under every source
    type a dictionary of namespaces, each a dictionary of keys, in the
    order of their keys. *)
Record version_data : Type := {
  FormatString_Txt : list (pystr * list (pystr * pystr));
  FormatString_Json : list (pystr * list (pystr * json_entry));
  LocRes : list (pystr * list (pystr * locres_entry));
  UI_Assets : list (pystr * list (pystr * jvalue))
}.

(** The loops over the namespaces and the keys of one source:
    [final_unified_json[namespace][key] = actual_value]. *)
Definition merge_pairs {V} (actual_value : V -> jvalue) (namespace : pystr)
    (final_unified_json : gmap pystr (gmap pystr jvalue))
    (kv_pairs : list (pystr * V)) : gmap pystr (gmap pystr jvalue) :=
  fold_left
    (fun final item =>
       <[namespace := <[item.1 := actual_value item.2]>
                        (default ∅ (final !! namespace))]> final)
    kv_pairs final_unified_json.

Definition merge_source {V} (actual_value : V -> jvalue)
    (final_unified_json : gmap pystr (gmap pystr jvalue))
    (data_for_source : list (pystr * list (pystr * V)))
    : gmap pystr (gmap pystr jvalue) :=
  fold_left
    (fun final ns =>
       let final :=
         match final !! ns.1 with
         | None => <[ns.1 := ∅]> final
         | Some _ => final
         end in
       merge_pairs actual_value ns.1 final ns.2)
    data_for_source final_unified_json.

(** The source types in the order of their priority. *)
Definition merge_version (final_unified_json : gmap pystr (gmap pystr jvalue))
    (v : version_data) : gmap pystr (gmap pystr jvalue) :=
  let final := merge_source JStr final_unified_json (FormatString_Txt v) in
  let final := merge_source text final (FormatString_Json v) in
  let final := merge_source (fun e => JStr (source e)) final (LocRes v) in
  merge_source (fun value => value) final (UI_Assets v).

(** [final_unified_json] after the loop over [GAME_VERSIONS_ORDER]; the
    argument holds the data of the versions in this order. *)
Definition final_unified_json (versions : list version_data)
    : gmap pystr (gmap pystr jvalue) :=
  fold_left merge_version versions ∅.

(** [final_unified_json[namespace][key]], if there is one. *)
Definition unified_value (final : gmap pystr (gmap pystr jvalue))
    (namespace key : pystr) : option jvalue :=
  match final !! namespace with
  | Some d => d !! key
  | None => None
  end.

(** What the sources hold, in the order of the merge: namespace, key
    and value. *)
Definition contributions_of_source {V} (actual_value : V -> jvalue)
    (data_for_source : list (pystr * list (pystr * V)))
    : list (pystr * pystr * jvalue) :=
  flat_map
    (fun ns : pystr * list (pystr * V) =>
       map (fun item : pystr * V => (ns.1, item.1, actual_value item.2)) ns.2)
    data_for_source.

Definition contributions_of_version (v : version_data)
    : list (pystr * pystr * jvalue) :=
  contributions_of_source JStr (FormatString_Txt v)
  ++ contributions_of_source text (FormatString_Json v)
  ++ contributions_of_source (fun e => JStr (source e)) (LocRes v)
  ++ contributions_of_source (fun value => value) (UI_Assets v).

Definition contributions (versions : list version_data)
    : list (pystr * pystr * jvalue) :=
  flat_map contributions_of_version versions.

(** The contributions to one key. *)
Definition for_key {V} (namespace key : pystr) (l : list (pystr * pystr * V))
    : list (pystr * pystr * V) :=
  List.filter (fun c => bool_decide (c.1 = (namespace, key))) l.

(** *** The resource table with its hashes *)

Section WithLibraries.

Variable CityHash64 : bytes -> Z.
Variable zlib_crc32 : bytes -> Z.

(** The first loop: [unified_locres_for_csv[(namespace, key_part)] =
    entry_data]. *)
Definition add_locres (unified_locres_for_csv : gmap (pystr * pystr) locres_entry)
    (v : version_data) : gmap (pystr * pystr) locres_entry :=
  fold_left
    (fun d ns =>
       fold_left (fun d item => <[(ns.1, item.1) := item.2]> d) ns.2 d)
    (LocRes v) unified_locres_for_csv.

(** The body of the [try] block of the second loop. *)
Definition entry_data_for_ui (namespace key : pystr) (source_value_ui : jvalue)
    : pyresult locres_entry :=
  match source_value_ui with
  | JOther _ => Raise TypeError
  | JStr s =>
      let! source_str_hash := Hashes.calculate_source_string_hash zlib_crc32 s in
      let! key_hash :=
        Hashes.calculate_optimized_cityhash64_utf16_key_hash (Some CityHash64) key in
      let! ns_hash :=
        if bool_decide (namespace = []) then Ok 0
        else Hashes.calculate_optimized_cityhash64_utf16_key_hash
               (Some CityHash64) namespace in
      Ok {| source := s; ns_hash := ns_hash; key_hash := key_hash;
            source_str_hash := source_str_hash |}
  end.

(** The second loop: an entry of the UI assets is added when the table
    does not hold its key; an exception is reported and the entry left
    out. *)
Definition add_ui (unified_locres_for_csv : gmap (pystr * pystr) locres_entry)
    (v : version_data) : gmap (pystr * pystr) locres_entry :=
  fold_left
    (fun d ns =>
       fold_left
         (fun d item =>
            match d !! (ns.1, item.1) with
            | Some _ => d
            | None =>
                match entry_data_for_ui ns.1 item.1 item.2 with
                | Ok entry => <[(ns.1, item.1) := entry]> d
                | Raise _ => d
                end
            end)
         ns.2 d)
    (UI_Assets v) unified_locres_for_csv.

Definition unified_locres_for_csv (versions : list version_data)
    : gmap (pystr * pystr) locres_entry :=
  fold_left add_ui versions (fold_left add_locres versions ∅).

(** The entries of the resource files, and the entries made of the UI
    assets whose hashes could be computed, in the order of the loops. *)
Definition locres_entries (versions : list version_data)
    : list (pystr * pystr * locres_entry) :=
  flat_map
    (fun v =>
       flat_map
         (fun ns : pystr * list (pystr * locres_entry) =>
            map (fun item : pystr * locres_entry => (ns.1, item.1, item.2)) ns.2)
         (LocRes v))
    versions.

Definition ui_entries (versions : list version_data)
    : list (pystr * pystr * locres_entry) :=
  flat_map
    (fun v =>
       flat_map
         (fun ns : pystr * list (pystr * jvalue) =>
            flat_map
              (fun item : pystr * jvalue =>
                 match entry_data_for_ui ns.1 item.1 item.2 with
                 | Ok entry => [(ns.1, item.1, entry)]
                 | Raise _ => []
                 end)
              ns.2)
         (UI_Assets v))
    versions.

End WithLibraries.

(** Two versions: the first with an entry of the resource files, the
    second with two entries of the UI assets, one of them under the
    same key. *)
Definition sample_versions : list version_data :=
  [ {| FormatString_Txt := []; FormatString_Json := [];
       LocRes := [(Py.lit "UI",
                   [(Py.lit "ok",
                     {| source := [ZAO]; ns_hash := 7; key_hash := 11;
                        source_str_hash := 21 |})])];
       UI_Assets := [] |};
    {| FormatString_Txt := []; FormatString_Json := []; LocRes := [];
       UI_Assets := [(Py.lit "UI",
                      [(Py.lit "ok", JStr [CHENG]);
                       (Py.lit "new", JStr [DIAN])])] |} ].

End Unify.


(** * Properties *)

(** ** Facts about the string primitives *)

Module PyFacts.
Import Py.

Lemma len_nonneg {A} (s : list A) : 0 <= len s.
Proof. unfold len. lia. Qed.

Lemma len_app {A} (a b : list A) : len (a ++ b) = len a + len b.
Proof. unfold len. rewrite length_app. lia. Qed.

Lemma norm_index_range n i : 0 <= n -> 0 <= norm_index n i <= n.
Proof. unfold norm_index. intros Hn. destruct (Z.ltb_spec i 0); lia. Qed.

Lemma norm_index_id n i : 0 <= i <= n -> norm_index n i = i.
Proof. unfold norm_index. intros H. destruct (Z.ltb_spec i 0); lia. Qed.

Lemma norm_index_le n i : 0 <= i -> 0 <= n -> norm_index n i <= i.
Proof. unfold norm_index. intros. destruct (Z.ltb_spec i 0); lia. Qed.

Lemma slice_length_le {A} (s : list A) lo hi :
  0 <= lo <= len s -> 0 <= hi -> len (slice s lo hi) <= hi - lo \/ slice s lo hi = [].
Proof.
  intros Hlo Hhi. unfold slice.
  rewrite (norm_index_id _ lo) by lia.
  pose proof (norm_index_le (len s) hi Hhi (len_nonneg s)) as Hh.
  destruct (Z.le_gt_cases (norm_index (len s) hi - lo) 0) as [Hle|Hgt].
  - right. replace (Z.to_nat _) with O by lia. reflexivity.
  - left. unfold len in *. rewrite length_take. lia.
Qed.

Lemma slice_from_length {A} (s : list A) lo :
  0 <= lo <= len s -> len (slice_from s lo) = len s - lo.
Proof.
  intros H. unfold slice_from. rewrite norm_index_id by lia.
  unfold len in *. rewrite length_drop. lia.
Qed.

Lemma last_index_lt c s j : last_index c s = Some j -> (j < length s)%nat.
Proof.
  revert j. induction s as [|a s IH]; intros j; simpl; [discriminate|].
  destruct (last_index c s) as [k|].
  - intros [= <-]. specialize (IH k eq_refl). lia.
  - destruct (bool_decide (a = c)); [intros [= <-]; lia | discriminate].
Qed.

Lemma split_on_nonempty c s : split_on c s <> [].
Proof.
  destruct s as [|a s]; simpl; [discriminate|].
  destruct (bool_decide (a = c)); [discriminate|].
  destruct (split_on c s); discriminate.
Qed.

Lemma split_on_app_sep c a b :
  split_on c (a ++ c :: b) = split_on c a ++ split_on c b.
Proof.
  induction a as [|x a IH]; simpl.
  - rewrite bool_decide_eq_true_2 by reflexivity. reflexivity.
  - destruct (bool_decide (x = c)).
    + rewrite IH. reflexivity.
    + rewrite IH. pose proof (split_on_nonempty c a) as Hne.
      destruct (split_on c a) as [|p ps]; [contradiction|]. reflexivity.
Qed.

Lemma split_on_pieces_le c s :
  Forall (fun p => (length p <= length s)%nat) (split_on c s).
Proof.
  induction s as [|a s IH]; simpl.
  - constructor; [simpl; lia | constructor].
  - destruct (bool_decide (a = c)).
    + constructor; [simpl; lia|].
      eapply Forall_impl; [exact IH|]. simpl. intros; lia.
    + destruct (split_on c s) as [|p ps].
      * constructor; [simpl; lia | constructor].
      * inversion IH as [|? ? Hp Hps]; subst. constructor; [simpl; lia|].
        eapply Forall_impl; [exact Hps|]. simpl. intros; lia.
Qed.

Lemma split_on_join c parts :
  parts <> [] ->
  split_on c (join [c] parts) = concat (map (split_on c) parts).
Proof.
  induction parts as [|p ps IH]; [contradiction|]. intros _.
  destruct ps as [|q ps].
  - simpl. rewrite app_nil_r. reflexivity.
  - change (join [c] (p :: q :: ps)) with (p ++ c :: join [c] (q :: ps)).
    rewrite split_on_app_sep, IH by discriminate.
    reflexivity.
Qed.

End PyFacts.

(** ** The hashes of the identity model *)

Module HashFacts.
Import Py PyFacts Hashes.


(** *** [str.replace] unfolds one occurrence at a time *)

Lemma startswith_length p s : startswith p s = true -> (length p <= length s)%nat.
Proof.
  revert s. induction p as [|a p IH]; intros [|b s]; simpl; try lia; try discriminate.
  intros H. apply andb_true_iff in H as [_ H]. apply IH in H. lia.
Qed.

Lemma replace_fuel_enough old new : old <> [] ->
  forall fuel s, (length s <= fuel)%nat ->
  replace_fuel fuel old new s = replace_fuel (length s) old new s.
Proof.
  intros Hold fuel. induction fuel as [fuel IH] using lt_wf_ind.
  intros s Hs. destruct s as [|a s]; [destruct fuel; reflexivity|].
  destruct fuel as [|fuel]; [simpl in Hs; lia|].
  cbn [replace_fuel length].
  destruct (startswith old (a :: s)) eqn:E.
  - f_equal. pose proof (startswith_length _ _ E) as Hl.
    destruct old as [|o old]; [contradiction|].
    cbn [length drop] in *.
    rewrite (IH fuel) by (try rewrite length_drop; lia).
    rewrite (IH (length s)); [reflexivity| lia | rewrite length_drop; lia].
  - f_equal. apply IH; simpl in Hs; lia.
Qed.

Lemma replace_nil old new : replace old new [] = [].
Proof. reflexivity. Qed.

Lemma replace_cons old new a s : old <> [] ->
  replace old new (a :: s) =
  if startswith old (a :: s)
  then new ++ replace old new (drop (length old) (a :: s))
  else a :: replace old new s.
Proof.
  intros Hold. unfold replace at 1. cbn [length replace_fuel].
  destruct (startswith old (a :: s)) eqn:E; [|reflexivity].
  f_equal. unfold replace. apply replace_fuel_enough; [exact Hold|].
  destruct old as [|o old]; [contradiction|]. cbn [length drop].
  rewrite length_drop. lia.
Qed.

(** *** The three passes compute the CR LF normal form *)

Lemma replace_crlf_cr_is_to_lf s :
  replace [CR] [LF] (replace [CR; LF] [LF] s) = to_lf s.
Proof.
  induction s as [s IH] using (induction_ltof1 _ (@length Z)). unfold ltof in IH.
  destruct s as [|c s]; [reflexivity|].
  rewrite replace_cons by discriminate. cbn [startswith to_lf].
  destruct (bool_decide_reflect (CR = c)) as [<-|Hc].
  - rewrite bool_decide_eq_true_2 by reflexivity.
    destruct s as [|d s].
    + reflexivity.
    + cbn [startswith andb length drop].
      destruct (bool_decide_reflect (LF = d)) as [<-|Hd].
      * rewrite bool_decide_eq_true_2 by reflexivity. cbn [andb app].
        rewrite replace_cons by discriminate. cbn [startswith].
        rewrite bool_decide_eq_false_2 by chr_neq. cbn [andb].
        f_equal. apply IH. simpl. lia.
      * rewrite (bool_decide_eq_false_2 (d = LF)) by congruence. cbn [andb].
        rewrite replace_cons by discriminate. cbn [startswith].
        rewrite bool_decide_eq_true_2 by reflexivity. cbn [andb length drop app].
        f_equal. apply IH. simpl. lia.
  - cbn [andb]. rewrite (bool_decide_eq_false_2 (c = CR)) by congruence.
    rewrite replace_cons by discriminate. cbn [startswith].
    rewrite bool_decide_eq_false_2 by congruence. cbn [andb].
    f_equal. apply IH. simpl. lia.
Qed.

Lemma to_lf_no_cr s : ~ In CR (to_lf s).
Proof.
  induction s as [s IH] using (induction_ltof1 _ (@length Z)). unfold ltof in IH.
  destruct s as [|c s]; [simpl; tauto|]. cbn [to_lf].
  destruct (bool_decide_reflect (c = CR)) as [->|Hc].
  - destruct s as [|d s]; [cbn [In]; intros [H|[]]; chr_neq|].
    destruct (bool_decide (d = LF)); cbn [In]; intros [H|H]; try chr_neq;
      revert H; apply IH; simpl; lia.
  - cbn [In]. intros [H|H]; [congruence|]. revert H. apply IH. simpl. lia.
Qed.

Lemma replace_lf_to_lf_is_to_crlf s :
  replace [LF] [CR; LF] (to_lf s) = to_crlf s.
Proof.
  induction s as [s IH] using (induction_ltof1 _ (@length Z)). unfold ltof in IH.
  destruct s as [|c s]; [reflexivity|]. cbn [to_lf to_crlf].
  destruct (bool_decide_reflect (c = CR)) as [->|Hc].
  - destruct s as [|d s]; [reflexivity|].
    destruct (bool_decide (d = LF));
      rewrite replace_cons by discriminate; cbn [startswith];
      rewrite bool_decide_eq_true_2 by reflexivity; cbn [andb length drop app];
      do 2 f_equal; apply IH; simpl; lia.
  - rewrite replace_cons by discriminate. cbn [startswith].
    destruct (bool_decide_reflect (c = LF)) as [->|Hl].
    + rewrite bool_decide_eq_true_2 by reflexivity. cbn [andb length drop app].
      do 2 f_equal. apply IH. simpl. lia.
    + rewrite bool_decide_eq_false_2 by congruence. cbn [andb].
      f_equal. apply IH. simpl. lia.
Qed.

Lemma normalize_line_endings_for_hash_is_to_crlf s :
  normalize_line_endings_for_hash s = to_crlf s.
Proof.
  unfold normalize_line_endings_for_hash.
  rewrite replace_crlf_cr_is_to_lf. apply replace_lf_to_lf_is_to_crlf.
Qed.

Example normalize_mixed_endings :
  normalize_line_endings_for_hash (lit "a" ++ [CR; LF] ++ lit "b" ++ [CR] ++ lit "c" ++ [LF])
  = lit "a" ++ [CR; LF] ++ lit "b" ++ [CR; LF] ++ lit "c" ++ [CR; LF].
Proof. vm_compute. reflexivity. Qed.

(** *** Masks and shifts are residues and quotients *)

Lemma land_mask32 x : Z.land x 4294967295 = x mod 2^32.
Proof. change 4294967295 with (Z.ones 32). apply Z.land_ones. lia. Qed.

Lemma fold32_bits h64 :
  Z.land (Z.land h64 4294967295 + Z.land (Z.shiftr h64 32) 4294967295 * 23)
    4294967295 = fold32 h64.
Proof.
  unfold fold32. rewrite !land_mask32, Z.shiftr_div_pow2 by lia. reflexivity.
Qed.

Lemma fold32_range h64 : 0 <= fold32 h64 < 2^32.
Proof. unfold fold32. apply Z.mod_pos_bound. lia. Qed.

(** *** The CRC instance agrees with zlib's check value *)

Example crc32_check_value : crc32 (lit "123456789") = 3421780262.
Proof. vm_compute. reflexivity. Qed.

Example source_string_hash_Hello :
  calculate_source_string_hash crc32 (lit "Hello") = Ok 3779286485.
Proof. vm_compute. reflexivity. Qed.

(** The encoding of a text followed by NUL ends in two zero bytes. *)
Lemma utf16le_app a b :
  Codec.utf16le (a ++ b) =
  (let! x := Codec.utf16le a in let! y := Codec.utf16le b in Ok (x ++ y)).
Proof.
  induction a as [|c a IH]; simpl.
  - destruct (Codec.utf16le b); reflexivity.
  - destruct (Codec.encode_char c) as [bc|e]; simpl; [|reflexivity].
    rewrite IH. destruct (Codec.utf16le a) as [x|e]; simpl; [|reflexivity].
    destruct (Codec.utf16le b) as [y|e]; simpl; [|reflexivity].
    rewrite app_assoc. reflexivity.
Qed.

Lemma utf16le_nul_terminated s :
  Codec.utf16le (s ++ [0]) = (let! x := Codec.utf16le s in Ok (x ++ [0; 0])).
Proof. rewrite utf16le_app. reflexivity. Qed.

(** C1: with the hashing library present, the key hash of [s] is the
    32-bit fold [(low32 + high32*23) mod 2^32] of the 64-bit CityHash of
    the UTF-16LE encoding of [s] with every line ending turned into
    CR LF (and the encoding error where [s] has no UTF-16 encoding); the
    value depends on [s] only, so equal inputs give equal results. *)
Theorem key_hash_is_folded_cityhash (CityHash64 : bytes -> Z) (s : pystr) :
  calculate_optimized_cityhash64_utf16_key_hash (Some CityHash64) s
  = (let! encoded := Codec.utf16le (to_crlf s) in
     Ok (fold32 (CityHash64 encoded)))
  /\ forall s', s' = s ->
       calculate_optimized_cityhash64_utf16_key_hash (Some CityHash64) s'
       = calculate_optimized_cityhash64_utf16_key_hash (Some CityHash64) s.
Proof.
  split.
  - unfold calculate_optimized_cityhash64_utf16_key_hash.
    rewrite normalize_line_endings_for_hash_is_to_crlf.
    destruct (Codec.utf16le (to_crlf s)) as [b|e]; simpl; [|reflexivity].
    rewrite fold32_bits. reflexivity.
  - intros s' ->. reflexivity.
Qed.


Lemma key_hash_is_folded_cityhash_witness :
  calculate_optimized_cityhash64_utf16_key_hash (Some sample_hash64)
    (lit "a" ++ [LF])
  = Ok (6 + 23)
  /\ calculate_optimized_cityhash64_utf16_key_hash (Some sample_hash64)
       (lit "a" ++ [LF])
     = calculate_optimized_cityhash64_utf16_key_hash (Some sample_hash64)
         (lit "a" ++ [LF]).
Proof.
  destruct (key_hash_is_folded_cityhash sample_hash64 (lit "a" ++ [LF]))
    as [Hv Hs].
  split.
  - rewrite Hv. vm_compute. reflexivity.
  - apply Hs. reflexivity.
Defined.

(** Without the library the function raises. *)
Lemma key_hash_without_library s :
  calculate_optimized_cityhash64_utf16_key_hash None s = Raise ImportError.
Proof. reflexivity. Qed.

(** C2: the source-string hash of [s] is the CRC32 of the UTF-16LE
    encoding of [s] followed by the two zero bytes of a NUL terminator,
    reduced modulo [2^32]. *)
Theorem source_string_hash_is_crc32 (zlib_crc32 : bytes -> Z) (s : pystr) :
  calculate_source_string_hash zlib_crc32 s
  = (let! encoded := Codec.utf16le s in
     Ok (zlib_crc32 (encoded ++ [0; 0]) mod 2^32)).
Proof.
  unfold calculate_source_string_hash.
  destruct (Codec.utf16le s) as [b|e]; simpl; [|reflexivity].
  rewrite land_mask32. reflexivity.
Qed.

(** *** Normal forms of line endings *)

Lemma to_crlf_cr_lf s : to_crlf (CR :: LF :: s) = CR :: LF :: to_crlf s.
Proof. reflexivity. Qed.

Lemma to_crlf_cr s : head s <> Some LF -> to_crlf (CR :: s) = CR :: LF :: to_crlf s.
Proof.
  destruct s as [|d s]; [reflexivity|]. cbn [head]. intros Hd.
  change (to_crlf (CR :: d :: s))
    with (if bool_decide (d = LF) then CR :: LF :: to_crlf s
          else CR :: LF :: to_crlf (d :: s)).
  rewrite bool_decide_eq_false_2 by congruence. reflexivity.
Qed.

Lemma to_crlf_lf s : to_crlf (LF :: s) = CR :: LF :: to_crlf s.
Proof. reflexivity. Qed.

Lemma to_crlf_other c s : c <> CR -> c <> LF -> to_crlf (c :: s) = c :: to_crlf s.
Proof.
  intros Hc Hl.
  change (to_crlf (c :: s))
    with (if bool_decide (c = CR) then
            match s with
            | d :: s'' => if bool_decide (d = LF) then CR :: LF :: to_crlf s''
                          else CR :: LF :: to_crlf s
            | [] => [CR; LF]
            end
          else if bool_decide (c = LF) then CR :: LF :: to_crlf s
          else c :: to_crlf s).
  rewrite !bool_decide_eq_false_2 by assumption. reflexivity.
Qed.

Lemma to_lf_cr_lf s : to_lf (CR :: LF :: s) = LF :: to_lf s.
Proof. reflexivity. Qed.

Lemma to_lf_cr s : head s <> Some LF -> to_lf (CR :: s) = LF :: to_lf s.
Proof.
  destruct s as [|d s]; [reflexivity|]. cbn [head]. intros Hd.
  change (to_lf (CR :: d :: s))
    with (if bool_decide (d = LF) then LF :: to_lf s else LF :: to_lf (d :: s)).
  rewrite bool_decide_eq_false_2 by congruence. reflexivity.
Qed.

Lemma to_lf_other c s : c <> CR -> to_lf (c :: s) = c :: to_lf s.
Proof.
  intros Hc.
  change (to_lf (c :: s))
    with (if bool_decide (c = CR) then
            match s with
            | d :: s'' => if bool_decide (d = LF) then LF :: to_lf s'' else LF :: to_lf s
            | [] => [LF]
            end
          else c :: to_lf s).
  rewrite bool_decide_eq_false_2 by assumption. reflexivity.
Qed.

(** The shapes of a text, as the line-ending passes see it. *)
Lemma line_ending_cases (s : pystr) :
  s = []
  \/ (exists s', s = CR :: LF :: s')
  \/ (exists s', s = CR :: s' /\ head s' <> Some LF)
  \/ (exists s', s = LF :: s')
  \/ (exists c s', s = c :: s' /\ c <> CR /\ c <> LF).
Proof.
  destruct s as [|c s]; [left; reflexivity|]. right.
  destruct (decide (c = CR)) as [->|Hc].
  - destruct s as [|d s]; [right; left; exists []; split; [reflexivity|discriminate]|].
    destruct (decide (d = LF)) as [->|Hd]; [left; eauto|].
    right; left. exists (d :: s). split; [reflexivity|]. cbn [head]. congruence.
  - destruct (decide (c = LF)) as [->|Hl]; [right; right; left; eauto|].
    right; right; right. eauto.
Qed.

Ltac line_ending_induction s IH :=
  induction s as [s IH] using (induction_ltof1 _ (@length Z)); unfold ltof in IH;
  destruct (line_ending_cases s)
    as [->|[[s' ->]|[[s' [-> Hhd]]|[[s' ->]|(c & s' & -> & Hcr & Hlf)]]]].

Lemma to_crlf_idem s : to_crlf (to_crlf s) = to_crlf s.
Proof.
  line_ending_induction s IH.
  - reflexivity.
  - rewrite !to_crlf_cr_lf. do 2 f_equal. apply IH. simpl. lia.
  - rewrite to_crlf_cr by exact Hhd. rewrite to_crlf_cr_lf.
    do 2 f_equal. apply IH. simpl. lia.
  - rewrite to_crlf_lf, to_crlf_cr_lf. do 2 f_equal. apply IH. simpl. lia.
  - rewrite !to_crlf_other by assumption. f_equal. apply IH. simpl. lia.
Qed.

Lemma to_lf_of_to_crlf s : to_lf (to_crlf s) = to_lf s.
Proof.
  line_ending_induction s IH.
  - reflexivity.
  - rewrite to_crlf_cr_lf, !to_lf_cr_lf. f_equal. apply IH. simpl. lia.
  - rewrite (to_crlf_cr s'), (to_lf_cr s') by exact Hhd. rewrite to_lf_cr_lf.
    f_equal. apply IH. simpl. lia.
  - rewrite to_crlf_lf, to_lf_cr_lf, to_lf_other by chr_neq.
    f_equal. apply IH. simpl. lia.
  - rewrite to_crlf_other by assumption. rewrite !to_lf_other by assumption.
    f_equal. apply IH. simpl. lia.
Qed.


Lemma to_lf_without_cr s : ~ In CR s -> to_lf s = s.
Proof.
  induction s as [|c s IH]; [reflexivity|]. cbn [In to_lf]. intros H.
  rewrite bool_decide_eq_false_2 by (intros ->; apply H; left; reflexivity).
  f_equal. apply IH. tauto.
Qed.

Lemma to_lf_idem s : to_lf (to_lf s) = to_lf s.
Proof. apply to_lf_without_cr, to_lf_no_cr. Qed.

Lemma to_crlf_of_to_lf s : to_crlf (to_lf s) = to_crlf s.
Proof.
  rewrite <- !replace_lf_to_lf_is_to_crlf, to_lf_idem. reflexivity.
Qed.

(** X1: normalising the line endings of a text that is already
    normalised changes nothing: [normalize_line_endings_for_hash] is
    idempotent. *)
Theorem normalize_line_endings_for_hash_idempotent s :
  normalize_line_endings_for_hash (normalize_line_endings_for_hash s)
  = normalize_line_endings_for_hash s.
Proof. rewrite !normalize_line_endings_for_hash_is_to_crlf. apply to_crlf_idem. Qed.

Lemma key_hash_of_normal_form cityhash s s' :
  to_crlf s = to_crlf s' ->
  calculate_optimized_cityhash64_utf16_key_hash cityhash s
  = calculate_optimized_cityhash64_utf16_key_hash cityhash s'.
Proof.
  intros H. unfold calculate_optimized_cityhash64_utf16_key_hash.
  rewrite !normalize_line_endings_for_hash_is_to_crlf, H. reflexivity.
Qed.

(** X2: the key hash does not depend on the line-ending style of the
    key: the key rewritten with LF endings, or with CR LF endings, and
    any other text with the same LF form, has the hash of the key (or
    raises as the key does). *)
Theorem key_hash_ignores_line_ending_style (cityhash : option (bytes -> Z)) (s : pystr) :
  calculate_optimized_cityhash64_utf16_key_hash cityhash (to_lf s)
  = calculate_optimized_cityhash64_utf16_key_hash cityhash s
  /\ calculate_optimized_cityhash64_utf16_key_hash cityhash (to_crlf s)
     = calculate_optimized_cityhash64_utf16_key_hash cityhash s
  /\ forall s', to_lf s' = to_lf s ->
       calculate_optimized_cityhash64_utf16_key_hash cityhash s'
       = calculate_optimized_cityhash64_utf16_key_hash cityhash s.
Proof.
  split; [|split].
  - apply key_hash_of_normal_form, to_crlf_of_to_lf.
  - apply key_hash_of_normal_form, to_crlf_idem.
  - intros s' H. apply key_hash_of_normal_form.
    rewrite <- (to_crlf_of_to_lf s'), H. apply to_crlf_of_to_lf.
Qed.

(** *** Texts without a UTF-16 encoding *)

Lemma encode_char_encodable c :
  Codec.encode_char c = if Codec.encodable c then Codec.encode_char c else Raise UnicodeEncodeError.
Proof. destruct (Codec.encodable c) eqn:E; [reflexivity|].
  unfold Codec.encode_char, Codec.encodable in *.
  destruct (Z.ltb_spec c 0), (Z.ltb_spec 1114111 c), (Z.leb_spec 0 c), (Z.leb_spec c 1114111),
    (Z.leb_spec 55296 c), (Z.leb_spec c 57343); simpl in *; try reflexivity; try discriminate; lia.
Qed.

Lemma encode_char_ok c : Codec.encodable c = true -> exists b, Codec.encode_char c = Ok b.
Proof.
  unfold Codec.encode_char, Codec.encodable.
  destruct (Z.ltb_spec c 0), (Z.ltb_spec 1114111 c), (Z.leb_spec 0 c), (Z.leb_spec c 1114111),
    (Z.leb_spec 55296 c), (Z.leb_spec c 57343); simpl; try discriminate; try lia; intros _;
    destruct (c <? 65536); eauto.
Qed.

Lemma utf16le_encodable s :
  if forallb Codec.encodable s then exists b, Codec.utf16le s = Ok b
  else Codec.utf16le s = Raise UnicodeEncodeError.
Proof.
  induction s as [|c s IH]; cbn [forallb Codec.utf16le]; [eauto|].
  destruct (Codec.encodable c) eqn:E; cbn [andb].
  - destruct (encode_char_ok c E) as [b ->]. cbn [bind].
    destruct (forallb Codec.encodable s).
    + destruct IH as [bs ->]. cbn [bind]. eauto.
    + rewrite IH. reflexivity.
  - rewrite encode_char_encodable, E. reflexivity.
Qed.

Lemma forallb_encodable_to_crlf s :
  forallb Codec.encodable (to_crlf s) = forallb Codec.encodable s.
Proof.
  line_ending_induction s IH.
  - reflexivity.
  - rewrite to_crlf_cr_lf. cbn [forallb]. do 2 f_equal. apply IH. simpl. lia.
  - rewrite to_crlf_cr by exact Hhd. cbn [forallb].
    change (Codec.encodable LF) with true. cbn [andb]. f_equal. apply IH. simpl. lia.
  - rewrite to_crlf_lf. cbn [forallb].
    change (Codec.encodable CR) with true. cbn [andb]. f_equal. apply IH. simpl. lia.
  - rewrite to_crlf_other by assumption. cbn [forallb]. f_equal. apply IH. simpl. lia.
Qed.

(** X3: with the hashing library present, both hashes return a number
    exactly for the texts all of whose code points are Unicode scalar
    values; for a text with a lone surrogate (or a code point out of
    range) both raise the encoding error. *)
Theorem hashes_raise_on_unencodable_text
    (CityHash64 zlib_crc32 : bytes -> Z) (s : pystr) :
  (if forallb Codec.encodable s
   then exists h k,
     calculate_optimized_cityhash64_utf16_key_hash (Some CityHash64) s = Ok h
     /\ calculate_source_string_hash zlib_crc32 s = Ok k
   else
     calculate_optimized_cityhash64_utf16_key_hash (Some CityHash64) s
     = Raise UnicodeEncodeError
     /\ calculate_source_string_hash zlib_crc32 s = Raise UnicodeEncodeError).
Proof.
  unfold calculate_optimized_cityhash64_utf16_key_hash, calculate_source_string_hash.
  rewrite normalize_line_endings_for_hash_is_to_crlf.
  pose proof (utf16le_encodable s) as Hs.
  pose proof (utf16le_encodable (to_crlf s)) as Hn.
  rewrite forallb_encodable_to_crlf in Hn.
  destruct (forallb Codec.encodable s).
  - destruct Hs as [b ->], Hn as [bn ->]. cbn [bind]. eauto.
  - rewrite Hs, Hn. split; reflexivity.
Qed.

(** X4: a hash that either function returns lies in [[0, 2^32)], so
    [struct.pack('<I', h)] of the encoder accepts it and writes its four
    bytes. *)
Theorem hashes_fit_unsigned_32
    (cityhash : option (bytes -> Z)) (zlib_crc32 : bytes -> Z) (s : pystr) (h : Z) :
  calculate_optimized_cityhash64_utf16_key_hash cityhash s = Ok h
  \/ calculate_source_string_hash zlib_crc32 s = Ok h ->
  0 <= h < 2^32 /\ Struct.pack_I h = Ok (Struct.le_bytes 4 h).
Proof.
  intros H.
  assert (Hr : 0 <= h < 2^32).
  { destruct H as [H|H].
    - unfold calculate_optimized_cityhash64_utf16_key_hash in H.
      destruct cityhash as [c|]; [|discriminate].
      destruct (Codec.utf16le _) as [b|e]; [|discriminate].
      cbn [bind] in H. injection H as <-. rewrite fold32_bits. apply fold32_range.
    - unfold calculate_source_string_hash in H.
      destruct (Codec.utf16le _) as [b|e]; [|discriminate].
      cbn [bind] in H. injection H as <-. rewrite land_mask32.
      apply Z.mod_pos_bound. lia. }
  split; [exact Hr|]. unfold Struct.pack_I.
  destruct (Z.leb_spec 0 h), (Z.ltb_spec h 4294967296); try lia. reflexivity.
Qed.

Lemma hashes_fit_unsigned_32_witness :
  Struct.pack_I 3779286485 = Ok (Struct.le_bytes 4 3779286485).
Proof.
  apply (hashes_fit_unsigned_32 None crc32 (lit "Hello") 3779286485).
  right. vm_compute. reflexivity.
Defined.

End HashFacts.

(** ** The binary resource encoder *)

Module LocresFacts.
Import Py PyFacts Struct File Locres.

(** *** The string table *)


Lemma occurrences_snoc v vs x :
  occurrences v (vs ++ [x]) = occurrences v vs + (if decide (x = v) then 1 else 0).
Proof.
  unfold occurrences. rewrite filter_app, len_app. f_equal.
  rewrite filter_cons, filter_nil. destruct (decide (x = v)); reflexivity.
Qed.

Lemma occurrences_absent v vs : v ∉ vs -> occurrences v vs = 0.
Proof.
  intros Hv. unfold occurrences.
  induction vs as [|x vs IH]; [reflexivity|].
  rewrite filter_cons. destruct (decide (x = v)) as [->|Hne].
  - exfalso. apply Hv. left.
  - apply IH. intros Hin. apply Hv. right. exact Hin.
Qed.

Lemma references_occurrences all v :
  references all v = occurrences v (map translated_value (all_entries all)).
Proof.
  unfold references, occurrences. generalize (all_entries all) as es.
  induction es as [|e es IH]; [reflexivity|].
  rewrite map_cons, !filter_cons.
  destruct (decide (translated_value e = v)); unfold len in *; simpl; lia.
Qed.


Lemma table_inv_empty : table_inv [] ∅ [].
Proof.
  split.
  - constructor.
  - intros v. rewrite lookup_empty. split; [intros [? [=]] | intros H; inversion H].
  - intros v H. inversion H.
  - intros v s. rewrite lookup_empty. discriminate.
Qed.

Lemma table_inv_intern vs m values v :
  table_inv vs m values ->
  table_inv (vs ++ [v]) (intern (m, values) v).1 (intern (m, values) v).2.
Proof.
  intros [Hnd Hdom Hvals Hslot]. unfold intern.
  destruct (m !! v) as [s|] eqn:Hv; cbn [fst snd].
  - destruct (Hslot v s Hv) as (Hi & Hl & Hr). split.
    + exact Hnd.
    + intros w. rewrite elem_of_app, list_elem_of_singleton, <- Hdom.
      destruct (decide (v = w)) as [->|Hne].
      * rewrite lookup_insert_eq. split; [intros _; right; reflexivity | eauto].
      * rewrite lookup_insert_ne by exact Hne. split; [tauto | intros [H|H]; congruence].
    + intros w Hw. apply elem_of_app. left. apply Hvals, Hw.
    + intros w t. destruct (decide (v = w)) as [->|Hne].
      * rewrite lookup_insert_eq. intros [= <-]. cbn [index ref_count].
        rewrite occurrences_snoc, decide_True by reflexivity.
        split; [exact Hi|]. split; [exact Hl | lia].
      * rewrite lookup_insert_ne by exact Hne. intros Hw.
        destruct (Hslot w t Hw) as (Hi' & Hl' & Hr').
        rewrite occurrences_snoc, decide_False by exact Hne.
        split; [exact Hi'|]. split; [exact Hl' | lia].
  - assert (Hfresh : v ∉ vs).
    { intros Hin. apply Hdom in Hin as [s Hs]. congruence. }
    split.
    + apply NoDup_app. split; [exact Hnd|]. split.
      * intros w Hw Hw'. apply list_elem_of_singleton in Hw' as ->.
        apply Hfresh, Hvals, Hw.
      * apply NoDup_singleton.
    + intros w. rewrite elem_of_app, list_elem_of_singleton, <- Hdom.
      destruct (decide (v = w)) as [->|Hne].
      * rewrite lookup_insert_eq. split; [intros _; right; reflexivity | eauto].
      * rewrite lookup_insert_ne by exact Hne. split; [tauto | intros [H|H]; congruence].
    + intros w Hw. apply elem_of_app in Hw as [Hw|Hw]; apply elem_of_app.
      * left. apply Hvals, Hw.
      * right. exact Hw.
    + intros w t. destruct (decide (v = w)) as [->|Hne].
      * rewrite lookup_insert_eq. intros [= <-]. cbn [index ref_count].
        rewrite occurrences_snoc, decide_True by reflexivity.
        rewrite (occurrences_absent w vs Hfresh).
        split; [apply len_nonneg|]. split; [|lia].
        unfold len. rewrite Nat2Z.id. apply list_lookup_middle. reflexivity.
      * rewrite lookup_insert_ne by exact Hne. intros Hw.
        destruct (Hslot w t Hw) as (Hi' & Hl' & Hr').
        rewrite occurrences_snoc, decide_False by exact Hne.
        split; [exact Hi'|]. split; [|lia].
        apply lookup_app_l_Some. exact Hl'.
Qed.

Lemma table_inv_fold vs : forall vs0 m values,
  table_inv vs0 m values ->
  table_inv (vs0 ++ vs) (fold_left intern vs (m, values)).1
            (fold_left intern vs (m, values)).2.
Proof.
  induction vs as [|v vs IH]; intros vs0 m values Hinv; cbn [fold_left].
  - rewrite app_nil_r. exact Hinv.
  - pose proof (table_inv_intern vs0 m values v Hinv) as Hstep.
    destruct (intern (m, values) v) as [m' values'] eqn:E. cbn [fst snd] in Hstep.
    specialize (IH (vs0 ++ [v]) m' values' Hstep).
    rewrite <- app_assoc in IH. exact IH.
Qed.

Lemma fold_intern_entries es st :
  fold_left (fun st entry => intern st (translated_value entry)) es st
  = fold_left intern (map translated_value es) st.
Proof. revert st. induction es as [|e es IH]; intros st; simpl; [reflexivity|apply IH]. Qed.

Lemma build_string_table_flat all :
  build_string_table all
  = fold_left intern (map translated_value (all_entries all)) (∅, []).
Proof.
  unfold build_string_table, all_entries. generalize (∅ : gmap pystr slot, @nil pystr).
  induction all as [|ns all IH]; intros st; simpl; [reflexivity|].
  rewrite IH, map_app, fold_left_app, fold_intern_entries. reflexivity.
Qed.

Lemma build_string_table_inv all :
  table_inv (map translated_value (all_entries all))
    (build_string_table all).1 (build_string_table all).2.
Proof.
  rewrite build_string_table_flat.
  apply (table_inv_fold _ [] ∅ [] table_inv_empty).
Qed.

(** *** Writes at the end of the file *)


Lemma write_at_end b f : at_end f ->
  write b f = ({| buf := buf f ++ b; pos := len (buf f ++ b) |}, Ok tt).
Proof.
  unfold at_end, write, len. intros ->. rewrite Nat2Z.id.
  rewrite take_ge, drop_ge by lia. rewrite Nat.sub_diag, app_nil_r. cbn [replicate app].
  rewrite length_app. do 2 f_equal. lia.
Qed.

(** Overwriting a stretch in the middle of the file. *)
Lemma write_patch b pre old post p :
  length old = length b -> p = len pre ->
  write b {| buf := pre ++ old ++ post; pos := p |}
  = ({| buf := pre ++ b ++ post; pos := len pre + len b |}, Ok tt).
Proof.
  intros Hl ->. unfold write, len. cbn [buf pos]. rewrite Nat2Z.id.
  rewrite take_app_length.
  replace (length pre - length (pre ++ old ++ post))%nat with O
    by (rewrite length_app; lia).
  rewrite drop_app_add', <- Hl, drop_app_length by reflexivity.
  reflexivity.
Qed.

Lemma iobind_ok {A B} (m : io A) (k : A -> io B) f f' b :
  iobind m k f = (f', Ok b) ->
  exists f1 a, m f = (f1, Ok a) /\ k a f1 = (f', Ok b).
Proof.
  unfold iobind. destruct (m f) as [f1 [a|e]]; [eauto | discriminate].
Qed.

Lemma appends_write b : appends (write b) b.
Proof.
  intros f f' Hf. rewrite write_at_end by exact Hf. intros [= <-].
  split; reflexivity.
Qed.

Lemma appends_ret : appends (ret tt) [].
Proof. intros f f' Hf [= <-]. rewrite app_nil_r. split; [reflexivity | exact Hf]. Qed.

Lemma appends_seq W1 W2 B1 B2 :
  appends W1 B1 -> appends W2 B2 -> appends (W1 ;;; W2) (B1 ++ B2).
Proof.
  intros H1 H2 f f' Hf Hrun.
  apply iobind_ok in Hrun as (f1 & [] & Hr1 & Hr2).
  destruct (H1 f f1 Hf Hr1) as [Hb1 He1].
  destruct (H2 f1 f' He1 Hr2) as [Hb2 He2].
  split; [|exact He2]. rewrite Hb2, Hb1, app_assoc. reflexivity.
Qed.

Lemma appends_lift {A} (r : pyresult A) (k : A -> io unit) B :
  (forall a, r = Ok a -> appends (k a) B) ->
  appends (do! a := lift r in k a) B.
Proof.
  intros Hk f f' Hf Hrun.
  apply iobind_ok in Hrun as (f1 & a & Hr1 & Hr2).
  unfold lift in Hr1. injection Hr1 as <- Hr. eapply Hk; eauto.
Qed.

Lemma appends_for_each {A} (l : list A) (body : A -> io unit) (B : A -> bytes) :
  (forall x, x ∈ l -> appends (body x) (B x)) ->
  appends (for_each l body) (concat (map B l)).
Proof.
  induction l as [|x l IH]; intros Hbody; cbn [for_each map concat].
  - apply appends_ret.
  - apply appends_seq.
    + apply Hbody. left.
    + apply IH. intros y Hy. apply Hbody. right. exact Hy.
Qed.

(** *** What [struct.pack] returns *)

Lemma le_bytes_length n v : length (le_bytes n v) = n.
Proof. revert v. induction n as [|n IH]; intros v; simpl; [reflexivity|]. rewrite IH. reflexivity. Qed.

Lemma pack_B_ok v b : pack_B v = Ok b -> b = le_bytes 1 v.
Proof. unfold pack_B. destruct (_ && _); [intros [= <-]; reflexivity | discriminate]. Qed.

Lemma pack_i_ok v b : pack_i v = Ok b -> b = le_bytes 4 v.
Proof. unfold pack_i. destruct (_ && _); [intros [= <-]; reflexivity | discriminate]. Qed.

Lemma pack_I_ok v b : pack_I v = Ok b -> b = le_bytes 4 v.
Proof. unfold pack_I. destruct (_ && _); [intros [= <-]; reflexivity | discriminate]. Qed.

Lemma pack_q_ok v b : pack_q v = Ok b -> b = le_bytes 8 v.
Proof. unfold pack_q. destruct (_ && _); [intros [= <-]; reflexivity | discriminate]. Qed.

Lemma appends_pack_I v : appends (do! b := lift (pack_I v) in write b) (le_bytes 4 v).
Proof. apply appends_lift. intros b ->%pack_I_ok. apply appends_write. Qed.

Lemma appends_pack_i v : appends (do! b := lift (pack_i v) in write b) (le_bytes 4 v).
Proof. apply appends_lift. intros b ->%pack_i_ok. apply appends_write. Qed.

(** *** The records *)

Lemma appends_write_fstring text :
  appends (write_fstring_for_locres text) (fstring (default [] text)).
Proof.
  intros f f' Hf. unfold write_fstring_for_locres, fstring, try_except, iobind, lift.
  destruct (Codec.utf16le (default [] text ++ [0])) as [enc|e]; cbn [bind].
  - destruct (pack_i (- (len enc / 2))) as [p|e]; cbn [bind].
    + rewrite (write_at_end p f Hf).
      rewrite write_at_end by reflexivity. cbn [buf].
      intros [= <-]. cbn [buf]. rewrite app_assoc. split; reflexivity.
    + change (pack_i (-1)) with (Ok (le_bytes 4 (-1)) : pyresult bytes).
      cbv beta iota.
      rewrite (write_at_end _ f Hf). rewrite write_at_end by reflexivity.
      cbn [buf]. intros [= <-]. cbn [buf]. rewrite <- app_assoc. split; reflexivity.
  - change (pack_i (-1)) with (Ok (le_bytes 4 (-1)) : pyresult bytes).
      cbv beta iota.
    rewrite (write_at_end _ f Hf). rewrite write_at_end by reflexivity.
    cbn [buf]. intros [= <-]. cbn [buf]. rewrite <- app_assoc. split; reflexivity.
Qed.

Lemma getitem_ok m v s : getitem m v = Ok s -> slot_of m v = s.
Proof.
  unfold getitem, slot_of. destruct (m !! v); [intros [= ->]; reflexivity | discriminate].
Qed.

Lemma appends_write_entry m e : appends (write_entry m e) (entry_record m e).
Proof.
  unfold write_entry, entry_record.
  apply appends_lift. intros b ->%pack_I_ok.
  apply appends_seq; [apply appends_write|].
  apply appends_seq; [apply (appends_write_fstring (Some (key_string e)))|].
  apply appends_lift. intros b ->%pack_I_ok.
  apply appends_seq; [apply appends_write|].
  apply appends_lift. intros s ->%getitem_ok.
  apply appends_pack_i.
Qed.

Lemma appends_write_namespace m ns :
  appends (write_namespace m ns) (namespace_record m ns).
Proof.
  unfold write_namespace, namespace_record.
  apply appends_lift. intros b ->%pack_I_ok.
  apply appends_seq; [apply appends_write|].
  apply appends_seq; [apply appends_write_fstring|].
  apply appends_lift. intros b ->%pack_i_ok.
  apply appends_seq; [apply appends_write|].
  apply appends_for_each. intros e _. apply appends_write_entry.
Qed.

Lemma appends_write_table_string m v :
  appends (write_table_string m v) (table_record m v).
Proof.
  unfold write_table_string, table_record.
  apply appends_seq; [apply (appends_write_fstring (Some v))|].
  apply appends_lift. intros s ->%getitem_ok.
  apply appends_pack_i.
Qed.

Lemma total_key_entries_len all :
  foldr Z.add 0 (map (fun ns_data => len (entries ns_data)) all)
  = len (all_entries all).
Proof.
  unfold all_entries. induction all as [|ns all IH]; [reflexivity|].
  cbn [map foldr concat]. rewrite IH, len_app. reflexivity.
Qed.

Lemma lift_ok {A} (r : pyresult A) f f1 a :
  lift r f = (f1, Ok a) -> f1 = f /\ r = Ok a.
Proof. unfold lift. intros [= <- ->]. split; reflexivity. Qed.

(** *** The file is laid out as the format prescribes *)

Lemma generate_body_layout all f' :
  generate_body all opened = (f', Ok tt) -> buf f' = layout all.
Proof.
  unfold generate_body, layout.
  destruct (build_string_table all) as [m values].
  set (records := concat (map (namespace_record m) all)).
  intros H.
  apply iobind_ok in H as (f1 & [] & H1 & H).
  rewrite write_at_end in H1 by reflexivity. injection H1 as <-.
  apply iobind_ok in H as (f2 & bv & H2 & H). apply lift_ok in H2 as [-> H2].
  apply pack_B_ok in H2.
  apply iobind_ok in H as (f3 & [] & H3 & H).
  rewrite write_at_end in H3 by reflexivity. injection H3 as <-.
  apply iobind_ok in H as (f4 & p17 & H4 & H). injection H4 as <- <-.
  apply iobind_ok in H as (f5 & b0 & H5 & H). apply lift_ok in H5 as [-> H5].
  apply pack_q_ok in H5.
  apply iobind_ok in H as (f6 & [] & H6 & H).
  rewrite write_at_end in H6 by reflexivity. injection H6 as <-.
  apply iobind_ok in H as (f7 & b1 & H7 & H). apply lift_ok in H7 as [-> H7].
  apply pack_i_ok in H7. rewrite total_key_entries_len in H7.
  apply iobind_ok in H as (f8 & [] & H8 & H).
  rewrite write_at_end in H8 by reflexivity. injection H8 as <-.
  apply iobind_ok in H as (f9 & b2 & H9 & H). apply lift_ok in H9 as [-> H9].
  apply pack_i_ok in H9.
  apply iobind_ok in H as (f10 & [] & H10 & H).
  rewrite write_at_end in H10 by reflexivity. injection H10 as <-.
  apply iobind_ok in H as (f11 & [] & H11 & H).
  eapply (appends_for_each _ _ (namespace_record m)) in H11;
    [| intros ns _; apply appends_write_namespace | reflexivity].
  fold records in H11. cbn [buf pos] in H11, H.
  destruct H11 as [Hbuf11 Hend11]. destruct f11 as [buf11 pos11].
  unfold at_end in Hend11. cbn [buf pos] in Hbuf11, Hend11.
  apply iobind_ok in H as (f12 & off & H12 & H). injection H12 as <- <-.
  cbn [pos] in H.
  apply iobind_ok in H as (f13 & [] & H13 & H). injection H13 as <-.
  apply iobind_ok in H as (f14 & bo & H14 & H). apply lift_ok in H14 as [-> H14].
  apply pack_q_ok in H14.
  apply iobind_ok in H as (f15 & [] & H15 & H).
  cbn [buf] in H15.
  assert (Hshape : buf11 = (LOCRES_MAGIC_BYTES ++ bv) ++ b0 ++ (b1 ++ b2 ++ records)).
  { rewrite Hbuf11. unfold LOCRES_MAGIC_BYTES. cbn [app].
    rewrite <- !app_assoc. reflexivity. }
  rewrite Hshape in H15.
  rewrite (write_patch bo _ b0) in H15.
  2:{ rewrite H14, H5, !le_bytes_length. reflexivity. }
  2:{ rewrite H2. reflexivity. }
  injection H15 as <-.
  apply iobind_ok in H as (f16 & [] & H16 & H). injection H16 as <-.
  cbn [buf] in H.
  assert (Hlen : pos11 = 33 + len records).
  { rewrite Hend11, Hshape, H2, H5, H7, H9. unfold len.
    rewrite !length_app, !le_bytes_length. unfold LOCRES_MAGIC_BYTES. simpl length. lia. }
  assert (Happ : appends
            (do! b := lift (pack_i (len values)) in
             write b ;;; for_each values (write_table_string m))
            (le_bytes 4 (len values) ++ concat (map (table_record m) values))).
  { apply appends_lift. intros b ->%pack_i_ok.
    apply appends_seq; [apply appends_write|].
    apply appends_for_each. intros v _. apply appends_write_table_string. }
  apply Happ in H.
  - destruct H as [-> _]. cbn [buf]. rewrite H14, Hlen, H2, H7, H9.
    unfold LOCRES_MAGIC_BYTES. cbn [app]. rewrite <- !app_assoc. reflexivity.
  - unfold at_end. cbn [buf pos]. rewrite Hend11, Hshape.
    unfold len. f_equal. unfold LOCRES_MAGIC_BYTES. cbn [app length].
    rewrite !length_app, H14, H5, !le_bytes_length. reflexivity.
Qed.

Lemma occurrences_nodup v (l : list pystr) :
  NoDup l -> v ∈ l -> occurrences v l = 1.
Proof.
  induction 1 as [|x l Hx Hnd IH]; intros Hin; [inversion Hin|].
  unfold occurrences in *. rewrite filter_cons.
  destruct (decide (x = v)) as [->|Hne].
  - pose proof (occurrences_absent v l Hx) as H0. unfold occurrences in H0.
    unfold len in *. simpl length. lia.
  - apply IH. inversion Hin; subst; [congruence | assumption].
Qed.


Example sample_table :
  (build_string_table sample_data).2 = [lit "OK"; lit "Cancel"]
  /\ slot_of (build_string_table sample_data).1 (lit "OK")
     = {| index := 0; ref_count := 2 |}
  /\ slot_of (build_string_table sample_data).1 (lit "Cancel")
     = {| index := 1; ref_count := 1 |}.
Proof. vm_compute. repeat split. Qed.

(** The string table of the sample, as written: two strings, "OK" with
    two references and "Cancel" with one. *)
Example sample_file_offset :
  take 8 (drop 17 sample_file) = [149; 0; 0; 0; 0; 0; 0; 0].
Proof. vm_compute. reflexivity. Qed.

Example sample_file_table :
  drop 149 sample_file
  = [2; 0; 0; 0]
    ++ [253; 255; 255; 255] ++ [79; 0; 75; 0; 0; 0] ++ [2; 0; 0; 0]
    ++ [249; 255; 255; 255]
    ++ [67; 0; 97; 0; 110; 0; 99; 0; 101; 0; 108; 0; 0; 0] ++ [1; 0; 0; 0].
Proof. vm_compute. reflexivity. Qed.

(** C3: when the encoder runs to its end, the file is the layout of the
    format in which every entry record carries the index stored for its
    final value and every table string its reference count; the table
    holds no value twice, the index of an entry is the position of its
    value in the table, so entries with equal values carry the same
    index, and the stored reference count is the number of entries with
    that value: 2 when exactly two entries share it. *)
Theorem locres_values_deduplicated (all : list ns_data) (out : bytes) :
  generate_locres_file_v3_with_hashes all = (out, Ok tt) ->
  let m := (build_string_table all).1 in
  let values := (build_string_table all).2 in
  out = layout all
  /\ NoDup values
  /\ forall e1, e1 ∈ all_entries all ->
       let s := slot_of m (translated_value e1) in
       0 <= index s
       /\ values !! Z.to_nat (index s) = Some (translated_value e1)
       /\ occurrences (translated_value e1) values = 1
       /\ ref_count s = references all (translated_value e1)
       /\ (references all (translated_value e1) = 2 -> ref_count s = 2)
       /\ forall e2, e2 ∈ all_entries all ->
            translated_value e2 = translated_value e1 ->
            index (slot_of m (translated_value e2)) = index s.
Proof.
  intros Hrun m values.
  pose proof (build_string_table_inv all) as [Hnd Hdom Hvals Hslot].
  fold m values in Hnd, Hdom, Hvals, Hslot.
  split.
  { unfold generate_locres_file_v3_with_hashes in Hrun.
    destruct (generate_body all opened) as [f r] eqn:E.
    injection Hrun as <- ->. apply generate_body_layout. exact E. }
  split; [exact Hnd|].
  intros e1 He1 s.
  assert (Hin : translated_value e1 ∈ map translated_value (all_entries all)).
  { apply list_elem_of_fmap. exists e1. split; [reflexivity | exact He1]. }
  apply Hdom in Hin as [t Ht].
  assert (Hs : s = t). { unfold s, slot_of. rewrite Ht. reflexivity. }
  destruct (Hslot _ _ Ht) as (Hi & Hl & Hr). rewrite Hs.
  split; [exact Hi|]. split; [exact Hl|]. split.
  { apply occurrences_nodup; [exact Hnd|]. eapply list_elem_of_lookup_2. exact Hl. }
  split; [rewrite references_occurrences; exact Hr|].
  split; [intros H2; rewrite <- H2, references_occurrences; exact Hr|].
  intros e2 _ ->. rewrite <- Hs. reflexivity.
Qed.

Lemma locres_values_deduplicated_witness :
  generate_locres_file_v3_with_hashes sample_data = (sample_file, Ok tt)
  /\ sample_file = layout sample_data
  /\ NoDup (build_string_table sample_data).2.
Proof.
  assert (H : generate_locres_file_v3_with_hashes sample_data = (sample_file, Ok tt))
    by (vm_compute; reflexivity).
  split; [exact H|].
  destruct (locres_values_deduplicated sample_data sample_file H) as (Hl & Hn & _).
  split; [exact Hl | exact Hn].
Defined.

(** *** Writes that cannot fail *)

Lemma after_at_end f B : at_end (after f B).
Proof. reflexivity. Qed.

Lemma after_after f A B : after (after f A) B = after f (A ++ B).
Proof. unfold after. cbn [buf]. rewrite app_assoc. reflexivity. Qed.

Lemma after_nil f : at_end f -> after f [] = f.
Proof.
  unfold at_end, after. destruct f as [b p]. cbn [buf pos]. intros ->.
  rewrite app_nil_r. reflexivity.
Qed.

Lemma writes_write b : writes (write b) b.
Proof. intros f Hf. apply write_at_end, Hf. Qed.

Lemma writes_ret : writes (ret tt) [].
Proof. intros f Hf. unfold ret. rewrite after_nil by exact Hf. reflexivity. Qed.

Lemma writes_seq W1 W2 B1 B2 :
  writes W1 B1 -> writes W2 B2 -> writes (W1 ;;; W2) (B1 ++ B2).
Proof.
  intros H1 H2 f Hf. unfold iobind. rewrite (H1 f Hf).
  rewrite (H2 _ (after_at_end f B1)), after_after. reflexivity.
Qed.

Lemma writes_lift {A} (r : pyresult A) (a : A) (k : A -> io unit) B :
  r = Ok a -> writes (k a) B -> writes (do! x := lift r in k x) B.
Proof. intros -> Hk f Hf. unfold iobind, lift. apply Hk, Hf. Qed.

Lemma writes_for_each {A} (l : list A) (body : A -> io unit) (B : A -> bytes) :
  (forall x, x ∈ l -> writes (body x) (B x)) ->
  writes (for_each l body) (concat (map B l)).
Proof.
  induction l as [|x l IH]; intros Hbody; cbn [for_each map concat].
  - apply writes_ret.
  - apply writes_seq.
    + apply Hbody. left.
    + apply IH. intros y Hy. apply Hbody. right. exact Hy.
Qed.

Lemma pack_I_fits v : u32 v -> pack_I v = Ok (le_bytes 4 v).
Proof.
  unfold u32, pack_I. intros H.
  destruct (Z.leb_spec 0 v), (Z.ltb_spec v 4294967296); try lia. reflexivity.
Qed.

Lemma pack_i_fits v : -2^31 <= v < 2^31 -> pack_i v = Ok (le_bytes 4 v).
Proof.
  unfold pack_i. intros H.
  destruct (Z.leb_spec (-2147483648) v), (Z.ltb_spec v 2147483648); try lia. reflexivity.
Qed.

Lemma pack_q_fits v : -2^63 <= v < 2^63 -> pack_q v = Ok (le_bytes 8 v).
Proof.
  unfold pack_q. intros H.
  destruct (Z.leb_spec (-9223372036854775808) v), (Z.ltb_spec v 9223372036854775808);
    try lia. reflexivity.
Qed.

Lemma pack_I_range v b : pack_I v = Ok b -> u32 v.
Proof.
  unfold u32, pack_I.
  destruct (Z.leb_spec 0 v), (Z.ltb_spec v 4294967296); simpl; try discriminate. lia.
Qed.

Lemma pack_i_range v b : pack_i v = Ok b -> -2^31 <= v < 2^31.
Proof.
  unfold pack_i.
  destruct (Z.leb_spec (-2147483648) v), (Z.ltb_spec v 2147483648); simpl;
    try discriminate. lia.
Qed.

Lemma writes_pack_I v : u32 v -> writes (do! b := lift (pack_I v) in write b) (le_bytes 4 v).
Proof. intros H. eapply writes_lift; [apply pack_I_fits, H | apply writes_write]. Qed.

Lemma writes_pack_i v : -2^31 <= v < 2^31 ->
  writes (do! b := lift (pack_i v) in write b) (le_bytes 4 v).
Proof. intros H. eapply writes_lift; [apply pack_i_fits, H | apply writes_write]. Qed.

Lemma writes_write_fstring text :
  writes (write_fstring_for_locres text) (fstring (default [] text)).
Proof.
  intros f Hf. unfold write_fstring_for_locres, fstring, try_except, iobind, lift.
  destruct (Codec.utf16le (default [] text ++ [0])) as [enc|e]; cbn [bind].
  - destruct (pack_i (- (len enc / 2))) as [p|e]; cbn [bind].
    + rewrite (write_at_end p f Hf).
      rewrite write_at_end by reflexivity. cbn [buf].
      unfold after. rewrite !app_assoc. reflexivity.
    + change (pack_i (-1)) with (Ok (le_bytes 4 (-1)) : pyresult bytes).
      cbv beta iota.
      rewrite (write_at_end _ f Hf). rewrite write_at_end by reflexivity.
      cbn [buf]. unfold after. rewrite <- !app_assoc. reflexivity.
  - change (pack_i (-1)) with (Ok (le_bytes 4 (-1)) : pyresult bytes).
    cbv beta iota.
    rewrite (write_at_end _ f Hf). rewrite write_at_end by reflexivity.
    cbn [buf]. unfold after. rewrite <- !app_assoc. reflexivity.
Qed.

Lemma utf16le_raises a b e :
  Codec.utf16le a = Raise e -> Codec.utf16le (a ++ b) = Raise e.
Proof. intros H. rewrite HashFacts.utf16le_app, H. reflexivity. Qed.



(** *** The encoder runs to its end *)

Lemma writes_write_entry m e s :
  u32 (key_hash e) -> u32 (source_string_hash e) ->
  m !! translated_value e = Some s -> -2^31 <= index s < 2^31 ->
  writes (write_entry m e) (entry_record m e).
Proof.
  intros Hk Hs Hm Hi. unfold write_entry, entry_record.
  eapply writes_lift; [apply pack_I_fits, Hk|].
  apply writes_seq; [apply writes_write|].
  apply writes_seq; [apply (writes_write_fstring (Some (key_string e)))|].
  eapply writes_lift; [apply pack_I_fits, Hs|].
  apply writes_seq; [apply writes_write|].
  eapply writes_lift; [unfold getitem; rewrite Hm; reflexivity|].
  unfold slot_of. rewrite Hm. cbn [default from_option]. unfold id.
  apply writes_pack_i, Hi.
Qed.

Lemma writes_write_namespace m ns :
  hashes_fit ns -> len (entries ns) < 2^31 ->
  (forall e, e ∈ entries ns ->
     exists s, m !! translated_value e = Some s /\ -2^31 <= index s < 2^31) ->
  writes (write_namespace m ns) (namespace_record m ns).
Proof.
  intros [Hh He] Hl Hm. unfold write_namespace, namespace_record.
  eapply writes_lift; [apply pack_I_fits, Hh|].
  apply writes_seq; [apply writes_write|].
  apply writes_seq; [apply writes_write_fstring|].
  eapply writes_lift; [apply pack_i_fits; pose proof (len_nonneg (entries ns)); lia|].
  apply writes_seq; [apply writes_write|].
  apply writes_for_each. intros e Hin.
  destruct (Hm e Hin) as (s & Hs & Hi).
  rewrite Forall_forall in He. destruct (He e Hin) as [Hk Hss].
  eapply writes_write_entry; eauto.
Qed.

Lemma writes_write_table_string m v s :
  m !! v = Some s -> -2^31 <= ref_count s < 2^31 ->
  writes (write_table_string m v) (table_record m v).
Proof.
  intros Hm Hr. unfold write_table_string, table_record.
  apply writes_seq; [apply (writes_write_fstring (Some v))|].
  eapply writes_lift; [unfold getitem; rewrite Hm; reflexivity|].
  unfold slot_of. rewrite Hm. cbn [default from_option]. unfold id.
  apply writes_pack_i, Hr.
Qed.

Lemma iobind_writes {B} (W : io unit) (bs : bytes) (k : unit -> io B) f :
  writes W bs -> at_end f -> iobind W k f = k tt (after f bs).
Proof. intros HW Hf. unfold iobind. rewrite (HW f Hf). reflexivity. Qed.

Lemma iobind_lift_ok {A B} (r : pyresult A) (a : A) (k : A -> io B) f :
  r = Ok a -> iobind (lift r) k f = k a f.
Proof. intros ->. reflexivity. Qed.

Lemma occurrences_le v vs : occurrences v vs <= len vs.
Proof.
  unfold occurrences, len. apply Nat2Z.inj_le, length_filter.
Qed.

Lemma occurrences_nonneg v vs : 0 <= occurrences v vs.
Proof. apply len_nonneg. Qed.

Lemma table_values_le vs m values :
  table_inv vs m values -> len values <= len vs.
Proof.
  intros [Hnd _ Hvals _]. unfold len. apply Nat2Z.inj_le.
  apply submseteq_length, NoDup_submseteq; assumption.
Qed.

Lemma table_index_lt vs m values v s :
  table_inv vs m values -> m !! v = Some s -> 0 <= index s < len values.
Proof.
  intros [_ _ _ Hslot] Hm. destruct (Hslot v s Hm) as (Hi & Hl & _).
  split; [exact Hi|]. apply lookup_lt_Some in Hl. unfold len. lia.
Qed.

Lemma elem_of_all_entries all ns e :
  ns ∈ all -> e ∈ entries ns -> e ∈ all_entries all.
Proof.
  intros Hns He. unfold all_entries. apply list_elem_of_In, in_concat.
  exists (entries ns). split; [apply in_map, list_elem_of_In, Hns | apply list_elem_of_In, He].
Qed.

Lemma len_entries_le all ns : ns ∈ all -> len (entries ns) <= len (all_entries all).
Proof.
  unfold all_entries. induction all as [|n all IH]; intros H; [inversion H|].
  cbn [map concat]. rewrite len_app.
  pose proof (len_nonneg (entries n)). pose proof (len_nonneg (concat (map entries all))).
  inversion H; subst; [lia|]. specialize (IH ltac:(assumption)). lia.
Qed.



(** *** Reference counts *)

Lemma occurrences_cons v x vs :
  occurrences v (x :: vs) = (if decide (x = v) then 1 else 0) + occurrences v vs.
Proof.
  unfold occurrences. rewrite filter_cons.
  destruct (decide (x = v)); unfold len; simpl length; lia.
Qed.

Lemma sum_indicator (x : pystr) (values : list pystr) :
  NoDup values -> x ∈ values ->
  foldr Z.add 0 (map (fun v => if decide (x = v) then 1 else 0) values) = 1.
Proof.
  induction 1 as [|v values Hv Hnd IH]; intros Hin; [inversion Hin|].
  cbn [map foldr]. destruct (decide (x = v)) as [->|Hne].
  - assert (H0 : foldr Z.add 0
                   (map (fun v0 => if decide (v = v0) then 1 else 0) values) = 0).
    { clear IH Hin Hnd. induction values as [|w values IHv]; [reflexivity|].
      cbn [map foldr]. rewrite decide_False, IHv; [reflexivity| |].
      - intros Hw. apply Hv. right. exact Hw.
      - intros ->. apply Hv. left. }
    lia.
  - rewrite IH; [lia|]. inversion Hin; subst; [congruence | assumption].
Qed.

Lemma sum_occurrences (vs values : list pystr) :
  NoDup values -> (forall x, x ∈ vs -> x ∈ values) ->
  foldr Z.add 0 (map (fun v => occurrences v vs) values) = len vs.
Proof.
  intros Hnd. induction vs as [|x vs IH]; intros Hin.
  - clear. induction values as [|v values IH]; [reflexivity|].
    cbn [map foldr]. rewrite IH. reflexivity.
  - assert (Hsplit : forall l,
      foldr Z.add 0 (map (fun v => occurrences v (x :: vs)) l)
      = foldr Z.add 0 (map (fun v => if decide (x = v) then 1 else 0) l)
        + foldr Z.add 0 (map (fun v => occurrences v vs) l)).
    { induction l as [|v l IHl]; [reflexivity|].
      cbn [map foldr]. rewrite IHl, occurrences_cons. lia. }
    rewrite Hsplit, sum_indicator, IH.
    + unfold len. simpl length. lia.
    + intros y Hy. apply Hin. right. exact Hy.
    + exact Hnd.
    + apply Hin. left.
Qed.

Lemma table_covers vs m values v :
  table_inv vs m values -> v ∈ vs -> v ∈ values.
Proof.
  intros Hinv Hv. apply (inv_dom _ _ _ Hinv) in Hv as [s Hs].
  destruct (inv_slot _ _ _ Hinv v s Hs) as (_ & Hl & _).
  eapply list_elem_of_lookup_2. exact Hl.
Qed.

(** X7: the reference counts of the string table add up to the number
    of entries; the table has at most as many strings as there are
    entries, and every entry refers to a string of the table (its index
    is below the table's length) that is counted at least once. *)
Theorem reference_counts_add_up (all : list ns_data) :
  let m := (build_string_table all).1 in
  let values := (build_string_table all).2 in
  foldr Z.add 0 (map (fun v => ref_count (slot_of m v)) values)
  = len (all_entries all)
  /\ len values <= len (all_entries all)
  /\ forall e, e ∈ all_entries all ->
       0 <= index (slot_of m (translated_value e)) < len values
       /\ 1 <= ref_count (slot_of m (translated_value e)).
Proof.
  intros m values.
  pose proof (build_string_table_inv all) as Hinv. fold m values in Hinv.
  set (vs := map translated_value (all_entries all)) in *.
  assert (Hvs : len vs = len (all_entries all)).
  { unfold vs, len. rewrite length_map. reflexivity. }
  split; [|split].
  - rewrite <- Hvs, <- (sum_occurrences vs values).
    + f_equal. apply map_ext_in. intros v Hv%list_elem_of_In.
      pose proof (inv_values _ _ _ Hinv v Hv) as Hin.
      apply (inv_dom _ _ _ Hinv) in Hin as [s Hs].
      unfold slot_of. rewrite Hs. cbn [default from_option]. unfold id.
      apply (inv_slot _ _ _ Hinv v s Hs).
    + apply (inv_nodup _ _ _ Hinv).
    + intros x. eapply table_covers. exact Hinv.
  - rewrite <- Hvs. eapply table_values_le. exact Hinv.
  - intros e He.
    assert (Hv : translated_value e ∈ vs).
    { apply list_elem_of_fmap. exists e. split; [reflexivity | exact He]. }
    pose proof Hv as Hv'.
    apply (inv_dom _ _ _ Hinv) in Hv as [s Hs].
    unfold slot_of. rewrite Hs. cbn [default from_option]. unfold id.
    split; [eapply table_index_lt; eassumption|].
    destruct (inv_slot _ _ _ Hinv _ s Hs) as (_ & _ & ->).
    clear -Hv'. induction vs as [|x vs IH]; [inversion Hv'|].
    rewrite occurrences_cons. pose proof (occurrences_nonneg (translated_value e) vs).
    destruct (decide (x = translated_value e)) as [|Hne]; [lia|].
    inversion Hv'; subst; [congruence|]. specialize (IH ltac:(assumption)). lia.
Qed.

(** *** Runs that raise *)

Lemma only_struct_error_write b : only_struct_error (write b).
Proof. intros f f' e. unfold write. discriminate. Qed.

Lemma only_struct_error_bind {A B} (m : io A) (k : A -> io B) :
  only_struct_error m -> (forall a, only_struct_error (k a)) ->
  only_struct_error (iobind m k).
Proof.
  intros Hm Hk f f' e. unfold iobind.
  destruct (m f) as [f1 [a|e1]] eqn:E.
  - apply Hk.
  - intros [= <- <-]. eapply Hm. exact E.
Qed.

Lemma only_struct_error_lift {A} (r : pyresult A) :
  (forall e, r = Raise e -> e = StructError) -> only_struct_error (lift r).
Proof. intros Hr f f' e. unfold lift. intros [= _ H]. apply Hr, H. Qed.

Lemma pack_I_raises v e : pack_I v = Raise e -> e = StructError.
Proof. unfold pack_I. destruct (_ && _); [discriminate | intros [= <-]; reflexivity]. Qed.

Lemma pack_i_raises v e : pack_i v = Raise e -> e = StructError.
Proof. unfold pack_i. destruct (_ && _); [discriminate | intros [= <-]; reflexivity]. Qed.

Lemma pack_q_raises v e : pack_q v = Raise e -> e = StructError.
Proof. unfold pack_q. destruct (_ && _); [discriminate | intros [= <-]; reflexivity]. Qed.

Lemma pack_B_raises v e : pack_B v = Raise e -> e = StructError.
Proof. unfold pack_B. destruct (_ && _); [discriminate | intros [= <-]; reflexivity]. Qed.

Lemma only_struct_error_for_each {A} (l : list A) (body : A -> io unit) :
  (forall x, x ∈ l -> only_struct_error (body x)) ->
  only_struct_error (for_each l body).
Proof.
  induction l as [|x l IH]; intros Hbody; cbn [for_each].
  - intros f f' e. unfold ret. discriminate.
  - apply only_struct_error_bind; [apply Hbody; left|].
    intros _. apply IH. intros y Hy. apply Hbody. right. exact Hy.
Qed.

Lemma write_fstring_returns text f :
  exists f', write_fstring_for_locres text f = (f', Ok tt).
Proof.
  unfold write_fstring_for_locres, try_except, iobind, lift.
  destruct (Codec.utf16le (default [] text ++ [0])) as [enc|e].
  - destruct (pack_i (- (len enc / 2))) as [p|e].
    + unfold write. eauto.
    + change (pack_i (-1)) with (Ok (le_bytes 4 (-1)) : pyresult bytes).
      cbv beta iota. unfold write. eauto.
  - change (pack_i (-1)) with (Ok (le_bytes 4 (-1)) : pyresult bytes).
    cbv beta iota. unfold write. eauto.
Qed.

Lemma only_struct_error_write_fstring text :
  only_struct_error (write_fstring_for_locres text).
Proof.
  intros f f' e H. destruct (write_fstring_returns text f) as [f1 H1].
  rewrite H1 in H. discriminate.
Qed.

Lemma only_struct_error_pack_I v :
  only_struct_error (do! b := lift (pack_I v) in write b).
Proof.
  apply only_struct_error_bind;
    [apply only_struct_error_lift, pack_I_raises | intros; apply only_struct_error_write].
Qed.

Lemma only_struct_error_pack_i v :
  only_struct_error (do! b := lift (pack_i v) in write b).
Proof.
  apply only_struct_error_bind;
    [apply only_struct_error_lift, pack_i_raises | intros; apply only_struct_error_write].
Qed.

Lemma only_struct_error_write_entry m e :
  is_Some (m !! translated_value e) -> only_struct_error (write_entry m e).
Proof.
  intros [s Hs]. unfold write_entry.
  apply only_struct_error_bind; [apply only_struct_error_lift, pack_I_raises|]. intros b1.
  apply only_struct_error_bind; [apply only_struct_error_write|]. intros _.
  apply only_struct_error_bind; [apply only_struct_error_write_fstring|]. intros _.
  apply only_struct_error_bind; [apply only_struct_error_lift, pack_I_raises|]. intros b2.
  apply only_struct_error_bind; [apply only_struct_error_write|]. intros _.
  apply only_struct_error_bind.
  { apply only_struct_error_lift. unfold getitem. rewrite Hs. discriminate. }
  intros s'. apply only_struct_error_pack_i.
Qed.

Lemma only_struct_error_write_namespace m ns :
  (forall e, e ∈ entries ns -> is_Some (m !! translated_value e)) ->
  only_struct_error (write_namespace m ns).
Proof.
  intros Hm. unfold write_namespace.
  apply only_struct_error_bind; [apply only_struct_error_lift, pack_I_raises|]. intros b1.
  apply only_struct_error_bind; [apply only_struct_error_write|]. intros _.
  apply only_struct_error_bind; [apply only_struct_error_write_fstring|]. intros _.
  apply only_struct_error_bind; [apply only_struct_error_lift, pack_i_raises|]. intros b2.
  apply only_struct_error_bind; [apply only_struct_error_write|]. intros _.
  apply only_struct_error_for_each. intros e He.
  apply only_struct_error_write_entry, Hm, He.
Qed.

Lemma only_struct_error_write_table_string m v :
  is_Some (m !! v) -> only_struct_error (write_table_string m v).
Proof.
  intros [s Hs]. unfold write_table_string.
  apply only_struct_error_bind; [apply only_struct_error_write_fstring|]. intros _.
  apply only_struct_error_bind.
  { apply only_struct_error_lift. unfold getitem. rewrite Hs. discriminate. }
  intros s'. apply only_struct_error_pack_i.
Qed.

Lemma only_struct_error_generate_body all :
  only_struct_error (generate_body all).
Proof.
  pose proof (build_string_table_inv all) as Hinv.
  unfold generate_body.
  destruct (build_string_table all) as [m values]. cbn [fst snd] in Hinv.
  apply only_struct_error_bind; [apply only_struct_error_write|]. intros _.
  apply only_struct_error_bind; [apply only_struct_error_lift, pack_B_raises|]. intros b1.
  apply only_struct_error_bind; [apply only_struct_error_write|]. intros _.
  apply only_struct_error_bind; [intros f f' e; unfold tell; discriminate|]. intros p.
  apply only_struct_error_bind; [apply only_struct_error_lift, pack_q_raises|]. intros b2.
  apply only_struct_error_bind; [apply only_struct_error_write|]. intros _.
  apply only_struct_error_bind; [apply only_struct_error_lift, pack_i_raises|]. intros b3.
  apply only_struct_error_bind; [apply only_struct_error_write|]. intros _.
  apply only_struct_error_bind; [apply only_struct_error_lift, pack_i_raises|]. intros b4.
  apply only_struct_error_bind; [apply only_struct_error_write|]. intros _.
  apply only_struct_error_bind.
  { apply only_struct_error_for_each. intros ns Hns.
    apply only_struct_error_write_namespace. intros e He.
    apply (inv_dom _ _ _ Hinv). apply list_elem_of_fmap. exists e.
    split; [reflexivity|]. eapply elem_of_all_entries; eassumption. }
  intros _.
  apply only_struct_error_bind; [intros f f' e; unfold tell; discriminate|]. intros off.
  apply only_struct_error_bind; [intros f f' e; unfold seek; discriminate|]. intros _.
  apply only_struct_error_bind; [apply only_struct_error_lift, pack_q_raises|]. intros b5.
  apply only_struct_error_bind; [apply only_struct_error_write|]. intros _.
  apply only_struct_error_bind; [intros f f' e; unfold seek; discriminate|]. intros _.
  apply only_struct_error_bind; [apply only_struct_error_lift, pack_i_raises|]. intros b6.
  apply only_struct_error_bind; [apply only_struct_error_write|]. intros _.
  apply only_struct_error_for_each. intros v Hv.
  apply only_struct_error_write_table_string.
  apply (inv_dom _ _ _ Hinv), (inv_values _ _ _ Hinv), Hv.
Qed.

(** What a run that reaches its end has packed. *)
Lemma for_each_ok_each {A} (l : list A) (body : A -> io unit) : forall f f',
  for_each l body f = (f', Ok tt) ->
  forall x, x ∈ l -> exists f1 f2, body x f1 = (f2, Ok tt).
Proof.
  induction l as [|y l IH]; intros f f' H x Hx; [inversion Hx|].
  cbn [for_each] in H. apply iobind_ok in H as (f1 & [] & H1 & H2).
  inversion Hx; subst; [eauto|]. eapply IH; eassumption.
Qed.

Lemma write_entry_ok_fits m e f f' :
  write_entry m e f = (f', Ok tt) -> u32 (key_hash e) /\ u32 (source_string_hash e).
Proof.
  unfold write_entry. intros H.
  apply iobind_ok in H as (f1 & b1 & H1 & H). apply lift_ok in H1 as [-> H1].
  apply iobind_ok in H as (f2 & [] & _ & H).
  apply iobind_ok in H as (f3 & [] & _ & H).
  apply iobind_ok in H as (f4 & b2 & H4 & H). apply lift_ok in H4 as [-> H4].
  split; eapply pack_I_range; eassumption.
Qed.

Lemma write_namespace_ok_fits m ns f f' :
  write_namespace m ns f = (f', Ok tt) -> hashes_fit ns.
Proof.
  unfold write_namespace. intros H.
  apply iobind_ok in H as (f1 & b1 & H1 & H). apply lift_ok in H1 as [-> H1].
  apply iobind_ok in H as (f2 & [] & _ & H).
  apply iobind_ok in H as (f3 & [] & _ & H).
  apply iobind_ok in H as (f4 & b2 & H4 & H). apply lift_ok in H4 as [-> H4].
  apply iobind_ok in H as (f5 & [] & _ & H).
  split; [eapply pack_I_range; eassumption|].
  apply Forall_forall. intros e He.
  destruct (for_each_ok_each _ _ _ _ H e He) as (g1 & g2 & Hg).
  eapply write_entry_ok_fits. exact Hg.
Qed.

Lemma generate_body_ok_fits all f' :
  generate_body all opened = (f', Ok tt) ->
  Forall hashes_fit all /\ len (all_entries all) < 2^31 /\ len all < 2^31.
Proof.
  unfold generate_body.
  destruct (build_string_table all) as [m values]. intros H.
  apply iobind_ok in H as (f1 & [] & _ & H).
  apply iobind_ok in H as (f2 & bv & _ & H).
  apply iobind_ok in H as (f3 & [] & _ & H).
  apply iobind_ok in H as (f4 & p17 & _ & H).
  apply iobind_ok in H as (f5 & b0 & _ & H).
  apply iobind_ok in H as (f6 & [] & _ & H).
  apply iobind_ok in H as (f7 & b1 & H7 & H). apply lift_ok in H7 as [-> H7].
  apply pack_i_range in H7. rewrite total_key_entries_len in H7.
  apply iobind_ok in H as (f8 & [] & _ & H).
  apply iobind_ok in H as (f9 & b2 & H9 & H). apply lift_ok in H9 as [-> H9].
  apply pack_i_range in H9.
  apply iobind_ok in H as (f10 & [] & _ & H).
  apply iobind_ok in H as (f11 & [] & H11 & _).
  split; [|lia].
  apply Forall_forall. intros ns Hns.
  destruct (for_each_ok_each _ _ _ _ H11 ns Hns) as (g1 & g2 & Hg).
  eapply write_namespace_ok_fits. exact Hg.
Qed.


Example bad_hash_is_reported :
  (generate_locres_file_v3_with_hashes bad_hash_data).2 = Raise StructError
  /\ len (generate_locres_file_v3_with_hashes bad_hash_data).1 = 73.
Proof. vm_compute. split; reflexivity. Qed.

(** *** What a failed run leaves *)

Lemma grows_write b : grows (write b).
Proof.
  intros f f' r Hf. rewrite write_at_end by exact Hf. intros [= <- <-].
  split; [reflexivity | eauto].
Qed.

Lemma grows_ret : grows (ret tt).
Proof.
  intros f f' r Hf [= <- <-]. split; [exact Hf|]. exists []. rewrite app_nil_r. reflexivity.
Qed.

Lemma grows_seq (W1 W2 : io unit) : grows W1 -> grows W2 -> grows (W1 ;;; W2).
Proof.
  intros H1 H2 f f' r Hf. unfold iobind.
  destruct (W1 f) as [f1 [[]|e]] eqn:E.
  - destruct (H1 f f1 _ Hf E) as [He1 [B1 Hb1]]. intros Hr.
    destruct (H2 f1 f' r He1 Hr) as [He2 [B2 Hb2]].
    split; [exact He2|]. exists (B1 ++ B2). rewrite Hb2, Hb1, app_assoc. reflexivity.
  - intros [= <- <-]. eapply H1; eassumption.
Qed.

Lemma grows_lift {A} (r : pyresult A) (k : A -> io unit) :
  (forall a, grows (k a)) -> grows (do! a := lift r in k a).
Proof.
  intros Hk f f' r' Hf. unfold iobind, lift. destruct r as [a|e].
  - apply Hk, Hf.
  - intros [= <- <-]. split; [exact Hf|]. exists []. rewrite app_nil_r. reflexivity.
Qed.

Lemma grows_for_each {A} (l : list A) (body : A -> io unit) :
  (forall x, grows (body x)) -> grows (for_each l body).
Proof.
  intros Hbody. induction l as [|x l IH]; cbn [for_each].
  - apply grows_ret.
  - apply grows_seq; [apply Hbody | exact IH].
Qed.

Lemma grows_write_fstring text : grows (write_fstring_for_locres text).
Proof.
  intros f f' r Hf. rewrite (writes_write_fstring text f Hf). intros [= <- <-].
  split; [reflexivity|]. unfold after. cbn [buf]. eauto.
Qed.

Lemma grows_write_entry m e : grows (write_entry m e).
Proof.
  unfold write_entry.
  apply grows_lift. intros b1. apply grows_seq; [apply grows_write|].
  apply grows_seq; [apply grows_write_fstring|].
  apply grows_lift. intros b2. apply grows_seq; [apply grows_write|].
  apply grows_lift. intros s. apply grows_lift. intros b3. apply grows_write.
Qed.

Lemma grows_write_namespace m ns : grows (write_namespace m ns).
Proof.
  unfold write_namespace.
  apply grows_lift. intros b1. apply grows_seq; [apply grows_write|].
  apply grows_seq; [apply grows_write_fstring|].
  apply grows_lift. intros b2. apply grows_seq; [apply grows_write|].
  apply grows_for_each. intros e. apply grows_write_entry.
Qed.

Lemma iobind_lift_raise {A B} (r : pyresult A) (e : exn) (k : A -> io B) f :
  r = Raise e -> iobind (lift r) k f = (f, Raise e).
Proof. intros ->. reflexivity. Qed.

Lemma take_header (B : bytes) :
  take 25 (header_without_offset ++ B) = header_without_offset.
Proof. reflexivity. Qed.

Lemma generate_body_raise all f e :
  generate_body all opened = (f, Raise e) ->
  take 25 (buf f) = header_without_offset.
Proof.
  pose proof (build_string_table_inv all) as Hinv.
  unfold generate_body.
  destruct (build_string_table all) as [m values] eqn:Etab. cbn [fst snd] in Hinv.
  set (vs := map translated_value (all_entries all)) in *.
  assert (Hvs : len vs = len (all_entries all)).
  { unfold vs, len. rewrite length_map. reflexivity. }
  pose proof (table_values_le _ _ _ Hinv) as Hvl.
  pose proof (len_nonneg values) as Hvn.
  rewrite (iobind_writes _ _ _ _ (writes_write _)) by reflexivity.
  rewrite (iobind_lift_ok (pack_B LOCRES_VERSION_OPTIMIZED_CITYHASH_UTF16) [3] _ _ eq_refl).
  rewrite (iobind_writes _ _ _ _ (writes_write _)) by reflexivity.
  unfold iobind at 1. unfold tell at 1.
  rewrite (iobind_lift_ok (pack_q 0) (le_bytes 8 0) _ _ eq_refl).
  rewrite (iobind_writes _ _ _ _ (writes_write _)) by reflexivity.
  rewrite total_key_entries_len, !after_after.
  destruct (pack_i (len (all_entries all))) as [b1|e1] eqn:E1.
  2:{ rewrite (iobind_lift_raise _ e1 _ _ eq_refl). intros [= <- _]. reflexivity. }
  apply pack_i_ok in E1 as Hb1. apply pack_i_range in E1. subst b1.
  rewrite (iobind_lift_ok _ _ _ _ eq_refl).
  rewrite (iobind_writes _ _ _ _ (writes_write _)) by reflexivity.
  rewrite !after_after.
  destruct (pack_i (len all)) as [b2|e2] eqn:E2.
  2:{ rewrite (iobind_lift_raise _ e2 _ _ eq_refl). intros [= <- _]. reflexivity. }
  apply pack_i_ok in E2 as Hb2. subst b2.
  rewrite (iobind_lift_ok _ _ _ _ eq_refl).
  rewrite (iobind_writes _ _ _ _ (writes_write _)) by reflexivity.
  rewrite !after_after.
  unfold iobind at 1.
  match goal with
  | |- context [for_each all _ (after opened ?h)] => set (head33 := h)
  end.
  destruct (for_each all (write_namespace m) (after opened head33))
    as [f11 r11] eqn:E11.
  assert (Hg : grows (for_each all (write_namespace m))).
  { apply grows_for_each. intros ns. apply grows_write_namespace. }
  destruct (Hg _ _ _ (after_at_end _ _) E11) as [Hend11 [B Hbuf11]].
  cbn [after opened buf app] in Hbuf11.
  destruct r11 as [[]|e11]; cbv beta iota.
  2:{ intros [= <- _]. rewrite Hbuf11. unfold head33. rewrite <- !app_assoc. reflexivity. }
  unfold iobind at 1. unfold tell at 1.
  unfold iobind at 1. unfold seek at 1.
  destruct (pack_q (pos f11)) as [bo|eo] eqn:Eo.
  2:{ rewrite (iobind_lift_raise _ eo _ _ eq_refl). intros [= <- _].
      cbn [buf]. rewrite Hbuf11. unfold head33. rewrite <- !app_assoc. reflexivity. }
  apply pack_q_ok in Eo as Hbo. subst bo.
  rewrite (iobind_lift_ok _ _ _ _ eq_refl).
  unfold iobind at 1. destruct f11 as [buf11 pos11].
  unfold at_end in Hend11. cbn [buf pos] in *.
  assert (Hshape : buf11 = (LOCRES_MAGIC_BYTES ++ [3]) ++ le_bytes 8 0
            ++ (le_bytes 4 (len (all_entries all)) ++ le_bytes 4 (len all) ++ B)).
  { rewrite Hbuf11. unfold head33. rewrite <- !app_assoc. reflexivity. }
  rewrite Hshape at 1.
  rewrite (write_patch _ _ (le_bytes 8 0))
    by (rewrite ?le_bytes_length; reflexivity).
  unfold iobind at 1. unfold seek at 1. cbn [buf pos].
  rewrite (iobind_lift_ok _ _ _ _ (pack_i_fits (len values) ltac:(lia))).
  rewrite (iobind_writes _ _ _ _ (writes_write _)).
  2:{ unfold at_end. cbn [buf pos]. rewrite Hend11, Hshape. unfold len.
      rewrite !length_app, !le_bytes_length. reflexivity. }
  assert (Htab : writes (for_each values (write_table_string m))
                   (concat (map (table_record m) values))).
  { apply writes_for_each. intros v Hin.
    pose proof (inv_values _ _ _ Hinv v Hin) as Hv.
    apply (inv_dom _ _ _ Hinv) in Hv as [s Hs].
    eapply writes_write_table_string; [exact Hs|].
    destruct (inv_slot _ _ _ Hinv v s Hs) as (_ & _ & ->).
    pose proof (occurrences_le v vs). pose proof (occurrences_nonneg v vs). lia. }
  rewrite (Htab _ (after_at_end _ _)). discriminate.
Qed.


End LocresFacts.

(** ** The line-breaking transform *)

Module LineBreakFacts.
Import Py PyFacts LineBreak.

Example break_text_example :
  break_text_at_spaces (lit "the quick brown fox") 9
  = Some (lit "the quick" ++ [LF] ++ lit "brown fox").
Proof. vm_compute. reflexivity. Qed.

(** A word longer than the limit is cut. *)
Example break_text_hard_break :
  break_text_at_spaces (lit "abcdefgh ij") 3
  = Some (lit "abc" ++ [LF] ++ lit "def" ++ [LF] ++ lit "gh" ++ [LF] ++ lit "ij").
Proof. vm_compute. reflexivity. Qed.


Lemma rfind_char_bounds c s lo hi :
  0 <= lo <= len s -> 0 <= hi ->
  rfind_char c s lo hi <> -1 ->
  lo <= rfind_char c s lo hi < hi.
Proof.
  intros Hlo Hhi. unfold rfind_char.
  destruct (last_index c (slice s lo hi)) as [j|] eqn:E; [|congruence].
  intros _. apply last_index_lt in E.
  rewrite norm_index_id by lia.
  destruct (slice_length_le s lo hi Hlo Hhi) as [Hl|Hn].
  - unfold len in Hl. lia.
  - rewrite Hn in E. simpl in E. lia.
Qed.

(** Every iteration appends a line of at most [max_len] characters. *)
Lemma break_loop_short fuel t m : 1 <= m ->
  forall start lines r, 0 <= start ->
  Forall (short m) lines ->
  break_loop fuel t m start lines = Some r ->
  Forall (short m) r.
Proof.
  intros Hm. induction fuel as [|fuel IH]; intros start lines r Hs Hl; simpl;
    [discriminate|].
  destruct (Z.ltb_spec start (len t)) as [Hlt|Hge]; [|intros [= <-]; exact Hl].
  destruct (Z.leb_spec (len t - start) m) as [Hrest|Hrest].
  - intros [= <-]. apply Forall_app; split; [exact Hl|].
    constructor; [|constructor]. unfold short.
    rewrite slice_from_length by lia. lia.
  - set (bp := rfind_char SPACE t start (start + m + 1)).
    destruct (negb (bp =? -1) && (start <? bp)) eqn:Hc.
    + apply andb_true_iff in Hc as [Hne Hgt].
      apply negb_true_iff, Z.eqb_neq in Hne. apply Z.ltb_lt in Hgt.
      pose proof (rfind_char_bounds SPACE t start (start + m + 1)
                    ltac:(lia) ltac:(lia) Hne) as Hb. fold bp in Hb.
      apply IH; [lia|]. apply Forall_app; split; [exact Hl|].
      constructor; [|constructor]. unfold short.
      destruct (slice_length_le t start bp ltac:(lia) ltac:(lia)) as [H|H].
      * lia.
      * rewrite H. unfold len. simpl. lia.
    + apply IH; [lia|]. apply Forall_app; split; [exact Hl|].
      constructor; [|constructor]. unfold short.
      destruct (slice_length_le t start (start + m) ltac:(lia) ltac:(lia)) as [H|H].
      * lia.
      * rewrite H. unfold len. simpl. lia.
Qed.

(** The loop ends: the start index grows by at least one per iteration. *)
Lemma break_loop_terminates fuel t m : 1 <= m ->
  forall start lines, 0 <= start ->
  (0 < fuel)%nat ->
  len t - start < Z.of_nat fuel ->
  exists r, break_loop fuel t m start lines = Some r.
Proof.
  intros Hm. induction fuel as [|fuel IH]; intros start lines Hs Hpos Hf; simpl.
  - lia.
  - destruct (Z.ltb_spec start (len t)) as [Hlt|Hge]; [|eauto].
    destruct (Z.leb_spec (len t - start) m) as [Hrest|Hrest]; [eauto|].
    set (bp := rfind_char SPACE t start (start + m + 1)).
    destruct (negb (bp =? -1) && (start <? bp)) eqn:Hc.
    + apply andb_true_iff in Hc as [_ Hgt]. apply Z.ltb_lt in Hgt.
      apply IH; lia.
    + apply IH; lia.
Qed.

Lemma break_loop_lines_nonempty fuel t m :
  forall start lines r,
  break_loop fuel t m start lines = Some r ->
  start < len t -> r <> [].
Proof.
  induction fuel as [|fuel IH]; intros start lines r; simpl; [discriminate|].
  intros H Hlt. destruct (Z.ltb_spec start (len t)) as [_|?]; [|lia].
  assert (Hmono : forall fuel s l r', break_loop fuel t m s (l ++ [r']) = Some r -> r <> []).
  { clear. induction fuel as [|fuel IH]; intros s l r'; simpl; [discriminate|].
    destruct (s <? len t).
    - destruct (len t - s <=? m).
      + intros [= <-]. destruct l; discriminate.
      + destruct (_ && _); apply IH.
    - intros [= <-]. destruct l; discriminate. }
  destruct (len t - start <=? m).
  - injection H as <-. destruct lines; discriminate.
  - destruct (_ && _); eapply Hmono; exact H.
Qed.

(** C10: for every text and every [max_len >= 1], [break_text_at_spaces]
    returns (the loop terminates within the fuel it is given), every
    newline-separated line of the result has at most [max_len]
    characters, and a text of at most [max_len] characters is returned
    unchanged. *)
Theorem break_text_at_spaces_lines_bounded (t : pystr) (max_len : Z) :
  1 <= max_len ->
  exists r,
    break_text_at_spaces t max_len = Some r
    /\ Forall (fun line => len line <= max_len) (split_on LF r)
    /\ (len t <= max_len -> r = t).
Proof.
  intros Hm. unfold break_text_at_spaces, break_text_at_spaces_fuel.
  destruct (Z.leb_spec (len t) max_len) as [Hle|Hgt].
  - exists t. split; [reflexivity|]. split; [|reflexivity].
    eapply Forall_impl; [apply split_on_pieces_le|].
    simpl. intros p Hp. unfold len in *. lia.
  - destruct (break_loop_terminates (S (length t)) t max_len Hm 0 []
                ltac:(lia) ltac:(lia)) as [lines Hlines].
    { unfold len. lia. }
    rewrite Hlines. eexists. split; [reflexivity|]. split; [|lia].
    assert (Hshort : Forall (short max_len) lines).
    { eapply (break_loop_short _ _ _ Hm 0 []); [lia | constructor | exact Hlines]. }
    rewrite split_on_join.
    + apply Forall_concat, Forall_map.
      eapply Forall_impl; [exact Hshort|]. intros l Hl. simpl.
      eapply Forall_impl; [apply split_on_pieces_le|].
      simpl. intros p Hp. unfold short, len in *. lia.
    + eapply break_loop_lines_nonempty; [exact Hlines|].
      pose proof (len_nonneg t). lia.
Qed.

Lemma break_text_at_spaces_lines_bounded_witness :
  exists r,
    break_text_at_spaces (lit "the quick brown fox") 9 = Some r
    /\ Forall (fun line => len line <= 9) (split_on LF r)
    /\ (len (lit "the quick brown fox") <= 9 -> r = lit "the quick brown fox").
Proof.
  apply (break_text_at_spaces_lines_bounded (lit "the quick brown fox") 9).
  lia.
Defined.

(** With [max_len = 0] a non-empty text makes no progress: the loop
    never returns, whatever the fuel. *)
Lemma break_loop_zero_diverges fuel t start lines :
  0 <= start < len t ->
  break_loop fuel t 0 start lines = None.
Proof.
  revert lines. induction fuel as [|fuel IH]; intros lines Hs; simpl;
    [reflexivity|].
  destruct (Z.ltb_spec start (len t)); [|lia].
  destruct (Z.leb_spec (len t - start) 0); [lia|].
  set (bp := rfind_char SPACE t start (start + 0 + 1)).
  destruct (negb (bp =? -1) && (start <? bp)) eqn:Hc.
  - apply andb_true_iff in Hc as [Hne Hgt].
    apply negb_true_iff, Z.eqb_neq in Hne. apply Z.ltb_lt in Hgt.
    pose proof (rfind_char_bounds SPACE t start (start + 0 + 1)
                  ltac:(lia) ltac:(lia) Hne) as Hb. fold bp in Hb. lia.
  - replace (start + 0) with start by lia. apply IH. lia.
Qed.

(** *** What line breaking keeps *)

Lemma ink_app a b : ink (a ++ b) = ink a ++ ink b.
Proof. apply List.filter_app. Qed.

Lemma ink_join lines : ink (join [LF] lines) = concat (map ink lines).
Proof.
  induction lines as [|l lines IH]; [reflexivity|].
  destruct lines as [|l' lines].
  - simpl. rewrite app_nil_r. reflexivity.
  - change (join [LF] (l :: l' :: lines)) with (l ++ [LF] ++ join [LF] (l' :: lines)).
    rewrite !ink_app, IH. reflexivity.
Qed.

Lemma last_index_lookup c s j : last_index c s = Some j -> s !! j = Some c.
Proof.
  revert j. induction s as [|a s IH]; intros j; simpl; [discriminate|].
  destruct (last_index c s) as [k|].
  - intros [= <-]. apply IH. reflexivity.
  - destruct (bool_decide_reflect (a = c)) as [->|]; [intros [= <-]; reflexivity | discriminate].
Qed.

Lemma slice_to_take_drop {A} (l : list A) lo hi :
  0 <= lo <= hi -> hi <= len l ->
  slice l lo hi = take (Z.to_nat (hi - lo)) (drop (Z.to_nat lo) l).
Proof.
  intros H1 H2. unfold slice. rewrite !norm_index_id by lia. reflexivity.
Qed.

(** The space [rfind] reports is in the text. *)
Lemma rfind_char_lookup c s lo hi :
  0 <= lo <= len s -> 0 <= hi ->
  rfind_char c s lo hi <> -1 ->
  s !! Z.to_nat (rfind_char c s lo hi) = Some c.
Proof.
  intros Hlo Hhi. unfold rfind_char.
  destruct (last_index c (slice s lo hi)) as [j|] eqn:E; [|congruence].
  intros _. apply last_index_lookup in E. unfold slice in E.
  rewrite (norm_index_id _ lo) in * by lia.
  apply lookup_take_Some in E as [E _]. rewrite lookup_drop in E.
  replace (Z.to_nat (lo + Z.of_nat j)) with (Z.to_nat lo + j)%nat by lia. exact E.
Qed.

Lemma drop_split_at {A} (l : list A) (a b : nat) (x : A) :
  (a <= b)%nat -> l !! b = Some x ->
  drop a l = take (b - a) (drop a l) ++ [x] ++ drop (S b) l.
Proof.
  intros Hab Hx.
  rewrite <- (take_drop (b - a) (drop a l)) at 1. f_equal.
  rewrite drop_drop. replace (a + (b - a))%nat with b by lia.
  apply drop_S in Hx. exact Hx.
Qed.

Lemma break_loop_ink fuel t m : 1 <= m ->
  forall start lines r, 0 <= start ->
  break_loop fuel t m start lines = Some r ->
  concat (map ink r) = concat (map ink lines) ++ ink (drop (Z.to_nat start) t).
Proof.
  intros Hm. induction fuel as [|fuel IH]; intros start lines r Hs; simpl;
    [discriminate|].
  destruct (Z.ltb_spec start (len t)) as [Hlt|Hge].
  2:{ intros [= <-]. rewrite drop_ge by (unfold len in Hge; lia).
      rewrite app_nil_r. reflexivity. }
  destruct (Z.leb_spec (len t - start) m) as [Hrest|Hrest].
  - intros [= <-]. rewrite map_app, concat_app. f_equal.
    unfold slice_from. rewrite norm_index_id by lia. simpl. apply app_nil_r.
  - set (bp := rfind_char SPACE t start (start + m + 1)).
    destruct (negb (bp =? -1) && (start <? bp)) eqn:Hc.
    + apply andb_true_iff in Hc as [Hne Hgt].
      apply negb_true_iff, Z.eqb_neq in Hne. apply Z.ltb_lt in Hgt.
      pose proof (rfind_char_bounds SPACE t start (start + m + 1)
                    ltac:(lia) ltac:(lia) Hne) as Hb. fold bp in Hb.
      pose proof (rfind_char_lookup SPACE t start (start + m + 1)
                    ltac:(lia) ltac:(lia) Hne) as Hsp. fold bp in Hsp.
      intros H. apply IH in H; [|lia]. rewrite H.
      rewrite map_app, concat_app, <- app_assoc. f_equal.
      cbn [map concat]. rewrite app_nil_r.
      apply lookup_lt_Some in Hsp as Hbl.
      rewrite slice_to_take_drop by (unfold len; lia).
      replace (Z.to_nat (bp - start)) with (Z.to_nat bp - Z.to_nat start)%nat by lia.
      replace (Z.to_nat (bp + 1)) with (S (Z.to_nat bp)) by lia.
      set (seg := take _ (drop (Z.to_nat start) t)).
      rewrite (drop_split_at t (Z.to_nat start) (Z.to_nat bp) SPACE) by (lia || exact Hsp).
      fold seg. rewrite !ink_app. reflexivity.
    + intros H. apply IH in H; [|lia]. rewrite H.
      rewrite map_app, concat_app, <- app_assoc. f_equal.
      cbn [map concat]. rewrite app_nil_r.
      rewrite slice_to_take_drop by lia.
      rewrite <- ink_app.
      replace (Z.to_nat (start + m)) with (Z.to_nat start + Z.to_nat (start + m - start))%nat
        by lia.
      rewrite <- drop_drop, take_drop. reflexivity.
Qed.

(** X10: for every limit of at least one, the result of
    [break_text_at_spaces] has the characters of the text that are
    neither spaces nor newlines, all of them and in their order: line
    breaking only turns spaces into newlines and inserts newlines. *)
Theorem break_text_at_spaces_keeps_content (t : pystr) (max_len : Z) :
  1 <= max_len ->
  exists r, break_text_at_spaces t max_len = Some r /\ ink r = ink t.
Proof.
  intros Hm. unfold break_text_at_spaces, break_text_at_spaces_fuel.
  destruct (Z.leb_spec (len t) max_len) as [Hle|Hgt]; [eauto|].
  destruct (break_loop_terminates (S (length t)) t max_len Hm 0 []
              ltac:(lia) ltac:(lia)) as [lines Hlines].
  { unfold len. lia. }
  rewrite Hlines. eexists. split; [reflexivity|].
  rewrite ink_join.
  rewrite (break_loop_ink _ _ _ Hm 0 [] lines ltac:(lia) Hlines). reflexivity.
Qed.

Lemma break_text_at_spaces_keeps_content_witness :
  exists r, break_text_at_spaces (lit "ab cdefg hi") 3 = Some r
            /\ ink r = lit "abcdefghi".
Proof.
  apply (break_text_at_spaces_keeps_content (lit "ab cdefg hi") 3). lia.
Defined.

(** *** Limits below one *)

Lemma rfind_char_window c s lo hi :
  rfind_char c s lo hi <> -1 ->
  norm_index (len s) lo <= rfind_char c s lo hi < norm_index (len s) hi.
Proof.
  unfold rfind_char.
  destruct (last_index c (slice s lo hi)) as [j|] eqn:E; [|congruence].
  intros _. apply last_index_lt in E. unfold slice in E. cbv zeta in E.
  rewrite length_take in E. lia.
Qed.

(** With a limit below one the start index never reaches the end of
    the text. *)
Lemma break_loop_nonpositive_diverges fuel t m : m <= 0 ->
  forall start lines, start < len t ->
  break_loop fuel t m start lines = None.
Proof.
  intros Hm. induction fuel as [|fuel IH]; intros start lines Hs; simpl;
    [reflexivity|].
  destruct (Z.ltb_spec start (len t)); [|lia].
  pose proof (len_nonneg t) as Hn.
  destruct (Z.leb_spec (len t - start) m); [lia|].
  set (bp := rfind_char SPACE t start (start + m + 1)).
  destruct (negb (bp =? -1) && (start <? bp)) eqn:Hc.
  - apply andb_true_iff in Hc as [Hne Hgt].
    apply negb_true_iff, Z.eqb_neq in Hne. apply Z.ltb_lt in Hgt.
    pose proof (rfind_char_window SPACE t start (start + m + 1) Hne) as Hb.
    fold bp in Hb. apply IH.
    unfold norm_index in Hb.
    destruct (Z.ltb_spec start 0), (Z.ltb_spec (start + m + 1) 0); lia.
  - apply IH. lia.
Qed.

(** X11: with a limit of zero or less and a text that is not empty the
    loop of [break_text_at_spaces] never ends: whatever the number of
    iterations allowed, no result is reached. *)
Theorem break_text_at_spaces_needs_positive_limit
    (fuel : nat) (t : pystr) (max_len : Z) :
  t <> [] -> max_len <= 0 ->
  break_text_at_spaces_fuel fuel t max_len = None.
Proof.
  intros Ht Hm. unfold break_text_at_spaces_fuel.
  assert (Hl : 0 < len t) by (destruct t; [contradiction | unfold len; simpl; lia]).
  destruct (Z.leb_spec (len t) max_len); [lia|].
  rewrite break_loop_nonpositive_diverges by lia. reflexivity.
Qed.

Lemma break_text_at_spaces_needs_positive_limit_witness :
  break_text_at_spaces_fuel 1000 (lit "ab") 0 = None.
Proof.
  apply (break_text_at_spaces_needs_positive_limit 1000 (lit "ab") 0).
  - discriminate.
  - lia.
Defined.

End LineBreakFacts.

(** ** The entries of the text files *)

Module FormatStringFacts.
Import Py PyFacts Hashes HashFacts FormatString.

Lemma normalize_line_endings_is_to_lf text : normalize_line_endings text = to_lf text.
Proof. apply replace_crlf_cr_is_to_lf. Qed.

(** A replacement brings in no character but those of the text and of
    the new text. *)
Lemma replace_fuel_Forall (P : Z -> Prop) old new : Forall P new ->
  forall fuel s, Forall P s -> Forall P (replace_fuel fuel old new s).
Proof.
  intros Hnew. induction fuel as [|fuel IH]; intros s Hs; [exact Hs|].
  cbn [replace_fuel]. destruct s as [|a s]; [constructor|].
  destruct (startswith old (a :: s)).
  - apply Forall_app. split; [exact Hnew|]. apply IH, Forall_drop, Hs.
  - inversion Hs; subst. constructor; [assumption|]. apply IH. assumption.
Qed.

Lemma replace_Forall (P : Z -> Prop) old new s :
  Forall P new -> Forall P s -> Forall P (replace old new s).
Proof. intros Hn Hs. apply replace_fuel_Forall; assumption. Qed.

(** Replacing a character removes it. *)
Lemma replace_char_removed c new s :
  Forall (fun x => x <> c) new -> Forall (fun x => x <> c) (replace [c] new s).
Proof.
  intros Hnew. induction s as [|a s IH]; [constructor|].
  rewrite replace_cons by discriminate. cbn [startswith].
  destruct (bool_decide_reflect (c = a)) as [<-|Hne]; cbn [andb length drop].
  - apply Forall_app. split; [exact Hnew | exact IH].
  - constructor; [congruence | exact IH].
Qed.

Lemma to_lf_Forall_no_cr s : Forall (fun x => x <> CR) (to_lf s).
Proof.
  apply Forall_forall. intros x Hx ->. apply (to_lf_no_cr s), list_elem_of_In, Hx.
Qed.

(** X12: [normalize_line_endings] turns every line ending (CR LF, a
    lone CR, a lone LF) into LF: the result holds no CR, normalizing it
    again changes nothing, and the line endings the key hash is
    computed with are those of the text itself. *)
Theorem normalize_line_endings_normal_form (text : pystr) :
  normalize_line_endings text = to_lf text
  /\ ~ In CR (normalize_line_endings text)
  /\ normalize_line_endings (normalize_line_endings text) = normalize_line_endings text
  /\ normalize_line_endings_for_hash (normalize_line_endings text)
     = normalize_line_endings_for_hash text.
Proof.
  rewrite !normalize_line_endings_is_to_lf.
  split; [reflexivity|]. split; [apply to_lf_no_cr|]. split; [apply to_lf_idem|].
  rewrite !normalize_line_endings_for_hash_is_to_crlf. apply to_crlf_of_to_lf.
Qed.

Lemma split_on_absent c s : ~ In c s -> split_on c s = [s].
Proof.
  induction s as [|a s IH]; [reflexivity|]. cbn [In split_on]. intros H.
  rewrite bool_decide_eq_false_2 by (intros ->; apply H; left; reflexivity).
  rewrite IH by tauto. reflexivity.
Qed.

Lemma escaped_no_line_ending value :
  Forall (fun c => c <> LF /\ c <> CR) (escaped value).
Proof.
  unfold escaped. rewrite normalize_line_endings_is_to_lf.
  apply Forall_and. split.
  - apply replace_char_removed. repeat constructor; chr_neq.
  - apply replace_Forall; [repeat constructor; chr_neq | apply to_lf_Forall_no_cr].
Qed.

(** X13: [write_format_string_entry_original_style] appends the key,
    [" = "], the value and a newline; the value is written with every
    line ending turned into the two characters [\n], so that it holds
    neither LF nor CR, and an entry whose key holds no LF is one line of
    the file. *)
Theorem entry_is_written_on_one_line (f key value : pystr) :
  write_format_string_entry_original_style f key value
  = f ++ (key ++ lit " = " ++ escaped value) ++ [LF]
  /\ Forall (fun c => c <> LF /\ c <> CR) (escaped value)
  /\ (~ In LF key ->
      split_on LF ((key ++ lit " = " ++ escaped value) ++ [LF])
      = [key ++ lit " = " ++ escaped value; []]).
Proof.
  split; [|split].
  - unfold write_format_string_entry_original_style, escaped.
    rewrite <- !app_assoc. reflexivity.
  - apply escaped_no_line_ending.
  - intros Hkey. rewrite split_on_app_sep, split_on_absent; [reflexivity|].
    rewrite !in_app_iff. intros [H|[H|H]].
    + exact (Hkey H).
    + cbn in H. unfold LF in H. intuition discriminate.
    + pose proof (escaped_no_line_ending value) as He.
      rewrite Forall_forall in He. apply list_elem_of_In, He in H. tauto.
Qed.

Lemma entry_is_written_on_one_line_witness :
  split_on LF ((lit "Hint" ++ lit " = " ++ escaped (lit "Press" ++ [CR; LF] ++ lit "OK"))
               ++ [LF])
  = [lit "Hint = Press\nOK"; []].
Proof.
  destruct (entry_is_written_on_one_line [] (lit "Hint")
              (lit "Press" ++ [CR; LF] ++ lit "OK")) as (_ & _ & H).
  rewrite H.
  - vm_compute. reflexivity.
  - cbn. unfold LF. intuition discriminate.
Defined.

End FormatStringFacts.

(** ** The table of hashes *)

Module HashCsvFacts.
Import Py PyFacts FormatString HashCsv.

Section Loader.
Variable int : pystr -> option Z.

Lemma load_rows_snoc st rows row :
  load_rows int st (rows ++ [row]) =
  load_rows int st rows ≫= fun st' => load_row int st' row.
Proof.
  revert st. induction rows as [|r rows IH]; intros st; cbn.
  - destruct (load_row int st row); reflexivity.
  - destruct (load_row int st r) as [st'|]; cbn; [apply IH | reflexivity].
Qed.

Lemma load_row_parses st row :
  is_Some (load_row int st row) <-> parses int row.
Proof.
  unfold load_row, parses.
  destruct (namespace_info_from_csv st !! clean_key_bom (Namespace row));
    destruct (int (NamespaceHash row)); cbn;
    destruct (int (KeyHash_of_KeyString row)); cbn;
    destruct (int (SourceStringHash_of_SourceText row)); cbn;
    split; intros H; repeat split; try (destruct H as (?&?&?));
    try (eexists; reflexivity);
    try (match goal with H : is_Some None |- _ => destruct H; discriminate end).
Qed.

Lemma load_rows_parses st rows :
  is_Some (load_rows int st rows) <-> Forall (parses int) rows.
Proof.
  revert st. induction rows as [|r rows IH]; intros st; cbn.
  - split; [constructor | eauto].
  - rewrite Forall_cons. rewrite <- load_row_parses with (st := st).
    destruct (load_row int st r) as [st'|]; cbn.
    + rewrite IH. split; [intros H; split; [eauto | exact H] | intros [_ H]; exact H].
    + split; [intros [x Hx]; discriminate | intros [[x Hx] _]; discriminate].
Qed.

Lemma first_with_snoc {A} (P : A -> Prop) l before x y :
  first_with P l before x -> first_with P (l ++ [y]) before x.
Proof.
  intros (rest & -> & HP & Hb). exists (rest ++ [y]).
  rewrite <- app_assoc. auto.
Qed.

Lemma last_with_snoc_other {A} (P : A -> Prop) l x y :
  ~ P y -> last_with P l x -> last_with P (l ++ [y]) x.
Proof.
  intros Hy (before & rest & -> & HP & Hr). exists before, (rest ++ [y]).
  rewrite <- app_assoc. split; [reflexivity|]. split; [exact HP|].
  apply Forall_app. split; [exact Hr | constructor; [exact Hy | constructor]].
Qed.

Lemma last_with_snoc_here {A} (P : A -> Prop) l y :
  P y -> last_with P (l ++ [y]) y.
Proof.
  intros Hy. exists l, []. split; [reflexivity|]. split; [exact Hy | constructor].
Qed.

Lemma namespaces_in_snoc_known rows row :
  ns_of row ∈ ns_of <$> rows ->
  namespaces_in (rows ++ [row]) = namespaces_in rows.
Proof.
  intros Hin. unfold namespaces_in. rewrite fmap_app, list_to_set_app_L. cbn.
  f_equal. f_equal. apply leibniz_equiv. set_solver.
Qed.

Lemma namespaces_in_snoc_new rows row :
  ns_of row ∉ ns_of <$> rows ->
  namespaces_in (rows ++ [row]) = namespaces_in rows + 1.
Proof.
  intros Hin. unfold namespaces_in. rewrite fmap_app, list_to_set_app_L. cbn.
  rewrite size_union by set_solver.
  rewrite union_empty_r_L, size_singleton. lia.
Qed.

Lemma loaded_start : loaded int [] loader_start.
Proof.
  unfold loaded, loader_start; cbn. repeat split.
  - intros [x Hx]. rewrite lookup_empty in Hx. discriminate.
  - intros H. inversion H.
  - intros ns i H. rewrite lookup_empty in H. discriminate.
  - intros ns key e H. rewrite lookup_empty in H. discriminate.
  - intros row H. inversion H.
Qed.

Lemma loaded_step rows st row st' :
  loaded int rows st -> load_row int st row = Some st' ->
  loaded int (rows ++ [row]) st'.
Proof.
  intros (Hdom & Hcnt & Hinfo & Hmap & Hall) Hrow.
  unfold load_row in Hrow. fold (ns_of row) in Hrow. fold (key_of row) in Hrow.
  destruct (namespace_info_from_csv st !! ns_of row) as [i0|] eqn:Ei;
    destruct (int (NamespaceHash row)) as [h|] eqn:Eh; cbn in Hrow;
    try discriminate;
    destruct (int (KeyHash_of_KeyString row)) as [kh|] eqn:Ek; cbn in Hrow;
    try discriminate;
    destruct (int (SourceStringHash_of_SourceText row)) as [ssh|] eqn:Es;
    cbn in Hrow; try discriminate;
    injection Hrow as <-; unfold loaded; cbn.
  - (* a namespace seen before *)
    assert (Hknown : ns_of row ∈ ns_of <$> rows) by (apply Hdom; eauto).
    split; [|split; [|split; [|split]]].
    + intros ns. rewrite Hdom, fmap_app. cbn. set_solver.
    + rewrite namespaces_in_snoc_known by exact Hknown. exact Hcnt.
    + intros ns i Hi. destruct (Hinfo ns i Hi) as (before & r & Hf & Hh & Ho).
      exists before, r. split; [apply first_with_snoc; exact Hf | auto].
    + intros ns key e He.
      destruct (decide ((ns_of row, key_of row) = (ns, key))) as [Heq|Hne].
      * injection Heq as <- <-. rewrite lookup_insert_eq in He.
        injection He as <-. cbn. exists row.
        split; [apply last_with_snoc_here; auto|].
        repeat split; auto. eauto.
      * rewrite lookup_insert_ne in He by exact Hne.
        destruct (Hmap ns key e He) as (r & Hl & Hrest). exists r.
        split; [|exact Hrest].
        apply last_with_snoc_other; [|exact Hl].
        intros [<- <-]. apply Hne. reflexivity.
    + intros r Hr. apply elem_of_app in Hr as [Hr|Hr].
      * destruct (decide ((ns_of row, key_of row) = (ns_of r, key_of r))) as [Heq|Hne].
        -- rewrite <- Heq, lookup_insert_eq. eauto.
        -- rewrite lookup_insert_ne by exact Hne. apply Hall, Hr.
      * apply list_elem_of_singleton in Hr as ->. rewrite lookup_insert_eq. eauto.
  - (* a new namespace *)
    assert (Hnew : ns_of row ∉ ns_of <$> rows).
    { intros Hin. apply Hdom in Hin as [x Hx]. congruence. }
    split; [|split; [|split; [|split]]].
    + intros ns. rewrite fmap_app. cbn.
      destruct (decide (ns_of row = ns)) as [<-|Hne].
      * rewrite lookup_insert_eq. split; [set_solver | eauto].
      * rewrite lookup_insert_ne by exact Hne. rewrite Hdom. set_solver.
    + rewrite namespaces_in_snoc_new by exact Hnew. rewrite Hcnt. reflexivity.
    + intros ns i Hi. destruct (decide (ns_of row = ns)) as [<-|Hne].
      * rewrite lookup_insert_eq in Hi. injection Hi as <-. cbn.
        exists rows, row. split; [|auto].
        exists []. split; [reflexivity|]. split; [reflexivity|].
        apply Forall_forall. intros y Hy Heq. apply Hnew.
        rewrite <- Heq. apply list_elem_of_fmap. eauto.
      * rewrite lookup_insert_ne in Hi by exact Hne.
        destruct (Hinfo ns i Hi) as (before & r & Hf & Hh & Ho).
        exists before, r. split; [apply first_with_snoc; exact Hf | auto].
    + intros ns key e He.
      destruct (decide ((ns_of row, key_of row) = (ns, key))) as [Heq|Hne].
      * injection Heq as <- <-. rewrite lookup_insert_eq in He.
        injection He as <-. cbn. exists row.
        split; [apply last_with_snoc_here; auto|].
        repeat split; auto. rewrite lookup_insert_eq. eauto.
      * rewrite lookup_insert_ne in He by exact Hne.
        destruct (Hmap ns key e He) as (r & Hl & Hn & Hk & Hkh & Hsv & Hssh & i & Hi & Hnh).
        exists r. split.
        { apply last_with_snoc_other; [|exact Hl].
          intros [<- <-]. apply Hne. reflexivity. }
        repeat split; auto. exists i. split; [|exact Hnh].
        rewrite lookup_insert_ne; [exact Hi|].
        intros <-. congruence.
    + intros r Hr. apply elem_of_app in Hr as [Hr|Hr].
      * destruct (decide ((ns_of row, key_of row) = (ns_of r, key_of r))) as [Heq|Hne].
        -- rewrite <- Heq, lookup_insert_eq. eauto.
        -- rewrite lookup_insert_ne by exact Hne. apply Hall, Hr.
      * apply list_elem_of_singleton in Hr as ->. rewrite lookup_insert_eq. eauto.
Qed.

Lemma load_rows_loaded rows st :
  load_rows int loader_start rows = Some st -> loaded int rows st.
Proof.
  revert st. induction rows as [|row rows IH] using rev_ind; intros st H.
  - injection H as <-. apply loaded_start.
  - rewrite load_rows_snoc in H.
    destruct (load_rows int loader_start rows) as [st0|]; [|discriminate].
    cbn in H. eapply loaded_step; [apply IH; reflexivity | exact H].
Qed.

End Loader.

(** X14 ([load_data_with_hashes_from_csv]): the table is returned
    exactly when the three hashes of every row are integers; one row
    with another text in one of them makes the result [(None, None)],
    whatever the other rows hold. *)
Theorem hash_table_needs_every_row int rows :
  is_Some (load_data_with_hashes_from_csv int rows) <->
  Forall (parses int) rows.
Proof.
  rewrite <- (load_rows_parses int loader_start).
  unfold load_data_with_hashes_from_csv.
  destruct (load_rows int loader_start rows); cbn; split; intros [x Hx];
    try discriminate; eauto.
Qed.

(** X15 ([load_data_with_hashes_from_csv]): in a returned table the
    hash of a namespace is the one of the first row of the namespace
    (names compared without their byte order mark) and its order is the
    number of different namespaces before that row; an entry holds the
    key hash, the source value and the source hash of the last row of
    its namespace and key, and the hash of its namespace, not the one
    its own row states; every row has an entry. *)
Theorem hash_table_keeps_first_namespace_hash int rows data info :
  load_data_with_hashes_from_csv int rows = Some (data, info) ->
  (forall ns i, info !! ns = Some i ->
     exists before row,
       first_with (fun r => ns_of r = ns) rows before row /\
       int (NamespaceHash row) = Some (hash i) /\
       order i = namespaces_in before) /\
  (forall ns key e, data !! (ns, key) = Some e ->
     exists row,
       last_with (fun r => ns_of r = ns /\ key_of r = key) rows row /\
       namespace_name e = ns /\ key_string e = key /\
       int (KeyHash_of_KeyString row) = Some (key_hash e) /\
       source_value_from_csv e = SourceValue row /\
       int (SourceStringHash_of_SourceText row) = Some (source_string_hash e) /\
       exists i, info !! ns = Some i /\ namespace_hash e = hash i) /\
  (forall row, row ∈ rows -> is_Some (data !! (ns_of row, key_of row))).
Proof.
  unfold load_data_with_hashes_from_csv. intros H.
  destruct (load_rows int loader_start rows) as [st|] eqn:E; [|discriminate].
  injection H as <- <-.
  destruct (load_rows_loaded int rows st E) as (_ & _ & Hinfo & Hmap & Hall).
  auto.
Qed.

Lemma hash_table_keeps_first_namespace_hash_witness :
  exists data info,
    load_data_with_hashes_from_csv sample_int sample_rows = Some (data, info) /\
    (forall ns key e, data !! (ns, key) = Some e ->
       exists i, info !! ns = Some i /\ namespace_hash e = hash i).
Proof.
  destruct (load_data_with_hashes_from_csv sample_int sample_rows)
    as [[data info]|] eqn:E; [|vm_compute in E; discriminate].
  exists data, info. split; [reflexivity|].
  destruct (hash_table_keeps_first_namespace_hash sample_int sample_rows
              data info E) as (_ & Hmap & _).
  intros ns key e He.
  destruct (Hmap ns key e He) as (_ & _ & _ & _ & _ & _ & _ & Hi). exact Hi.
Defined.

(** The third sample row states the hash 8 for the namespace of the
    first row, which stated 7, and replaces its entry. *)
Example sample_rows_loaded :
  (load_data_with_hashes_from_csv sample_int sample_rows ≫=
     fun r => r.1 !! (lit "UI", lit "Start")) =
  Some {| namespace_name := lit "UI"; key_string := lit "Start";
          namespace_hash := 7; key_hash := 13;
          source_value_from_csv := lit "Go"; source_string_hash := 23 |}.
Proof. vm_compute. reflexivity. Qed.

End HashCsvFacts.


(** ** The rule engine *)

Module RulesFacts.
Import Py PyFacts Rules.

(** *** Slices within bounds *)

Lemma slice_in_range {A} (l : list A) lo hi :
  0 <= lo <= hi -> hi <= len l ->
  slice l lo hi = take (Z.to_nat (hi - lo)) (drop (Z.to_nat lo) l).
Proof. intros H1 H2. unfold slice. rewrite !norm_index_id by lia. reflexivity. Qed.

Lemma slice_assign_in_range {A} (l : list A) lo hi new :
  0 <= lo <= hi -> hi <= len l ->
  slice_assign l lo hi new = take (Z.to_nat lo) l ++ new ++ drop (Z.to_nat hi) l.
Proof.
  intros H1 H2. unfold slice_assign. rewrite !norm_index_id by lia.
  rewrite Z.max_r by lia. reflexivity.
Qed.

Lemma take_drop_middle_split {A} (l : list A) (n k : nat) :
  (n + k <= length l)%nat ->
  l = take n l ++ take k (drop n l) ++ drop (n + k) l.
Proof.
  intros H. rewrite <- (take_drop n l) at 1. f_equal.
  rewrite <- (take_drop k (drop n l)) at 1. f_equal.
  rewrite drop_drop. reflexivity.
Qed.

(** *** Steps of rewriting *)

Lemma unlocked_app l k : unlocked (l ++ k) = (unlocked l + unlocked k)%nat.
Proof. induction l as [|b l IH]; simpl; [reflexivity|]. rewrite IH. lia. Qed.

Lemma unlocked_all_locked n : unlocked (replicate n true) = O.
Proof. induction n as [|n IH]; simpl; [reflexivity | exact IH]. Qed.

Lemma unlocked_none_locked l : existsb id l = false -> unlocked l = length l.
Proof.
  induction l as [|b l IH]; simpl; [reflexivity|].
  destruct b; simpl; [discriminate|]. intros H. rewrite IH by exact H. reflexivity.
Qed.

Lemma unlocked_le_length l : (unlocked l <= length l)%nat.
Proof. induction l as [|[] l IH]; simpl; lia. Qed.

Lemma unlocked_all_unlocked n : unlocked (replicate n false) = n.
Proof. induction n as [|n IH]; simpl; [reflexivity | rewrite IH; reflexivity]. Qed.

Lemma rewrite_step_intro (C : pystr) (L : list bool) (C' : pystr)
    (L' : list bool) (pre seg post new : pystr) (lpre lseg lpost : list bool) :
  C = pre ++ seg ++ post -> L = lpre ++ lseg ++ lpost ->
  C' = pre ++ new ++ post ->
  L' = lpre ++ replicate (length new) true ++ lpost ->
  length lpre = length pre -> length lseg = length seg ->
  length lpost = length post -> seg <> [] -> existsb id lseg = false ->
  rewrite_step (C, L) (C', L').
Proof. intros -> -> -> ->. apply rewrite_at. Qed.

Lemma rewrite_step_inv a b :
  rewrite_step a b ->
  exists pre seg post new lpre lseg lpost,
    a = (pre ++ seg ++ post, lpre ++ lseg ++ lpost)
    /\ b = (pre ++ new ++ post, lpre ++ replicate (length new) true ++ lpost)
    /\ length lpre = length pre /\ length lseg = length seg
    /\ length lpost = length post /\ seg <> [] /\ existsb id lseg = false.
Proof. intros []. do 7 eexists. repeat split; eauto. Qed.

Lemma rewrite_step_unlocked a b :
  rewrite_step a b -> (unlocked b.2 < unlocked a.2)%nat.
Proof.
  intros (pre & seg & post & new & lpre & lseg & lpost & -> & -> & _ & Hs & _ & Hne & Hf)
    %rewrite_step_inv.
  cbn [snd]. rewrite !unlocked_app, unlocked_all_locked, (unlocked_none_locked _ Hf).
  destruct seg; [contradiction|]. simpl in Hs. lia.
Qed.

Lemma rewrite_step_aligned a b :
  rewrite_step a b -> length b.2 = length b.1 /\ length a.2 = length a.1.
Proof.
  intros (pre & seg & post & new & lpre & lseg & lpost & -> & -> & H1 & H2 & H3 & _)
    %rewrite_step_inv.
  cbn [fst snd]. rewrite !length_app, length_replicate. lia.
Qed.

Lemma rewrites_unlocked a b : rewrites a b -> (unlocked b.2 <= unlocked a.2)%nat.
Proof.
  induction 1 as [|a b c Hab _ IH]; [lia|].
  apply rewrite_step_unlocked in Hab. lia.
Qed.

Lemma rewrites_aligned a b :
  rewrites a b -> length a.2 = length a.1 -> length b.2 = length b.1.
Proof.
  induction 1 as [|a b c Hab _ IH]; [tauto|].
  intros _. apply IH. apply (rewrite_step_aligned _ _ Hab).
Qed.

(** *** Locked text frames the rewriting *)

Lemma app_eq_split_le {A} (a b c d : list A) :
  a ++ b = c ++ d -> (length a <= length c)%nat ->
  exists k, c = a ++ k /\ b = k ++ d.
Proof.
  intros E Hl. exists (drop (length a) c).
  assert (Ha : a = take (length a) c).
  { rewrite <- (take_app_le c d) by exact Hl. rewrite <- E, take_app_length. reflexivity. }
  assert (Hc : c = a ++ drop (length a) c).
  { rewrite Ha at 1. rewrite take_drop. reflexivity. }
  split; [exact Hc|].
  rewrite Hc, <- app_assoc in E. apply app_inv_head in E. exact E.
Qed.

Lemma existsb_id_lookup (l : list bool) j :
  existsb id l = false -> l !! j = Some true -> False.
Proof.
  revert j. induction l as [|b l IH]; intros j; [destruct j; discriminate|].
  simpl. destruct b; simpl; [discriminate|]. intros H.
  destruct j as [|j]; simpl; [discriminate | apply IH, H].
Qed.

(** An unlocked stretch lies on one side of a locked one. *)
Lemma unlocked_stretch_apart (lpre lseg lpost lp lq : list bool) (m : nat) :
  lpre ++ lseg ++ lpost = lp ++ replicate m true ++ lq ->
  existsb id lseg = false -> lseg <> [] -> (0 < m)%nat ->
  (length lpre + length lseg <= length lp)%nat
  \/ (length lp + m <= length lpre)%nat.
Proof.
  intros E Hf Hne Hm.
  destruct (Nat.le_gt_cases (length lpre + length lseg) (length lp)) as [|H1];
    [left; assumption|].
  destruct (Nat.le_gt_cases (length lp + m) (length lpre)) as [|H2];
    [right; assumption|].
  exfalso. set (j := Nat.max (length lpre) (length lp)).
  assert (Hk : (0 < length lseg)%nat) by (destruct lseg; simpl; [contradiction | lia]).
  assert (Hjb : (length lpre <= j /\ j < length lpre + length lseg
                 /\ length lp <= j /\ j < length lp + m)%nat) by (unfold j; lia).
  clearbody j.
  assert (Hj : (lp ++ replicate m true ++ lq) !! j = Some true).
  { rewrite lookup_app_r by lia. rewrite lookup_app_l by (rewrite length_replicate; lia).
    apply lookup_replicate. split; [reflexivity | lia]. }
  rewrite <- E in Hj. rewrite lookup_app_r in Hj by lia.
  rewrite lookup_app_l in Hj by lia.
  eapply existsb_id_lookup; eassumption.
Qed.

Lemma frame_step (g : pystr) (p q : masked) (x : masked) :
  g <> [] -> length p.2 = length p.1 ->
  rewrite_step (p.1 ++ g ++ q.1, p.2 ++ replicate (length g) true ++ q.2) x ->
  exists p' q' : masked,
    x = (p'.1 ++ g ++ q'.1, p'.2 ++ replicate (length g) true ++ q'.2)
    /\ ((rewrite_step p p' /\ q' = q) \/ (p' = p /\ rewrite_step q q')).
Proof.
  destruct p as [p lp], q as [q lq]. cbn [fst snd]. intros Hg Hp Hstep.
  apply rewrite_step_inv in Hstep
    as (pre & seg & post & new & lpre & lseg & lpost & E & -> & H1 & H2 & H3 & Hne & Hf).
  injection E as E1 E2.
  assert (Hlne : lseg <> []) by (destruct lseg, seg; simpl in *; congruence).
  assert (Hm : (0 < length g)%nat) by (destruct g; simpl; [contradiction | lia]).
  destruct (unlocked_stretch_apart _ _ _ _ _ _ (eq_sym E2) Hf Hlne Hm) as [Hside|Hside].
  - (* the stretch is to the left *)
    rewrite (app_assoc pre) in E1. rewrite (app_assoc lpre) in E2.
    apply eq_sym, app_eq_split_le in E1 as (p2 & -> & ->);
      [|rewrite length_app; lia].
    apply eq_sym, app_eq_split_le in E2 as (lp2 & -> & ->);
      [|rewrite length_app; lia].
    exists (pre ++ new ++ p2, lpre ++ replicate (length new) true ++ lp2), (q, lq).
    cbn [fst snd]. split; [|left; split; [|reflexivity]].
    + rewrite <- !app_assoc. reflexivity.
    + rewrite <- !app_assoc. apply rewrite_at; try assumption.
      rewrite !length_app in Hp. lia.
  - (* the stretch is to the right *)
    rewrite (app_assoc p) in E1. rewrite (app_assoc lp) in E2.
    apply app_eq_split_le in E1 as (q1 & -> & ->);
      [|rewrite length_app; lia].
    apply app_eq_split_le in E2 as (lq1 & -> & ->);
      [|rewrite length_app, length_replicate; lia].
    exists (p, lp), (q1 ++ new ++ post, lq1 ++ replicate (length new) true ++ lpost).
    cbn [fst snd]. split; [|right; split; [reflexivity|]].
    + rewrite <- !app_assoc. reflexivity.
    + apply rewrite_at; try assumption.
      rewrite !length_app, length_replicate in H1. lia.
Qed.

Lemma frame_rewrites (g : pystr) : g <> [] ->
  forall a b, rewrites a b ->
  forall p q : masked, length p.2 = length p.1 ->
  a = (p.1 ++ g ++ q.1, p.2 ++ replicate (length g) true ++ q.2) ->
  framed g p q b.
Proof.
  intros Hg a b Hab. induction Hab as [a|a a' b Hstep _ IH]; intros p q Hp ->.
  - exists p, q. split; [reflexivity|]. split; apply rtc_refl.
  - apply frame_step in Hstep as (p1 & q1 & -> & Hside); [|assumption..].
    destruct Hside as [[Hp1 ->]|[-> Hq1]].
    + destruct (IH p1 q (proj1 (rewrite_step_aligned _ _ Hp1)) eq_refl)
        as (p' & q' & -> & Hrp & Hrq).
      exists p', q'. split; [reflexivity|]. split; [|exact Hrq].
      eapply rtc_l; eassumption.
    + destruct (IH p q1 Hp eq_refl) as (p' & q' & -> & Hrp & Hrq).
      exists p', q'. split; [reflexivity|]. split; [exact Hrp|].
      eapply rtc_l; eassumption.
Qed.

(** *** The replacement step *)

Section Step.

Variable original_chinese : pystr.
Variable debug_info : pystr * pystr.
Variable owners : gmap pystr (list Z).

Local Abbreviation apply_at := (apply_at original_chinese debug_info).
Local Abbreviation scan_loop := (scan_loop original_chinese debug_info owners).
Local Abbreviation pass_loop := (pass_loop original_chinese debug_info owners).
Local Abbreviation apply_rules := (apply_rules original_chinese debug_info owners).

Lemma apply_at_chars r i s :
  0 <= i -> i + len (bad_translation r) <= len (chars s) ->
  chars (apply_at r i s)
  = take (Z.to_nat i) (chars s) ++ good_translation r
    ++ drop (Z.to_nat i + length (bad_translation r)) (chars s).
Proof.
  intros Hi Hb. unfold apply_at. cbn [chars].
  pose proof (len_nonneg (bad_translation r)).
  rewrite slice_assign_in_range by lia.
  do 3 f_equal. unfold len. lia.
Qed.

Lemma apply_at_locks r i s :
  aligned s ->
  0 <= i -> i + len (bad_translation r) <= len (chars s) ->
  persistent_active_locks (apply_at r i s)
  = take (Z.to_nat i) (persistent_active_locks s)
    ++ replicate (length (good_translation r)) true
    ++ drop (Z.to_nat i + length (bad_translation r)) (persistent_active_locks s).
Proof.
  intros Hal Hi Hb. unfold apply_at. cbn [persistent_active_locks].
  unfold aligned in Hal.
  set (L := persistent_active_locks s) in *.
  set (bad := bad_translation r) in *. set (good := good_translation r) in *.
  assert (HL : len L = len (chars s)) by (unfold len; lia).
  pose proof (len_nonneg bad). pose proof (len_nonneg good).
  set (n := Z.to_nat i).
  assert (Hn : (n + length bad <= length L)%nat) by (unfold len in *; lia).
  replace (Z.to_nat (len good)) with (length good) by (unfold len; lia).
  destruct (Z.ltb_spec 0 (len good - len bad)) as [Hd|Hd].
  - (* the replacement is longer *)
    rewrite (slice_assign_in_range L) by lia.
    replace (Z.to_nat (i + len bad)) with (n + length bad)%nat by (unfold len; lia).
    set (d := Z.to_nat (len good - len bad)).
    assert (Hg : length good = (length bad + d)%nat) by (unfold len in *; lia).
    rewrite slice_assign_in_range.
    2: lia.
    2: { unfold len in *. rewrite !length_app, length_take, length_replicate, length_drop. lia. }
    fold n. replace (Z.to_nat (i + len good)) with ((n + length bad) + d)%nat
      by (unfold len in *; lia).
    rewrite take_app_le by (rewrite length_take; lia).
    rewrite take_take, Nat.min_l by lia.
    rewrite drop_app_add' by (rewrite length_take; lia).
    rewrite drop_app_length' by (rewrite length_replicate; reflexivity).
    reflexivity.
  - destruct (Z.ltb_spec (len good - len bad) 0) as [Hd'|Hd'].
    + (* the replacement is shorter *)
      unfold slice_del. rewrite (slice_assign_in_range L) by lia.
      replace (Z.to_nat (i + len bad)) with (n + length bad)%nat by (unfold len; lia).
      replace (Z.to_nat (i + len good)) with (n + length good)%nat by (unfold len; lia).
      assert (Hg : (length good < length bad)%nat) by (unfold len in *; lia).
      cbn [app].
      rewrite slice_assign_in_range.
      2: lia.
      2: { unfold len in *. rewrite !length_app, length_take, length_drop. lia. }
      fold n. replace (Z.to_nat (i + len good)) with (n + length good)%nat
        by (unfold len; lia).
      rewrite take_app_le by (rewrite length_take; lia).
      rewrite take_take, Nat.min_l by lia.
      rewrite drop_app_length' by (rewrite length_take; lia).
      reflexivity.
    + (* same length *)
      assert (Hg : length good = length bad) by (unfold len in *; lia).
      rewrite slice_assign_in_range by lia.
      fold n. replace (Z.to_nat (i + len good)) with (n + length bad)%nat
        by (unfold len in *; lia).
      reflexivity.
Qed.

Lemma truthy_nonempty (s : pystr) : truthy s = true <-> s <> [].
Proof. destruct s; simpl; split; congruence. Qed.

(** A replacement is a step of rewriting. *)
Lemma apply_at_rewrite_step r i s :
  aligned s -> bad_translation r <> [] ->
  0 <= i -> i + len (bad_translation r) <= len (chars s) ->
  slice (chars s) i (i + len (bad_translation r)) = bad_translation r ->
  existsb id (slice (persistent_active_locks s) i (i + len (bad_translation r))) = false ->
  rewrite_step (view s) (view (apply_at r i s)).
Proof.
  intros Hal Hne Hi Hb Hseg Hlock. unfold view.
  rewrite apply_at_chars, apply_at_locks by assumption.
  unfold aligned in Hal. pose proof (len_nonneg (bad_translation r)).
  rewrite slice_in_range in Hseg by (unfold len in *; lia).
  rewrite slice_in_range in Hlock by (unfold len in *; lia).
  replace (Z.to_nat (i + len (bad_translation r) - i))
    with (length (bad_translation r)) in Hseg, Hlock by (unfold len; lia).
  set (n := Z.to_nat i) in *. set (k := length (bad_translation r)) in *.
  assert (Hn : (n + k <= length (chars s))%nat) by (unfold len in *; lia).
  eapply (rewrite_step_intro _ _ _ _
            (take n (chars s)) (bad_translation r) (drop (n + k) (chars s))
            (good_translation r)
            (take n (persistent_active_locks s))
            (take k (drop n (persistent_active_locks s)))
            (drop (n + k) (persistent_active_locks s))).
  - rewrite <- Hseg. apply take_drop_middle_split. exact Hn.
  - apply take_drop_middle_split. lia.
  - reflexivity.
  - reflexivity.
  - rewrite !length_take. lia.
  - rewrite length_take, length_drop. fold k. lia.
  - rewrite !length_drop. lia.
  - exact Hne.
  - exact Hlock.
Qed.

Lemma apply_at_length r i s :
  0 <= i -> i + len (bad_translation r) <= len (chars s) ->
  len (chars (apply_at r i s))
  = len (chars s) - len (bad_translation r) + len (good_translation r).
Proof.
  intros Hi Hb. rewrite apply_at_chars by assumption.
  pose proof (len_nonneg (bad_translation r)).
  unfold len in *. rewrite !length_app, length_take, length_drop. lia.
Qed.

(** *** The loops rewrite, and return *)

Lemma scan_loop_sound r : bad_translation r <> [] ->
  forall fuel i lim ch s s' ch',
  aligned s -> 0 <= i ->
  scan_loop fuel r i lim ch s = Some (s', ch') ->
  rewrites (view s) (view s') /\ aligned s'
  /\ (ch' = ch \/ (unlocked (persistent_active_locks s')
                   < unlocked (persistent_active_locks s))%nat).
Proof.
  intros Hne. induction fuel as [|fuel IH]; intros i lim ch s s' ch' Hal Hi;
    cbn [scan_loop]; [discriminate|].
  assert (Hskip : scan_loop fuel r (i + 1) lim ch s = Some (s', ch') ->
      rewrites (view s) (view s') /\ aligned s'
      /\ (ch' = ch \/ (unlocked (persistent_active_locks s')
                       < unlocked (persistent_active_locks s))%nat)).
  { apply IH; [exact Hal | lia]. }
  assert (Hstop : Some (s, ch) = Some (s', ch') ->
      rewrites (view s) (view s') /\ aligned s'
      /\ (ch' = ch \/ (unlocked (persistent_active_locks s')
                       < unlocked (persistent_active_locks s))%nat)).
  { intros [= <- <-]. split; [apply rtc_refl|]. split; [exact Hal | left; reflexivity]. }
  destruct (i <=? lim - len (bad_translation r)); [|exact Hstop].
  destruct (Z.ltb_spec (len (chars s)) (i + len (bad_translation r))) as [|Hin];
    [exact Hstop|].
  destruct (bool_decide_reflect
              (slice (chars s) i (i + len (bad_translation r)) = bad_translation r))
    as [Hseg|]; [|exact Hskip].
  destruct (existsb id (slice (persistent_active_locks s) i
                          (i + len (bad_translation r)))) eqn:Hlock;
    cbn [negb]; [exact Hskip|].
  destruct (is_conflicting owners r); cbn [negb]; [exact Hskip|].
  intros Hrun.
  pose proof (apply_at_rewrite_step r i s Hal Hne Hi Hin Hseg Hlock) as Hstep.
  pose proof (len_nonneg (good_translation r)).
  apply IH in Hrun as (Hrw & Hal' & Hch).
  - split; [eapply rtc_l; eassumption|]. split; [exact Hal'|].
    right. apply rewrite_step_unlocked in Hstep. cbn [view snd] in Hstep.
    apply rewrites_unlocked in Hrw. cbn [view snd] in Hrw. lia.
  - apply rewrite_step_aligned in Hstep. apply Hstep.
  - lia.
Qed.

Lemma scan_loop_total r : bad_translation r <> [] ->
  forall fuel i lim ch s,
  0 <= i -> (0 < fuel)%nat -> len (chars s) - i < Z.of_nat fuel ->
  exists res, scan_loop fuel r i lim ch s = Some res.
Proof.
  intros Hne. induction fuel as [|fuel IH]; intros i lim ch s Hi Hpos Hf;
    cbn [scan_loop]; [lia|].
  assert (Hb : 1 <= len (bad_translation r)).
  { destruct (bad_translation r); [contradiction|]. unfold len. simpl. lia. }
  destruct (i <=? lim - len (bad_translation r)); [|eauto].
  destruct (Z.ltb_spec (len (chars s)) (i + len (bad_translation r))) as [|Hin];
    [eauto|].
  assert (Hskip : exists res, scan_loop fuel r (i + 1) lim ch s = Some res)
    by (apply IH; lia).
  destruct (bool_decide _); [|exact Hskip].
  destruct (negb _); [|exact Hskip].
  destruct (negb _); [|exact Hskip].
  pose proof (len_nonneg (good_translation r)).
  apply IH; [lia | lia |].
  rewrite apply_at_length by assumption. lia.
Qed.

Lemma pass_loop_sound r : bad_translation r <> [] ->
  forall fuel s s', aligned s ->
  pass_loop fuel r s = Some s' ->
  rewrites (view s) (view s') /\ aligned s'.
Proof.
  intros Hne. induction fuel as [|fuel IH]; intros s s' Hal; cbn [pass_loop];
    [discriminate|].
  destruct (scan_loop _ r 0 _ false s) as [[s1 ch1]|] eqn:Hscan; [|discriminate].
  apply scan_loop_sound in Hscan as (Hrw & Hal1 & _); [|assumption..|lia].
  destruct ch1.
  - intros Hrun. apply IH in Hrun as [Hrw' Hal']; [|exact Hal1].
    split; [eapply rtc_trans; eassumption | exact Hal'].
  - intros [= <-]. split; assumption.
Qed.

Lemma pass_loop_total r : bad_translation r <> [] ->
  forall fuel s, aligned s ->
  (unlocked (persistent_active_locks s) < fuel)%nat ->
  exists s', pass_loop fuel r s = Some s'.
Proof.
  intros Hne. induction fuel as [|fuel IH]; intros s Hal Hf; cbn [pass_loop]; [lia|].
  destruct (scan_loop_total r Hne (S (length (chars s))) 0 (len (chars s)) false s)
    as [[s1 ch1] Hscan]; [lia | lia | unfold len; lia |].
  rewrite Hscan.
  apply scan_loop_sound in Hscan as (_ & Hal1 & Hch); [|assumption..|lia].
  destruct ch1; [|eauto].
  apply IH; [exact Hal1|]. destruct Hch as [|Hlt]; [discriminate | lia].
Qed.

Lemma apply_rules_sound rules : forall s, aligned s ->
  exists s', apply_rules rules s = Some s'
    /\ rewrites (view s) (view s') /\ aligned s'.
Proof.
  induction rules as [|r rules IH]; intros s Hal; cbn [apply_rules].
  - exists s. split; [reflexivity|]. split; [apply rtc_refl | exact Hal].
  - destruct (truthy (bad_translation r)) eqn:Hb; cbn [negb]; [|apply IH, Hal].
    apply truthy_nonempty in Hb.
    destruct (cn_present r original_chinese); cbn [negb]; [|apply IH, Hal].
    destruct (pass_loop_total r Hb (S (length (chars s))) s Hal) as [s1 Hp].
    { pose proof (unlocked_le_length (persistent_active_locks s)).
      unfold aligned in Hal. lia. }
    rewrite Hp. apply pass_loop_sound in Hp as [Hrw Hal1]; [|assumption..].
    destruct (IH s1 Hal1) as (s' & Hr & Hrw' & Hal').
    exists s'. split; [exact Hr|]. split; [|exact Hal'].
    eapply rtc_trans; eassumption.
Qed.

End Step.

Lemma initial_aligned v : aligned (initial v).
Proof. unfold aligned, initial. cbn. apply length_replicate. Qed.

(** The engine returns for every input. *)
Lemma run_engine_total original_chinese current_english debug_info rules :
  exists s,
    run_engine original_chinese current_english debug_info rules = Some s
    /\ rewrites (view (initial current_english)) (view s) /\ aligned s.
Proof. apply apply_rules_sound, initial_aligned. Qed.

(** *** Inserted text stays *)

Lemma framed_aligned g p q m :
  length p.2 = length p.1 -> length q.2 = length q.1 ->
  framed g p q m -> length m.2 = length m.1.
Proof.
  intros Hp Hq (p' & q' & -> & Hrp & Hrq). cbn [fst snd].
  apply rewrites_aligned in Hrp; [|exact Hp].
  apply rewrites_aligned in Hrq; [|exact Hq].
  rewrite !length_app, length_replicate. lia.
Qed.

Lemma framed_rewrites g p q m m' :
  g <> [] -> length p.2 = length p.1 ->
  framed g p q m -> rewrites m m' -> framed g p q m'.
Proof.
  intros Hg Hp (p1 & q1 & -> & Hrp & Hrq) Hrw.
  eapply frame_rewrites in Hrw as (p2 & q2 & -> & Hrp2 & Hrq2);
    [| exact Hg | | reflexivity].
  - exists p2, q2. split; [reflexivity|].
    split; eapply rtc_trans; eassumption.
  - eapply rewrites_aligned; eassumption.
Qed.

Section InsertedText.

Variable original_chinese : pystr.
Variable debug_info : pystr * pystr.
Variable owners : gmap pystr (list Z).

Local Abbreviation apply_at := (apply_at original_chinese debug_info).
Local Abbreviation scan_loop := (scan_loop original_chinese debug_info owners).
Local Abbreviation pass_loop := (pass_loop original_chinese debug_info owners).
Local Abbreviation apply_rules := (apply_rules original_chinese debug_info owners).

(** A rule held back by the conflict check rewrites nothing. *)
Lemma scan_loop_conflicting r : is_conflicting owners r = true ->
  forall fuel i lim ch s res,
  scan_loop fuel r i lim ch s = Some res -> res = (s, ch).
Proof.
  intros Hc. induction fuel as [|fuel IH]; intros i lim ch s res; cbn [scan_loop];
    [discriminate|].
  rewrite Hc. cbn [negb].
  destruct (_ <=? _); [|intros [= <-]; reflexivity].
  destruct (_ <? _); [intros [= <-]; reflexivity|].
  destruct (bool_decide _); [|apply IH].
  destruct (negb _); apply IH.
Qed.

Lemma pass_loop_conflicting r fuel s :
  bad_translation r <> [] -> is_conflicting owners r = true ->
  pass_loop (S fuel) r s = Some s.
Proof.
  intros Hne Hc. cbn [pass_loop].
  destruct (scan_loop_total original_chinese debug_info owners r Hne
              (S (length (chars s))) 0 (len (chars s)) false s) as [res Hres];
    [lia | lia | unfold len; lia |].
  rewrite Hres. apply (scan_loop_conflicting r Hc) in Hres as ->. reflexivity.
Qed.

(** C6: the text a replacement inserts stands, locked, between the two
    contexts it was inserted in, and this is kept by every later part
    of the run: the rest of the scan of any rule from any index,
    further passes and all remaining rules rewrite the two contexts
    separately and never the inserted text, whatever their bad and good
    texts are; moreover a rule that the conflict check holds back (its
    bad text is the good text of another active rule and differs from
    its own good text) rewrites nothing at all. *)
Theorem inserted_text_is_never_rewritten (A : rule) (i : Z) (s0 : state) :
  aligned s0 -> 0 <= i ->
  i + len (bad_translation A) <= len (chars s0) ->
  good_translation A <> [] ->
  let n := Z.to_nat i in
  let k := length (bad_translation A) in
  let g := good_translation A in
  let p : masked := (take n (chars s0), take n (persistent_active_locks s0)) in
  let q : masked := (drop (n + k) (chars s0),
                     drop (n + k) (persistent_active_locks s0)) in
  view (apply_at A i s0)
    = (p.1 ++ g ++ q.1, p.2 ++ replicate (length g) true ++ q.2)
  /\ framed g p q (view (apply_at A i s0))
  /\ (forall B fuel j lim ch s s' ch',
        bad_translation B <> [] -> 0 <= j ->
        framed g p q (view s) ->
        scan_loop fuel B j lim ch s = Some (s', ch') ->
        framed g p q (view s'))
  /\ (forall B fuel s s',
        bad_translation B <> [] ->
        framed g p q (view s) ->
        pass_loop fuel B s = Some s' ->
        framed g p q (view s'))
  /\ (forall rules s,
        framed g p q (view s) ->
        exists s', apply_rules rules s = Some s' /\ framed g p q (view s'))
  /\ (forall B fuel s,
        bad_translation B <> [] -> is_conflicting owners B = true ->
        pass_loop (S fuel) B s = Some s).
Proof.
  intros Hal Hi Hb Hg n k g p q.
  assert (Hp : length p.2 = length p.1).
  { unfold p. cbn [fst snd]. unfold aligned in Hal. rewrite !length_take. lia. }
  assert (Hq : length q.2 = length q.1).
  { unfold q. cbn [fst snd]. unfold aligned in Hal. rewrite !length_drop. lia. }
  assert (Hview : view (apply_at A i s0)
                  = (p.1 ++ g ++ q.1, p.2 ++ replicate (length g) true ++ q.2)).
  { unfold view. rewrite apply_at_chars, apply_at_locks by assumption. reflexivity. }
  split; [exact Hview|]. split.
  { exists p, q. split; [exact Hview|]. split; apply rtc_refl. }
  split.
  { intros B fuel j lim ch s s' ch' HB Hj Hfr Hrun.
    apply scan_loop_sound in Hrun as (Hrw & _ & _); [| exact HB | | exact Hj].
    - eapply framed_rewrites; eassumption.
    - eapply (framed_aligned g p q (view s)); eassumption. }
  split.
  { intros B fuel s s' HB Hfr Hrun.
    apply pass_loop_sound in Hrun as (Hrw & _); [| exact HB |].
    - eapply framed_rewrites; eassumption.
    - eapply (framed_aligned g p q (view s)); eassumption. }
  split.
  { intros rules s Hfr.
    destruct (apply_rules_sound original_chinese debug_info owners rules s)
      as (s' & Hrun & Hrw & _).
    - eapply (framed_aligned g p q (view s)); eassumption.
    - exists s'. split; [exact Hrun|]. eapply framed_rewrites; eassumption. }
  intros B fuel s HB Hc. apply pass_loop_conflicting; assumption.
Qed.

End InsertedText.

(** The conflict map holds, under each good text, the active rules that
    claim it. *)
Lemma owners_map_lookup orig rules k :
  default [] (owners_map orig rules !! k) = owner_ids orig rules k.
Proof.
  unfold owners_map, owner_ids.
  assert (H : forall m,
    default [] (fold_left (add_owner orig) rules m !! k)
    = default [] (m !! k)
      ++ map rule_id
           (List.filter
              (fun r => cn_present r orig && truthy (good_translation r)
                        && bool_decide (good_translation r = k)) rules)).
  { induction rules as [|r rules IH]; intros m; cbn [fold_left List.filter map].
    - rewrite app_nil_r. reflexivity.
    - rewrite IH. unfold add_owner.
      destruct (cn_present r orig); cbn [andb]; [|reflexivity].
      destruct (truthy (good_translation r)); cbn [andb]; [|reflexivity].
      destruct (bool_decide_reflect (good_translation r = k)) as [->|Hne].
      + rewrite lookup_insert_eq. cbn [default map].
        unfold id. rewrite <- app_assoc. reflexivity.
      + rewrite lookup_insert_ne by exact Hne. reflexivity. }
  rewrite H, lookup_empty. reflexivity.
Qed.

Lemma is_conflicting_owner_ids orig rules r :
  is_conflicting (owners_map orig rules) r
  = existsb (fun owner_id => negb (owner_id =? rule_id r))
      (owner_ids orig rules (bad_translation r))
    && negb (bool_decide (bad_translation r = good_translation r)).
Proof.
  unfold is_conflicting. rewrite <- owners_map_lookup.
  destruct (owners_map orig rules !! bad_translation r); reflexivity.
Qed.

(** The check holds back a rule that would turn back the good text of
    another active rule. *)
Lemma undoing_rule_is_conflicting orig rules A B :
  A ∈ rules -> cn_present A orig = true ->
  good_translation A <> [] ->
  bad_translation B = good_translation A ->
  rule_id A <> rule_id B ->
  bad_translation B <> good_translation B ->
  is_conflicting (owners_map orig rules) B = true.
Proof.
  intros HA Hact Hg Hbg Hid Hnoop. rewrite is_conflicting_owner_ids.
  apply andb_true_iff. split.
  - apply existsb_exists. exists (rule_id A). split.
    + unfold owner_ids. apply in_map, filter_In. split.
      * apply list_elem_of_In. exact HA.
      * rewrite Hact, Hbg. apply truthy_nonempty in Hg. rewrite Hg.
        rewrite bool_decide_eq_true_2 by reflexivity. reflexivity.
    + apply negb_true_iff, Z.eqb_neq. exact Hid.
  - apply negb_true_iff, bool_decide_eq_false_2. exact Hnoop.
Qed.

Lemma inserted_text_is_never_rewritten_witness :
  framed (lit "Fireball") ([], []) (lit "!", [false])
    (view (apply_at [HUO; QIU; SHU] ([], []) fireball_rule 0
             (initial (lit "Fire Ball!"))))
  /\ exists s',
       apply_rules [HUO; QIU; SHU] ([], [])
         (owners_map [HUO; QIU; SHU] [fireball_rule; undo_rule]) [undo_rule]
         (apply_at [HUO; QIU; SHU] ([], []) fireball_rule 0
            (initial (lit "Fire Ball!"))) = Some s'
       /\ framed (lit "Fireball") ([], []) (lit "!", [false]) (view s').
Proof.
  destruct (inserted_text_is_never_rewritten [HUO; QIU; SHU] ([], [])
              (owners_map [HUO; QIU; SHU] [fireball_rule; undo_rule])
              fireball_rule 0 (initial (lit "Fire Ball!")))
    as (_ & Hins & _ & _ & Hrules & _).
  - apply initial_aligned.
  - lia.
  - vm_compute. discriminate.
  - discriminate.
  - split; [exact Hins|]. apply Hrules. exact Hins.
Defined.

(** The rule that would turn "Fireball" back is held back, and the
    text stays. *)
Example undo_rule_is_held_back :
  is_conflicting (owners_map [HUO; QIU; SHU] [fireball_rule; undo_rule]) undo_rule
  = true
  /\ execute_single_string_post_processing [HUO; QIU; SHU] (lit "Fire Ball!")
       ([], []) [fireball_rule; undo_rule]
     = Some (lit "Fireball!",
             [{| app_rule_id := 0;
                 app_bad_translation := lit "Fire Ball";
                 app_good_translation := lit "Fireball";
                 app_position := 0;
                 app_text_before := lit "Fire Ball!";
                 app_text_after := lit "Fireball!";
                 app_namespace := []; app_key := [];
                 app_original_chinese := [HUO; QIU; SHU] |}]).
Proof. vm_compute. split; reflexivity. Qed.

(** *** The first rule at the leftmost occurrence of its bad text *)

Section FirstRule.

Variable original_chinese : pystr.
Variable debug_info : pystr * pystr.
Variable owners : gmap pystr (list Z).

Local Abbreviation apply_at := (apply_at original_chinese debug_info).
Local Abbreviation scan_loop := (scan_loop original_chinese debug_info owners).
Local Abbreviation pass_loop := (pass_loop original_chinese debug_info owners).
Local Abbreviation apply_rules := (apply_rules original_chinese debug_info owners).

(** The log only grows. *)
Lemma apply_at_log r i s :
  exists l, rule_applications (apply_at r i s) = rule_applications s ++ l.
Proof.
  unfold apply_at. cbn [rule_applications].
  destruct (negb _); [eauto | exists []; rewrite app_nil_r; reflexivity].
Qed.

Lemma scan_loop_log r : forall fuel i lim ch s s' ch',
  scan_loop fuel r i lim ch s = Some (s', ch') ->
  exists l, rule_applications s' = rule_applications s ++ l.
Proof.
  induction fuel as [|fuel IH]; intros i lim ch s s' ch'; cbn [scan_loop];
    [discriminate|].
  assert (Hstop : Some (s, ch) = Some (s', ch') ->
            exists l, rule_applications s' = rule_applications s ++ l).
  { intros [= <- <-]. exists []. rewrite app_nil_r. reflexivity. }
  destruct (_ <=? _); [|exact Hstop].
  destruct (_ <? _); [exact Hstop|].
  destruct (bool_decide _); [|apply IH].
  destruct (negb _); [|apply IH].
  destruct (negb _); [|apply IH].
  intros (l & ->)%IH. destruct (apply_at_log r i s) as [l0 ->].
  exists (l0 ++ l). rewrite app_assoc. reflexivity.
Qed.

Lemma pass_loop_log r : forall fuel s s',
  pass_loop fuel r s = Some s' ->
  exists l, rule_applications s' = rule_applications s ++ l.
Proof.
  induction fuel as [|fuel IH]; intros s s'; cbn [pass_loop]; [discriminate|].
  destruct (scan_loop _ r 0 _ false s) as [[s1 ch1]|] eqn:Hscan; [|discriminate].
  apply scan_loop_log in Hscan as [l1 H1]. destruct ch1.
  - intros (l & ->)%IH. rewrite H1. exists (l1 ++ l). rewrite app_assoc. reflexivity.
  - intros [= <-]. eauto.
Qed.

Lemma apply_rules_log rules : forall s s',
  apply_rules rules s = Some s' ->
  exists l, rule_applications s' = rule_applications s ++ l.
Proof.
  induction rules as [|r rules IH]; intros s s'; cbn [apply_rules].
  - intros [= <-]. exists []. rewrite app_nil_r. reflexivity.
  - destruct (negb _); [apply IH|]. destruct (negb _); [apply IH|].
    destruct (pass_loop _ r s) as [s1|] eqn:Hp; [|discriminate].
    apply pass_loop_log in Hp as [l1 H1].
    intros (l & ->)%IH. rewrite H1. exists (l1 ++ l). rewrite app_assoc. reflexivity.
Qed.

(** Indices without an occurrence are passed over. *)
Lemma scan_loop_skip r (d : nat) : forall fuel i lim ch s,
  0 <= i ->
  i + Z.of_nat d <= lim - len (bad_translation r) ->
  i + Z.of_nat d + len (bad_translation r) <= len (chars s) ->
  (forall j, i <= j < i + Z.of_nat d ->
     slice (chars s) j (j + len (bad_translation r)) <> bad_translation r) ->
  scan_loop (d + fuel) r i lim ch s = scan_loop fuel r (i + Z.of_nat d) lim ch s.
Proof.
  induction d as [|d IH]; intros fuel i lim ch s Hi Hlim Hlen Hno.
  - cbn [Nat.add]. f_equal. lia.
  - cbn [Nat.add scan_loop].
    destruct (Z.leb_spec i (lim - len (bad_translation r))); [|lia].
    destruct (Z.ltb_spec (len (chars s)) (i + len (bad_translation r))); [lia|].
    rewrite bool_decide_eq_false_2 by (apply Hno; lia).
    rewrite IH; [f_equal; lia | lia | lia | lia |].
    intros j Hj. apply Hno. lia.
Qed.

End FirstRule.

Lemma slice_middle {A} (p m q : list A) :
  slice (p ++ m ++ q) (len p) (len p + len m) = m.
Proof.
  pose proof (len_nonneg p). pose proof (len_nonneg m).
  rewrite slice_in_range by (rewrite ?len_app; pose proof (len_nonneg q); lia).
  unfold len. rewrite Nat2Z.id.
  replace (Z.to_nat (_ + _ - _)) with (length m) by lia.
  rewrite drop_app_length, take_app_length. reflexivity.
Qed.

Lemma existsb_id_replicate_false n : existsb id (replicate n false) = false.
Proof. induction n as [|n IH]; simpl; [reflexivity | exact IH]. Qed.

Lemma replicate_add {A} (a b : nat) (x : A) :
  replicate (a + b) x = replicate a x ++ replicate b x.
Proof. induction a as [|a IH]; simpl; [reflexivity | rewrite IH; reflexivity]. Qed.

(** C5, amended: let [A] be the first of the applicable rules, present
    in the source text and not held back by the conflict check, and let
    the value hold the bad text of [A], leftmost at offset [len p].
    Then the engine returns; its first replacement is that of [A] at
    this offset, and the remaining run, by [A] and by every rule [B] of
    lower priority, only rewrites from there: where the good text of
    [A] is not empty it stands in the output between the separately
    rewritten contexts [p] and [q], so no replacement is applied inside
    it. *)
Theorem first_rule_replaces_leftmost_occurrence
    (original_chinese : pystr) (debug_info : pystr * pystr)
    (A : rule) (rest : list rule) (p q : pystr) :
  let value := p ++ bad_translation A ++ q in
  let g := good_translation A in
  let unlocked_p : masked := (p, replicate (length p) false) in
  let unlocked_q : masked := (q, replicate (length q) false) in
  bad_translation A <> [] ->
  cn_present A original_chinese = true ->
  is_conflicting (owners_map original_chinese (A :: rest)) A = false ->
  (forall j, 0 <= j < len p ->
     slice value j (j + len (bad_translation A)) <> bad_translation A) ->
  exists s',
    run_engine original_chinese value debug_info (A :: rest) = Some s'
    /\ execute_single_string_post_processing original_chinese value
         debug_info (A :: rest)
       = Some (chars s', rule_applications s')
    /\ rewrites (p ++ g ++ q,
                 unlocked_p.2 ++ replicate (length g) true ++ unlocked_q.2)
                (view s')
    /\ (g <> [] -> framed g unlocked_p unlocked_q (view s'))
    /\ (bad_translation A <> g ->
        exists l,
          rule_applications s'
          = {| app_rule_id := rule_id A;
               app_bad_translation := bad_translation A;
               app_good_translation := g;
               app_position := len p;
               app_text_before := value;
               app_text_after := p ++ g ++ q;
               app_namespace := debug_info.1;
               app_key := debug_info.2;
               app_original_chinese := original_chinese |} :: l).
Proof.
  intros value g up uq Hne Hact Hconf Hleft.
  set (owners := owners_map original_chinese (A :: rest)) in *.
  set (s0 := initial value).
  assert (Hal0 : aligned s0) by apply initial_aligned.
  pose proof (len_nonneg p) as Hp0. pose proof (len_nonneg (bad_translation A)) as Hb0.
  pose proof (len_nonneg q) as Hq0. pose proof (len_nonneg g) as Hg0.
  assert (Hlenv : len value = len p + len (bad_translation A) + len q).
  { unfold value. rewrite !len_app. lia. }
  assert (Hin : len p + len (bad_translation A) <= len (chars s0)).
  { cbn [s0 initial chars]. lia. }
  set (s1 := apply_at original_chinese debug_info A (len p) s0).
  (* the state after the first replacement *)
  assert (Hc1 : chars s1 = p ++ g ++ q).
  { unfold s1. rewrite apply_at_chars by assumption. cbn [s0 initial chars].
    unfold value, len. rewrite Nat2Z.id, take_app_length.
    rewrite drop_app_add', drop_app_length by reflexivity. reflexivity. }
  assert (Hl1 : persistent_active_locks s1
                = up.2 ++ replicate (length g) true ++ uq.2).
  { unfold s1. rewrite apply_at_locks by assumption.
    cbn [s0 initial persistent_active_locks up uq snd].
    unfold value, len. rewrite Nat2Z.id, !length_app, !replicate_add.
    rewrite (take_app_length' (replicate (length p) false) _ (length p))
      by (symmetry; apply length_replicate).
    rewrite (drop_app_add' (replicate (length p) false) _ (length p))
      by (symmetry; apply length_replicate).
    rewrite (drop_app_length' (replicate (length (bad_translation A)) false))
      by (symmetry; apply length_replicate).
    reflexivity. }
  assert (Hlog1 : bad_translation A <> g ->
            rule_applications s1
            = [{| app_rule_id := rule_id A;
                  app_bad_translation := bad_translation A;
                  app_good_translation := g;
                  app_position := len p;
                  app_text_before := value;
                  app_text_after := p ++ g ++ q;
                  app_namespace := debug_info.1;
                  app_key := debug_info.2;
                  app_original_chinese := original_chinese |}]).
  { intros Hbg. pose proof Hc1 as Hc. unfold s1, apply_at in Hc |- *.
    cbn [chars rule_applications] in Hc |- *. rewrite Hc.
    cbn [s0 initial chars rule_applications].
    rewrite bool_decide_eq_false_2; [reflexivity|].
    unfold value. intros E. apply app_inv_head, app_inv_tail in E. congruence. }
  (* the first scan reaches the occurrence and replaces it *)
  assert (Hseg : slice (chars s0) (len p) (len p + len (bad_translation A))
                 = bad_translation A) by apply slice_middle.
  assert (Hunl : existsb id (slice (persistent_active_locks s0) (len p)
                               (len p + len (bad_translation A))) = false).
  { cbn [s0 initial persistent_active_locks].
    rewrite slice_in_range
      by (unfold value, len in *; rewrite ?length_replicate, ?length_app in *; lia).
    rewrite drop_replicate, take_replicate. apply existsb_id_replicate_false. }
  assert (Hscan : scan_loop original_chinese debug_info owners
                    (S (length (chars s0))) A 0 (len (chars s0)) false s0
                  = scan_loop original_chinese debug_info owners
                      (length (bad_translation A) + length q) A
                      (len p + len g) (len (chars s1))
                      (false || negb (bool_decide (chars s0 = chars s1))) s1).
  { replace (S (length (chars s0)))
      with (length p + S (length (bad_translation A) + length q))%nat
      by (cbn [s0 initial chars]; unfold value; rewrite !length_app; lia).
    rewrite scan_loop_skip; [| lia | cbn [s0 initial chars]; unfold len in *; lia
                             | unfold len in *; lia | ].
    2: { intros j Hj. apply Hleft. unfold len in *. lia. }
    replace (0 + Z.of_nat (length p)) with (len p) by (unfold len; lia).
    cbn [scan_loop].
    destruct (Z.leb_spec (len p) (len (chars s0) - len (bad_translation A)));
      [|cbn [s0 initial chars] in *; lia].
    destruct (Z.ltb_spec (len (chars s0)) (len p + len (bad_translation A))); [lia|].
    rewrite bool_decide_eq_true_2 by exact Hseg.
    rewrite Hunl, Hconf. cbn [negb]. reflexivity. }
  destruct (scan_loop_total original_chinese debug_info owners A Hne
              (S (length (chars s0))) 0 (len (chars s0)) false s0)
    as [[s2 ch2] Hscan0]; [lia | lia | unfold len; lia |].
  assert (Hstep : rewrite_step (view s0) (view s1)).
  { apply apply_at_rewrite_step; assumption. }
  assert (Hal1 : aligned s1) by (apply rewrite_step_aligned in Hstep; apply Hstep).
  pose proof Hscan0 as Hscan1. rewrite Hscan in Hscan1.
  pose proof (scan_loop_log _ _ _ _ _ _ _ _ _ _ _ Hscan1) as [l12 Hlog12].
  apply scan_loop_sound in Hscan1 as (Hrw12 & Hal2 & _); [| assumption.. | lia].
  (* the remaining passes of the rule *)
  destruct (pass_loop_total original_chinese debug_info owners A Hne
              (S (length (chars s0))) s0 Hal0) as [s3 Hpass].
  { pose proof (unlocked_le_length (persistent_active_locks s0)).
    unfold aligned in Hal0. lia. }
  assert (H23 : rewrites (view s2) (view s3) /\ aligned s3
                /\ exists l, rule_applications s3 = rule_applications s2 ++ l).
  { pose proof Hpass as Hpass'. cbn [pass_loop] in Hpass'. rewrite Hscan0 in Hpass'.
    destruct ch2.
    - pose proof (pass_loop_log _ _ _ _ _ _ _ Hpass') as Hl.
      apply pass_loop_sound in Hpass' as [Hrw Hal]; [|assumption..].
      split; [exact Hrw|]. split; [exact Hal | exact Hl].
    - injection Hpass' as <-. split; [apply rtc_refl|]. split; [exact Hal2|].
      exists []. rewrite app_nil_r. reflexivity. }
  destruct H23 as (Hrw23 & Hal3 & l23 & Hlog23).
  (* the rules of lower priority *)
  destruct (apply_rules_sound original_chinese debug_info owners rest s3 Hal3)
    as (s' & Hrest & Hrw3 & Hal').
  pose proof (apply_rules_log _ _ _ _ _ _ Hrest) as [l3 Hlog3].
  assert (Hrun : run_engine original_chinese value debug_info (A :: rest) = Some s').
  { unfold run_engine. fold owners s0. cbn [apply_rules].
    apply truthy_nonempty in Hne. rewrite Hne, Hact. cbn [negb].
    rewrite Hpass. exact Hrest. }
  assert (Hrw : rewrites (view s1) (view s')).
  { eapply rtc_trans; [exact Hrw12|]. eapply rtc_trans; eassumption. }
  exists s'. split; [exact Hrun|]. split.
  { unfold execute_single_string_post_processing. rewrite Hrun. reflexivity. }
  assert (Hv1 : view s1 = (p ++ g ++ q, up.2 ++ replicate (length g) true ++ uq.2)).
  { unfold view. rewrite Hc1, Hl1. reflexivity. }
  split; [rewrite <- Hv1; exact Hrw|]. split.
  - intros Hgne. eapply (frame_rewrites g Hgne _ _ Hrw up uq).
    + unfold up. cbn [fst snd]. apply length_replicate.
    + exact Hv1.
  - intros Hbg. rewrite Hlog3, Hlog23, Hlog12, (Hlog1 Hbg).
    cbn [app]. eauto.
Qed.

Lemma first_rule_replaces_leftmost_occurrence_witness :
  exists s',
    run_engine [HUO; QIU; SHU] (lit "A " ++ lit "Fire Ball" ++ lit "!") ([], [])
      [fireball_rule; flame_rule] = Some s'
    /\ framed (lit "Fireball") (lit "A ", [false; false]) (lit "!", [false])
         (view s').
Proof.
  destruct (first_rule_replaces_leftmost_occurrence [HUO; QIU; SHU] ([], [])
              fireball_rule [flame_rule] (lit "A ") (lit "!"))
    as (s' & Hrun & _ & _ & Hfr & _).
  - discriminate.
  - vm_compute. reflexivity.
  - vm_compute. reflexivity.
  - intros j Hj. change (len (lit "A ")) with 2 in Hj.
    assert (Hc : j = 0 \/ j = 1) by lia.
    destruct Hc as [-> | ->]; vm_compute; discriminate.
  - exists s'. split; [exact Hrun|]. apply Hfr. discriminate.
Defined.

Example fireball_then_flame :
  execute_single_string_post_processing [HUO; QIU; SHU]
    (lit "Fire Ball and Fire") ([], []) [fireball_rule; flame_rule]
  = Some (lit "Fireball and Flame",
          [{| app_rule_id := 0;
              app_bad_translation := lit "Fire Ball";
              app_good_translation := lit "Fireball";
              app_position := 0;
              app_text_before := lit "Fire Ball and Fire";
              app_text_after := lit "Fireball and Fire";
              app_namespace := []; app_key := [];
              app_original_chinese := [HUO; QIU; SHU] |};
           {| app_rule_id := 1;
              app_bad_translation := lit "Fire";
              app_good_translation := lit "Flame";
              app_position := 13;
              app_text_before := lit "Fireball and Fire";
              app_text_after := lit "Fireball and Flame";
              app_namespace := []; app_key := [];
              app_original_chinese := [HUO; QIU; SHU] |}]).
Proof. vm_compute. reflexivity. Qed.

(** C5 as stated fails: the bad text of [fireball_rule] contains that of
    [fire_ball_rule], it sorts first and both rules are present in the
    source text, yet on "Fire Ball" the conflict check holds
    [fireball_rule] back (its bad text is the good text of the other
    rule) and [fire_ball_rule] rewrites the "Fire" inside it. *)
Lemma rule_priority_counterexample :
  contains (bad_translation fire_ball_rule) (bad_translation fireball_rule) = true
  /\ bad_translation fire_ball_rule <> bad_translation fireball_rule
  /\ sorts_before fireball_rule fire_ball_rule
  /\ cn_present fireball_rule [HUO; QIU; SHU] = true
  /\ cn_present fire_ball_rule [HUO; QIU; SHU] = true
  /\ contains (bad_translation fireball_rule) (lit "Fire Ball") = true
  /\ execute_single_string_post_processing [HUO; QIU; SHU] (lit "Fire Ball")
       ([], []) [fireball_rule; fire_ball_rule]
     = Some (lit "Fire Ball Ball",
             [{| app_rule_id := 1;
                 app_bad_translation := lit "Fire";
                 app_good_translation := lit "Fire Ball";
                 app_position := 0;
                 app_text_before := lit "Fire Ball";
                 app_text_after := lit "Fire Ball Ball";
                 app_namespace := []; app_key := [];
                 app_original_chinese := [HUO; QIU; SHU] |}])
  /\ contains (good_translation fireball_rule) (lit "Fire Ball Ball") = false.
Proof.
  split; [vm_compute; reflexivity|]. split; [discriminate|].
  split; [left; vm_compute; reflexivity|].
  repeat split; vm_compute; reflexivity.
Qed.

(** *** Rows without a bad text *)

Section Skipped.

Variable original_chinese : pystr.
Variable debug_info : pystr * pystr.

Lemma scan_loop_owners o1 o2 r :
  is_conflicting o1 r = is_conflicting o2 r ->
  forall fuel i lim ch s,
  scan_loop original_chinese debug_info o1 fuel r i lim ch s
  = scan_loop original_chinese debug_info o2 fuel r i lim ch s.
Proof.
  intros Hc. induction fuel as [|fuel IH]; intros i lim ch s; cbn [scan_loop];
    [reflexivity|].
  rewrite Hc, !IH. reflexivity.
Qed.

Lemma pass_loop_owners o1 o2 r :
  is_conflicting o1 r = is_conflicting o2 r ->
  forall fuel s,
  pass_loop original_chinese debug_info o1 fuel r s
  = pass_loop original_chinese debug_info o2 fuel r s.
Proof.
  intros Hc. induction fuel as [|fuel IH]; intros s; cbn [pass_loop]; [reflexivity|].
  rewrite (scan_loop_owners o1 o2 r Hc).
  destruct (scan_loop _ _ o2 _ r 0 _ false s) as [[s1 []]|]; [apply IH | reflexivity..].
Qed.

Lemma apply_rules_owners o1 o2 rules :
  (forall r, r ∈ rules -> is_conflicting o1 r = is_conflicting o2 r) ->
  forall s,
  apply_rules original_chinese debug_info o1 rules s
  = apply_rules original_chinese debug_info o2 rules s.
Proof.
  induction rules as [|r rules IH]; intros Hc s; cbn [apply_rules]; [reflexivity|].
  assert (Hrest : forall s, apply_rules original_chinese debug_info o1 rules s
                            = apply_rules original_chinese debug_info o2 rules s).
  { apply IH. intros r' Hr'. apply Hc. right. exact Hr'. }
  rewrite (pass_loop_owners o1 o2 r) by (apply Hc; left).
  rewrite !Hrest.
  destruct (pass_loop _ _ o2 _ r s); [rewrite Hrest|]; reflexivity.
Qed.

(** The second loop passes over the rows without a bad text. *)
Lemma apply_rules_nonempty_bad owners rules : forall s,
  apply_rules original_chinese debug_info owners (List.filter nonempty_bad rules) s
  = apply_rules original_chinese debug_info owners rules s.
Proof.
  induction rules as [|r rules IH]; intros s; cbn [List.filter apply_rules];
    [reflexivity|].
  unfold nonempty_bad at 1. destruct (truthy (bad_translation r)) eqn:Hb; cbn [negb].
  - cbn [apply_rules]. rewrite Hb. cbn [negb].
    destruct (negb _); [apply IH|].
    destruct (pass_loop _ _ _ _ r s); [apply IH | reflexivity].
  - apply IH.
Qed.

End Skipped.

Lemma owner_ids_nonempty_bad orig rules k :
  (forall r, r ∈ rules -> bad_translation r = [] ->
     cn_present r orig = true -> good_translation r <> k) ->
  owner_ids orig (List.filter nonempty_bad rules) k = owner_ids orig rules k.
Proof.
  unfold owner_ids. induction rules as [|r rules IH]; intros H; [reflexivity|].
  assert (IH' := IH (fun r' Hr' => H r' (list_elem_of_further _ _ _ Hr'))).
  cbn [List.filter]. unfold nonempty_bad at 1.
  destruct (truthy (bad_translation r)) eqn:Hb.
  - cbn [List.filter]. destruct (_ && _); cbn [map]; rewrite IH'; reflexivity.
  - rewrite IH'. destruct (cn_present r orig) eqn:Hact; cbn [andb]; [|reflexivity].
    destruct (truthy (good_translation r)); cbn [andb]; [|reflexivity].
    rewrite bool_decide_eq_false_2; [reflexivity|].
    apply H; [left | | exact Hact].
    destruct (bad_translation r); [reflexivity | discriminate].
Qed.

Lemma execute_is_run_engine orig v dbg rules :
  execute_single_string_post_processing orig v dbg rules
  = match run_engine orig v dbg rules with
    | Some s => Some (chars s, rule_applications s)
    | None => None
    end.
Proof. destruct rules; reflexivity. Qed.

(** C8, amended: a row whose bad text is empty is passed over by the
    replacement loop, without a message; it changes nothing by itself
    and stops nothing.  The result is that of the remaining rules under
    the conflict map of the full ruleset, in which the good text of
    such a row counts; it is the result with these rows removed
    whenever no present row without a bad text has, as its good text,
    the bad text of a remaining rule. *)
Theorem empty_bad_rules_are_passed_over
    (original_chinese : pystr) (current_english : pystr)
    (debug_info : pystr * pystr) (rules : list rule) :
  let kept := List.filter nonempty_bad rules in
  execute_single_string_post_processing original_chinese current_english
    debug_info rules
  = match apply_rules original_chinese debug_info
            (owners_map original_chinese rules) kept (initial current_english) with
    | Some s => Some (chars s, rule_applications s)
    | None => None
    end
  /\ ((forall r r', r ∈ rules -> bad_translation r = [] ->
         cn_present r original_chinese = true -> r' ∈ kept ->
         good_translation r <> bad_translation r') ->
      execute_single_string_post_processing original_chinese current_english
        debug_info rules
      = execute_single_string_post_processing original_chinese current_english
          debug_info kept).
Proof.
  intros kept.
  assert (H1 : execute_single_string_post_processing original_chinese
                 current_english debug_info rules
               = match apply_rules original_chinese debug_info
                         (owners_map original_chinese rules) kept
                         (initial current_english) with
                 | Some s => Some (chars s, rule_applications s)
                 | None => None
                 end).
  { unfold kept. rewrite apply_rules_nonempty_bad.
    apply execute_is_run_engine. }
  split; [exact H1|]. intros Hsafe. rewrite H1.
  rewrite (execute_is_run_engine _ _ _ kept). unfold run_engine.
  rewrite (apply_rules_owners original_chinese debug_info
             (owners_map original_chinese rules) (owners_map original_chinese kept) kept);
    [reflexivity|].
  intros r' Hr'. rewrite !is_conflicting_owner_ids. do 2 f_equal.
  unfold kept. symmetry. apply owner_ids_nonempty_bad.
  intros r Hr Hb Hact. apply Hsafe; assumption.
Qed.

Lemma empty_bad_rules_are_passed_over_witness :
  execute_single_string_post_processing [HUO] (lit "Fire") ([], [])
    [{| simp_chinese := [HUO]; trad_chinese := [HUO];
        good_translation := lit "Flame"; bad_translation := []; rule_id := 0 |};
     blaze_rule]
  = execute_single_string_post_processing [HUO] (lit "Fire") ([], []) [blaze_rule].
Proof.
  apply (empty_bad_rules_are_passed_over [HUO] (lit "Fire") ([], [])
           [{| simp_chinese := [HUO]; trad_chinese := [HUO];
               good_translation := lit "Flame"; bad_translation := [];
               rule_id := 0 |};
            blaze_rule]).
  intros r r' Hr Hb Hact Hr'.
  apply list_elem_of_singleton in Hr' as ->.
  apply elem_of_cons in Hr as [-> | Hr].
  - discriminate.
  - apply list_elem_of_singleton in Hr as ->. discriminate.
Defined.

(** C8 as stated fails: [glossary_row] has no bad text and its good
    text "Fire" is the bad text of [blaze_rule]; with the row the
    conflict check holds [blaze_rule] back, without it the rule
    rewrites the value. *)
Lemma empty_bad_rule_counterexample :
  bad_translation glossary_row = []
  /\ execute_single_string_post_processing [HUO] (lit "Fire") ([], [])
       [glossary_row; blaze_rule]
     = Some (lit "Fire", [])
  /\ List.filter nonempty_bad [glossary_row; blaze_rule] = [blaze_rule]
  /\ execute_single_string_post_processing [HUO] (lit "Fire") ([], [])
       [blaze_rule]
     = Some (lit "Blaze",
             [{| app_rule_id := 1;
                 app_bad_translation := lit "Fire";
                 app_good_translation := lit "Blaze";
                 app_position := 0;
                 app_text_before := lit "Fire";
                 app_text_after := lit "Blaze";
                 app_namespace := []; app_key := [];
                 app_original_chinese := [HUO] |}])
  /\ execute_single_string_post_processing [HUO] (lit "Fire") ([], [])
       [glossary_row; blaze_rule]
     <> execute_single_string_post_processing [HUO] (lit "Fire") ([], [])
          (List.filter nonempty_bad [glossary_row; blaze_rule]).
Proof.
  split; [reflexivity|]. split; [vm_compute; reflexivity|].
  split; [reflexivity|]. split; [vm_compute; reflexivity|].
  vm_compute. discriminate.
Qed.

(** *** Properties every replacement keeps *)

Section Invariant.

Variable original_chinese : pystr.
Variable debug_info : pystr * pystr.
Variable owners : gmap pystr (list Z).

Local Abbreviation apply_at := (apply_at original_chinese debug_info).
Local Abbreviation scan_loop := (scan_loop original_chinese debug_info owners).
Local Abbreviation pass_loop := (pass_loop original_chinese debug_info owners).
Local Abbreviation apply_rules := (apply_rules original_chinese debug_info owners).

(** A property of the rules that are applied, and a property of the
    state that every replacement keeps. *)
Variable Q : rule -> Prop.
Variable P : state -> Prop.

Hypothesis P_step : forall r i s,
  Q r -> aligned s -> bad_translation r <> [] ->
  is_conflicting owners r = false ->
  0 <= i -> i + len (bad_translation r) <= len (chars s) ->
  slice (chars s) i (i + len (bad_translation r)) = bad_translation r ->
  existsb id (slice (persistent_active_locks s) i (i + len (bad_translation r))) = false ->
  P s -> P (apply_at r i s).

Lemma scan_loop_invariant r : Q r -> bad_translation r <> [] ->
  forall fuel i lim ch s s' ch',
  aligned s -> 0 <= i -> P s ->
  scan_loop fuel r i lim ch s = Some (s', ch') -> P s'.
Proof.
  intros HQ Hne. induction fuel as [|fuel IH]; intros i lim ch s s' ch' Hal Hi HP;
    cbn [Rules.scan_loop]; [discriminate|].
  assert (Hskip : scan_loop fuel r (i + 1) lim ch s = Some (s', ch') -> P s').
  { apply IH; [exact Hal | lia | exact HP]. }
  assert (Hstop : Some (s, ch) = Some (s', ch') -> P s').
  { intros [= <- <-]. exact HP. }
  destruct (i <=? lim - len (bad_translation r)); [|exact Hstop].
  destruct (Z.ltb_spec (len (chars s)) (i + len (bad_translation r))) as [|Hin];
    [exact Hstop|].
  destruct (bool_decide_reflect
              (slice (chars s) i (i + len (bad_translation r)) = bad_translation r))
    as [Hseg|]; [|exact Hskip].
  destruct (existsb id (slice (persistent_active_locks s) i
                          (i + len (bad_translation r)))) eqn:Hlock;
    cbn [negb]; [exact Hskip|].
  destruct (is_conflicting owners r) eqn:Hconf; cbn [negb]; [exact Hskip|].
  pose proof (apply_at_rewrite_step original_chinese debug_info r i s
                Hal Hne Hi Hin Hseg Hlock) as Hstep.
  pose proof (len_nonneg (good_translation r)).
  apply IH.
  - apply rewrite_step_aligned in Hstep. apply Hstep.
  - lia.
  - apply P_step; assumption.
Qed.

Lemma pass_loop_invariant r : Q r -> bad_translation r <> [] ->
  forall fuel s s', aligned s -> P s ->
  pass_loop fuel r s = Some s' -> P s'.
Proof.
  intros HQ Hne. induction fuel as [|fuel IH]; intros s s' Hal HP;
    cbn [Rules.pass_loop]; [discriminate|].
  destruct (scan_loop _ r 0 _ false s) as [[s1 ch1]|] eqn:Hscan; [|discriminate].
  pose proof (scan_loop_invariant r HQ Hne _ 0 _ _ _ _ _ Hal (Z.le_refl 0) HP Hscan) as HP1.
  apply scan_loop_sound in Hscan as (_ & Hal1 & _); [|assumption..|lia].
  destruct ch1.
  - apply IH; assumption.
  - intros [= <-]. exact HP1.
Qed.

Lemma apply_rules_invariant rules :
  (forall r, r ∈ rules -> cn_present r original_chinese = true ->
     bad_translation r <> [] -> Q r) ->
  forall s s', aligned s -> P s ->
  apply_rules rules s = Some s' -> P s'.
Proof.
  induction rules as [|r rules IH]; intros HQ s s' Hal HP; cbn [Rules.apply_rules].
  - intros [= <-]. exact HP.
  - assert (HQ' : forall r0, r0 ∈ rules -> cn_present r0 original_chinese = true ->
                    bad_translation r0 <> [] -> Q r0).
    { intros r0 Hr0. apply HQ. right. exact Hr0. }
    destruct (truthy (bad_translation r)) eqn:Hb; cbn [negb]; [|apply IH; assumption].
    apply truthy_nonempty in Hb.
    destruct (cn_present r original_chinese) eqn:Hcn; cbn [negb];
      [|apply IH; assumption].
    destruct (pass_loop _ r s) as [s1|] eqn:Hp; [|discriminate].
    assert (HQr : Q r) by (apply HQ; [left | exact Hcn | exact Hb]).
    pose proof (pass_loop_invariant r HQr Hb _ _ _ Hal HP Hp) as HP1.
    apply pass_loop_sound in Hp as [_ Hal1]; [|assumption..].
    apply IH; assumption.
Qed.

End Invariant.

Lemma chain_snoc x log y a :
  chain x log y -> app_text_before a = y -> app_text_after a <> y ->
  chain x (log ++ [a]) (app_text_after a).
Proof.
  revert x. induction log as [|b log IH]; intros x; cbn [chain app].
  - intros <- Hb Ha. auto.
  - intros (Hb & Hne & Hc) Hy Ha. split; [exact Hb|]. split; [exact Hne|].
    apply IH; assumption.
Qed.

Lemma apply_at_log_entry orig dbg r i s :
  let s' := apply_at orig dbg r i s in
  (chars s' = chars s /\ rule_applications s' = rule_applications s)
  \/ (chars s' <> chars s
      /\ exists a, rule_applications s' = rule_applications s ++ [a]
           /\ app_rule_id a = rule_id r
           /\ app_bad_translation a = bad_translation r
           /\ app_good_translation a = good_translation r
           /\ app_position a = i
           /\ app_text_before a = chars s
           /\ app_text_after a = chars s'
           /\ app_namespace a = dbg.1 /\ app_key a = dbg.2
           /\ app_original_chinese a = orig).
Proof.
  unfold apply_at. cbn [chars rule_applications].
  set (c' := slice_assign (chars s) i (i + len (bad_translation r)) (good_translation r)).
  destruct (bool_decide_reflect (chars s = c')) as [He|Hne]; cbn [negb].
  - left. split; [symmetry; exact He | reflexivity].
  - right. split; [congruence|]. eexists. split; [reflexivity|].
    cbn. repeat split; reflexivity.
Qed.

(** X16: the engine returns for every text and every list of rules.
    Its log leads from the text it was given to the text it returns:
    each entry starts from the text the entry before it left and
    changes it.  Each entry records a replacement of a rule of the list
    that is active for the string and not held back by the conflict
    check: the bad text stood at the position, and the text after is
    the text before with the good text in its place.  There are at most
    as many entries as the text has characters. *)
Theorem engine_returns_with_faithful_log
    (original_chinese current_english : pystr) (debug_info : pystr * pystr)
    (rules : list rule) :
  exists out log,
    execute_single_string_post_processing original_chinese current_english
      debug_info rules = Some (out, log)
    /\ chain current_english log out
    /\ Forall (fun a => exists r,
                 r ∈ rules /\ cn_present r original_chinese = true
                 /\ is_conflicting (owners_map original_chinese rules) r = false
                 /\ records original_chinese debug_info r a) log
    /\ (length log <= length current_english)%nat.
Proof.
  rewrite execute_is_run_engine.
  destruct (run_engine_total original_chinese current_english debug_info rules)
    as (s & Hrun & _ & _).
  rewrite Hrun. exists (chars s), (rule_applications s). split; [reflexivity|].
  set (owners := owners_map original_chinese rules).
  set (Q := fun r : rule => r ∈ rules /\ cn_present r original_chinese = true).
  set (P := fun s : state =>
    chain current_english (rule_applications s) (chars s)
    /\ Forall (fun a => exists r,
                 r ∈ rules /\ cn_present r original_chinese = true
                 /\ is_conflicting owners r = false
                 /\ records original_chinese debug_info r a) (rule_applications s)
    /\ (length (rule_applications s) + unlocked (persistent_active_locks s)
        <= length current_english)%nat).
  assert (HP : P s).
  { apply (apply_rules_invariant original_chinese debug_info owners Q P) with
      (rules := rules) (s := initial current_english).
    - (* a replacement keeps the property *)
      clear s Hrun. intros r i s [Hr Hcn] Hal Hne Hconf Hi Hin Hseg Hlock (Hc & Hf & Hb).
      pose proof (apply_at_rewrite_step original_chinese debug_info r i s
                    Hal Hne Hi Hin Hseg Hlock) as Hstep.
      apply rewrite_step_unlocked in Hstep. cbn [view snd] in Hstep.
      destruct (apply_at_log_entry original_chinese debug_info r i s)
        as [[Hch Hlog]|[Hch (a & Hlog & Hid & Hbad & Hgood & Hpos & Hbef & Haft & Hns & Hk & Ho)]].
      + unfold P. rewrite Hch, Hlog. split; [exact Hc|]. split; [exact Hf | lia].
      + unfold P. rewrite Hlog. split; [|split].
        * rewrite <- Haft. apply (chain_snoc _ _ (chars s)); [exact Hc | exact Hbef | congruence].
        * apply Forall_app. split; [exact Hf|]. constructor; [|constructor].
          exists r. split; [exact Hr|]. split; [exact Hcn|]. split; [exact Hconf|].
          unfold records. rewrite Hpos, Hbef, Haft.
          repeat split; assumption.
        * rewrite length_app. simpl length. lia.
    - intros r Hr Hcn _. split; assumption.
    - apply initial_aligned.
    - unfold P, initial. cbn [rule_applications chars persistent_active_locks chain].
      split; [reflexivity|]. split; [constructor|].
      rewrite unlocked_all_unlocked. simpl. lia.
    - exact Hrun. }
  destruct HP as (Hc & Hf & Hb). split; [exact Hc|]. split; [exact Hf | lia].
Qed.

(** *** The selection of the rules of a string *)

Lemma listed_append d k' j k i :
  listed (append_index d k' j) k i <-> listed d k i \/ (k = k' /\ i = j).
Proof.
  unfold listed. induction d as [|[k0 l0] d IH]; cbn [append_index].
  - split.
    + intros (l & Hin & Hi). apply list_elem_of_singleton in Hin as [= -> ->].
      apply list_elem_of_singleton in Hi. right. auto.
    + intros [(l & Hin & _)|[-> ->]]; [inversion Hin|].
      exists [j]. split; [left | left].
  - destruct (bool_decide_reflect (k0 = k')) as [->|Hne].
    + split.
      * intros (l & Hin & Hi). apply elem_of_cons in Hin as [[= -> ->]|Hin].
        -- apply elem_of_app in Hi as [Hi|Hi].
           ++ left. exists l0. split; [left | exact Hi].
           ++ apply list_elem_of_singleton in Hi. right. auto.
        -- left. exists l. split; [right; exact Hin | exact Hi].
      * intros [(l & Hin & Hi)|[-> ->]].
        -- apply elem_of_cons in Hin as [[= -> ->]|Hin].
           ++ exists (l0 ++ [j]). split; [left | apply elem_of_app; left; exact Hi].
           ++ exists l. split; [right; exact Hin | exact Hi].
        -- exists (l0 ++ [j]). split; [left | apply elem_of_app; right; left].
    + split.
      * intros (l & Hin & Hi). apply elem_of_cons in Hin as [[= -> ->]|Hin].
        -- left. exists l0. split; [left | exact Hi].
        -- destruct (proj1 IH) as [(l' & Hin' & Hi')|Hr]; [eauto| |right; exact Hr].
           left. exists l'. split; [right; exact Hin' | exact Hi'].
      * intros [(l & Hin & Hi)|Hr].
        -- apply elem_of_cons in Hin as [[= -> ->]|Hin].
           ++ exists l0. split; [left | exact Hi].
           ++ destruct (proj2 IH) as (l' & Hin' & Hi'); [left; eauto|].
              exists l'. split; [right; exact Hin' | exact Hi'].
        -- destruct (proj2 IH) as (l' & Hin' & Hi'); [right; exact Hr|].
           exists l'. split; [right; exact Hin' | exact Hi'].
Qed.

Lemma listed_add_keywords d j r k i :
  listed (add_keywords d (j, r)) k i <-> listed d k i \/ (i = j /\ is_keyword r k).
Proof.
  unfold add_keywords, is_keyword.
  destruct (truthy (simp_chinese r)) eqn:Hs;
    destruct (truthy (trad_chinese r)) eqn:Ht; cbn [andb];
    try destruct (bool_decide_reflect (trad_chinese r = simp_chinese r)) as [He|He];
    cbn [negb]; rewrite ?listed_append; intuition (try discriminate; try congruence).
Qed.

Lemma listed_fold items : forall d k i,
  listed (fold_left add_keywords items d) k i
  <-> listed d k i \/ exists r, (i, r) ∈ items /\ is_keyword r k.
Proof.
  induction items as [|[j r] items IH]; intros d k i; cbn [fold_left].
  - split; [auto|]. intros [H|(r & Hin & _)]; [exact H | inversion Hin].
  - rewrite IH, listed_add_keywords. split.
    + intros [[H|[-> Hk]]|(r' & Hin & Hk)]; [auto| |].
      * right. exists r. split; [left | exact Hk].
      * right. exists r'. split; [right; exact Hin | exact Hk].
    + intros [H|(r' & Hin & Hk)]; [auto|].
      apply elem_of_cons in Hin as [[= -> ->]|Hin]; [auto|].
      right. eauto.
Qed.

Lemma listed_keywords rules k i :
  listed (keyword_to_rule_indices rules) k i
  <-> exists r, rules !! i = Some r /\ is_keyword r k.
Proof.
  unfold keyword_to_rule_indices. rewrite listed_fold. split.
  - intros [(l & Hin & _)|(r & Hin & Hk)]; [inversion Hin|].
    apply elem_of_lookup_imap in Hin as (i' & r' & [= -> ->] & Hl). eauto.
  - intros (r & Hl & Hk). right. exists r. split; [|exact Hk].
    apply (elem_of_lookup_imap_2 pair) in Hl. exact Hl.
Qed.

(** *** Occurrences of keywords *)

Lemma startswith_fits p s : startswith p s = true -> (length p <= length s)%nat.
Proof. apply HashFacts.startswith_length. Qed.

Lemma contains_drop p s n : startswith p (drop n s) = true -> contains p s = true.
Proof.
  revert n. induction s as [|a s IH]; intros n.
  - rewrite drop_nil. simpl. intros ->. reflexivity.
  - destruct n as [|n]; cbn [drop contains].
    + intros ->. reflexivity.
    + intros H. rewrite (IH n H). apply orb_true_r.
Qed.

Lemma contains_startswith p s :
  contains p s = true -> exists n, (n <= length s)%nat /\ startswith p (drop n s) = true.
Proof.
  induction s as [|a s IH]; cbn [contains].
  - rewrite orb_false_r. intros H. exists O. split; [lia | exact H].
  - intros [H|H]%orb_true_iff.
    + exists O. split; [lia | exact H].
    + destruct (IH H) as (n & Hn & Hs). exists (S n). split; [simpl; lia | exact Hs].
Qed.

Lemma ends_at_contains k text :
  k <> [] ->
  (exists e, e ∈ seq 0 (length text) /\ ends_at k text e = true)
  <-> contains k text = true.
Proof.
  intros Hk. unfold ends_at. split.
  - intros (e & _ & [_ H]%andb_true_iff). eapply contains_drop. exact H.
  - intros (n & Hn & Hs)%contains_startswith.
    pose proof (startswith_fits _ _ Hs) as Hl. rewrite length_drop in Hl.
    assert (Hpos : (0 < length k)%nat) by (destruct k; [contradiction | simpl; lia]).
    exists (n + length k - 1)%nat. split.
    + apply elem_of_seq. lia.
    + apply andb_true_iff. split; [apply Nat.leb_le; lia|].
      replace (S (n + length k - 1) - length k)%nat with n by lia. exact Hs.
Qed.

Lemma automaton_iter_items words text items :
  automaton_iter words text = Some items ->
  forall e w, (e, w) ∈ items
    <-> w ∈ words /\ e ∈ seq 0 (length text) /\ ends_at w.1 text e = true.
Proof.
  unfold automaton_iter. intros H e w.
  assert (Hitems : items =
    flat_map (fun end_index =>
                flat_map (fun word : pystr * list nat =>
                            if ends_at word.1 text end_index
                            then [(end_index, word)] else []) words)
      (seq 0 (length text))).
  { destruct words; [discriminate | injection H as <-; reflexivity]. }
  subst items. clear H.
  rewrite list_elem_of_In, in_flat_map. split.
  - intros (e' & He' & Hin). apply in_flat_map in Hin as (w' & Hw' & Hin).
    destruct (ends_at w'.1 text e') eqn:E; [|inversion Hin].
    destruct Hin as [[= -> ->]|[]].
    split; [apply list_elem_of_In, Hw'|]. split; [apply list_elem_of_In, He' | exact E].
  - intros (Hw & He & E). exists e. split; [apply list_elem_of_In, He|].
    apply in_flat_map. exists w. split; [apply list_elem_of_In, Hw|].
    rewrite E. left. reflexivity.
Qed.

Lemma matching_rule_indices_elem items i :
  i ∈ matching_rule_indices items
  <-> exists e w, (e, w) ∈ items /\ i ∈ w.2.
Proof.
  unfold matching_rule_indices.
  assert (Hinner : forall (l : list nat) (acc : gset nat),
    i ∈ fold_left (fun acc rule_idx => {[rule_idx]} ∪ acc) l acc <-> i ∈ acc \/ i ∈ l).
  { induction l as [|x l IH]; intros acc; cbn [fold_left].
    - split; [auto | intros [H|H]; [exact H | inversion H]].
    - rewrite IH, elem_of_union, elem_of_singleton, elem_of_cons. tauto. }
  assert (Houter : forall (its : list (nat * (pystr * list nat))) (acc : gset nat),
    i ∈ fold_left (fun acc item =>
                     fold_left (fun acc rule_idx => {[rule_idx]} ∪ acc) item.2.2 acc)
          its acc
    <-> i ∈ acc \/ exists e w, (e, w) ∈ its /\ i ∈ w.2).
  { induction its as [|[e0 w0] its IH]; intros acc; cbn [fold_left].
    - split; [auto | intros [H|(e & w & H & _)]; [exact H | inversion H]].
    - rewrite IH, Hinner. cbn [snd]. split.
      + intros [[H|H]|(e & w & Hin & Hi)]; [auto| |].
        * right. exists e0, w0. split; [left | exact H].
        * right. exists e, w. split; [right; exact Hin | exact Hi].
      + intros [H|(e & w & Hin & Hi)]; [auto|].
        apply elem_of_cons in Hin as [[= -> ->]|Hin]; [auto|].
        right. eauto. }
  rewrite Houter. split; [intros [H|H]; [|exact H] | auto].
  apply elem_of_empty in H. contradiction.
Qed.

Lemma cn_present_keyword r text :
  cn_present r text = true
  <-> exists k, is_keyword r k /\ contains k text = true.
Proof.
  unfold cn_present, is_keyword. split.
  - destruct (truthy (simp_chinese r)) eqn:Hs; cbn [andb].
    + destruct (contains (simp_chinese r) text) eqn:Hc; cbn [negb andb].
      * intros _. exists (simp_chinese r). auto.
      * destruct (truthy (trad_chinese r)) eqn:Ht; cbn [andb]; [|discriminate].
        destruct (bool_decide_reflect (trad_chinese r = simp_chinese r)); cbn [negb andb];
          [discriminate|].
        destruct (contains (trad_chinese r) text) eqn:Hct; [|discriminate].
        intros _. exists (trad_chinese r). auto.
    + destruct (truthy (trad_chinese r)) eqn:Ht; cbn [andb negb]; [|discriminate].
      destruct (bool_decide_reflect (trad_chinese r = simp_chinese r)); cbn [negb andb];
        [discriminate|].
      destruct (contains (trad_chinese r) text) eqn:Hct; [|discriminate].
      intros _. exists (trad_chinese r). auto.
  - intros (k & [[Hs ->]|(Ht & Hne & ->)] & Hc).
    + rewrite Hs, Hc. cbn. reflexivity.
    + rewrite Ht, Hc. rewrite bool_decide_eq_false_2 by exact Hne.
      destruct (truthy (simp_chinese r) && contains (simp_chinese r) text); reflexivity.
Qed.

Lemma is_keyword_nonempty r k : is_keyword r k -> k <> [].
Proof.
  intros [[H ->]|(H & _ & ->)]; apply truthy_nonempty, H.
Qed.

(** The set of the matching indices: the indices of the rules one of
    whose keywords stands in the text. *)
Lemma matching_rule_indices_present rules text items i :
  automaton_iter (keyword_to_rule_indices rules) text = Some items ->
  i ∈ matching_rule_indices items
  <-> exists r, rules !! i = Some r /\ cn_present r text = true.
Proof.
  intros Hit. rewrite matching_rule_indices_elem. split.
  - intros (e & [k l] & Hin & Hi). cbn [snd] in Hi.
    apply (automaton_iter_items _ _ _ Hit) in Hin as (Hw & He & Hends).
    cbn [fst] in Hends.
    assert (Hl : listed (keyword_to_rule_indices rules) k i) by (exists l; auto).
    apply listed_keywords in Hl as (r & Hr & Hk).
    exists r. split; [exact Hr|]. apply cn_present_keyword. exists k.
    split; [exact Hk|]. apply ends_at_contains; [eapply is_keyword_nonempty; eassumption|].
    eauto.
  - intros (r & Hr & (k & Hk & Hc)%cn_present_keyword).
    assert (Hl : listed (keyword_to_rule_indices rules) k i).
    { apply listed_keywords. eauto. }
    destruct Hl as (l & Hin & Hi).
    apply ends_at_contains in Hc as (e & He & Hends);
      [|eapply is_keyword_nonempty; eassumption].
    exists e, (k, l). split; [|exact Hi].
    apply (automaton_iter_items _ _ _ Hit). auto.
Qed.

(** *** The sorted indices *)

Lemma filter_seq_sorted (P : nat -> Prop) `{!forall i, Decision (P i)} n :
  forall a, StronglySorted Nat.le (filter P (seq a n)).
Proof.
  induction n as [|n IH]; intros a; cbn [seq]; [constructor|].
  rewrite filter_cons. destruct (decide (P a)); [|apply IH].
  constructor; [apply IH|].
  apply Forall_forall. intros x [_ Hx%elem_of_seq]%list_elem_of_filter. lia.
Qed.

Lemma sorted_elements_filter (M : gset nat) (P : nat -> Prop)
    `{!forall i, Decision (P i)} n :
  (forall i, i ∈ M <-> P i /\ (i < n)%nat) ->
  merge_sort Nat.le (elements M) = filter P (seq 0 n).
Proof.
  intros HM. apply (Sorted_unique Nat.le).
  - apply Sorted_merge_sort. intros x y. unfold Nat.le. lia.
  - apply StronglySorted_Sorted, filter_seq_sorted.
  - rewrite merge_sort_Permutation. apply NoDup_Permutation.
    + apply NoDup_elements.
    + apply NoDup_filter, NoDup_seq.
    + intros i. rewrite elem_of_elements, list_elem_of_filter, elem_of_seq, HM.
      intuition lia.
Qed.

Lemma mapM_lookup_filter (p : rule -> bool) (rs : list rule) : forall pre,
  mapM (fun i => (pre ++ rs) !! i)
    (filter (fun i => holds_at p (pre ++ rs) i = true)
       (seq (length pre) (length rs)))
  = Some (List.filter p rs).
Proof.
  induction rs as [|r rs IH]; intros pre; [reflexivity|].
  cbn [length seq List.filter]. rewrite filter_cons.
  assert (Hr : (pre ++ r :: rs) !! length pre = Some r) by apply list_lookup_middle, eq_refl.
  specialize (IH (pre ++ [r])). rewrite <- app_assoc in IH. cbn [app] in IH.
  rewrite length_app in IH. cbn [length] in IH.
  replace (length pre + 1)%nat with (S (length pre)) in IH by lia.
  assert (Hh : holds_at p (pre ++ r :: rs) (length pre) = p r)
    by (unfold holds_at; rewrite Hr; reflexivity).
  destruct (p r) eqn:Hp.
  - rewrite decide_True by exact Hh. cbn [mapM]. rewrite Hr. cbn.
    rewrite IH. reflexivity.
  - rewrite decide_False by congruence. exact IH.
Qed.

Lemma applicable_rules_filter rules text items :
  automaton_iter (keyword_to_rule_indices rules) text = Some items ->
  applicable_rules rules (matching_rule_indices items)
  = Some (List.filter (fun r => cn_present r text) rules).
Proof.
  intros Hit. unfold applicable_rules.
  rewrite (sorted_elements_filter _
             (fun i => holds_at (fun r => cn_present r text) rules i = true)
             (length rules)).
  - apply (mapM_lookup_filter (fun r => cn_present r text) rules []).
  - intros i. rewrite (matching_rule_indices_present _ _ _ _ Hit).
    unfold holds_at. split.
    + intros (r & Hr & Hp). rewrite Hr. split; [exact Hp|].
      apply lookup_lt_Some in Hr. exact Hr.
    + intros [Hp _]. destruct (rules !! i) as [r|]; [eauto | discriminate].
Qed.

(** *** The engine on the selected rules *)

Lemma owners_map_present orig rules : forall m,
  fold_left (add_owner orig) (List.filter (fun r => cn_present r orig) rules) m
  = fold_left (add_owner orig) rules m.
Proof.
  induction rules as [|r rules IH]; intros m; [reflexivity|].
  cbn [List.filter fold_left]. destruct (cn_present r orig) eqn:Hp.
  - cbn [fold_left]. apply IH.
  - rewrite IH. f_equal. unfold add_owner. rewrite Hp. reflexivity.
Qed.

Lemma apply_rules_present orig dbg owners rules : forall s,
  apply_rules orig dbg owners (List.filter (fun r => cn_present r orig) rules) s
  = apply_rules orig dbg owners rules s.
Proof.
  induction rules as [|r rules IH]; intros s; [reflexivity|].
  cbn [List.filter apply_rules]. destruct (cn_present r orig) eqn:Hp.
  - cbn [apply_rules]. rewrite Hp.
    destruct (negb (truthy (bad_translation r))); [apply IH|]. cbn [negb].
    destruct (pass_loop _ _ _ _ _ _); [apply IH | reflexivity].
  - rewrite IH. cbn [negb]. destruct (negb (truthy (bad_translation r))); reflexivity.
Qed.

Lemma execute_present orig english dbg rules :
  execute_single_string_post_processing orig english dbg
    (List.filter (fun r => cn_present r orig) rules)
  = execute_single_string_post_processing orig english dbg rules.
Proof.
  rewrite !execute_is_run_engine. unfold run_engine, owners_map.
  rewrite owners_map_present, apply_rules_present. reflexivity.
Qed.

(** X17: when some rule has a keyword, selecting the rules of a string
    with the automaton changes nothing: the string ends with the text
    and the applications that the engine gives with the whole list of
    rules.  The rules selected are those that are active for the
    string, in the order of the list. *)
Theorem prefilter_is_transparent
    (rules : list rule) (original_chinese english : pystr)
    (debug_info : pystr * pystr) :
  keyword_to_rule_indices rules <> [] ->
  post_process_item rules original_chinese english debug_info
  = execute_single_string_post_processing original_chinese english debug_info rules
  /\ exists items,
       automaton_iter (keyword_to_rule_indices rules) original_chinese = Some items
       /\ applicable_rules rules (matching_rule_indices items)
          = Some (List.filter (fun r => cn_present r original_chinese) rules).
Proof.
  intros Hkw.
  destruct (automaton_iter (keyword_to_rule_indices rules) original_chinese)
    as [items|] eqn:Hit.
  2:{ unfold automaton_iter in Hit.
      destruct (keyword_to_rule_indices rules); [contradiction | discriminate]. }
  pose proof (applicable_rules_filter rules original_chinese items Hit) as Happ.
  split; [|eauto].
  unfold post_process_item. rewrite Hit.
  destruct rules as [|r0 rules0] eqn:Hrules; [reflexivity|]. rewrite <- Hrules in *.
  rewrite Happ. cbv zeta.
  destruct (bool_decide_reflect (matching_rule_indices items = ∅)) as [He|Hne].
  - rewrite <- execute_present.
    assert (Hnone : List.filter (fun r => cn_present r original_chinese) rules = []).
    { destruct (List.filter _ rules) as [|r l] eqn:Hf; [reflexivity|].
      exfalso.
      assert (Hin : In r (List.filter (fun r => cn_present r original_chinese) rules))
        by (rewrite Hf; left; reflexivity).
      apply filter_In in Hin as [Hin Hp].
      apply list_elem_of_In, list_elem_of_lookup_1 in Hin as [i Hi].
      assert (Hm : i ∈ matching_rule_indices items).
      { apply (matching_rule_indices_present _ _ _ _ Hit). eauto. }
      rewrite He in Hm. apply elem_of_empty in Hm. exact Hm. }
    rewrite Hnone. reflexivity.
  - apply execute_present.
Qed.

Lemma prefilter_is_transparent_witness :
  post_process_item [fireball_rule; flame_rule] [HUO; QIU; SHU]
    (lit "Fire Ball and Fire") ([], [])
  = execute_single_string_post_processing [HUO; QIU; SHU]
      (lit "Fire Ball and Fire") ([], []) [fireball_rule; flame_rule].
Proof.
  apply (prefilter_is_transparent [fireball_rule; flame_rule] [HUO; QIU; SHU]
           (lit "Fire Ball and Fire") ([], [])).
  vm_compute. discriminate.
Defined.

(** Of two rules the string is handed the one whose term it holds. *)
Example prefilter_selects_matching_rules :
  keyword_to_rule_indices [fireball_rule; undo_rule]
  = [([HUO; QIU], [0%nat]); ([QIU], [1%nat])]
  /\ automaton_iter (keyword_to_rule_indices [fireball_rule; undo_rule]) [SHU; QIU]
     = Some [(1%nat, ([QIU], [1%nat]))]
  /\ post_process_item [fireball_rule; undo_rule] [SHU; QIU] (lit "Fireball") ([], [])
     = Some (lit "Fire ball",
             [{| app_rule_id := 2;
                 app_bad_translation := lit "Fireball";
                 app_good_translation := lit "Fire ball";
                 app_position := 0;
                 app_text_before := lit "Fireball";
                 app_text_after := lit "Fire ball";
                 app_namespace := []; app_key := [];
                 app_original_chinese := [SHU; QIU] |}]).
Proof. vm_compute. repeat split. Qed.

(** *** Texts without a bad text *)

Lemma startswith_take p : forall s, take (length p) s = p -> startswith p s = true.
Proof.
  induction p as [|a p IH]; intros [|b s]; cbn [length take startswith];
    try reflexivity; try discriminate.
  intros [= -> H]. rewrite bool_decide_eq_true_2 by reflexivity. apply IH, H.
Qed.

Lemma slice_contains (b s : pystr) i :
  0 <= i -> i + len b <= len s ->
  slice s i (i + len b) = b -> contains b s = true.
Proof.
  intros Hi Hin Hs. pose proof (len_nonneg b).
  rewrite slice_in_range in Hs by lia.
  replace (Z.to_nat (i + len b - i)) with (length b) in Hs by (unfold len; lia).
  eapply contains_drop, startswith_take. exact Hs.
Qed.

(** X18: a text in which no bad text of an active rule stands is
    returned as it is, with an empty log. *)
Theorem text_without_bad_text_is_kept
    (original_chinese current_english : pystr) (debug_info : pystr * pystr)
    (rules : list rule) :
  (forall r, r ∈ rules -> cn_present r original_chinese = true ->
     contains (bad_translation r) current_english = false) ->
  execute_single_string_post_processing original_chinese current_english
    debug_info rules = Some (current_english, []).
Proof.
  intros Hno. rewrite execute_is_run_engine.
  destruct (run_engine_total original_chinese current_english debug_info rules)
    as (s & Hrun & _ & _).
  rewrite Hrun.
  assert (Hs : s = initial current_english).
  { apply (apply_rules_invariant original_chinese debug_info
             (owners_map original_chinese rules)
             (fun r => contains (bad_translation r) current_english = false)
             (fun s => s = initial current_english))
      with (rules := rules) (s := initial current_english).
    - intros r i s0 Hq _ _ _ Hi Hin Hseg _ ->. cbn [initial chars] in Hin, Hseg.
      rewrite (slice_contains _ _ _ Hi Hin Hseg) in Hq. discriminate.
    - intros r Hr Hcn _. apply Hno; assumption.
    - apply initial_aligned.
    - reflexivity.
    - exact Hrun. }
  rewrite Hs. reflexivity.
Qed.

Lemma text_without_bad_text_is_kept_witness :
  execute_single_string_post_processing [HUO; QIU; SHU] (lit "Flame and blaze")
    ([], []) [fireball_rule; flame_rule]
  = Some (lit "Flame and blaze", []).
Proof.
  apply (text_without_bad_text_is_kept [HUO; QIU; SHU] (lit "Flame and blaze")
           ([], []) [fireball_rule; flame_rule]).
  intros r Hr _.
  apply elem_of_cons in Hr as [->|Hr]; [reflexivity|].
  apply elem_of_cons in Hr as [->|Hr]; [reflexivity|].
  inversion Hr.
Defined.

End RulesFacts.

(** ** The translation resolver *)

Module ResolverFacts.
Import Py PyFacts Unicode Re Resolver.

(** *** The cache of the pattern function *)


Lemma extract_number_pattern_cached_correct c t :
  pattern_cache_ok c ->
  (extract_number_pattern_cached c t).1 = extract_number_pattern t
  /\ pattern_cache_ok (extract_number_pattern_cached c t).2.
Proof.
  intros Hc. unfold extract_number_pattern_cached.
  destruct (c !! t) as [r|] eqn:E; cbn [fst snd].
  - split; [apply Hc, E | exact Hc].
  - split; [reflexivity|]. intros t' r'.
    destruct (decide (t = t')) as [->|Hne].
    + rewrite lookup_insert_eq. intros [= <-]. reflexivity.
    + rewrite lookup_insert_ne by exact Hne. apply Hc.
Qed.

(** *** Memoization *)

Section Memo.

Variable s2t_convert t2s_convert : pystr -> option pystr.

Local Abbreviation find := (find_existing_translation_elsewhere s2t_convert t2s_convert).
Local Abbreviation run := (run_calls s2t_convert t2s_convert).
Local Abbreviation cache := SESSION_CROSS_NAMESPACE_TRANSLATIONS_CACHE.


Lemma find_settled s tm g r : settled g s r -> find s tm g = (r, g).
Proof.
  unfold settled, find_existing_translation_elsewhere.
  destruct (truthy s); cbn [negb].
  - intros ->. reflexivity.
  - intros ->. reflexivity.
Qed.

Lemma find_settles s tm g : settled (find s tm g).2 s (find s tm g).1.
Proof.
  unfold settled, find_existing_translation_elsewhere.
  destruct (truthy s); cbn [negb]; [|reflexivity].
  destruct (cache g !! s) as [r|] eqn:E; cbn [fst snd]; [exact E|].
  cbn [SESSION_CROSS_NAMESPACE_TRANSLATIONS_CACHE]. apply lookup_insert_eq.
Qed.

Lemma find_keeps s tm g t r :
  cache g !! t = Some r -> cache (find s tm g).2 !! t = Some r.
Proof.
  unfold find_existing_translation_elsewhere.
  destruct (truthy s); cbn [negb]; [|tauto].
  destruct (cache g !! s) as [r'|] eqn:E; cbn [snd]; [tauto|].
  cbn [SESSION_CROSS_NAMESPACE_TRANSLATIONS_CACHE]. intros Ht.
  rewrite lookup_insert_ne; [exact Ht | congruence].
Qed.

Lemma find_keeps_settled s tm g t r :
  settled g t r -> settled (find s tm g).2 t r.
Proof.
  unfold settled. destruct (truthy t); [apply find_keeps | tauto].
Qed.

Lemma run_settled calls : forall g s r, settled g s r ->
  forall j tm, calls !! j = Some (s, tm) -> (run calls g).1 !! j = Some r.
Proof.
  induction calls as [|[s0 tm0] calls IH]; intros g s r Hs j tm Hj;
    [destruct j; discriminate|].
  cbn [run_calls].
  destruct (find s0 tm0 g) as [r0 g'] eqn:Hf.
  destruct (run calls g') as [rs entered] eqn:Hr. cbn [fst].
  destruct j as [|j]; cbn in Hj |- *.
  - injection Hj as -> ->. rewrite (find_settled _ _ _ _ Hs) in Hf.
    injection Hf as <- _. reflexivity.
  - pose proof (find_keeps_settled s0 tm0 g s r Hs) as Hs'. rewrite Hf in Hs'.
    specialize (IH g' s r Hs' j tm Hj). rewrite Hr in IH. exact IH.
Qed.

Lemma run_not_entered calls : forall g s,
  is_Some (cache g !! s) -> s ∉ (run calls g).2.
Proof.
  induction calls as [|[s0 tm0] calls IH]; intros g s [r Hs]; cbn [run_calls].
  - cbn. apply not_elem_of_nil.
  - destruct (find s0 tm0 g) as [r0 g'] eqn:Hf.
    destruct (run calls g') as [rs entered] eqn:Hr. cbn [snd].
    assert (Hrest : s ∉ entered).
    { pose proof (find_keeps s0 tm0 g s r Hs) as Hk. rewrite Hf in Hk.
      specialize (IH g' s (ex_intro _ r Hk)). rewrite Hr in IH. exact IH. }
    unfold enters_resolution. destruct (truthy s0); cbn [andb]; [|exact Hrest].
    destruct (bool_decide_reflect (is_Some (cache g !! s0))) as [Hin|Hout];
      cbn [negb]; [exact Hrest|].
    apply not_elem_of_cons. split; [|exact Hrest].
    intros ->. apply Hout. eauto.
Qed.

(** C7: in a run, from whatever state of the globals and whatever tables
    the calls are given, two calls on the same source string return the
    same pair of translation and method; after a call on a non-empty
    string the session cache holds what the call returned, a failure as
    well as a success; and the resolution procedure is entered at most
    once for each string. *)
Theorem resolver_is_memoized
    (calls : list (pystr * list (pystr * jnamespace))) (g : session) :
  (forall i j s tmi tmj ri rj,
     calls !! i = Some (s, tmi) -> calls !! j = Some (s, tmj) ->
     (run calls g).1 !! i = Some ri -> (run calls g).1 !! j = Some rj ->
     ri = rj)
  /\ (forall s tm g0, truthy s = true ->
        cache (find s tm g0).2 !! s = Some (find s tm g0).1)
  /\ (forall s tm g0 r, cache g0 !! s = Some r -> truthy s = true ->
        find s tm g0 = (r, g0))
  /\ NoDup (run calls g).2.
Proof.
  split; [|split; [|split]].
  - revert g. induction calls as [|[s0 tm0] calls IH]; intros g i j s tmi tmj ri rj Hi Hj;
      [destruct i; discriminate|].
    cbn [run_calls].
    destruct (find s0 tm0 g) as [r0 g'] eqn:Hf.
    destruct (run calls g') as [rs entered] eqn:Hr. cbn [fst].
    assert (Hlater : forall k tm r, calls !! k = Some (s0, tm) ->
                       rs !! k = Some r -> r = r0).
    { intros k tm r Hk Hrk.
      pose proof (find_settles s0 tm0 g) as Hs. rewrite Hf in Hs. cbn [fst snd] in Hs.
      pose proof (run_settled calls g' s0 r0 Hs k tm Hk) as Hk'.
      rewrite Hr in Hk'. cbn [fst] in Hk'. congruence. }
    destruct i as [|i], j as [|j]; cbn in Hi, Hj |- *.
    + congruence.
    + injection Hi as -> ->. intros [= <-] Hrj. symmetry. eapply Hlater; eassumption.
    + injection Hj as -> ->. intros Hri [= <-]. eapply Hlater; eassumption.
    + intros Hri Hrj. specialize (IH g' i j s tmi tmj ri rj Hi Hj).
      rewrite Hr in IH. apply IH; assumption.
  - intros s tm g0 Hs. pose proof (find_settles s tm g0) as H.
    unfold settled in H. rewrite Hs in H. exact H.
  - intros s tm g0 r Hc Hs. apply find_settled. unfold settled. rewrite Hs. exact Hc.
  - revert g. induction calls as [|[s0 tm0] calls IH]; intros g; cbn [run_calls].
    + cbn. apply NoDup_nil_2.
    + destruct (find s0 tm0 g) as [r0 g'] eqn:Hf.
      destruct (run calls g') as [rs entered] eqn:Hr. cbn [snd].
      specialize (IH g'). rewrite Hr in IH. cbn [snd] in IH.
      unfold enters_resolution. destruct (truthy s0) eqn:Hs0; cbn [andb]; [|exact IH].
      destruct (bool_decide _); cbn [negb]; [exact IH|].
      apply NoDup_cons. split; [|exact IH].
      pose proof (find_settles s0 tm0 g) as Hs. rewrite Hf in Hs. cbn [fst snd] in Hs.
      unfold settled in Hs. rewrite Hs0 in Hs.
      pose proof (run_not_entered calls g' s0 (ex_intro _ r0 Hs)) as Hn.
      rewrite Hr in Hn. exact Hn.
Qed.

End Memo.

Lemma resolver_is_memoized_witness :
  NoDup (run_calls no_conversion no_conversion sample_calls fresh).2
  /\ forall ri rj,
       (run_calls no_conversion no_conversion sample_calls fresh).1 !! 0%nat = Some ri ->
       (run_calls no_conversion no_conversion sample_calls fresh).1 !! 3%nat = Some rj ->
       ri = rj.
Proof.
  destruct (resolver_is_memoized no_conversion no_conversion sample_calls fresh)
    as (Hsame & _ & _ & Honce).
  split; [exact Honce|]. intros ri rj Hi Hj.
  apply (Hsame 0%nat 3%nat (damage_source "250") damage_table damage_table_two);
    [reflexivity | reflexivity | exact Hi | exact Hj].
Defined.

(** The sample run: the procedure is entered once; the later calls
    return what the first one found, whatever table they are given. *)
Example sample_run :
  run_calls no_conversion no_conversion sample_calls fresh
  = ([(Some (lit "Deals {250} damage"), Some pattern_original_fully_normalized_pattern);
      (Some (lit "Deals {250} damage"), Some pattern_original_fully_normalized_pattern);
      (None, None);
      (Some (lit "Deals {250} damage"), Some pattern_original_fully_normalized_pattern)],
     [damage_source "250"]).
Proof. vm_compute. reflexivity. Qed.

(** *** The values the translation stage passes on *)

Section Stage.

Variable s2t_convert t2s_convert : pystr -> option pystr.
Variable tm : list (pystr * jnamespace).

Local Abbreviation translate_entry := (translate_entry s2t_convert t2s_convert tm).
Local Abbreviation translate_namespace := (translate_namespace s2t_convert t2s_convert tm).


(** What the body of the inner loop stores. *)
Lemma translate_entry_stores ns cur st key value :
  exists stored,
    translated_data (translate_entry ns cur st (key, value))
    = set_translated ns key stored (translated_data st)
    /\ (forall v, value = JStr v -> skipped v = true -> stored = value).
Proof.
  unfold translate_entry, Resolver.translate_entry, skipped.
  destruct value as [v|n]; [|exists (JOther n); split; [reflexivity | discriminate]].
  destruct (contains (lit ".data") v || contains (lit "Texture2D") v) eqn:Hd.
  { exists (JStr v). split; reflexivity. }
  destruct (contains_cn_or_ru v) eqn:Hc; cbn [negb].
  2:{ exists (JStr v). split; reflexivity. }
  destruct (own_translation cur v) as [e|].
  { exists (JStr e). split; [reflexivity|].
    intros v0 [= <-] Hsk. rewrite Hd, Hc in Hsk. discriminate. }
  destruct (find_existing_translation_elsewhere _ _ v tm (globals st)) as [[r m] g'].
  destruct r as [[|c r]|].
  - exists (JStr v). split; reflexivity.
  - exists (JStr (c :: r)). split; [reflexivity|].
    intros v0 [= <-] Hsk. rewrite Hd, Hc in Hsk. discriminate.
  - exists (JStr v). split; reflexivity.
Qed.

Lemma translate_entry_excerpt ns cur st item :
  excerpt_ok (untranslated_excerpt st) ->
  excerpt_ok (untranslated_excerpt (translate_entry ns cur st item)).
Proof.
  intros Hok. destruct item as [key value].
  unfold translate_entry, Resolver.translate_entry.
  destruct value as [v|n]; [|exact Hok].
  destruct (contains (lit ".data") v || contains (lit "Texture2D") v) eqn:Hd;
    [exact Hok|].
  destruct (contains_cn_or_ru v) eqn:Hc; cbn [negb]; [|exact Hok].
  destruct (own_translation cur v) as [e|]; [exact Hok|].
  destruct (find_existing_translation_elsewhere _ _ v tm (globals st)) as [[r m] g'].
  assert (Hadd : excerpt_ok
            (<[ns := {[v]} ∪ default ∅ (untranslated_excerpt st !! ns)]>
               (untranslated_excerpt st))).
  { intros ns' w. destruct (decide (ns = ns')) as [<-|Hne].
    - rewrite lookup_insert_eq. cbn [default from_option]. unfold id.
      intros [->%elem_of_singleton|Hw]%elem_of_union.
      + unfold skipped. rewrite Hd, Hc. reflexivity.
      + apply (Hok ns), Hw.
    - rewrite lookup_insert_ne by exact Hne. apply Hok. }
  destruct r as [[|c r]|]; cbn [untranslated_excerpt]; [exact Hadd | exact Hok | exact Hadd].
Qed.

Lemma set_translated_other ns key stored t ns' :
  ns <> ns' -> set_translated ns key stored t !! ns' = t !! ns'.
Proof.
  intros Hne. unfold set_translated.
  destruct (t !! ns) as [[d|n]|]; [|reflexivity..].
  apply lookup_insert_ne, Hne.
Qed.

(** The inner loop fills the dictionary of its namespace. *)
Lemma translate_items ns cur items : forall st d0,
  translated_data st !! ns = Some (Translated d0) ->
  let st' := fold_left (translate_entry ns cur) items st in
  exists d,
    translated_data st' !! ns = Some (Translated d)
    /\ (forall k, k ∉ map fst items -> d !! k = d0 !! k)
    /\ (NoDup (map fst items) ->
        forall key v, (key, JStr v) ∈ items -> skipped v = true ->
        d !! key = Some (JStr v))
    /\ (forall ns', ns <> ns' ->
        translated_data st' !! ns' = translated_data st !! ns').
Proof.
  induction items as [|[key value] items IH]; intros st d0 Hst; cbn [fold_left].
  - exists d0. split; [exact Hst|]. split; [reflexivity|].
    split; [intros _ key v Hin; inversion Hin | reflexivity].
  - destruct (translate_entry_stores ns cur st key value) as (stored & Hstored & Hskip).
    set (st1 := translate_entry ns cur st (key, value)) in *.
    assert (Hst1 : translated_data st1 !! ns
                   = Some (Translated (<[key := stored]> d0))).
    { rewrite Hstored. unfold set_translated. rewrite Hst. apply lookup_insert_eq. }
    destruct (IH st1 _ Hst1) as (d & Hd & Hkeep & Hvals & Hother).
    exists d. split; [exact Hd|]. split; [|split].
    + intros k Hk. cbn [map fst] in Hk. apply not_elem_of_cons in Hk as [Hne Hk].
      rewrite (Hkeep k Hk). apply lookup_insert_ne. congruence.
    + intros Hnd key' v Hin Hsk. cbn [map fst] in Hnd.
      apply NoDup_cons in Hnd as [Hfresh Hnd].
      apply elem_of_cons in Hin as [Heq|Hin].
      * injection Heq as Hk Hv. subst key'.
        rewrite (Hkeep key Hfresh), lookup_insert_eq.
        f_equal. rewrite Hv. apply (Hskip v); [symmetry; exact Hv | exact Hsk].
      * apply (Hvals Hnd key' v Hin Hsk).
    + intros ns' Hne. rewrite (Hother ns' Hne), Hstored.
      apply set_translated_other, Hne.
Qed.

Lemma translate_items_excerpt ns cur items : forall st,
  excerpt_ok (untranslated_excerpt st) ->
  excerpt_ok (untranslated_excerpt (fold_left (translate_entry ns cur) items st)).
Proof.
  induction items as [|item items IH]; intros st Hok; cbn [fold_left]; [exact Hok|].
  apply IH, translate_entry_excerpt, Hok.
Qed.

Lemma translate_namespace_excerpt st ns :
  excerpt_ok (untranslated_excerpt st) ->
  excerpt_ok (untranslated_excerpt (translate_namespace st ns)).
Proof.
  intros Hok. destruct ns as [name [items|n]]; [|exact Hok].
  unfold translate_namespace, Resolver.translate_namespace.
  apply translate_items_excerpt. exact Hok.
Qed.

Lemma translate_namespace_other st ns name :
  ns.1 <> name ->
  translated_data (translate_namespace st ns) !! name = translated_data st !! name.
Proof.
  destruct ns as [name0 [items|n]]; cbn [fst]; intros Hne.
  - unfold translate_namespace, Resolver.translate_namespace.
    set (st0 := {| globals := globals st;
                   translated_data := <[name0 := Translated ∅]> (translated_data st);
                   untranslated_excerpt := untranslated_excerpt st;
                   used_translation_map := used_translation_map st |}).
    destruct (translate_items name0 (dict_get tm name0) items st0 ∅)
      as (d & _ & _ & _ & Hother).
    { apply lookup_insert_eq. }
    rewrite (Hother name Hne). apply lookup_insert_ne, Hne.
  - apply lookup_insert_ne, Hne.
Qed.

Lemma translate_namespaces_other unified : forall st name,
  name ∉ map fst unified ->
  translated_data (fold_left translate_namespace unified st) !! name
  = translated_data st !! name.
Proof.
  induction unified as [|ns unified IH]; intros st name Hn; cbn [fold_left];
    [reflexivity|].
  cbn [map] in Hn. apply not_elem_of_cons in Hn as [Hne Hn].
  rewrite (IH _ name Hn). apply translate_namespace_other. congruence.
Qed.

Lemma translate_namespaces_excerpt unified : forall st,
  excerpt_ok (untranslated_excerpt st) ->
  excerpt_ok (untranslated_excerpt (fold_left translate_namespace unified st)).
Proof.
  induction unified as [|ns unified IH]; intros st Hok; cbn [fold_left]; [exact Hok|].
  apply IH, translate_namespace_excerpt, Hok.
Qed.

End Stage.

(** C9: an entry of the unified data whose value is a string that holds
    [".data"] or ["Texture2D"], or no Chinese and no Cyrillic character,
    comes out with this value, and the value is not in the excerpt of
    untranslated strings of its namespace.  The namespaces and the keys
    of a namespace are those of dictionaries: none occurs twice. *)
Theorem skipped_values_pass_unchanged
    (s2t_convert t2s_convert : pystr -> option pystr)
    (unified_data translation_map : list (pystr * jnamespace))
    (namespace : pystr) (items : list (pystr * jvalue))
    (key value : pystr) :
  NoDup (map fst unified_data) ->
  (namespace, NsDict items) ∈ unified_data ->
  NoDup (map fst items) ->
  (key, JStr value) ∈ items ->
  skipped value = true ->
  let result :=
    translate_data_with_conditions s2t_convert t2s_convert unified_data
      translation_map in
  (exists d, translated_data result !! namespace = Some (Translated d)
             /\ d !! key = Some (JStr value))
  /\ value ∉ default ∅ (untranslated_excerpt result !! namespace).
Proof.
  intros Hnd Hns Hkeys Hitem Hskip result. split.
  - unfold result, translate_data_with_conditions.
    generalize {| globals := fresh; translated_data := ∅;
                  untranslated_excerpt := ∅; used_translation_map := ∅ |}.
    induction unified_data as [|ns unified IH]; intros st; [inversion Hns|].
    cbn [fold_left]. cbn [map] in Hnd. apply NoDup_cons in Hnd as [Hfresh Hnd].
    apply elem_of_cons in Hns as [<-|Hns].
    + rewrite translate_namespaces_other by exact Hfresh.
      unfold translate_namespace.
      set (st0 := {| globals := globals st;
                     translated_data := <[namespace := Translated ∅]> (translated_data st);
                     untranslated_excerpt := untranslated_excerpt st;
                     used_translation_map := used_translation_map st |}).
      destruct (translate_items s2t_convert t2s_convert translation_map namespace
                  (dict_get translation_map namespace) items st0 ∅)
        as (d & Hd & _ & Hvals & _).
      { apply lookup_insert_eq. }
      exists d. split; [exact Hd|]. apply Hvals; assumption.
    + apply IH; assumption.
  - intros Hin.
    assert (Hok : excerpt_ok (untranslated_excerpt result)).
    { unfold result, translate_data_with_conditions.
      apply translate_namespaces_excerpt. intros ns v. cbn.
      rewrite lookup_empty. cbn. intros H. apply not_elem_of_empty in H. contradiction. }
    apply Hok in Hin. congruence.
Qed.


Lemma skipped_values_pass_unchanged_witness :
  (exists d,
     translated_data
       (translate_data_with_conditions no_conversion no_conversion
          sample_unified damage_table) !! lit "UI" = Some (Translated d)
     /\ d !! lit "icon" = Some (JStr (lit "/Game/UI/Texture2D/" ++ [ZAO])))
  /\ lit "/Game/UI/Texture2D/" ++ [ZAO]
     ∉ default ∅ (untranslated_excerpt
                    (translate_data_with_conditions no_conversion no_conversion
                       sample_unified damage_table) !! lit "UI").
Proof.
  eapply (skipped_values_pass_unchanged no_conversion no_conversion
            sample_unified damage_table (lit "UI")).
  - apply NoDup_singleton.
  - apply list_elem_of_here.
  - apply (bool_decide_unpack _). vm_compute. exact I.
  - apply list_elem_of_here.
  - vm_compute. reflexivity.
Defined.

(** What the stage makes of the sample: the path stays, the damage
    line is adapted from the table, the unknown text stays and is
    listed. *)
Example sample_translation :
  let result :=
    translate_data_with_conditions no_conversion no_conversion
      sample_unified damage_table in
  translated_data result !! lit "UI"
  = Some (Translated
            (<[lit "icon" := JStr (lit "/Game/UI/Texture2D/" ++ [ZAO])]>
               (<[lit "hit" := JStr (lit "Deals {250} damage")]>
                  (<[lit "miss" := JStr [SHANG; HAI]]> ∅))))
  /\ untranslated_excerpt result !! lit "UI" = Some {[ [SHANG; HAI] ]}.
Proof. vm_compute. split; reflexivity. Qed.

(** *** The index, entry by entry *)

Lemma index_namespace_flat ns : forall idx,
  index_namespace idx ns
  = fold_left (fun i e => index_entry e.2 i (e.1.1, JStr e.1.2))
      (entries_of_namespace ns) idx.
Proof.
  destruct ns as [name [items|n]]; [|reflexivity].
  unfold index_namespace, entries_of_namespace. cbn [fst snd].
  induction items as [|[k v] items IH]; intros idx; [reflexivity|].
  cbn [fold_left flat_map fst snd]. rewrite IH.
  destruct v as [tr|n]; [|reflexivity].
  destruct (truthy tr) eqn:Htr; [reflexivity|].
  assert (index_entry name idx (k, JStr tr) = idx) as ->
    by (unfold index_entry; rewrite Htr; reflexivity).
  reflexivity.
Qed.

Lemma build_translation_index_flat tm :
  build_translation_index tm
  = fold_left (fun i e => index_entry e.2 i (e.1.1, JStr e.1.2))
      (entries_of tm) {| exact := ∅; pattern := ∅ |}.
Proof.
  unfold build_translation_index, entries_of.
  generalize {| exact := ∅; pattern := ∅ |}.
  induction tm as [|ns tm IH]; intros idx; [reflexivity|].
  cbn [fold_left flat_map]. rewrite fold_left_app, IH, index_namespace_flat.
  reflexivity.
Qed.

Lemma entries_of_truthy tm e : In e (entries_of tm) -> truthy e.1.2 = true.
Proof.
  unfold entries_of. intros (ns & _ & He)%in_flat_map.
  unfold entries_of_namespace in He. destruct ns.2 as [items|]; [|contradiction].
  apply in_flat_map in He as ([k v] & _ & He). cbn [fst snd] in He.
  destruct v as [tr|]; [|contradiction].
  destruct (truthy tr) eqn:Htr; [|contradiction].
  destruct He as [<-|[]]. exact Htr.
Qed.

Lemma exact_lookup_fold es : forall idx k,
  (forall e, In e es -> truthy e.1.2 = true) ->
  exact idx !! k = None ->
  List.filter (fun e => bool_decide (normalize_text_for_pattern_key e.1.1 = k)) es = [] ->
  exact (fold_left (fun i e => index_entry e.2 i (e.1.1, JStr e.1.2)) es idx) !! k
  = None.
Proof.
  induction es as [|[[src tr] ns] es IH]; intros idx k Htr Hk Hnone; [exact Hk|].
  cbn [fold_left fst snd]. cbn [List.filter fst snd] in Hnone.
  destruct (bool_decide_reflect (normalize_text_for_pattern_key src = k)) as [|Hne];
    [discriminate|].
  apply IH; [intros e He; apply Htr; right; exact He | | exact Hnone].
  pose proof (Htr (src, tr, ns) (or_introl eq_refl)) as Ht. cbn [fst snd] in Ht.
  unfold index_entry. rewrite Ht. cbn [negb].
  destruct (extract_number_pattern src) as [pk nums]. cbn [exact].
  destruct (exact idx !! normalize_text_for_pattern_key src); [exact Hk|].
  rewrite lookup_insert_ne by exact Hne. exact Hk.
Qed.

Lemma pattern_lookup_fold es : forall idx key,
  (forall e, In e es -> truthy e.1.2 = true) ->
  default [] (pattern (fold_left (fun i e => index_entry e.2 i (e.1.1, JStr e.1.2))
                         es idx) !! key)
  = default [] (pattern idx !! key) ++ List.filter (has_template key) es.
Proof.
  induction es as [|[[src tr] ns] es IH]; intros idx key Htr.
  - cbn. rewrite app_nil_r. reflexivity.
  - cbn [fold_left fst snd]. rewrite IH by (intros e He; apply Htr; right; exact He).
    pose proof (Htr (src, tr, ns) (or_introl eq_refl)) as Ht. cbn [fst snd] in Ht.
    cbn [List.filter]. unfold index_entry, has_template. cbn [fst snd].
    rewrite Ht. cbn [negb].
    destruct (extract_number_pattern src) as [pk nums]. cbn [pattern].
    destruct (truthy pk && negb (bool_decide (nums = []))); cbn [andb]; [|reflexivity].
    destruct (bool_decide_reflect (pk = key)) as [->|Hne].
    + rewrite lookup_insert_eq. cbn [default from_option]. unfold id.
      rewrite <- app_assoc. reflexivity.
    + rewrite lookup_insert_ne by exact Hne. reflexivity.
Qed.

Lemma exact_lookup tm k :
  exact_candidates tm k = [] -> exact (build_translation_index tm) !! k = None.
Proof.
  intros H. rewrite build_translation_index_flat.
  apply exact_lookup_fold; [apply entries_of_truthy | apply lookup_empty | exact H].
Qed.

Lemma pattern_lookup tm key c rest :
  pattern_candidates tm key = c :: rest ->
  pattern (build_translation_index tm) !! key = Some (c :: rest).
Proof.
  intros H. pose proof (pattern_lookup_fold (entries_of tm)
                          {| exact := ∅; pattern := ∅ |} key (entries_of_truthy tm)) as Hl.
  rewrite <- build_translation_index_flat in Hl. cbn [pattern] in Hl.
  rewrite lookup_empty in Hl. cbn [default from_option app] in Hl.
  unfold pattern_candidates in H. rewrite H in Hl.
  destruct (pattern (build_translation_index tm) !! key) as [l|]; cbn in Hl;
    [congruence | discriminate].
Qed.

(** *** One numeric token *)

Lemma in_ranges_included (D W : list (Z * Z)) :
  forallb (fun r => existsb (fun w => (w.1 <=? r.1) && (r.2 <=? w.2)) W) D = true ->
  forall c, in_ranges D c = true -> in_ranges W c = true.
Proof.
  intros Hall c Hc. unfold in_ranges in *.
  apply existsb_exists in Hc as (r & Hr & Hin).
  rewrite forallb_forall in Hall. specialize (Hall r Hr).
  apply existsb_exists in Hall as (w & Hw & Hincl).
  apply existsb_exists. exists w. split; [exact Hw|]. lia.
Qed.

(** A decimal digit is a word character. *)
Lemma is_decimal_is_word c : is_decimal c = true -> is_word c = true.
Proof. apply in_ranges_included. vm_compute. reflexivity. Qed.

Lemma match_number_nondigit c s :
  is_decimal c = false -> match_number (c :: s) = None.
Proof. intros H. unfold match_number. cbn [digits_run]. rewrite H. reflexivity. Qed.

Lemma match_number_head s n :
  match_number s = Some n ->
  exists h s', s = h :: s' /\ is_decimal h = true /\ (1 <= n)%nat.
Proof.
  unfold match_number. destruct s as [|h s']; [discriminate|].
  cbn [digits_run]. destruct (is_decimal h) eqn:Hh; [|discriminate].
  cbn [Nat.eqb]. intros [= <-]. exists h, s'. split; [reflexivity|]. split; [exact Hh | lia].
Qed.

Lemma findall_from_passes a : forall b,
  findall_from (length a) (a ++ b) = findall_from O b.
Proof.
  induction a as [|c a IH]; intros b; [reflexivity|].
  cbn [length app findall_from]. apply IH.
Qed.

Lemma findall_no_digits t0 r :
  existsb is_decimal t0 = false ->
  findall_from O (t0 ++ r) = findall_from O r.
Proof.
  induction t0 as [|c t0 IH]; [reflexivity|]. cbn [existsb].
  intros [Hc H0]%orb_false_iff. cbn [app findall_from].
  rewrite match_number_nondigit by exact Hc. apply IH, H0.
Qed.

Lemma findall_single t0 n t1 :
  existsb is_decimal t0 = false ->
  match_number (n ++ t1) = Some (length n) ->
  findall_numbers (t0 ++ n ++ t1) = n :: findall_numbers t1.
Proof.
  intros H0 Hm. unfold findall_numbers. rewrite findall_no_digits by exact H0.
  destruct (match_number_head _ _ Hm) as (h & s' & Hs & _ & Hlen).
  destruct n as [|h' n']; [simpl in Hlen; lia|].
  cbn [app] in *. cbn [findall_from]. rewrite Hm.
  change (h' :: n' ++ t1) with ((h' :: n') ++ t1) at 1. rewrite take_app_length.
  cbn [length]. replace (S (length n') - 1)%nat with (length n') by lia.
  rewrite findall_from_passes. reflexivity.
Qed.

Lemma findall_from_nonempty s : forall skip x,
  In x (findall_from skip s) -> x <> [].
Proof.
  induction s as [|c s IH]; intros skip x; [intros []|].
  cbn [findall_from]. destruct skip as [|k]; [|apply IH].
  destruct (match_number (c :: s)) as [n|] eqn:Hm; [|apply IH].
  intros [<-|Hin]; [|eapply IH; exact Hin].
  apply match_number_head in Hm as (_ & _ & _ & _ & Hn).
  destruct n; [lia|]. discriminate.
Qed.

Lemma startswith_app p s : startswith p (p ++ s) = true.
Proof.
  induction p as [|a p IH]; [reflexivity|]. cbn [app startswith].
  rewrite bool_decide_eq_true_2 by reflexivity. exact IH.
Qed.

(** The character before the end of [t0], or [prev] for an empty
    [t0]. *)
Lemma sub_word_first_no_digits (h : Z) (n' new t0 rest : pystr) :
  is_decimal h = true -> existsb is_decimal t0 = false ->
  forall prev,
  sub_word_first (h :: n') new prev (t0 ++ rest)
  = option_map (app t0)
      (sub_word_first (h :: n') new
         (match last t0 with Some x => Some x | None => prev end) rest).
Proof.
  intros Hh. induction t0 as [|c t0 IH]; intros H0 prev.
  - cbn. destruct (sub_word_first _ _ _ _); reflexivity.
  - cbn [existsb] in H0. apply orb_false_iff in H0 as [Hc H0].
    cbn [app sub_word_first startswith].
    rewrite bool_decide_eq_false_2 by congruence. cbn [andb].
    rewrite (IH H0 (Some c)).
    replace (match last (c :: t0) with Some x => Some x | None => prev end)
      with (match last t0 with Some x => Some x | None => Some c end).
    + destruct (sub_word_first _ _ _ rest); reflexivity.
    + destruct t0 as [|d t0]; [reflexivity|]. cbn [last].
      destruct (last (d :: t0)) eqn:E; [reflexivity|].
      apply last_None in E. discriminate.
Qed.

(** A token between word boundaries, the first digits of the text, is
    the one [re.sub] replaces. *)
Lemma sub_word_once_single n new t0 t1 :
  existsb is_decimal t0 = false ->
  match_number (n ++ t1) = Some (length n) ->
  is_word_opt (last t0) = false ->
  word_boundary (last n) (head t1) = true ->
  sub_word_once n new (t0 ++ n ++ t1) = t0 ++ new ++ t1.
Proof.
  intros H0 Hm Hb0 Hb1. unfold sub_word_once.
  destruct (match_number_head _ _ Hm) as (h & s' & Hs & Hh & Hlen).
  destruct n as [|h' n']; [simpl in Hlen; lia|].
  assert (h' = h) as -> by (cbn [app] in Hs; congruence).
  rewrite sub_word_first_no_digits by assumption.
  assert (Hprev : is_word_opt (match last t0 with Some x => Some x | None => None end)
                  = false) by (destruct (last t0); exact Hb0).
  set (prev := match last t0 with Some x => Some x | None => None end) in *.
  change ((h :: n') ++ t1) with (h :: (n' ++ t1)). cbn [sub_word_first].
  change (h :: n' ++ t1) with ((h :: n') ++ t1).
  rewrite startswith_app, drop_app_length, Hb1.
  unfold word_boundary at 1. rewrite Hprev. cbn [is_word_opt].
  rewrite (is_decimal_is_word h Hh). cbn [xorb andb option_map default from_option].
  reflexivity.
Qed.

Lemma has_template_key key e :
  has_template key e = true ->
  (extract_number_pattern e.1.1).1 = key /\ truthy key = true.
Proof.
  unfold has_template. destruct (extract_number_pattern e.1.1) as [pk nums].
  intros [[Hpk _]%andb_true_iff Hk%bool_decide_eq_true]%andb_true_iff.
  subst key. split; [reflexivity | exact Hpk].
Qed.




(** A token that ends in [%] and is followed by a space has no word
    boundary after it: the translation is returned with the number of
    the table. *)
Example percent_token_is_not_replaced :
  (find_existing_translation_elsewhere no_conversion no_conversion
     (percent_source "75%") percent_table fresh).1
  = (Some (lit "Deals 50% damage"), Some pattern_original_fully_normalized_pattern).
Proof. vm_compute. reflexivity. Qed.

(** Substitutions are made one after the other, each in the text the
    earlier ones have left. *)
Example later_substitution_hits_earlier_one :
  replace_numbers_in_translation (lit "x 200 y 300") (lit "x 1 y 2")
    (lit "Deals 100 to 200")
  = Some (lit "Deals 300 to 200").
Proof. vm_compute. reflexivity. Qed.

(** *** What the index holds *)

Lemma exact_fold_first es : forall idx k,
  (forall e, In e es -> truthy e.1.2 = true) ->
  exact (fold_left (fun i e => index_entry e.2 i (e.1.1, JStr e.1.2)) es idx) !! k
  = match exact idx !! k with
    | Some t => Some t
    | None =>
        option_map (fun e : pystr * pystr * pystr => e.1.2)
          (head (List.filter
                   (fun e => bool_decide (normalize_text_for_pattern_key e.1.1 = k)) es))
    end.
Proof.
  induction es as [|[[src tr] ns] es IH]; intros idx k Htr.
  - cbn. destruct (exact idx !! k); reflexivity.
  - cbn [fold_left fst snd]. rewrite IH by (intros e He; apply Htr; right; exact He).
    pose proof (Htr (src, tr, ns) (or_introl eq_refl)) as Ht. cbn [fst snd] in Ht.
    cbn [List.filter fst snd].
    unfold index_entry. rewrite Ht. cbn [negb].
    destruct (extract_number_pattern src) as [pk nums]. cbn [exact].
    destruct (bool_decide_reflect (normalize_text_for_pattern_key src = k)) as [Heq|Hne].
    + subst k.
      destruct (exact idx !! normalize_text_for_pattern_key src) as [t|] eqn:E;
        cbv beta iota.
      * rewrite E. reflexivity.
      * rewrite lookup_insert_eq. reflexivity.
    + destruct (exact idx !! normalize_text_for_pattern_key src) as [t|] eqn:E;
        cbv beta iota.
      * reflexivity.
      * rewrite lookup_insert_ne by exact Hne. reflexivity.
Qed.

Lemma pattern_lookup_candidates tm key :
  default [] (pattern (build_translation_index tm) !! key) = pattern_candidates tm key.
Proof.
  pose proof (pattern_lookup_fold (entries_of tm)
                {| exact := ∅; pattern := ∅ |} key (entries_of_truthy tm)) as Hl.
  rewrite <- build_translation_index_flat in Hl. cbn [pattern] in Hl.
  rewrite lookup_empty in Hl. exact Hl.
Qed.

Lemma exact_lookup_first tm k :
  exact (build_translation_index tm) !! k
  = option_map (fun e : pystr * pystr * pystr => e.1.2) (head (exact_candidates tm k)).
Proof.
  rewrite build_translation_index_flat, exact_fold_first by apply entries_of_truthy.
  cbn [exact]. rewrite lookup_empty. reflexivity.
Qed.

(** X19: the exact index holds, under a normalized source text, the
    translation of the first entry of the table with this normalized
    source (entries without a non-empty string translation do not
    count); the pattern index holds, under a template, the entries of
    this template in the order of the table. *)
Theorem index_holds_first_translation
    (translation_map : list (pystr * jnamespace)) (k : pystr) :
  exact (build_translation_index translation_map) !! k
  = option_map (fun e : pystr * pystr * pystr => e.1.2)
      (head (exact_candidates translation_map k))
  /\ default [] (pattern (build_translation_index translation_map) !! k)
     = pattern_candidates translation_map k.
Proof. split; [apply exact_lookup_first | apply pattern_lookup_candidates]. Qed.

(** X20: for a non-empty text that the session cache does not hold, with
    the index still to be built: when the table has entries whose
    normalized source is the normalized text, the call returns the
    translation of the first of them, found by the exact step. *)
Theorem exact_step_returns_first_entry
    (s2t_convert t2s_convert : pystr -> option pystr)
    (translation_map : list (pystr * jnamespace)) (g : session)
    (requested source translation namespace : pystr)
    (others : list (pystr * pystr * pystr)) :
  truthy requested = true ->
  SESSION_CROSS_NAMESPACE_TRANSLATIONS_CACHE g !! requested = None ->
  TRANSLATION_MAP_INDEX g = None ->
  exact_candidates translation_map (normalize_text_for_pattern_key requested)
  = (source, translation, namespace) :: others ->
  (find_existing_translation_elsewhere s2t_convert t2s_convert requested
     translation_map g).1
  = (Some translation, Some exact_global_fully_normalized).
Proof.
  intros Hreq Hcache Hidx Hex. unfold find_existing_translation_elsewhere.
  rewrite Hreq, Hcache, Hidx. cbn [negb fst]. unfold resolve.
  rewrite exact_lookup_first, Hex. reflexivity.
Qed.

Lemma exact_step_returns_first_entry_witness :
  (find_existing_translation_elsewhere no_conversion no_conversion
     ([LF] ++ damage_source "100" ++ [CR; LF]) damage_table fresh).1
  = (Some (lit "Deals {100} damage"), Some exact_global_fully_normalized).
Proof.
  apply (exact_step_returns_first_entry no_conversion no_conversion damage_table fresh
           ([LF] ++ damage_source "100" ++ [CR; LF]) (damage_source "100")
           (lit "Deals {100} damage") (lit "Skill") []).
  - reflexivity.
  - reflexivity.
  - reflexivity.
  - vm_compute. reflexivity.
Defined.

(** *** The pattern step on a converted variant *)

Lemma replace_numbers_same_template a b t r :
  replace_numbers_in_translation a b t = Some r ->
  (extract_number_pattern a).1 = (extract_number_pattern b).1.
Proof.
  unfold replace_numbers_in_translation.
  destruct (extract_number_pattern a) as [pa na].
  destruct (extract_number_pattern b) as [pb nb].
  destruct (extract_number_pattern t) as [pt nt]. cbn [fst].
  destruct (bool_decide_reflect (pa = pb)) as [->|]; cbn [negb]; [reflexivity | discriminate].
Qed.

Lemma first_adapted_template requested cands r :
  first_adapted requested cands = Some r ->
  exists e, In e cands
    /\ (extract_number_pattern requested).1 = (extract_number_pattern e.1.1).1.
Proof.
  induction cands as [|[[src tr] ns] cands IH]; cbn [first_adapted]; [discriminate|].
  destruct (replace_numbers_in_translation requested src tr) as [a|] eqn:E.
  - destruct (truthy a).
    + intros _. exists (src, tr, ns). split; [left; reflexivity|].
      eapply replace_numbers_same_template. exact E.
    + intros H. destruct (IH H) as (e & He & Hp). exists e. split; [right; exact He | exact Hp].
  - intros H. destruct (IH H) as (e & He & Hp). exists e. split; [right; exact He | exact Hp].
Qed.

Lemma pattern_candidates_template tm key cands e :
  pattern (build_translation_index tm) !! key = Some cands -> In e cands ->
  (extract_number_pattern e.1.1).1 = key.
Proof.
  intros Hl He. pose proof (pattern_lookup_candidates tm key) as Hc.
  rewrite Hl in Hc. cbn [default from_option] in Hc. unfold id in Hc.
  rewrite Hc in He. unfold pattern_candidates in He.
  apply filter_In in He as [_ He]. apply has_template_key in He. apply He.
Qed.

Lemma resolve_variants_no_pattern tm requested :
  let idx := build_translation_index tm in
  let key := (extract_number_pattern requested).1 in
  let numbers := (extract_number_pattern requested).2 in
  (if truthy key && negb (bool_decide (numbers = []))
   then match pattern idx !! key with
        | Some candidates => first_adapted requested candidates
        | None => None
        end
   else None) = None ->
  forall variants,
  (resolve_variants idx requested numbers variants).2
  <> Some st_pattern_fully_normalized_pattern.
Proof.
  intros idx key numbers Hstep variants.
  induction variants as [|v variants IH]; cbn [resolve_variants]; [discriminate|].
  destruct (bool_decide (v = requested)); cbn [negb]; [exact IH|].
  destruct (exact idx !! normalize_text_for_pattern_key v); [discriminate|].
  set (kv := (extract_number_pattern v).1).
  destruct (truthy kv && negb (bool_decide (numbers = []))) eqn:Hc; [|exact IH].
  destruct (pattern idx !! kv) as [cands|] eqn:Hl; [|exact IH].
  destruct (first_adapted requested cands) as [a|] eqn:Ha; [|exact IH].
  exfalso.
  destruct (first_adapted_template _ _ _ Ha) as (e & He & Hp).
  pose proof (pattern_candidates_template tm kv cands e Hl He) as Hk.
  assert (Hkey : key = kv) by (unfold key; congruence).
  rewrite Hkey, Hc, Hl, Ha in Hstep. discriminate.
Qed.

(** X21: on the index of a table the resolution procedure never
    returns by the pattern step of a converted variant: that step adapts
    candidates to the text as it was requested, which succeeds only for
    candidates of the text's own template, and these were tried
    before. *)
Theorem converted_pattern_step_never_succeeds
    (s2t_convert t2s_convert : pystr -> option pystr)
    (translation_map : list (pystr * jnamespace)) (requested : pystr) :
  (resolve s2t_convert t2s_convert (build_translation_index translation_map)
     requested).2
  <> Some st_pattern_fully_normalized_pattern
  /\ (find_existing_translation_elsewhere s2t_convert t2s_convert requested
        translation_map fresh).1.2
     <> Some st_pattern_fully_normalized_pattern.
Proof.
  assert (Hres : (resolve s2t_convert t2s_convert
                    (build_translation_index translation_map) requested).2
                 <> Some st_pattern_fully_normalized_pattern).
  { unfold resolve.
    destruct (exact _ !! normalize_text_for_pattern_key requested); [discriminate|].
    pose proof (resolve_variants_no_pattern translation_map requested) as Hv.
    cbv zeta in Hv.
    destruct (extract_number_pattern requested) as [key numbers]. cbn [fst snd] in Hv.
    destruct (if truthy key && negb (bool_decide (numbers = []))
              then match pattern (build_translation_index translation_map) !! key with
                   | Some candidates => first_adapted requested candidates
                   | None => None
                   end
              else None) as [a|] eqn:Hstep; [discriminate|].
    destruct (get_opencc_conversions s2t_convert t2s_convert requested) as [tr si].
    apply Hv. reflexivity. }
  split; [exact Hres|].
  unfold find_existing_translation_elsewhere.
  destruct (truthy requested); cbn [negb]; [|discriminate].
  cbn [fresh SESSION_CROSS_NAMESPACE_TRANSLATIONS_CACHE TRANSLATION_MAP_INDEX].
  rewrite lookup_empty. cbn [fst]. exact Hres.
Qed.

(** *** Templates and tokens *)

Lemma match_number_digit c s : is_decimal c = true -> is_Some (match_number (c :: s)).
Proof.
  intros H. unfold match_number. cbn [digits_run]. rewrite H. cbn [Nat.eqb]. eauto.
Qed.

Lemma sub_from_no_digits repl : existsb is_decimal repl = false ->
  forall s skip, existsb is_decimal (sub_from repl skip s) = false.
Proof.
  intros Hr. induction s as [|c s IH]; intros skip; cbn [sub_from]; [reflexivity|].
  destruct skip as [|k]; [|apply IH].
  destruct (match_number (c :: s)) as [n|] eqn:E.
  - rewrite existsb_app, Hr, IH. reflexivity.
  - cbn [existsb]. rewrite IH, orb_false_r.
    destruct (is_decimal c) eqn:Hc; [|reflexivity].
    destruct (match_number_digit c s Hc) as [n Hn]. congruence.
Qed.

Lemma findall_from_heads s : forall skip x,
  In x (findall_from skip s) -> exists h t, x = h :: t /\ is_decimal h = true.
Proof.
  induction s as [|c s IH]; intros skip x; cbn [findall_from]; [contradiction|].
  destruct skip as [|k]; [|apply IH].
  destruct (match_number (c :: s)) as [n|] eqn:E; [|apply IH].
  intros [<-|H]; [|eapply IH; exact H].
  apply match_number_head in E as (h & s' & [= -> ->] & Hh & Hn).
  destruct n as [|n]; [lia|]. cbn [take]. eauto.
Qed.

(** X22: the template of a text holds no decimal digit, and every
    numeric token extracted from a text starts with a decimal digit. *)
Theorem template_has_no_digits (original_text : pystr) :
  existsb is_decimal (extract_number_pattern original_text).1 = false
  /\ Forall (fun number => exists h t, number = h :: t /\ is_decimal h = true)
       (extract_number_pattern original_text).2.
Proof.
  unfold extract_number_pattern. cbn [fst snd]. split.
  - apply sub_from_no_digits. reflexivity.
  - apply Forall_forall. intros x Hx%list_elem_of_In. eapply findall_from_heads. exact Hx.
Qed.

(** *** Keys that differ in their line endings *)

Lemma normalize_text_for_pattern_key_to_lf text :
  normalize_text_for_pattern_key text
  = strip (collapse_newlines
             (replace (lit "<RTP_Default></>") [] (Hashes.to_lf text))).
Proof.
  unfold normalize_text_for_pattern_key.
  rewrite HashFacts.replace_crlf_cr_is_to_lf. reflexivity.
Qed.

(** X23: the normalized form of a key does not depend on the style of
    its line endings: a text rewritten with CR LF or with LF endings,
    and any text with the same LF form, has the same normalized form. *)
Theorem pattern_key_ignores_line_ending_style (text : pystr) :
  normalize_text_for_pattern_key (Hashes.to_crlf text)
  = normalize_text_for_pattern_key text
  /\ normalize_text_for_pattern_key (Hashes.to_lf text)
     = normalize_text_for_pattern_key text
  /\ forall text', Hashes.to_lf text' = Hashes.to_lf text ->
       normalize_text_for_pattern_key text' = normalize_text_for_pattern_key text.
Proof.
  rewrite !normalize_text_for_pattern_key_to_lf.
  rewrite HashFacts.to_lf_of_to_crlf, HashFacts.to_lf_idem.
  split; [reflexivity|]. split; [reflexivity|].
  intros text' H. rewrite normalize_text_for_pattern_key_to_lf, H. reflexivity.
Qed.

(** *** The stage, entry by entry *)

Section PlainStage.

Variable s2t_convert t2s_convert : pystr -> option pystr.
Variable tm : list (pystr * jnamespace).

Local Abbreviation find := (find_existing_translation_elsewhere s2t_convert t2s_convert).
Local Abbreviation translate_entry := (translate_entry s2t_convert t2s_convert tm).
Local Abbreviation translate_namespace := (translate_namespace s2t_convert t2s_convert tm).
Local Abbreviation session_ok := (session_ok s2t_convert t2s_convert tm).
Local Abbreviation translation_of := (translation_of s2t_convert t2s_convert tm).
Local Abbreviation final_value := (final_value s2t_convert t2s_convert tm).
Local Abbreviation excerpt_after := (excerpt_after s2t_convert t2s_convert tm).
Local Abbreviation resolve := (resolve s2t_convert t2s_convert).

Lemma session_ok_fresh : session_ok fresh.
Proof.
  split; [discriminate|]. intros s r. cbn. rewrite lookup_empty. discriminate.
Qed.

Lemma find_session_ok s g :
  session_ok g -> truthy s = true ->
  (find s tm g).1 = resolve (build_translation_index tm) s
  /\ session_ok (find s tm g).2.
Proof.
  intros [Hidx Hcache] Hs. unfold find_existing_translation_elsewhere.
  rewrite Hs. cbn [negb].
  destruct (SESSION_CROSS_NAMESPACE_TRANSLATIONS_CACHE g !! s) as [r|] eqn:E; cbn [fst snd].
  - split; [apply Hcache, E | split; assumption].
  - assert (Hi : match TRANSLATION_MAP_INDEX g with
                 | Some idx => idx
                 | None => build_translation_index tm
                 end = build_translation_index tm).
    { destruct (TRANSLATION_MAP_INDEX g) as [idx|] eqn:Ei; [apply Hidx, eq_refl | reflexivity]. }
    rewrite Hi. split; [reflexivity|]. split.
    + cbn. intros idx [= <-]. reflexivity.
    + cbn. intros s' r'. destruct (decide (s = s')) as [->|Hne].
      * rewrite lookup_insert_eq. intros [= <-]. reflexivity.
      * rewrite lookup_insert_ne by exact Hne. apply Hcache.
Qed.

Lemma contains_cn_or_ru_nonempty v : contains_cn_or_ru v = true -> truthy v = true.
Proof. destruct v; [discriminate | reflexivity]. Qed.

Lemma translate_entry_final ns st key value :
  session_ok (globals st) ->
  let st' := translate_entry ns (dict_get tm ns) st (key, value) in
  session_ok (globals st')
  /\ translated_data st'
     = set_translated ns key (final_value ns value) (translated_data st)
  /\ untranslated_excerpt st' = excerpt_after ns value (untranslated_excerpt st).
Proof.
  intros Hok. unfold Resolver.translate_entry, Resolver.final_value, excerpt_after, skipped.
  destruct value as [v|n]; [|auto].
  destruct (contains (lit ".data") v || contains (lit "Texture2D") v) eqn:Hd;
    cbn [orb negb andb]; [auto|].
  destruct (contains_cn_or_ru v) eqn:Hc; cbn [negb andb]; [|auto].
  unfold Resolver.translation_of.
  destruct (own_translation (dict_get tm ns) v) as [e|] eqn:Hown.
  { rewrite bool_decide_eq_false_2 by discriminate. auto. }
  destruct (find_session_ok v (globals st) Hok (contains_cn_or_ru_nonempty v Hc))
    as [Hres Hok'].
  destruct (find v tm (globals st)) as [[r m] g'] eqn:Hf. cbn [fst snd] in Hres, Hok'.
  rewrite <- Hres. cbn [fst].
  destruct r as [[|c r]|]; cbn [globals translated_data untranslated_excerpt].
  - rewrite bool_decide_eq_true_2 by reflexivity. auto.
  - rewrite bool_decide_eq_false_2 by discriminate. auto.
  - rewrite bool_decide_eq_true_2 by reflexivity. auto.
Qed.

Lemma excerpt_after_other ns value x ns' :
  ns <> ns' -> excerpt_after ns value x !! ns' = x !! ns'.
Proof.
  intros Hne. unfold Resolver.excerpt_after. destruct value as [v|n]; [|reflexivity].
  destruct (_ && _); [|reflexivity]. apply lookup_insert_ne, Hne.
Qed.

Lemma excerpt_after_elem ns value x w :
  w ∈ default ∅ (excerpt_after ns value x !! ns)
  <-> w ∈ default ∅ (x !! ns)
      \/ (value = JStr w /\ skipped w = false /\ translation_of ns w = None).
Proof.
  unfold Resolver.excerpt_after. destruct value as [v|n].
  - destruct (skipped v) eqn:Hs; cbn [negb andb].
    + split; [auto|]. intros [H|([= ->] & Hs' & _)]; [exact H | congruence].
    + destruct (bool_decide_reflect (translation_of ns v = None)) as [Ht|Ht].
      * rewrite lookup_insert_eq. cbn [default from_option]. unfold id.
        rewrite elem_of_union, elem_of_singleton. split.
        -- intros [->|H]; [right; auto | left; exact H].
        -- intros [H|([= ->] & _)]; [right; exact H | left; reflexivity].
      * split; [auto|]. intros [H|([= ->] & _ & Ht')]; [exact H | contradiction].
  - split; [auto|]. intros [H|(Hv & _)]; [exact H | discriminate].
Qed.

Lemma excerpt_fold_other ns items : forall x ns',
  ns <> ns' ->
  fold_left (fun x (item : pystr * jvalue) => excerpt_after ns item.2 x) items x !! ns'
  = x !! ns'.
Proof.
  induction items as [|item items IH]; intros x ns' Hne; cbn [fold_left]; [reflexivity|].
  rewrite IH by exact Hne. apply excerpt_after_other, Hne.
Qed.

Lemma excerpt_fold_elem ns items w : forall x,
  w ∈ default ∅ (fold_left (fun x (item : pystr * jvalue) => excerpt_after ns item.2 x)
                   items x !! ns)
  <-> w ∈ default ∅ (x !! ns)
      \/ ((exists key, (key, JStr w) ∈ items)
          /\ skipped w = false /\ translation_of ns w = None).
Proof.
  induction items as [|[key value] items IH]; intros x; cbn [fold_left snd].
  - split; [auto|]. intros [H|([k Hk] & _)]; [exact H | inversion Hk].
  - rewrite IH, excerpt_after_elem. split.
    + intros [[H|(-> & Hs & Ht)]|([k Hk] & Hs & Ht)]; [auto| |].
      * right. split; [exists key; left | auto].
      * right. split; [exists k; right; exact Hk | auto].
    + intros [H|([k Hk] & Hs & Ht)]; [auto|].
      apply elem_of_cons in Hk as [[= -> ->]|Hk]; [auto|].
      right. split; [eauto | auto].
Qed.

(** The inner loop, entry by entry. *)
Lemma translate_items_final ns items : forall st d0,
  session_ok (globals st) ->
  translated_data st !! ns = Some (Translated d0) ->
  let st' := fold_left (translate_entry ns (dict_get tm ns)) items st in
  session_ok (globals st')
  /\ (exists d,
        translated_data st' !! ns = Some (Translated d)
        /\ (forall k, k ∉ map fst items -> d !! k = d0 !! k)
        /\ (forall k, k ∈ map fst items -> is_Some (d !! k))
        /\ (NoDup (map fst items) ->
            forall key value, (key, value) ∈ items ->
            d !! key = Some (final_value ns value)))
  /\ (forall ns', ns <> ns' ->
        translated_data st' !! ns' = translated_data st !! ns')
  /\ untranslated_excerpt st'
     = fold_left (fun x (item : pystr * jvalue) => excerpt_after ns item.2 x) items
         (untranslated_excerpt st).
Proof.
  induction items as [|[key value] items IH]; intros st d0 Hok Hst; cbn [fold_left].
  - split; [exact Hok|]. split; [|split; reflexivity].
    exists d0. split; [exact Hst|]. split; [reflexivity|].
    split; [intros k Hk; inversion Hk | intros _ k v Hin; inversion Hin].
  - destruct (translate_entry_final ns st key value Hok) as (Hok1 & Hdata & Hex).
    set (st1 := translate_entry ns (dict_get tm ns) st (key, value)) in *.
    assert (Hst1 : translated_data st1 !! ns
                   = Some (Translated (<[key := final_value ns value]> d0))).
    { rewrite Hdata. unfold set_translated. rewrite Hst. apply lookup_insert_eq. }
    destruct (IH st1 _ Hok1 Hst1) as (Hok' & (d & Hd & Hkeep & Hdom & Hvals) & Hother & Hex').
    split; [exact Hok'|]. split; [|split].
    + exists d. split; [exact Hd|]. split; [|split].
      * intros k Hk. cbn [map fst] in Hk. apply not_elem_of_cons in Hk as [Hne Hk].
        rewrite (Hkeep k Hk). apply lookup_insert_ne. congruence.
      * intros k Hk. cbn [map fst] in Hk.
        destruct (decide (k ∈ map fst items)) as [Hin|Hout]; [apply Hdom, Hin|].
        rewrite (Hkeep k Hout). apply elem_of_cons in Hk as [->|Hk]; [|contradiction].
        rewrite lookup_insert_eq. eauto.
      * intros Hnd key' v Hin. cbn [map fst] in Hnd.
        apply NoDup_cons in Hnd as [Hfresh Hnd].
        apply elem_of_cons in Hin as [Heq|Hin].
        -- injection Heq as -> ->.
           rewrite (Hkeep key Hfresh), lookup_insert_eq. reflexivity.
        -- apply (Hvals Hnd key' v Hin).
    + intros ns' Hne. rewrite (Hother ns' Hne), Hdata.
      apply set_translated_other, Hne.
    + rewrite Hex', Hex. reflexivity.
Qed.

Lemma translate_namespace_session st ns :
  session_ok (globals st) -> session_ok (globals (translate_namespace st ns)).
Proof.
  intros Hok. destruct ns as [name [items|n]]; [|exact Hok].
  unfold Resolver.translate_namespace.
  eapply (translate_items_final name items _ ∅); [exact Hok | apply lookup_insert_eq].
Qed.

Lemma translate_namespace_excerpt_other st ns name :
  session_ok (globals st) -> ns.1 <> name ->
  untranslated_excerpt (translate_namespace st ns) !! name
  = untranslated_excerpt st !! name.
Proof.
  destruct ns as [name0 [items|n]]; cbn [fst]; intros Hok Hne; [|reflexivity].
  unfold Resolver.translate_namespace.
  set (st0 := {| globals := globals st;
                 translated_data := <[name0 := Translated ∅]> (translated_data st);
                 untranslated_excerpt := untranslated_excerpt st;
                 used_translation_map := used_translation_map st |}).
  destruct (translate_items_final name0 items st0 ∅) as (_ & _ & _ & Hex);
    [exact Hok | apply lookup_insert_eq |].
  rewrite Hex. apply excerpt_fold_other, Hne.
Qed.

Lemma translate_namespaces_session unified : forall st,
  session_ok (globals st) ->
  session_ok (globals (fold_left translate_namespace unified st)).
Proof.
  induction unified as [|ns unified IH]; intros st Hok; cbn [fold_left]; [exact Hok|].
  apply IH, translate_namespace_session, Hok.
Qed.

Lemma translate_namespaces_excerpt_other unified : forall st name,
  session_ok (globals st) -> name ∉ map fst unified ->
  untranslated_excerpt (fold_left translate_namespace unified st) !! name
  = untranslated_excerpt st !! name.
Proof.
  induction unified as [|ns unified IH]; intros st name Hok Hn; cbn [fold_left];
    [reflexivity|].
  cbn [map] in Hn. apply not_elem_of_cons in Hn as [Hne Hn].
  rewrite (IH _ name (translate_namespace_session st ns Hok) Hn).
  apply translate_namespace_excerpt_other; [exact Hok | congruence].
Qed.

Lemma translate_namespaces_final unified : forall st,
  session_ok (globals st) -> NoDup (map fst unified) ->
  forall ns items, (ns, NsDict items) ∈ unified -> NoDup (map fst items) ->
  untranslated_excerpt st !! ns = None ->
  let st' := fold_left translate_namespace unified st in
  exists d,
    translated_data st' !! ns = Some (Translated d)
    /\ (forall key value, (key, value) ∈ items ->
          d !! key = Some (final_value ns value))
    /\ (forall key, is_Some (d !! key) <-> key ∈ map fst items)
    /\ (forall w, w ∈ default ∅ (untranslated_excerpt st' !! ns)
          <-> (exists key, (key, JStr w) ∈ items)
              /\ skipped w = false /\ translation_of ns w = None).
Proof.
  induction unified as [|head unified IH]; intros st Hok Hnd ns items Hns Hkeys Hex;
    [inversion Hns|].
  cbn [fold_left]. cbn [map] in Hnd. apply NoDup_cons in Hnd as [Hfresh Hnd].
  apply elem_of_cons in Hns as [<-|Hns].
  - cbn [fst] in Hfresh.
    pose proof (translate_namespace_session st (ns, NsDict items) Hok) as Hok1.
    rewrite (translate_namespaces_other s2t_convert t2s_convert tm) by exact Hfresh.
    rewrite translate_namespaces_excerpt_other by assumption.
    unfold Resolver.translate_namespace.
    set (st0 := {| globals := globals st;
                   translated_data := <[ns := Translated ∅]> (translated_data st);
                   untranslated_excerpt := untranslated_excerpt st;
                   used_translation_map := used_translation_map st |}).
    destruct (translate_items_final ns items st0 ∅)
      as (_ & (d & Hd & Hkeep & Hdom & Hvals) & _ & Hx);
      [exact Hok | apply lookup_insert_eq |].
    exists d. split; [exact Hd|]. split; [apply Hvals, Hkeys|]. split.
    + intros key. split; [|apply Hdom].
      intros Hsome. destruct (decide (key ∈ map fst items)) as [Hin|Hout]; [exact Hin|].
      rewrite (Hkeep key Hout), lookup_empty in Hsome. destruct Hsome as [? [=]].
    + intros w. rewrite Hx, excerpt_fold_elem. cbn [untranslated_excerpt st0].
      rewrite Hex. cbn [default from_option]. unfold id. split.
      * intros [H|H]; [apply elem_of_empty in H; contradiction | exact H].
      * auto.
  - assert (Hne : head.1 <> ns).
    { intros <-. apply Hfresh. apply list_elem_of_fmap.
      exists (head.1, NsDict items). split; [reflexivity | exact Hns]. }
    apply IH; [apply translate_namespace_session, Hok | exact Hnd | exact Hns
              | exact Hkeys |].
    rewrite translate_namespace_excerpt_other by assumption. exact Hex.
Qed.

End PlainStage.

(** X24: the caches of the stage do not show in its result.  For a
    namespace of the unified data that is a dictionary, the output holds
    exactly the keys of the input; every entry comes out with the value
    that depends on its namespace, its value and the table only: a value
    that is not a string, or is skipped, as it is, another one replaced
    by the translation of the namespace's own dictionary or else by the
    one the resolution procedure finds, or left as it is when there is
    none.  The excerpt of the namespace holds exactly the values that
    are not skipped and have no translation. *)
Theorem translation_stage_is_cache_free
    (s2t_convert t2s_convert : pystr -> option pystr)
    (unified_data translation_map : list (pystr * jnamespace))
    (namespace : pystr) (items : list (pystr * jvalue)) :
  NoDup (map fst unified_data) ->
  (namespace, NsDict items) ∈ unified_data ->
  NoDup (map fst items) ->
  let result :=
    translate_data_with_conditions s2t_convert t2s_convert unified_data
      translation_map in
  exists d,
    translated_data result !! namespace = Some (Translated d)
    /\ (forall key value, (key, value) ∈ items ->
          d !! key
          = Some (final_value s2t_convert t2s_convert translation_map namespace value))
    /\ (forall key, is_Some (d !! key) <-> key ∈ map fst items)
    /\ (forall w,
          w ∈ default ∅ (untranslated_excerpt result !! namespace)
          <-> (exists key, (key, JStr w) ∈ items)
              /\ skipped w = false
              /\ translation_of s2t_convert t2s_convert translation_map namespace w
                 = None).
Proof.
  intros Hnd Hns Hkeys. unfold translate_data_with_conditions.
  apply translate_namespaces_final; try assumption.
  - apply session_ok_fresh.
  - apply lookup_empty.
Qed.

Lemma translation_stage_is_cache_free_witness :
  exists d,
    translated_data
      (translate_data_with_conditions no_conversion no_conversion
         sample_unified damage_table) !! lit "UI" = Some (Translated d)
    /\ d !! lit "hit" = Some (JStr (lit "Deals {250} damage"))
    /\ d !! lit "miss" = Some (JStr [SHANG; HAI]).
Proof.
  destruct (translation_stage_is_cache_free no_conversion no_conversion
              sample_unified damage_table (lit "UI")
              [(lit "icon", JStr (lit "/Game/UI/Texture2D/" ++ [ZAO]));
               (lit "hit", JStr (damage_source "250"));
               (lit "miss", JStr [SHANG; HAI])])
    as (d & Hd & Hvals & _).
  - apply NoDup_singleton.
  - apply list_elem_of_here.
  - apply (bool_decide_unpack _). vm_compute. exact I.
  - exists d. split; [exact Hd|]. split.
    + rewrite (Hvals (lit "hit") (JStr (damage_source "250")))
        by (apply list_elem_of_further, list_elem_of_here).
      vm_compute. reflexivity.
    + rewrite (Hvals (lit "miss") (JStr [SHANG; HAI]))
        by (do 2 apply list_elem_of_further; apply list_elem_of_here).
      vm_compute. reflexivity.
Defined.

(** *** Texts in Latin script *)

Lemma below_cyrillic_not_cn_or_ru v :
  Forall (fun c => c < 1024) v -> contains_cn_or_ru v = false.
Proof.
  intros Hv. unfold contains_cn_or_ru.
  assert (Hno : forall ranges,
            forallb (fun r : Z * Z => 1024 <=? r.1) ranges = true ->
            existsb (in_ranges ranges) v = false).
  { intros ranges Hr. induction Hv as [|c v Hc Hv IH]; [reflexivity|].
    cbn [existsb]. rewrite IH, orb_false_r. unfold in_ranges.
    apply not_true_is_false. intros (r & Hin & Hb)%existsb_exists.
    rewrite forallb_forall in Hr. specialize (Hr r Hin). lia. }
  rewrite !Hno by reflexivity. reflexivity.
Qed.

Lemma existsb_in_range (ranges : list (Z * Z)) lo hi (v : pystr) c :
  In (lo, hi) ranges -> In c v -> lo <= c <= hi ->
  existsb (in_ranges ranges) v = true.
Proof.
  intros Hr Hc Hb. apply existsb_exists. exists c. split; [exact Hc|].
  unfold in_ranges. apply existsb_exists. exists (lo, hi). split; [exact Hr|].
  cbn [fst snd]. lia.
Qed.

(** X25: [contains_cn_or_ru] is false for a text all of whose characters
    are below U+0400 (ASCII, Latin, Greek), so that the stage skips it;
    and it is true as soon as the text holds a CJK unified ideograph
    (U+4E00 to U+9FFF) or a character of the Cyrillic block (U+0400 to
    U+04FF). *)
Theorem contains_cn_or_ru_by_script (text : pystr) :
  (Forall (fun c => c < 1024) text ->
   contains_cn_or_ru text = false /\ skipped text = true)
  /\ (forall c, In c text ->
        19968 <= c <= 40959 \/ 1024 <= c <= 1279 ->
        contains_cn_or_ru text = true).
Proof.
  split.
  - intros H. pose proof (below_cyrillic_not_cn_or_ru text H) as Hc.
    split; [exact Hc|]. unfold skipped. rewrite Hc. apply orb_true_r.
  - intros c Hc Hr. unfold contains_cn_or_ru. destruct Hr as [Hr|Hr].
    + rewrite (existsb_in_range chinese_ranges 19968 40959 text c); [reflexivity| |exact Hc|exact Hr].
      left. reflexivity.
    + rewrite (existsb_in_range cyrillic_ranges 1024 1279 text c);
        [rewrite orb_true_r; reflexivity | | exact Hc | exact Hr].
      left. reflexivity.
Qed.

Lemma contains_cn_or_ru_by_script_witness :
  skipped (lit "Menu 3/5: OK") = true
  /\ contains_cn_or_ru (lit "Lv." ++ [ZAO]) = true.
Proof.
  destruct (contains_cn_or_ru_by_script (lit "Menu 3/5: OK")) as [Hlatin _].
  destruct (contains_cn_or_ru_by_script (lit "Lv." ++ [ZAO])) as [_ Hcn].
  split.
  - apply Hlatin. repeat constructor.
  - apply (Hcn ZAO); [simpl; tauto | unfold ZAO; lia].
Defined.

(** *** The cache of the pattern function, call by call *)

(** X26: the cache of the pattern function does not show: with a cache
    that holds results of the function only, a call returns what the
    function computes, leaves such a cache, stores its result and keeps
    what the cache held. *)
Theorem pattern_cache_is_transparent
    (PATTERN_CACHE : gmap pystr (pystr * list pystr)) (original_text : pystr) :
  pattern_cache_ok PATTERN_CACHE ->
  (extract_number_pattern_cached PATTERN_CACHE original_text).1
  = extract_number_pattern original_text
  /\ pattern_cache_ok (extract_number_pattern_cached PATTERN_CACHE original_text).2
  /\ (extract_number_pattern_cached PATTERN_CACHE original_text).2 !! original_text
     = Some (extract_number_pattern original_text)
  /\ forall t r, PATTERN_CACHE !! t = Some r ->
       (extract_number_pattern_cached PATTERN_CACHE original_text).2 !! t = Some r.
Proof.
  intros Hc. unfold extract_number_pattern_cached.
  destruct (PATTERN_CACHE !! original_text) as [r|] eqn:E; cbn [fst snd].
  - split; [apply Hc, E|]. split; [exact Hc|]. split; [|auto].
    rewrite E. f_equal. apply Hc, E.
  - split; [reflexivity|]. split; [|split].
    + intros t' r'. destruct (decide (original_text = t')) as [->|Hne].
      * rewrite lookup_insert_eq. intros [= <-]. reflexivity.
      * rewrite lookup_insert_ne by exact Hne. apply Hc.
    + apply lookup_insert_eq.
    + intros t r Ht. rewrite lookup_insert_ne; [exact Ht | congruence].
Qed.

Lemma pattern_cache_is_transparent_witness :
  (extract_number_pattern_cached ∅ (damage_source "250")).1
  = extract_number_pattern (damage_source "250").
Proof.
  destruct (pattern_cache_is_transparent ∅ (damage_source "250")) as [H _];
    [|exact H].
  intros t r. rewrite lookup_empty. discriminate.
Defined.

(** *** A table without translations *)

Lemma dict_get_elem {V} (d : list (pystr * V)) k x :
  dict_get d k = Some x -> (k, x) ∈ d.
Proof.
  induction d as [|[k' v] d IH]; cbn [dict_get]; [discriminate|].
  destruct (bool_decide_reflect (k' = k)) as [->|].
  - intros [= ->]. left.
  - intros H. right. apply IH, H.
Qed.

Lemma entries_of_elem tm ns items k tr :
  (ns, NsDict items) ∈ tm -> (k, JStr tr) ∈ items -> truthy tr = true ->
  In (k, tr, ns) (entries_of tm).
Proof.
  intros Hns Hk Htr. unfold entries_of. apply in_flat_map.
  exists (ns, NsDict items). split; [apply list_elem_of_In, Hns|].
  unfold entries_of_namespace. cbn [fst snd]. apply in_flat_map.
  exists (k, JStr tr). split; [apply list_elem_of_In, Hk|].
  cbn [fst snd]. rewrite Htr. left. reflexivity.
Qed.

Lemma own_translation_none tm ns v :
  entries_of tm = [] -> own_translation (dict_get tm ns) v = None.
Proof.
  intros He. unfold own_translation.
  destruct (dict_get tm ns) as [[[|item items]|n]|] eqn:Hd; try reflexivity.
  destruct (dict_get (item :: items) v) as [[tr|n]|] eqn:Hv; try reflexivity.
  destruct (truthy tr) eqn:Htr; [|reflexivity].
  apply dict_get_elem in Hd, Hv.
  pose proof (entries_of_elem tm ns _ v tr Hd Hv Htr) as Hin.
  rewrite He in Hin. contradiction.
Qed.

Lemma resolve_none s2t t2s tm requested :
  entries_of tm = [] ->
  resolve s2t t2s (build_translation_index tm) requested = (None, None).
Proof.
  intros He.
  assert (Hex : forall k, exact (build_translation_index tm) !! k = None).
  { intros k. rewrite exact_lookup_first. unfold exact_candidates. rewrite He. reflexivity. }
  assert (Hpat : forall k cands, pattern (build_translation_index tm) !! k = Some cands ->
                   cands = []).
  { intros k cands Hl. pose proof (pattern_lookup_candidates tm k) as Hc.
    rewrite Hl in Hc. unfold pattern_candidates in Hc. rewrite He in Hc. exact Hc. }
  assert (Hstep : forall (key : pystr) (numbers : list pystr),
    (if truthy key && negb (bool_decide (numbers = []))
     then match pattern (build_translation_index tm) !! key with
          | Some candidates => first_adapted requested candidates
          | None => None
          end
     else None) = None).
  { intros key numbers. destruct (_ && _); [|reflexivity].
    destruct (pattern _ !! key) as [cands|] eqn:Hl; [|reflexivity].
    rewrite (Hpat _ _ Hl). reflexivity. }
  unfold resolve. rewrite Hex.
  destruct (extract_number_pattern requested) as [key numbers].
  rewrite Hstep.
  destruct (get_opencc_conversions s2t t2s requested) as [tr si].
  cbn [resolve_variants].
  repeat (destruct (negb _); [rewrite Hex, Hstep|]); reflexivity.
Qed.

(** X27: with a table that holds no non-empty string translation the
    stage changes nothing: every entry of a namespace comes out with
    the value it had, and the excerpt of the namespace holds exactly
    the values that are not skipped. *)
Theorem table_without_translations_changes_nothing
    (s2t_convert t2s_convert : pystr -> option pystr)
    (unified_data translation_map : list (pystr * jnamespace))
    (namespace : pystr) (items : list (pystr * jvalue)) :
  entries_of translation_map = [] ->
  NoDup (map fst unified_data) ->
  (namespace, NsDict items) ∈ unified_data ->
  NoDup (map fst items) ->
  let result :=
    translate_data_with_conditions s2t_convert t2s_convert unified_data
      translation_map in
  exists d,
    translated_data result !! namespace = Some (Translated d)
    /\ (forall key value, (key, value) ∈ items -> d !! key = Some value)
    /\ (forall w, w ∈ default ∅ (untranslated_excerpt result !! namespace)
          <-> (exists key, (key, JStr w) ∈ items) /\ skipped w = false).
Proof.
  intros He Hnd Hns Hkeys. unfold translate_data_with_conditions. cbv zeta.
  assert (Hnone : forall v,
            translation_of s2t_convert t2s_convert translation_map namespace v = None).
  { intros v. unfold translation_of.
    rewrite own_translation_none, resolve_none by exact He. reflexivity. }
  destruct (translate_namespaces_final s2t_convert t2s_convert translation_map
              unified_data
              {| globals := fresh; translated_data := ∅;
                 untranslated_excerpt := ∅; used_translation_map := ∅ |}
              (session_ok_fresh _ _ _) Hnd namespace items Hns Hkeys (lookup_empty _))
    as (d & Hd & Hvals & _ & Hx).
  exists d. split; [exact Hd|]. split.
  - intros key value Hin. rewrite (Hvals key value Hin). f_equal.
    unfold final_value. destruct value as [v|n]; [|reflexivity].
    destruct (skipped v); [reflexivity|]. rewrite Hnone. reflexivity.
  - intros w. rewrite Hx. split.
    + intros (Hk & Hs & _). auto.
    + intros (Hk & Hs). auto.
Qed.

Lemma table_without_translations_changes_nothing_witness :
  exists d,
    translated_data
      (translate_data_with_conditions no_conversion no_conversion sample_unified [])
      !! lit "UI" = Some (Translated d)
    /\ d !! lit "hit" = Some (JStr (damage_source "250")).
Proof.
  destruct (table_without_translations_changes_nothing no_conversion no_conversion
              sample_unified [] (lit "UI")
              [(lit "icon", JStr (lit "/Game/UI/Texture2D/" ++ [ZAO]));
               (lit "hit", JStr (damage_source "250"));
               (lit "miss", JStr [SHANG; HAI])])
    as (d & Hd & Hvals & _).
  - reflexivity.
  - apply NoDup_singleton.
  - apply list_elem_of_here.
  - apply (bool_decide_unpack _). vm_compute. exact I.
  - exists d. split; [exact Hd|].
    apply Hvals. apply list_elem_of_further, list_elem_of_here.
Defined.

End ResolverFacts.

(** ** The unified data *)

Module UnifyFacts.
Import Py PyFacts Resolver Unify.

(** *** The merge, contribution by contribution *)

Lemma unified_value_insert final ns k v ns' k' :
  unified_value (<[ns := <[k := v]> (default ∅ (final !! ns))]> final) ns' k'
  = if bool_decide ((ns, k) = (ns', k')) then Some v else unified_value final ns' k'.
Proof.
  unfold unified_value. destruct (decide (ns = ns')) as [<-|Hns].
  - rewrite lookup_insert_eq. destruct (decide (k = k')) as [<-|Hk].
    + rewrite lookup_insert_eq, bool_decide_eq_true_2 by reflexivity. reflexivity.
    + rewrite lookup_insert_ne by exact Hk.
      rewrite bool_decide_eq_false_2 by congruence.
      destruct (final !! ns); [reflexivity | apply lookup_empty].
  - rewrite lookup_insert_ne by exact Hns.
    rewrite bool_decide_eq_false_2 by congruence. reflexivity.
Qed.

Lemma for_key_app {V} ns k (a b : list (pystr * pystr * V)) :
  for_key ns k (a ++ b) = for_key ns k a ++ for_key ns k b.
Proof. apply List.filter_app. Qed.

Lemma for_key_singleton {V} ns' k' ns k (x : V) :
  for_key ns' k' [(ns, k, x)]
  = if bool_decide ((ns, k) = (ns', k')) then [(ns, k, x)] else [].
Proof. reflexivity. Qed.

Lemma last_app_Some {A} (a b : list A) :
  last (a ++ b) = match last b with Some x => Some x | None => last a end.
Proof.
  destruct b as [|y b] using rev_ind.
  - rewrite app_nil_r. reflexivity.
  - rewrite app_assoc, !last_snoc. reflexivity.
Qed.

Lemma merge_pairs_value {V} (actual : V -> jvalue) ns kvs : forall final ns' k',
  unified_value (merge_pairs actual ns final kvs) ns' k'
  = match last (for_key ns' k'
                  (map (fun item : pystr * V => (ns, item.1, actual item.2)) kvs)) with
    | Some c => Some c.2
    | None => unified_value final ns' k'
    end.
Proof.
  unfold merge_pairs. induction kvs as [|[k v] kvs IH]; intros final ns' k'; [reflexivity|].
  cbn [fold_left map fst snd]. rewrite IH, unified_value_insert.
  change ((ns, k, actual v) :: ?l) with ([(ns, k, actual v)] ++ l).
  rewrite for_key_app, last_app_Some.
  destruct (last (for_key ns' k' _)) as [c|]; [reflexivity|].
  unfold for_key. cbn [List.filter fst].
  destruct (bool_decide ((ns, k) = (ns', k'))); reflexivity.
Qed.

Lemma unified_value_new_namespace final ns ns' k' :
  unified_value (match final !! ns with
                 | None => <[ns := ∅]> final
                 | Some _ => final
                 end) ns' k'
  = unified_value final ns' k'.
Proof.
  unfold unified_value. destruct (final !! ns) as [d|] eqn:E; [reflexivity|].
  destruct (decide (ns = ns')) as [<-|Hne].
  - rewrite lookup_insert_eq, E. apply lookup_empty.
  - rewrite lookup_insert_ne by exact Hne. reflexivity.
Qed.

Lemma merge_source_value {V} (actual : V -> jvalue) data : forall final ns' k',
  unified_value (merge_source actual final data) ns' k'
  = match last (for_key ns' k' (contributions_of_source actual data)) with
    | Some c => Some c.2
    | None => unified_value final ns' k'
    end.
Proof.
  unfold merge_source, contributions_of_source.
  induction data as [|[ns kvs] data IH]; intros final ns' k'; [reflexivity|].
  cbn [fold_left flat_map fst snd]. rewrite IH, merge_pairs_value.
  rewrite for_key_app, last_app_Some, unified_value_new_namespace.
  destruct (last (for_key ns' k' (flat_map _ data))); reflexivity.
Qed.

Lemma merge_version_value v final ns' k' :
  unified_value (merge_version final v) ns' k'
  = match last (for_key ns' k' (contributions_of_version v)) with
    | Some c => Some c.2
    | None => unified_value final ns' k'
    end.
Proof.
  unfold merge_version, contributions_of_version.
  rewrite !merge_source_value, !for_key_app, !last_app_Some.
  repeat match goal with
         | |- context [last (for_key ns' k' ?l)] =>
             destruct (last (for_key ns' k' l)); try reflexivity
         end.
Qed.

Lemma merge_versions_value versions : forall final ns' k',
  unified_value (fold_left merge_version versions final) ns' k'
  = match last (for_key ns' k' (contributions versions)) with
    | Some c => Some c.2
    | None => unified_value final ns' k'
    end.
Proof.
  unfold contributions.
  induction versions as [|v versions IH]; intros final ns' k'; [reflexivity|].
  cbn [fold_left flat_map]. rewrite IH, merge_version_value, for_key_app, last_app_Some.
  destruct (last (for_key ns' k' (flat_map _ versions))); reflexivity.
Qed.

(** X28: the unified data hold, under a namespace and a key, the value
    of the last contribution to this key in the order of the merge.  So
    a later version overrides the earlier ones, key by key, and a key it
    lacks keeps its value; within a version the UI assets take
    precedence over the resource files, these over the JSON format
    strings, and these over the text format strings. *)
Theorem unified_value_is_last_contribution
    (versions : list version_data) (namespace key : pystr) :
  unified_value (final_unified_json versions) namespace key
  = option_map snd (last (for_key namespace key (contributions versions)))
  /\ (forall v,
        unified_value (final_unified_json (versions ++ [v])) namespace key
        = match last (for_key namespace key (contributions_of_version v)) with
          | Some c => Some c.2
          | None => unified_value (final_unified_json versions) namespace key
          end)
  /\ (forall v,
        last (for_key namespace key (contributions_of_version v))
        = match last (for_key namespace key
                        (contributions_of_source (fun value => value) (UI_Assets v))) with
          | Some c => Some c
          | None =>
          match last (for_key namespace key
                        (contributions_of_source (fun e => JStr (source e)) (LocRes v))) with
          | Some c => Some c
          | None =>
          match last (for_key namespace key
                        (contributions_of_source text (FormatString_Json v))) with
          | Some c => Some c
          | None =>
              last (for_key namespace key
                      (contributions_of_source JStr (FormatString_Txt v)))
          end end end).
Proof.
  split; [|split].
  - unfold final_unified_json. rewrite merge_versions_value.
    destruct (last _); [reflexivity|]. unfold unified_value. rewrite lookup_empty.
    reflexivity.
  - intros v. unfold final_unified_json. rewrite fold_left_app. cbn [fold_left].
    apply merge_version_value.
  - intros v. unfold contributions_of_version.
    rewrite !for_key_app, !last_app_Some.
    repeat match goal with
           | |- context [last (for_key namespace key ?l)] =>
               destruct (last (for_key namespace key l)); try reflexivity
           end.
Qed.

(** *** The resource table *)

Section Table.

Variable CityHash64 : bytes -> Z.
Variable zlib_crc32 : bytes -> Z.

Local Abbreviation add_ui := (add_ui CityHash64 zlib_crc32).
Local Abbreviation ui_entries := (ui_entries CityHash64 zlib_crc32).
Local Abbreviation entry_data_for_ui := (entry_data_for_ui CityHash64 zlib_crc32).

Lemma add_locres_items ns items : forall (d : gmap (pystr * pystr) locres_entry) k,
  fold_left (fun d (item : pystr * locres_entry) => <[(ns, item.1) := item.2]> d) items d !! k
  = match last (for_key k.1 k.2
                  (map (fun item : pystr * locres_entry => (ns, item.1, item.2)) items)) with
    | Some c => Some c.2
    | None => d !! k
    end.
Proof.
  induction items as [|[key e] items IH]; intros d k; [reflexivity|].
  cbn [fold_left map fst snd]. rewrite IH.
  change ((ns, key, e) :: ?l) with ([(ns, key, e)] ++ l).
  rewrite for_key_app, last_app_Some.
  destruct (last (for_key k.1 k.2 _)) as [c|]; [reflexivity|].
  unfold for_key. cbn [List.filter fst]. destruct k as [ns' key']. cbn [fst snd].
  destruct (bool_decide_reflect ((ns, key) = (ns', key'))) as [[= -> ->]|Hne].
  - rewrite lookup_insert_eq. reflexivity.
  - rewrite lookup_insert_ne by exact Hne. reflexivity.
Qed.

Lemma add_locres_value versions : forall (d : gmap (pystr * pystr) locres_entry) k,
  fold_left add_locres versions d !! k
  = match last (for_key k.1 k.2 (locres_entries versions)) with
    | Some c => Some c.2
    | None => d !! k
    end.
Proof.
  unfold locres_entries.
  induction versions as [|v versions IH]; intros d k; [reflexivity|].
  cbn [fold_left flat_map]. rewrite IH, for_key_app, last_app_Some.
  destruct (last (for_key k.1 k.2 (flat_map _ versions))) as [c|]; [reflexivity|].
  unfold add_locres. generalize (LocRes v) as data. revert d.
  intros d data. revert d.
  induction data as [|[ns items] data IHd]; intros d; [reflexivity|].
  cbn [fold_left flat_map fst snd]. rewrite IHd, add_locres_items.
  rewrite for_key_app, last_app_Some.
  destruct (last (for_key k.1 k.2 (flat_map _ data))); reflexivity.
Qed.

Lemma add_ui_items ns items : forall (d : gmap (pystr * pystr) locres_entry) k,
  fold_left
    (fun d (item : pystr * jvalue) =>
       match d !! (ns, item.1) with
       | Some _ => d
       | None =>
           match entry_data_for_ui ns item.1 item.2 with
           | Ok entry => <[(ns, item.1) := entry]> d
           | Raise _ => d
           end
       end) items d !! k
  = match d !! k with
    | Some e => Some e
    | None =>
        option_map snd
          (head (for_key k.1 k.2
                   (flat_map
                      (fun item : pystr * jvalue =>
                         match entry_data_for_ui ns item.1 item.2 with
                         | Ok entry => [(ns, item.1, entry)]
                         | Raise _ => []
                         end) items)))
    end.
Proof.
  induction items as [|[key x] items IH]; intros d k.
  - cbn. destruct (d !! k); reflexivity.
  - cbn [fold_left flat_map fst snd]. rewrite IH, for_key_app.
    destruct k as [ns' key']. cbn [fst snd].
    destruct (d !! (ns, key)) as [e0|] eqn:E0.
    + destruct (d !! (ns', key')) as [e|] eqn:E; [reflexivity|].
      assert (Hne : (ns, key) <> (ns', key')) by congruence.
      destruct (entry_data_for_ui ns key x) as [e1|]; [|reflexivity].
      rewrite for_key_singleton, bool_decide_eq_false_2 by exact Hne. reflexivity.
    + destruct (entry_data_for_ui ns key x) as [e1|]; [|reflexivity].
      rewrite for_key_singleton.
      destruct (bool_decide_reflect ((ns, key) = (ns', key'))) as [[= <- <-]|Hne].
      * rewrite lookup_insert_eq, E0. reflexivity.
      * rewrite lookup_insert_ne by exact Hne. reflexivity.
Qed.

Lemma head_app_Some {A} (a b : list A) :
  head (a ++ b) = match head a with Some x => Some x | None => head b end.
Proof. destruct a; reflexivity. Qed.

Lemma add_ui_value versions : forall (d : gmap (pystr * pystr) locres_entry) k,
  fold_left add_ui versions d !! k
  = match d !! k with
    | Some e => Some e
    | None => option_map snd (head (for_key k.1 k.2 (ui_entries versions)))
    end.
Proof.
  unfold Unify.ui_entries.
  induction versions as [|v versions IH]; intros d k.
  - cbn. destruct (d !! k); reflexivity.
  - cbn [fold_left flat_map]. rewrite IH, for_key_app, head_app_Some.
    unfold Unify.add_ui. generalize (UI_Assets v) as data. intros data. revert d.
    induction data as [|[ns items] data IHd]; intros d.
    + cbn. destruct (d !! k); reflexivity.
    + cbn [fold_left flat_map fst snd]. rewrite for_key_app, head_app_Some.
      rewrite IHd, add_ui_items.
      destruct (d !! k) as [e|]; [reflexivity|].
      destruct (head (for_key k.1 k.2 (flat_map _ items))) as [c|]; reflexivity.
Qed.

End Table.


(** In the sample the later UI asset gives the unified value of the
    key, the resource file its entry of the table; the new key gets its
    hashes from the two functions. *)
Example sample_unified_and_table :
  unified_value (final_unified_json sample_versions) (lit "UI") (lit "ok")
  = Some (JStr [CHENG])
  /\ unified_locres_for_csv Hashes.sample_hash64 Hashes.crc32 sample_versions
       !! (lit "UI", lit "ok")
     = Some {| source := [ZAO]; ns_hash := 7; key_hash := 11; source_str_hash := 21 |}
  /\ option_map source
       (unified_locres_for_csv Hashes.sample_hash64 Hashes.crc32 sample_versions
          !! (lit "UI", lit "new"))
     = Some [DIAN].
Proof. vm_compute. repeat split. Qed.

End UnifyFacts.

